(** * EchoCast: job runner, status stream, structured-text extraction and
      script budget

    A shallow embedding of the Python sources
      - [server.py]                 (job map, log channels, SSE status stream),
      - [echocast/orchestrator.py]  ([_extract_queries], [run]),
      - [echocast/scriptwriter.py]  ([_extract_json], [write_script]),
    together with the two library facilities the extraction code is built on
    ([json.loads] and the two [re.search] patterns).

    Python [str] values are sequences of Unicode code points; they are
    modelled as [list N].  Python lists are Rocq lists, the two process-wide
    dictionaries of [server.py] are [gmap]s keyed by job identifier. *)

From Stdlib Require Import Ascii String NArith ZArith Lia DecimalString.
From stdpp Require Import gmap strings list fin_maps.

Set Default Proof Using "Type".
Set Warnings "-register-all,-abstract-large-number".

(* ===================================================================== *)
(** ** Python strings *)
(* ===================================================================== *)

Module Py.

(** A [str] is a list of code points. *)
Abbreviation str := (list N).

Fixpoint bytes_of (s : string) : list N :=
  match s with
  | EmptyString => []
  | String a s' => N_of_ascii a :: bytes_of s'
  end.

(** Source literals are written as UTF-8 text and decoded to code points. *)
Fixpoint utf8_decode (bs : list N) : str :=
  match bs with
  | [] => []
  | b0 :: r0 =>
      if (b0 <? 128)%N then b0 :: utf8_decode r0
      else match r0 with
      | [] => []
      | b1 :: r1 =>
        if (b0 <? 224)%N then ((b0 - 192) * 64 + (b1 - 128))%N :: utf8_decode r1
        else match r1 with
        | [] => []
        | b2 :: r2 =>
          if (b0 <? 240)%N
          then ((b0 - 224) * 4096 + (b1 - 128) * 64 + (b2 - 128))%N
                 :: utf8_decode r2
          else match r2 with
          | [] => []
          | b3 :: r3 =>
              ((b0 - 240) * 262144 + (b1 - 128) * 4096
               + (b2 - 128) * 64 + (b3 - 128))%N :: utf8_decode r3
          end
        end
      end
  end.

Definition u (s : string) : str := utf8_decode (bytes_of s).

Definition ch (a : ascii) : N := N_of_ascii a.
Arguments ch _ : simpl never.

(** [str.isspace] on one code point; the same set is what [\s] matches in a
    [str] pattern of the [re] module. *)
Definition is_space (c : N) : bool :=
  ((9 <=? c) && (c <=? 13) || (28 <=? c) && (c <=? 32)
   || (c =? 133) || (c =? 160) || (c =? 5760)
   || (8192 <=? c) && (c <=? 8202)
   || (c =? 8232) || (c =? 8233) || (c =? 8239) || (c =? 8287)
   || (c =? 12288))%N.

Fixpoint lstrip (s : str) : str :=
  match s with
  | c :: s' => if is_space c then lstrip s' else s
  | [] => []
  end.

Definition rstrip (s : str) : str := reverse (lstrip (reverse s)).

(** [text.strip()] *)
Definition strip (s : str) : str := rstrip (lstrip s).

(** [str(n)] for a non-negative [int]. *)
Definition str_of_nat (n : nat) : str :=
  bytes_of (NilEmpty.string_of_uint (Nat.to_uint n)).

(** The digit grouping of the format specifier [{n:,}]: a comma before every
    group of three digits counted from the right. *)
Fixpoint group3 (rev_digits : str) : str :=
  match rev_digits with
  | a :: b :: c :: ((_ :: _) as rest) => a :: b :: c :: ch "," :: group3 rest
  | _ => rev_digits
  end.

Definition str_of_nat_comma (n : nat) : str :=
  reverse (group3 (reverse (str_of_nat n))).

(** [c * n] for a one-character string [c]. *)
Definition times (c : str) (n : nat) : str := concat (replicate n c).

End Py.
Import Py.

(* ===================================================================== *)
(** ** [json.loads] *)
(* ===================================================================== *)

Module Json.

(** The values [json.loads] produces.  A JSON object becomes a [dict], kept
    here as an association list in insertion order with distinct keys; a
    number with a fraction or an exponent becomes a [float], kept as its
    lexeme. *)
Inductive json : Type :=
| JNull
| JBool (b : bool)
| JInt (z : Z)
| JFloat (lexeme : str)
| JStr (s : str)
| JArr (items : list json)
| JObj (members : list (str * json)).

Fixpoint dict_get {V} (k : str) (d : list (str * V)) : option V :=
  match d with
  | [] => None
  | (k', v) :: d' => if decide (k = k') then Some v else dict_get k d'
  end.

(** [d[k] = v]: an existing key keeps its position. *)
Fixpoint dict_set {V} (k : str) (v : V) (d : list (str * V)) : list (str * V) :=
  match d with
  | [] => [(k, v)]
  | (k', v') :: d' =>
      if decide (k = k') then (k, v) :: d' else (k', v') :: dict_set k v d'
  end.

Definition is_json_ws (c : N) : bool :=
  ((c =? 32) || (c =? 9) || (c =? 10) || (c =? 13))%N.

Fixpoint skip_ws (s : str) : str :=
  match s with
  | c :: s' => if is_json_ws c then skip_ws s' else s
  | [] => []
  end.

Definition is_digit (c : N) : bool := ((48 <=? c) && (c <=? 57))%N.

Fixpoint span (p : N → bool) (s : str) : str * str :=
  match s with
  | c :: s' => if p c then let '(a, b) := span p s' in (c :: a, b) else ([], s)
  | [] => ([], [])
  end.

Definition digits_value (ds : str) : Z :=
  fold_left (λ acc d, acc * 10 + (Z.of_N d - 48))%Z ds 0%Z.

(** A number: an optional minus sign, then either a single 0 or a non-zero
    digit followed by digits, then an optional fraction (a dot and at least
    one digit), then an optional exponent (e or E, an optional sign, at least
    one digit).  Longest match; a fraction or exponent with no digit is not
    consumed.  Each part returns what it consumed and the rest. *)
Definition lex_sign (s : str) : bool * str :=
  match s with
  | c :: s' => if (c =? ch "-")%N then (true, s') else (false, s)
  | [] => (false, [])
  end.

Definition lex_int (s : str) : option (str * str) :=
  match s with
  | c :: s' =>
      if ((49 <=? c) && (c <=? 57))%N
      then let '(ds, r) := span is_digit s' in Some (c :: ds, r)
      else if (c =? 48)%N then Some ([c], s')
      else None
  | [] => None
  end.

Definition lex_frac (s : str) : str * str :=
  match s with
  | d :: c :: s' =>
      if ((d =? ch ".")%N && is_digit c)
      then let '(ds, r) := span is_digit s' in (d :: c :: ds, r)
      else ([], s)
  | _ => ([], s)
  end.

Definition lex_exp (s : str) : str * str :=
  match s with
  | e :: s' =>
      if ((e =? ch "e") || (e =? ch "E"))%N then
        let '(sg, s'') :=
          match s' with
          | c :: t => if ((c =? ch "-") || (c =? ch "+"))%N
                      then ([c], t) else ([], s')
          | [] => ([], [])
          end in
        let '(ds, r) := span is_digit s'' in
        match ds with
        | [] => ([], s)
        | _ :: _ => (e :: sg ++ ds, r)
        end
      else ([], s)
  | [] => ([], s)
  end.

Definition match_number (s : str) : option (json * str) :=
  let '(neg, s1) := lex_sign s in
  '(int_part, s2) ← lex_int s1;
  let '(frac, s3) := lex_frac s2 in
  let '(exp, s4) := lex_exp s3 in
  match frac, exp with
  | [], [] =>
      Some (JInt (if neg then - digits_value int_part
                  else digits_value int_part)%Z, s4)
  | _, _ =>
      Some (JFloat ((if neg then [ch "-"] else []) ++ int_part ++ frac ++ exp),
            s4)
  end.

Definition hex_val (c : N) : option N :=
  if ((48 <=? c) && (c <=? 57))%N then Some (c - 48)%N
  else if ((97 <=? c) && (c <=? 102))%N then Some (c - 87)%N
  else if ((65 <=? c) && (c <=? 70))%N then Some (c - 55)%N
  else None.

Definition hex4 (a b c d : N) : option N :=
  x1 ← hex_val a; x2 ← hex_val b; x3 ← hex_val c; x4 ← hex_val d;
  Some (((x1 * 16 + x2) * 16 + x3) * 16 + x4)%N.

Definition is_high_surrogate (c : N) : bool := ((55296 <=? c) && (c <=? 56319))%N.
Definition is_low_surrogate (c : N) : bool := ((56320 <=? c) && (c <=? 57343))%N.
Definition join_surrogates (hi lo : N) : N :=
  (65536 + (hi - 55296) * 1024 + (lo - 56320))%N.

Definition unescape (e : N) : option N :=
  if (e =? 34)%N then Some 34%N
  else if (e =? 92)%N then Some 92%N
  else if (e =? ch "/")%N then Some (ch "/")
  else if (e =? ch "b")%N then Some 8%N
  else if (e =? ch "f")%N then Some 12%N
  else if (e =? ch "n")%N then Some 10%N
  else if (e =? ch "r")%N then Some 13%N
  else if (e =? ch "t")%N then Some 9%N
  else None.

(** The body of a string literal after its opening quote, up to and
    including the closing quote (strict mode: control characters are
    rejected): the characters it denotes, each marked [true] when it was
    written as a [\uXXXX] escape. *)
Fixpoint scan_units (s : str) : option (list (N * bool) * str) :=
  match s with
  | [] => None
  | c :: s1 =>
    if (c =? 34)%N then Some ([], s1)
    else if (c =? 92)%N then
      match s1 with
      | [] => None
      | e :: s2 =>
        if (e =? ch "u")%N then
          match s2 with
          | h1 :: h2 :: h3 :: h4 :: s3 =>
              c1 ← hex4 h1 h2 h3 h4;
              '(v, r) ← scan_units s3;
              Some ((c1, true) :: v, r)
          | _ => None
          end
        else
          x ← unescape e; '(v, r) ← scan_units s2; Some ((x, false) :: v, r)
      end
    else if (c <=? 31)%N then None
    else '(v, r) ← scan_units s1; Some ((c, false) :: v, r)
  end.

(** An escaped high surrogate immediately followed by an escaped low
    surrogate is one code point; any other surrogate stays as it is. *)
Fixpoint join_pairs (us : list (N * bool)) : str :=
  match us with
  | [] => []
  | (c, esc) :: tl =>
      match esc, tl with
      | true, (lo, true) :: rest =>
          if is_high_surrogate c && is_low_surrogate lo
          then join_surrogates c lo :: join_pairs rest
          else c :: join_pairs tl
      | _, _ => c :: join_pairs tl
      end
  end.

Definition scanstring (s : str) : option (str * str) :=
  '(us, r) ← scan_units s; Some (join_pairs us, r).

Fixpoint strip_prefix (l s : str) : option str :=
  match l, s with
  | [], _ => Some s
  | a :: l', b :: s' => if (a =? b)%N then strip_prefix l' s' else None
  | _ :: _, [] => None
  end.

(** The named constants the scanner accepts. *)
Definition constants : list (str * json) :=
  [ (u "null", JNull); (u "true", JBool true); (u "false", JBool false);
    (u "NaN", JFloat (u "NaN")); (u "Infinity", JFloat (u "Infinity"));
    (u "-Infinity", JFloat (u "-Infinity")) ].

Fixpoint match_constant (cs : list (str * json)) (s : str)
  : option (json * str) :=
  match cs with
  | [] => None
  | (name, v) :: cs' =>
      match strip_prefix name s with
      | Some r => Some (v, r)
      | None => match_constant cs' s
      end
  end.

(** [scan_once]: one JSON value at the head of [s], and the rest of the
    text.  [parse_items] and [parse_members] are the loops of the array and
    object decoders; the fuel bounds the number of nested calls. *)
Fixpoint scan_once (fuel : nat) (s : str) : option (json * str) :=
  match fuel with
  | O => None
  | S fuel =>
    match s with
    | [] => None
    | c :: s' =>
      if (c =? 34)%N then '(v, r) ← scanstring s'; Some (JStr v, r)
      else if (c =? ch "{")%N then
        match skip_ws s' with
        | c1 :: r1 =>
            if (c1 =? ch "}")%N then Some (JObj [], r1)
            else parse_members fuel (c1 :: r1) []
        | [] => None
        end
      else if (c =? ch "[")%N then
        match skip_ws s' with
        | c1 :: r1 =>
            if (c1 =? ch "]")%N then Some (JArr [], r1)
            else parse_items fuel (c1 :: r1) []
        | [] => None
        end
      else
        match match_constant constants s with
        | Some r => Some r
        | None => match_number s
        end
    end
  end
with parse_items (fuel : nat) (s : str) (acc : list json)
  : option (json * str) :=
  match fuel with
  | O => None
  | S fuel =>
    '(v, r) ← scan_once fuel s;
    match skip_ws r with
    | c :: r' =>
        if (c =? ch "]")%N then Some (JArr (acc ++ [v]), r')
        else if (c =? ch ",")%N then parse_items fuel (skip_ws r') (acc ++ [v])
        else None
    | [] => None
    end
  end
with parse_members (fuel : nat) (s : str) (acc : list (str * json))
  : option (json * str) :=
  match fuel with
  | O => None
  | S fuel =>
    match s with
    | q :: s1 =>
      if (q =? 34)%N then
        '(k, r1) ← scanstring s1;
        match skip_ws r1 with
        | colon :: r2 =>
          if (colon =? ch ":")%N then
            '(v, r3) ← scan_once fuel (skip_ws r2);
            match skip_ws r3 with
            | c :: r4 =>
                if (c =? ch "}")%N then Some (JObj (dict_set k v acc), r4)
                else if (c =? ch ",")%N
                then parse_members fuel (skip_ws r4) (dict_set k v acc)
                else None
            | [] => None
            end
          else None
        | [] => None
        end
      else None
    | [] => None
    end
  end.

(** [s.startswith('\ufeff')] *)
Definition starts_with_bom (s : str) : bool :=
  match s with
  | c :: _ => (c =? 65279)%N
  | [] => false
  end.

(** [json.loads(s)] for a [str], by the grammar; [None] stands for
    [JSONDecodeError]: a byte order mark, no value, or something other than
    white space after the value.  The other exceptions of [json.loads], on
    texts beyond the limits of the interpreter, are left to [Extract.loads]
    below. *)
Definition json_loads (s : str) : option json :=
  if starts_with_bom s then None
  else
    '(v, r) ← scan_once (2 * length s + 2) (skip_ws s);
    match skip_ws r with
    | [] => Some v
    | _ :: _ => None
    end.

End Json.
Import Json.

(* ===================================================================== *)
(** ** The two [re.search] patterns *)
(* ===================================================================== *)

Module Re.

(** A backtracking matcher for the fragment of [re] the sources use:
    single characters and character classes, an optional literal, greedy
    and lazy repetition of a class, and one capturing group.  Alternatives
    are tried in the order the [re] module tries them, and [search] returns
    the first match at the leftmost position that has one. *)

Inductive cls : Type :=
| Any                 (* [.] under [re.DOTALL] *)
| Space               (* [\s] *)
| Chr (c : N).        (* a literal character *)

Definition in_cls (k : cls) (x : N) : bool :=
  match k with
  | Any => true
  | Space => is_space x
  | Chr c => (x =? c)%N
  end.

Inductive atom : Type :=
| One (k : cls)       (* one character of the class *)
| OptLit (l : str)    (* [(?:l)?] *)
| StarG (k : cls)     (* [k*]  *)
| StarL (k : cls)     (* [k*?] *)
| Open                (* [(] of group 1 *)
| Close.              (* [)] of group 1 *)

(** A match: the text matched ([group(0)]) and the text of group 1. *)
Record match_obj : Type := Match { group0 : str; group1 : str }.

Definition push (g : bool) (x : N) (r : match_obj) : match_obj :=
  Match (x :: group0 r) (if g then x :: group1 r else group1 r).

Definition push_all (g : bool) (l : str) (r : match_obj) : match_obj :=
  foldr (push g) r l.

(** [m p g s]: match the pattern [p] at the head of [s]; [g] tells whether
    group 1 is open. *)
Fixpoint m (p : list atom) (g : bool) (s : str) {struct p} : option match_obj :=
  match p with
  | [] => Some (Match [] [])
  | One k :: p' =>
      match s with
      | x :: s' => if in_cls k x then push g x <$> m p' g s' else None
      | [] => None
      end
  | OptLit l :: p' =>
      match strip_prefix l s with
      | Some s' =>
          match m p' g s' with
          | Some r => Some (push_all g l r)
          | None => m p' g s
          end
      | None => m p' g s
      end
  | StarG k :: p' =>
      (fix star (s : str) : option match_obj :=
         match s with
         | x :: s' =>
             if in_cls k x then
               match star s' with
               | Some r => Some (push g x r)
               | None => m p' g s
               end
             else m p' g s
         | [] => m p' g []
         end) s
  | StarL k :: p' =>
      (fix star (s : str) : option match_obj :=
         match m p' g s with
         | Some r => Some r
         | None =>
             match s with
             | x :: s' => if in_cls k x then push g x <$> star s' else None
             | [] => None
             end
         end) s
  | Open :: p' => m p' true s
  | Close :: p' => m p' false s
  end.

(** [re.search]: the first position, from the left, where the pattern
    matches. *)
Fixpoint search (p : list atom) (s : str) : option match_obj :=
  match m p false s with
  | Some r => Some r
  | None =>
      match s with
      | [] => None
      | _ :: s' => search p s'
      end
  end.

Definition lit (l : str) : list atom := map (λ c, One (Chr c)) l.

(** The pattern of the fenced-block strategy: three backticks, an optional
    [json] tag, white space, group 1 = an opening bracket, as few characters
    as possible and a closing bracket, white space, three backticks. *)
Definition fence_re : list atom :=
  lit (u "```") ++ [OptLit (u "json"); StarG Space;
                    Open; One (Chr (ch "[")); StarL Any; One (Chr (ch "]")); Close;
                    StarG Space] ++ lit (u "```").

(** The pattern of the last strategy: an opening bracket, as many characters
    as possible, a closing bracket. *)
Definition bracket_re : list atom :=
  [One (Chr (ch "[")); StarG Any; One (Chr (ch "]"))].

End Re.
Import Re.

(* ===================================================================== *)
(** ** Exceptions and printed output *)
(* ===================================================================== *)

Module Eff.

(** An exception: the name of its class and [str(e)]. *)
Record exn : Type := Exn { exn_type : str; exn_msg : str }.

(** [isinstance(e, Exception)], what an [except Exception] clause tests: of
    the classes of the interpreter, [BaseException] itself, [SystemExit],
    [KeyboardInterrupt], [GeneratorExit], [BaseExceptionGroup] and
    [CancelledError] are not subclasses of [Exception]. *)
Definition is_exception (e : exn) : bool :=
  negb (bool_decide
          (exn_type e ∈ [u "BaseException"; u "SystemExit";
                         u "KeyboardInterrupt"; u "GeneratorExit";
                         u "BaseExceptionGroup"; u "CancelledError"])).

Definition ValueError (msg : str) : exn := Exn (u "ValueError") msg.
Definition RuntimeError (msg : str) : exn := Exn (u "RuntimeError") msg.
Definition TypeError (msg : str) : exn := Exn (u "TypeError") msg.
Definition AttributeError (msg : str) : exn := Exn (u "AttributeError") msg.
(** [str(KeyError(k))] is the [repr] of the key; only used with plain ASCII
    keys. *)
Definition KeyError (key : str) : exn :=
  Exn (u "KeyError") (u "'" ++ key ++ u "'").

(** The five stages of the pipeline. *)
Inductive stage : Type :=
| QueryGeneration | Research | Summarization | Scriptwriting | Production.

(** What a computation does that the outside can see: a
    [sys.stdout.write(text)], or the call of a stage's entry point. *)
Inductive event : Type :=
| Write (text : str)
| Call (st : stage).

(** A computation: the events it performs, in order, and how it ends. *)
Definition M (A : Type) : Type := list event * (exn + A).

Definition ret {A} (x : A) : M A := ([], inr x).
Definition raise {A} (e : exn) : M A := ([], inl e).
Definition bind {A B} (c : M A) (k : A → M B) : M B :=
  match c with
  | (es, inl e) => (es, inl e)
  | (es, inr x) => let '(es', r) := k x in (es ++ es', r)
  end.

#[global] Instance M_ret : MRet M := @ret.
#[global] Instance M_bind : MBind M := λ A B k c, bind c k.

Definition write (text : str) : M () := ([Write text], inr ()).

(** [print(text)] writes the text and then the line end. *)
Definition print (text : str) : M () := write text;; write [10%N].

(** A call that may fail without printing: [raise] the error or go on. *)
Definition lift {A} (r : exn + A) : M A := ([], r).

Definition events {A} (c : M A) : list event := c.1.
Definition outcome {A} (c : M A) : exn + A := c.2.

Definition calls (es : list event) : list stage :=
  omap (λ e, match e with Call st => Some st | Write _ => None end) es.

Definition writes (es : list event) : list str :=
  omap (λ e, match e with Write t => Some t | Call _ => None end) es.

End Eff.
Import Eff.

(* ===================================================================== *)
(** ** Structured-text extraction *)
(* ===================================================================== *)

Module Extract.

(** How a call of [json.loads] ends. *)
Inductive loaded : Type :=
| Value (v : json)     (* it returns *)
| DecodeError          (* it raises [json.JSONDecodeError] *)
| Raised (e : exn).    (* it raises something else *)

Section Limits.

(** [json.loads] does not only fail on texts that are not JSON: it raises
    [RecursionError] when arrays and objects are nested deeper than the
    stack of the interpreter has room for at the call, and [ValueError]
    when an integer literal has more digits than the interpreter converts
    (4300 unless it is configured otherwise).  Where these limits lie
    depends on the interpreter and on the call, not on the sources; [limits]
    gives, for a text, the exception other than [JSONDecodeError] that
    [json.loads] raises on it, if it raises one.  On every other text
    [json.loads] decodes by the grammar, which is [json_loads]. *)
Variable limits : str → option exn.

Definition loads (s : str) : loaded :=
  match limits s with
  | Some e => Raised e
  | None =>
      match json_loads s with
      | Some v => Value v
      | None => DecodeError
      end
  end.

(** [_extract_json] of [scriptwriter.py].  Each [try] block is one
    strategy: it returns, or it raises what [json.loads] raised and
    [except json.JSONDecodeError] does not catch, or ([None]) it is passed
    over and the next one runs. *)
Definition direct (raw : str) : option (exn + list json) :=
  match loads raw with
  | Value (JArr data) => Some (inr data)
  | Value _ | DecodeError => None
  | Raised e => Some (inl e)
  end.

Definition fenced (raw : str) : option (exn + json) :=
  match search fence_re raw with
  | Some fence_match =>
      match loads (group1 fence_match) with
      | Value data => Some (inr data)
      | DecodeError => None
      | Raised e => Some (inl e)
      end
  | None => None
  end.

Definition bracketed (raw : str) : option (exn + json) :=
  match search bracket_re raw with
  | Some bracket_match =>
      match loads (group0 bracket_match) with
      | Value data => Some (inr data)
      | DecodeError => None
      | Raised e => Some (inl e)
      end
  | None => None
  end.

Definition _extract_json (raw : str) : exn + json :=
  match direct raw with
  | Some (inr data) => inr (JArr data)
  | Some (inl e) => inl e
  | None =>
    match fenced raw with
    | Some r => r
    | None =>
      match bracketed raw with
      | Some r => r
      | None =>
          inl (ValueError
                 (u "Could not extract valid JSON dialogue from LLM response."))
      end
    end
  end.

(** [str(q)] for a value produced by [json.loads]. *)
Variable py_str : json → str.

(** [_extract_queries] of [orchestrator.py]: the same three strategies; the
    direct parse converts every element with [str]. *)
Definition _extract_queries (raw : str) : exn + json :=
  match direct raw with
  | Some (inr data) => inr (JArr ((λ q, JStr (py_str q)) <$> data))
  | Some (inl e) => inl e
  | None =>
    match fenced raw with
    | Some r => r
    | None =>
      match bracketed raw with
      | Some r => r
      | None =>
          inl (ValueError
                 (u "Could not extract search queries from LLM response."))
      end
    end
  end.

End Limits.

End Extract.
Import Extract.

(* ===================================================================== *)
(** ** [echocast/config.py] *)
(* ===================================================================== *)

Module Config.

Definition MAX_SCRIPT_CHARS : nat := 8000.
Definition MAX_CHARS_PER_LINE : nat := 2400.

End Config.

(* ===================================================================== *)
(** ** [echocast/scriptwriter.py]: the dialogue budget *)
(* ===================================================================== *)

Module Scriptwriter.

(** The operations of the interpreter that the validation applies to the
    values [json.loads] returned. *)

Definition type_name (v : json) : str :=
  match v with
  | JNull => u "NoneType"
  | JBool _ => u "bool"
  | JInt _ => u "int"
  | JFloat _ => u "float"
  | JStr _ => u "str"
  | JArr _ => u "list"
  | JObj _ => u "dict"
  end.

(** [line.get(key, default)] *)
Definition get (line : json) (key : str) (default : json) : exn + json :=
  match line with
  | JObj d => inr (from_option id default (dict_get key d))
  | _ => inl (AttributeError
                (u "'" ++ type_name line ++ u "' object has no attribute 'get'"))
  end.

(** [line[key]] *)
Definition getitem (line : json) (key : str) : exn + json :=
  match line with
  | JObj d =>
      match dict_get key d with
      | Some v => inr v
      | None => inl (KeyError key)
      end
  | JStr _ => inl (TypeError (u "string indices must be integers, not 'str'"))
  | JArr _ =>
      inl (TypeError (u "list indices must be integers or slices, not str"))
  | _ => inl (TypeError (u "'" ++ type_name line
                           ++ u "' object is not subscriptable"))
  end.

(** [line[key] = v] *)
Definition setitem (line : json) (key : str) (v : json) : exn + json :=
  match line with
  | JObj d => inr (JObj (dict_set key v d))
  | JArr _ =>
      inl (TypeError (u "list indices must be integers or slices, not str"))
  | _ => inl (TypeError (u "'" ++ type_name line
                           ++ u "' object does not support item assignment"))
  end.

(** [len(v)] *)
Definition len (v : json) : exn + nat :=
  match v with
  | JStr s => inr (length s)
  | JArr l => inr (length l)
  | JObj d => inr (length d)
  | _ => inl (TypeError (u "object of type '" ++ type_name v
                           ++ u "' has no len()"))
  end.

(** [v[:n]] *)
Definition slice_to (n : nat) (v : json) : exn + json :=
  match v with
  | JStr s => inr (JStr (take n s))
  | JArr l => inr (JArr (take n l))
  | JObj _ => inl (TypeError (u "unhashable type: 'slice'"))
  | _ => inl (TypeError (u "'" ++ type_name v
                           ++ u "' object is not subscriptable"))
  end.

(** The elements a [for] loop over [v] visits. *)
Definition iter (v : json) : exn + list json :=
  match v with
  | JArr l => inr l
  | JStr s => inr ((λ c, JStr [c]) <$> s)
  | JObj d => inr ((λ kv, JStr kv.1) <$> d)
  | _ => inl (TypeError (u "'" ++ type_name v ++ u "' object is not iterable"))
  end.

Section Budget.

(** [str(v)], as an f-string renders a value. *)
Variable py_str : json → str.

(** The two ceilings; [write_script] uses the constants of [config.py]. *)
Variables MAX_SCRIPT_CHARS MAX_CHARS_PER_LINE : nat.

(** The first loop of the validation: every line longer than
    [MAX_CHARS_PER_LINE] is cut, and [total_chars] counts the lengths after
    the cut. *)
Fixpoint truncate_lines (i : nat) (dialogue : list json) (total_chars : nat)
  : M (list json * nat) :=
  match dialogue with
  | [] => mret ([], total_chars)
  | line :: rest =>
      speaker ← lift (get line (u "speaker") (JStr (u "Unknown")));
      text ← lift (get line (u "text") (JStr []));
      line_len ← lift (len text);
      let total_chars := total_chars + line_len in
      if MAX_CHARS_PER_LINE <? line_len then
        print (u "  ⚠️  Line " ++ str_of_nat i ++ u " (" ++ py_str speaker
               ++ u ") is " ++ str_of_nat line_len ++ u " chars — "
               ++ u "truncating to " ++ str_of_nat MAX_CHARS_PER_LINE);;
        cut ← lift (slice_to MAX_CHARS_PER_LINE text);
        line ← lift (setitem line (u "text") cut);
        let total_chars := total_chars - line_len + MAX_CHARS_PER_LINE in
        '(rest, total_chars) ← truncate_lines (S i) rest total_chars;
        mret (line :: rest, total_chars)
      else
        '(rest, total_chars) ← truncate_lines (S i) rest total_chars;
        mret (line :: rest, total_chars)
  end.

(** The second loop: lines are kept, in order, while the running total
    stays within [MAX_SCRIPT_CHARS]; the first line that does not fit ends the
    loop. *)
Fixpoint trim (dialogue trimmed : list json) (running : nat)
  : M (list json * nat) :=
  match dialogue with
  | [] => mret (trimmed, running)
  | line :: rest =>
      text ← lift (getitem line (u "text"));
      line_len ← lift (len text);
      if MAX_SCRIPT_CHARS <? running + line_len then mret (trimmed, running)
      else trim rest (trimmed ++ [line]) (running + line_len)
  end.

(** The validation block of [write_script]. *)
Definition validate (dialogue : list json) : M (list json) :=
  '(dialogue, total_chars) ← truncate_lines 0 dialogue 0;
  print (u "  📊  Script: " ++ str_of_nat (length dialogue) ++ u " lines, "
         ++ str_of_nat_comma total_chars ++ u " total characters");;
  if MAX_SCRIPT_CHARS <? total_chars then
    print (u "  ⚠️  Script exceeds budget ("
           ++ str_of_nat_comma MAX_SCRIPT_CHARS ++ u " chars). Trimming …");;
    '(trimmed, running) ← trim dialogue [] 0;
    print (u "  ✂️  Trimmed to " ++ str_of_nat (length trimmed) ++ u " lines, "
           ++ str_of_nat_comma running ++ u " characters");;
    mret trimmed
  else mret dialogue.

(** The limits of [json.loads] (see [Extract.loads]), the model behind
    [call_pro], and the system prompt it is given. *)
Variable limits : str → option exn.
Variable call_pro : str → str → list str * (exn + str).
Variable _SYSTEM_PROMPT : str.

Definition write_script (topic report : str) : M json :=
  print ([10%N] ++ u "🎙️  SCRIPT WRITER AGENT — Generating podcast dialogue …");;
  let user_prompt :=
    u "Topic: " ++ topic ++ [10%N; 10%N]
    ++ u "Research Report:" ++ [10%N] ++ report ++ [10%N; 10%N]
    ++ u "Now write the podcast script as a JSON array." in
  raw_response ← (let '(out, r) := call_pro _SYSTEM_PROMPT user_prompt in
                  (Write <$> out, r) : M str);
  dialogue ← lift (_extract_json limits raw_response);
  lines ← lift (iter dialogue);
  dialogue ← validate lines;
  print (u "🎙️  SCRIPT WRITER AGENT — Complete." ++ [10%N]);;
  mret (JArr dialogue).

End Budget.

End Scriptwriter.

(* ===================================================================== *)
(** ** [echocast/orchestrator.py]: the pipeline *)
(* ===================================================================== *)

Module Orchestrator.

(** A [pathlib.Path] as far as the callers look at it: [str(p)] and
    [p.name]. *)
Record path : Type := Path { path_str : str; name : str }.

Section Pipeline.

Import Scriptwriter.

Variable py_str : json → str.

(** The limits of [json.loads] (see [Extract.loads]). *)
Variable limits : str → option exn.

(** The stages are outside this development: each is a function from its
    arguments to what it prints and how it ends.  [research_record] is the
    type of the dictionaries the research stage returns. *)
Variable research_record : Type.
Variable call_flash : str → str → list str * (exn + str).
Variable research : json → list str * (exn + list research_record).
Variable summarise : str → list research_record → list str * (exn + str).
Variable write_script : str → str → list str * (exn + json).
Variable produce : json → list str * (exn + path).
Variable _QUERY_SYSTEM_PROMPT : str.

(** Entering a stage: the call is recorded, then the stage prints and
    returns or raises. *)
Definition invoke {A} (st : stage) (r : list str * (exn + A)) : M A :=
  (Call st :: (Write <$> r.1), r.2).

(** [for i, q in enumerate(queries, i): print(f"    {i}. {q}")] *)
Fixpoint print_queries (i : nat) (queries : list json) : M () :=
  match queries with
  | [] => mret ()
  | q :: rest =>
      print (u "    " ++ str_of_nat i ++ u ". " ++ py_str q);;
      print_queries (S i) rest
  end.

Definition run (topic : str) : M path :=
  print (times (u "=") 60);;
  print (u "  🎙️  EchoCast 2 — Generating podcast");;
  print (u "  📌  Topic: " ++ topic);;
  print (times (u "=") 60);;
  (* Stage 1: generate search queries *)
  print ([10%N] ++ u "🧠  ORCHESTRATOR — Generating research queries …");;
  raw_queries ← invoke QueryGeneration
    (call_flash _QUERY_SYSTEM_PROMPT
       (u "Generate search queries for the following podcast topic:"
        ++ [10%N; 10%N] ++ topic));
  queries ← lift (_extract_queries limits py_str raw_queries);
  n ← lift (len queries);
  print (u "  ✅  Generated " ++ str_of_nat n ++ u " queries:");;
  qs ← lift (iter queries);
  print_queries 1 qs;;
  (* Stage 2: deep research *)
  research_data ← invoke Research (research queries);
  match research_data with
  | [] =>
      print (u "  ⚠️  No research data collected. Aborting.");;
      raise (RuntimeError (u "Research stage returned no data."))
  | _ :: _ =>
      (* Stage 3: summarise *)
      report ← invoke Summarization (summarise topic research_data);
      (* Stage 4: write script *)
      dialogue ← invoke Scriptwriting (write_script topic report);
      (* Stage 5: produce audio *)
      output_path ← invoke Production (produce dialogue);
      print (times (u "=") 60);;
      print (u "  🎉  PODCAST READY: " ++ path_str output_path);;
      print (times (u "=") 60);;
      mret output_path
  end.

End Pipeline.

End Orchestrator.

(* ===================================================================== *)
(** ** [server.py]: jobs, log channels and the status stream *)
(* ===================================================================== *)

Module Server.

Import Orchestrator.

(** The process is a transition system.  A step is a request handled by
    [generate] or by [status_stream], one statement of a thread [_run] (a
    call of [_TeeWriter.write] by the pipeline counts as one statement), or
    one resumption of a generator [event_stream]; the steps of different
    threads interleave freely. *)

(** The sentinel of the [finally] block. *)
Definition DONE : str := u "__DONE__".

(** [queue.Queue(maxsize=500)] *)
Definition maxsize : nat := 500.

(** One value of [_JOBS]: the dictionary with the keys [status], [result]
    and [error]; [None] is Python's [None]. *)
Record job : Type := Job {
  status : str;
  result : option str;
  error : option str }.

Definition running : str := u "running".
Definition done : str := u "done".
Definition failed : str := u "error".

(** The payload of one [data: ...] frame of the stream. *)
Inductive sse : Type :=
| Keepalive
| Log (message : str)
| Complete (st : str) (res err : option str).

(** Where a thread of [_run] stands. *)
Inductive runner : Type :=
| Running (pending : list str) (out : exn + path)
    (* inside [run(topic)]: the texts it has still to write, then its end *)
| DoneStatusSet (output_path : path)
    (* [status] is ["done"], [result] not yet assigned *)
| ErrorStatusSet (e : exn)
    (* [status] is ["error"], [error] not yet assigned *)
| InFinally
    (* about to put the sentinel *)
| Exited.

(** Where the generator [event_stream] of one connection stands.  In its
    loop it holds the queue object [q] it got from [_status_queues] when it
    started: the one the dictionary still has for its job, or one that
    [generate] has replaced there since. *)
Inductive gen_state : Type :=
| Created                   (* not yet resumed *)
| Await                     (* at [q.get(timeout=120)], [q] is in the dictionary *)
| AwaitReplaced (k : nat)   (* at [q.get(timeout=120)], [q] was replaced *)
| Ended.                    (* returned *)

Record stream : Type := Stream {
  stream_job : str;
  gen : gen_state;
  sent : list sse }.

(** The process: the original [sys.stdout]; the two module-level
    dictionaries; for every identifier the thread that [generate] started
    last for it; the threads of an identifier that was drawn again after
    they were started, which run on; the queue objects that [generate] has
    replaced in [_status_queues], which only streams still hold; and the
    open streams. *)
Record state : Type := State {
  stdout : list str;
  _status_queues : gmap str (list str);
  _JOBS : gmap str job;
  runners : gmap str runner;
  earlier : list (str * runner);
  replaced : list (list str);
  streams : list stream }.

Definition init : state := State [] ∅ ∅ ∅ [] [] [].

Definition set_queues (f : gmap str (list str) → gmap str (list str))
    (s : state) : state :=
  State (stdout s) (f (_status_queues s)) (_JOBS s) (runners s) (earlier s)
        (replaced s) (streams s).
Definition set_jobs (f : gmap str job → gmap str job) (s : state) : state :=
  State (stdout s) (_status_queues s) (f (_JOBS s)) (runners s) (earlier s)
        (replaced s) (streams s).
Definition set_runners (f : gmap str runner → gmap str runner)
    (s : state) : state :=
  State (stdout s) (_status_queues s) (_JOBS s) (f (runners s)) (earlier s)
        (replaced s) (streams s).
Definition set_earlier (f : list (str * runner) → list (str * runner))
    (s : state) : state :=
  State (stdout s) (_status_queues s) (_JOBS s) (runners s) (f (earlier s))
        (replaced s) (streams s).
Definition set_replaced (f : list (list str) → list (list str))
    (s : state) : state :=
  State (stdout s) (_status_queues s) (_JOBS s) (runners s) (earlier s)
        (f (replaced s)) (streams s).
Definition set_streams (f : list stream → list stream) (s : state) : state :=
  State (stdout s) (_status_queues s) (_JOBS s) (runners s) (earlier s)
        (replaced s) (f (streams s)).

(** [q.put_nowait(item)] inside [try ... except queue.Full: pass]. *)
Definition put_nowait (item : str) (q : list str) : list str :=
  if length q <? maxsize then q ++ [item] else q.

(** [_TeeWriter.write] *)
Definition write (text : str) (s : state) : state :=
  let s := State (stdout s ++ [text]) (_status_queues s) (_JOBS s)
                 (runners s) (earlier s) (replaced s) (streams s) in
  match strip text with
  | [] => s
  | _ :: _ => set_queues (fmap (put_nowait (strip text))) s
  end.

Inductive response : Type :=
| BadRequest              (* 400, "Topic is required." *)
| Accepted (job_id : str) (* 202 *)
| NotFound                (* 404, "Unknown job." *)
| EventStream.            (* 200, text/event-stream *)

(** A stream that waits on the queue of [job_id] goes on holding that
    object when the dictionary gets a new one: it is the [k]-th replaced
    queue from then on. *)
Definition keep_queue (job_id : str) (k : nat) (st : stream) : stream :=
  match gen st with
  | Await =>
      if decide (stream_job st = job_id)
      then Stream job_id (AwaitReplaced k) (sent st)
      else st
  | _ => st
  end.

(** [generate].  [topic_field] is the topic of the request body (the empty
    string when the body has none), [job_id] the identifier drawn from
    [uuid4], and [c] what [run(topic)] is going to do in the thread that is
    started.  The two assignments overwrite what the dictionaries hold for
    [job_id], if they hold something: no test is made.  The thread and the
    queue that were there before are not stopped or emptied; the model
    keeps them in [earlier] and [replaced]. *)
Definition generate (topic_field job_id : str) (c : M path) (s : state)
  : response * state :=
  match strip topic_field with
  | [] => (BadRequest, s)
  | _ :: _ =>
      (Accepted job_id,
       State (stdout s)
             (<[job_id := []]> (_status_queues s))
             (<[job_id := Job running None None]> (_JOBS s))
             (<[job_id := Running (writes (events c)) (outcome c)]> (runners s))
             (earlier s ++ match runners s !! job_id with
                           | Some r => [(job_id, r)]
                           | None => []
                           end)
             (replaced s ++ match _status_queues s !! job_id with
                            | Some q => [q]
                            | None => []
                            end)
             (match _status_queues s !! job_id with
              | Some _ => keep_queue job_id (length (replaced s)) <$> streams s
              | None => streams s
              end))
  end.

Definition set_status (v : str) (j : job) : job := Job v (result j) (error j).
Definition set_result (v : str) (j : job) : job :=
  Job (status j) (Some v) (error j).
Definition set_error (v : str) (j : job) : job :=
  Job (status j) (result j) (Some v).

(** One statement of [_run] in a thread whose [job_id] is the given one;
    [None] when the thread cannot move (it has exited, or [q.put] waits for
    room).  An exception of the pipeline that is no instance of [Exception]
    is not caught by [except Exception]: the thread goes to the [finally]
    block with the entry of the job as it is, and ends after it. *)
Definition _run (job_id : str) (r : runner) (s : state)
  : option (runner * state) :=
  match r with
  | Running (text :: pending) out =>
      Some (Running pending out, write text s)
  | Running [] (inr output_path) =>
      Some (DoneStatusSet output_path,
            set_jobs (alter (set_status done) job_id) s)
  | DoneStatusSet output_path =>
      Some (InFinally,
            set_jobs (alter (set_result (name output_path)) job_id) s)
  | Running [] (inl e) =>
      if is_exception e
      then Some (ErrorStatusSet e,
                 set_jobs (alter (set_status failed) job_id) s)
      else Some (InFinally, s)
  | ErrorStatusSet e =>
      Some (InFinally, set_jobs (alter (set_error (exn_msg e)) job_id) s)
  | InFinally =>
      match _status_queues s !! job_id with
      | Some q =>
          if length q <? maxsize
          then Some (Exited, set_queues (<[job_id := q ++ [DONE]]>) s)
          else None
      | None => Some (Exited, s)
      end
  | Exited => None
  end.

(** [status_stream]: the response, and the stream it opens. *)
Definition status_stream (job_id : str) (s : state) : response * state :=
  match _JOBS s !! job_id with
  | None => (NotFound, s)
  | Some _ => (EventStream, set_streams (λ l, l ++ [Stream job_id Created []]) s)
  end.

(** What the loop of [event_stream] does with the item [q.get] returned. *)
Definition relay (st : stream) (g : gen_state) (line : str) (s : state)
  : option (stream * state) :=
  let job_id := stream_job st in
  if decide (line = DONE) then
    match _JOBS s !! job_id with
    | Some job =>
        Some (Stream job_id Ended
                (sent st ++ [Complete (status job) (result job)
                                      (error job)]), s)
    | None => None
    end
  else Some (Stream job_id g (sent st ++ [Log line]), s).

(** The generator [event_stream] resumed once: the event it yields, if any,
    its new state and the new state of the process.  [None]: the generator
    has returned. *)
Definition event_stream (st : stream) (s : state)
  : option (stream * state) :=
  let job_id := stream_job st in
  match gen st with
  | Created =>
      match _status_queues s !! job_id with
      | None => Some (Stream job_id Ended (sent st), s)
      | Some _ => Some (Stream job_id Await (sent st), s)
      end
  | Await =>
      match _status_queues s !! job_id with
      | None => None
      | Some [] =>
          Some (Stream job_id Await (sent st ++ [Keepalive]), s)
      | Some (line :: rest) =>
          relay st Await line (set_queues (<[job_id := rest]>) s)
      end
  | AwaitReplaced k =>
      match replaced s !! k with
      | None => None
      | Some [] =>
          Some (Stream job_id (AwaitReplaced k) (sent st ++ [Keepalive]), s)
      | Some (line :: rest) =>
          relay st (AwaitReplaced k) line (set_replaced (<[k := rest]>) s)
      end
  | Ended => None
  end.

(** What can happen next in the process. *)
Inductive label : Type :=
| Submit (topic_field job_id : str) (c : M path)
    (* a POST to /api/generate *)
| Run (job_id : str)
    (* the thread started last for the job executes its next statement *)
| RunEarlier (i : nat)
    (* the same for the i-th of the threads whose identifier was drawn
       again *)
| Connect (job_id : str)
    (* a GET to /api/status/job_id *)
| Next (i : nat).
    (* the i-th stream is asked for its next event *)

(** Identifiers are the first eight characters of a [uuid4]; nothing
    keeps [generate] from drawing one that is in use. *)
Definition step (l : label) (s : state) : option state :=
  match l with
  | Submit topic_field job_id c => Some (generate topic_field job_id c s).2
  | Run job_id =>
      r ← runners s !! job_id;
      '(r', s') ← _run job_id r s;
      Some (set_runners (<[job_id := r']>) s')
  | RunEarlier i =>
      '(job_id, r) ← earlier s !! i;
      '(r', s') ← _run job_id r s;
      Some (set_earlier (<[i := (job_id, r')]>) s')
  | Connect job_id => Some (status_stream job_id s).2
  | Next i =>
      st ← streams s !! i;
      '(st', s') ← event_stream st s;
      Some (set_streams (<[i := st']>) s')
  end.

Fixpoint exec (tr : list label) (s : state) : option state :=
  match tr with
  | [] => Some s
  | l :: tr' => s' ← step l s; exec tr' s'
  end.

Definition reachable (s : state) : Prop := ∃ tr, exec tr init = Some s.

End Server.
(* ===================================================================== *)
(** * The other agents *)
(* ===================================================================== *)

(** ** More of the interpreter *)

Module PyMore.

Import Scriptwriter.

(** [sep.join(parts)] *)
Fixpoint join (sep : str) (parts : list str) : str :=
  match parts with
  | [] => []
  | [p] => p
  | p :: rest => p ++ sep ++ join sep rest
  end.

(** [bool(v)]: [None], [False], zero and the empty string, list and
    dictionary are false.  [float_is_zero] tells whether the float a lexeme
    denotes is zero. *)
Definition truthy (float_is_zero : str → bool) (v : json) : bool :=
  match v with
  | JNull => false
  | JBool b => b
  | JInt z => negb (z =? 0)%Z
  | JFloat lexeme => negb (float_is_zero lexeme)
  | JStr s => negb (bool_decide (s = []))
  | JArr l => negb (bool_decide (l = []))
  | JObj d => negb (bool_decide (d = []))
  end.

(** [a + t] for a [str] [t]. *)
Definition add_str (a : json) (t : str) : exn + json :=
  match a with
  | JStr s => inr (JStr (s ++ t))
  | JArr _ =>
      inl (TypeError (u "can only concatenate list (not " ++ [34%N] ++ u "str"
                      ++ [34%N] ++ u ") to list"))
  | _ =>
      inl (TypeError (u "unsupported operand type(s) for +: '" ++ type_name a
                      ++ u "' and 'str'"))
  end.

(** A call of code outside this development: what it prints, then how it
    ends. *)
Definition extern {A} (r : list str * (exn + A)) : M A := (Write <$> r.1, r.2).

(** What a computation printed and how it ended, as its caller sees it. *)
Definition stage_of {A} (c : M A) : list str * (exn + A) :=
  (writes (events c), outcome c).

End PyMore.

(* ===================================================================== *)
(** ** [server.py]: the frames of the status stream *)
(* ===================================================================== *)

Module Frames.

Import Orchestrator Server PyMore.

(** [format(n, "04x")] for [n] below 65536: four hexadecimal digits in
    lower case. *)
Definition hex_digit (d : N) : N :=
  if (d <? 10)%N then (48 + d)%N else (87 + d)%N.

Definition u_escape (n : N) : str :=
  [92%N; ch "u"; hex_digit (n / 4096); hex_digit ((n / 256) mod 16);
   hex_digit ((n / 16) mod 16); hex_digit (n mod 16)].

(** What [json.dumps] writes for one character of a string with
    [ensure_ascii] on, its default: a backslash, a quote and the control
    characters with a short name get their two-character escape, a printable
    ASCII character stands for itself, and every other character is written
    as [\uXXXX], as a surrogate pair when it lies above the basic plane. *)
Definition escape_char (c : N) : str :=
  if (c =? 92)%N then [92; 92]%N
  else if (c =? 34)%N then [92; 34]%N
  else if (c =? 8)%N then [92%N; ch "b"]
  else if (c =? 12)%N then [92%N; ch "f"]
  else if (c =? 10)%N then [92%N; ch "n"]
  else if (c =? 13)%N then [92%N; ch "r"]
  else if (c =? 9)%N then [92%N; ch "t"]
  else if ((32 <=? c) && (c <=? 126))%N then [c]
  else if (c <? 65536)%N then u_escape c
  else
    let n := (c - 65536)%N in
    u_escape (N.lor 55296 (N.land (N.shiftr n 10) 1023))
    ++ u_escape (N.lor 56320 (N.land n 1023)).

(** [json.dumps(s)] for a [str]. *)
Definition encode_basestring_ascii (s : str) : str :=
  [34%N] ++ concat (escape_char <$> s) ++ [34%N].

(** [json.dumps(v)] for a value that is a [str] or [None]. *)
Definition dumps_value (v : option str) : str :=
  match v with
  | Some s => encode_basestring_ascii s
  | None => u "null"
  end.

(** [json.dumps(d)] for a [dict] with [str] keys whose values are [str] or
    [None], with the default separators. *)
Definition dumps_member (kv : str * option str) : str :=
  encode_basestring_ascii kv.1 ++ u ": " ++ dumps_value kv.2.

Definition dumps_dict (d : list (str * option str)) : str :=
  u "{" ++ join (u ", ") (dumps_member <$> d) ++ u "}".

(** The dictionary [event_stream] builds for an event. *)
Definition payload (e : sse) : list (str * option str) :=
  match e with
  | Keepalive => [(u "type", Some (u "keepalive"))]
  | Log message => [(u "type", Some (u "log")); (u "message", Some message)]
  | Complete st res err =>
      [(u "type", Some (u "complete")); (u "status", Some st);
       (u "result", res); (u "error", err)]
  end.

(** The text [event_stream] yields for an event. *)
Definition frame (e : sse) : str :=
  u "data: " ++ dumps_dict (payload e) ++ [10; 10]%N.

End Frames.

(* ===================================================================== *)
(** ** The lazily created clients of [gemini_client.py], [researcher.py]
       and [producer.py] *)
(* ===================================================================== *)

Module Clients.

Section Lazy.

(** The three getters [_get_client], [_get_apify] and [_get_el_client] are
    the same function up to the key they read, the message they raise and
    the constructor they call. *)
Variable client : Type.
Variable key : str.
Variable message : str.
Variable make : str → exn + client.

(** The getter: the module-level variable before the call, what the call
    returns and the variable after it. *)
Definition get (cached : option client) : (exn + client) * option client :=
  match cached with
  | Some c => (inr c, cached)
  | None =>
      match key with
      | [] => (inl (RuntimeError message), None)
      | _ :: _ =>
          match make key with
          | inl e => (inl e, None)
          | inr c => (inr c, Some c)
          end
      end
  end.

End Lazy.

Definition gemini_message : str :=
  u "GEMINI_API_KEY is not set. Copy .env.example → .env and fill in your key.".
Definition apify_message : str :=
  u "APIFY_API_TOKEN is not set. Copy .env.example → .env and fill in your token.".
Definition elevenlabs_message : str :=
  u "ELEVENLABS_API_KEY is not set. Copy .env.example → .env and fill in your key.".

Section Gemini.

Variable client : Type.
Variable GEMINI_API_KEY : str.
Variable Client : str → exn + client.

(** [client.models.generate_content(model=..., config=..., contents=...)]
    followed by [.text]: the text of the response, which may be [None]. *)
Variable generate_content : client → str → str → str → exn + option str.

Definition MODEL_FLASH : str := u "gemini-3-flash-preview".
Definition MODEL_PRO : str := u "gemini-3-pro-preview".

Definition _get_client := get client GEMINI_API_KEY gemini_message Client.

(** [response.text or ""] *)
Definition text_or_empty (text : option str) : str :=
  match text with
  | Some (c :: t) => c :: t
  | _ => []
  end.

Definition call (model : str) (system_prompt user_prompt : str)
    (cached : option client) : (exn + str) * option client :=
  match _get_client cached with
  | (inl e, cached') => (inl e, cached')
  | (inr c, cached') =>
      match generate_content c model system_prompt user_prompt with
      | inl e => (inl e, cached')
      | inr text => (inr (text_or_empty text), cached')
      end
  end.

Definition call_flash := call MODEL_FLASH.
Definition call_pro := call MODEL_PRO.

End Gemini.

End Clients.

(* ===================================================================== *)
(** ** [echocast/summarizer.py] *)
(* ===================================================================== *)

Module Summarizer.

Import Scriptwriter PyMore.

Section Summarise.

(** [str(v)], as an f-string renders a value. *)
Variable py_str : json → str.

Variable call_pro : str → str → list str * (exn + str).
Variable _SYSTEM_PROMPT : str.

(** The loop of [_format_research]: one part per item, numbered from [i]. *)
Fixpoint format_parts (i : nat) (research_data : list json)
    (parts : list str) : M (list str) :=
  match research_data with
  | [] => mret parts
  | item :: rest =>
      url ← lift (getitem item (u "url"));
      title ← lift (getitem item (u "title"));
      text ← lift (getitem item (u "text"));
      format_parts (S i) rest
        (parts ++ [u "--- Source " ++ str_of_nat i ++ u " ---" ++ [10%N]
                   ++ u "URL: " ++ py_str url ++ [10%N]
                   ++ u "Title: " ++ py_str title ++ [10%N; 10%N]
                   ++ py_str text ++ [10%N]])
  end.

Definition _format_research (research_data : list json) : M str :=
  parts ← format_parts 1 research_data [];
  mret (join [10%N] parts).

Definition summarise (topic : str) (research_data : list json) : M str :=
  print ([10%N] ++ u "📝  SUMMARIZER AGENT — Synthesising research …");;
  match research_data with
  | [] =>
      print (u "  ⚠️  No research data provided. Returning empty summary.");;
      mret []
  | _ :: _ =>
      formatted ← _format_research research_data;
      let user_prompt :=
        u "Topic: " ++ topic ++ [10%N; 10%N]
        ++ u "Below are " ++ str_of_nat (length research_data)
        ++ u " scraped web articles. "
        ++ u "Synthesise them into a comprehensive research report."
        ++ [10%N; 10%N] ++ formatted in
      report ← extern (call_pro _SYSTEM_PROMPT user_prompt);
      print (u "  ✅  Report generated — "
             ++ str_of_nat_comma (length report) ++ u " characters");;
      print (u "📝  SUMMARIZER AGENT — Complete." ++ [10%N]);;
      mret report
  end.

End Summarise.

End Summarizer.

(* ===================================================================== *)
(** ** [echocast/researcher.py] *)
(* ===================================================================== *)

Module Researcher.

Import Scriptwriter PyMore.

Definition _TOP_RESULTS_PER_QUERY : nat := 3.
Definition _MAX_CRAWL_PAGES : nat := 3.

Definition APIFY_GOOGLE_SEARCH : str := u "apify/google-search-scraper".
Definition APIFY_WEB_CRAWLER : str := u "apify/website-content-crawler".

Definition truncated_mark : str := [10%N; 10%N] ++ u "[… truncated …]".

Section Research.

(** [repr(v)] *)
Variable py_repr : json → str.
Variable float_is_zero : str → bool.

(** The Apify client: [_get_apify()] (see [Clients.get]), the call of an
    actor with its input and its timeout in seconds, which gives the run or
    [None], and the items of a dataset. *)
Variable client : Type.
Variable _get_apify : exn + client.
Variable actor_call :
  client → str → json → nat → list str * (exn + option json).
Variable dataset_items : client → json → list str * (exn + list json).

(** The inner loop of [_search_google]: the [url] of every result, when it
    is true. *)
Fixpoint result_urls (results urls : list json) : M (list json) :=
  match results with
  | [] => mret urls
  | result :: rest =>
      url ← lift (get result (u "url") JNull);
      result_urls rest
        (if truthy float_is_zero url then urls ++ [url] else urls)
  end.

(** The outer loop: the first results of every item of the dataset. *)
Fixpoint item_urls (dataset : list json) (urls : list json) : M (list json) :=
  match dataset with
  | [] => mret urls
  | item :: rest =>
      organic ← lift (get item (u "organicResults") (JArr []));
      first ← lift (slice_to _TOP_RESULTS_PER_QUERY organic);
      results ← lift (iter first);
      urls ← result_urls results urls;
      item_urls rest urls
  end.

Definition _search_google (query : json) : M (list json) :=
  print (u "  🔍  Searching Google: " ++ py_repr query);;
  client ← lift _get_apify;
  run ← extern
    (actor_call client APIFY_GOOGLE_SEARCH
       (JObj [(u "queries", query);
              (u "maxPagesPerQuery", JInt 1);
              (u "resultsPerPage", JInt (Z.of_nat _TOP_RESULTS_PER_QUERY));
              (u "languageCode", JStr (u "en"));
              (u "countryCode", JStr (u "us"))])
       120);
  match run with
  | None =>
      print (u "    ⚠️  Google search run failed.");;
      mret []
  | Some run =>
      id ← lift (getitem run (u "defaultDatasetId"));
      dataset ← extern (dataset_items client id);
      urls ← item_urls dataset [];
      print (u "    ✅  Found " ++ str_of_nat (length urls) ++ u " URLs");;
      mret urls
  end.

(** One pass of the loop of [_crawl_urls]: the record made of an item. *)
Definition crawl_record (item : json) : M json :=
  text ← lift (get item (u "text") JNull);
  text ← (if truthy float_is_zero text then mret text
          else
            markdown ← lift (get item (u "markdown") JNull);
            if truthy float_is_zero markdown then mret markdown
            else mret (JStr []));
  n ← lift (len text);
  text ← (if 15000 <? n then
            cut ← lift (slice_to 15000 text);
            lift (add_str cut truncated_mark)
          else mret text);
  url ← lift (get item (u "url") (JStr []));
  metadata ← lift (get item (u "metadata") (JObj []));
  default ← lift (get item (u "url") (JStr []));
  title ← lift (get metadata (u "title") default);
  mret (JObj [(u "url", url); (u "title", title); (u "text", text)]).

Fixpoint crawl_records (dataset results : list json) : M (list json) :=
  match dataset with
  | [] => mret results
  | item :: rest =>
      r ← crawl_record item;
      crawl_records rest (results ++ [r])
  end.

(** [_crawl_urls], for the list of strings [research] gives it. *)
Definition _crawl_urls (urls : list str) : M (list json) :=
  match urls with
  | [] => mret []
  | _ :: _ =>
      print (u "  🌐  Crawling " ++ str_of_nat (length urls) ++ u " URLs …");;
      client ← lift _get_apify;
      run ← extern
        (actor_call client APIFY_WEB_CRAWLER
           (JObj [(u "startUrls",
                   JArr ((λ url, JObj [(u "url", JStr url)]) <$> urls));
                  (u "maxCrawlPages", JInt (Z.of_nat _MAX_CRAWL_PAGES));
                  (u "crawlerType", JStr (u "cheerio"));
                  (u "maxCrawlDepth", JInt 0);
                  (u "outputFormat", JStr (u "markdown"));
                  (u "removeElementsCssSelector",
                   JStr (u "nav, header, footer, aside, "
                         ++ u "[role='navigation'], [role='banner'], "
                         ++ u ".cookie-banner, .ad, .ads, .sidebar"))])
           180);
      match run with
      | None =>
          print (u "    ⚠️  Crawl run failed.");;
          mret []
      | Some run =>
          id ← lift (getitem run (u "defaultDatasetId"));
          dataset ← extern (dataset_items client id);
          results ← crawl_records dataset [];
          print (u "    ✅  Crawled " ++ str_of_nat (length results)
                 ++ u " pages");;
          mret results
      end
  end.

(** The inner loop of [research]: a URL that was not seen yet is recorded
    and appended. *)
Fixpoint add_urls (urls : list str) (seen : gset str) (all_urls : list str)
  : gset str * list str :=
  match urls with
  | [] => (seen, all_urls)
  | url :: rest =>
      if decide (url ∈ seen) then add_urls rest seen all_urls
      else add_urls rest ({[url]} ∪ seen) (all_urls ++ [url])
  end.

Section Loop.

(** [_search_google] as [research] uses it: it returns strings. *)
Variable search : json → M (list str).

(** The outer loop of [research]; the pause after each query is not
    modelled. *)
Fixpoint gather (queries : list json) (seen : gset str) (all_urls : list str)
  : M (list str) :=
  match queries with
  | [] => mret all_urls
  | query :: rest =>
      urls ← search query;
      let '(seen, all_urls) := add_urls urls seen all_urls in
      gather rest seen all_urls
  end.

(** [sum(len(r["text"]) for r in results)] *)
Fixpoint sum_text_len (results : list json) : M nat :=
  match results with
  | [] => mret 0
  | r :: rest =>
      text ← lift (getitem r (u "text"));
      n ← lift (len text);
      m ← sum_text_len rest;
      mret (n + m)
  end.

Definition research (queries : json) : M (list json) :=
  print ([10%N] ++ u "📚  RESEARCH AGENT — Starting deep research …");;
  qs ← lift (iter queries);
  all_urls ← gather qs ∅ [];
  print ([10%N] ++ u "  📋  Total unique URLs to crawl: "
         ++ str_of_nat (length all_urls));;
  results ← _crawl_urls all_urls;
  total_chars ← sum_text_len results;
  print (u "  📊  Total research text: " ++ str_of_nat_comma total_chars
         ++ u " characters across " ++ str_of_nat (length results)
         ++ u " pages");;
  print (u "📚  RESEARCH AGENT — Complete." ++ [10%N]);;
  mret results.

End Loop.

End Research.

End Researcher.

(* ===================================================================== *)
(** ** [echocast/producer.py] *)
(* ===================================================================== *)

Module Producer.

Import Scriptwriter Orchestrator PyMore.

Definition VOICE_HOST : str := u "JBFqnCBsd6RMkjVDRZzb".
Definition VOICE_GUEST : str := u "EXAVITQu4vr4xnSDxMaL".

(** Silence between dialogue lines, in milliseconds. *)
Definition _PAUSE_MS : nat := 600.

(** [_VOICE_MAP.get(speaker, VOICE_HOST)]: a list or a dictionary cannot be
    looked up. *)
Definition voice_of (speaker : json) : exn + str :=
  match speaker with
  | JArr _ => inl (TypeError (u "unhashable type: 'list'"))
  | JObj _ => inl (TypeError (u "unhashable type: 'dict'"))
  | JStr s =>
      if decide (s = u "Host") then inr VOICE_HOST
      else if decide (s = u "Guest") then inr VOICE_GUEST
      else inr VOICE_HOST
  | _ => inr VOICE_HOST
  end.

Section Produce.

Variable py_str : json → str.
Variable float_is_zero : str → bool.

(** [pydub.AudioSegment]: silence of a duration, the empty segment,
    concatenation and the length in milliseconds. *)
Variable audio : Type.
Variable silent : nat → audio.
Variable empty : audio.
Variable audio_add : audio → audio → audio.
Variable audio_len : audio → nat.

(** [_generate_speech(text, voice_id)], and [combined.export(path, ...)]. *)
Variable _generate_speech : json → str → list str * (exn + audio).
Variable export : audio → str → list str * (exn + ()).

(** [OUTPUT_DIR / filename]: the path [pathlib] makes of the output
    directory of [config.py] and a file name (what it is, and what its
    [name] is, depends on the platform and on the file name: one of several
    components, an absolute one, an empty one); and the format [.1f] of a
    number of milliseconds divided by 1000. *)
Variable output_file : str → path.
Variable format_secs : nat → str.

(** The loop of [produce]: [i] counts the lines, [n] is [len(dialogue)]. *)
Fixpoint speak (i n : nat) (lines : list json) (combined : audio)
    (total_chars_used : nat) : M (audio * nat) :=
  match lines with
  | [] => mret (combined, total_chars_used)
  | line :: rest =>
      speaker ← lift (get line (u "speaker") (JStr (u "Host")));
      text ← lift (get line (u "text") (JStr []));
      voice_id ← lift (voice_of speaker);
      text_len ← lift (len text);
      let total_chars_used := total_chars_used + text_len in
      head ← lift (slice_to 60 text);
      print (u "  🔊  [" ++ str_of_nat (i + 1) ++ u "/" ++ str_of_nat n
             ++ u "] " ++ py_str speaker ++ u ": " ++ py_str head
             ++ (if 60 <? text_len then u "…" else [])
             ++ u " (" ++ str_of_nat text_len ++ u " chars)");;
      segment ← extern (_generate_speech text voice_id);
      speak (S i) n rest
        (audio_add combined (audio_add segment (silent _PAUSE_MS)))
        total_chars_used
  end.

Definition produce (dialogue : json) (filename : str) : M path :=
  print ([10%N] ++ u "🎧  PRODUCER AGENT — Generating audio …");;
  if truthy float_is_zero dialogue then
    lines ← lift (iter dialogue);
    n ← lift (len dialogue);
    '(combined, total_chars_used) ← speak 0 n lines empty 0;
    let output_path := output_file filename in
    extern (export combined (path_str output_path));;
    print ([10%N] ++ u "  ✅  Audio exported: " ++ path_str output_path);;
    print (u "  📊  Duration: " ++ format_secs (audio_len combined)
           ++ u "s | " ++ u "Characters used: "
           ++ str_of_nat_comma total_chars_used);;
    print (u "🎧  PRODUCER AGENT — Complete." ++ [10%N]);;
    mret output_path
  else raise (ValueError (u "No dialogue lines to produce.")).

End Produce.

End Producer.

(* ===================================================================== *)
(** ** [main.py] *)
(* ===================================================================== *)

Module Main.

Import Orchestrator PyMore.

(** [try: c except Exception as e: h(e)]: an exception that is no
    instance of [Exception] is not handled. *)
Definition catch {A} (c : M A) (h : exn → M A) : M A :=
  match c with
  | (es, inl e) =>
      if is_exception e then let '(es', r) := h e in (es ++ es', r)
      else (es, inl e)
  | (es, inr x) => (es, inr x)
  end.

(** [sys.exit(1)] *)
Definition SystemExit (code : nat) : exn := Exn (u "SystemExit") (str_of_nat code).

Section Main.

Variable run : str → M path.

(** [main()] with [sys.argv] as its argument. *)
Definition main (argv : list str) : M () :=
  match argv with
  | [] | [_] =>
      print (u "Usage:  python main.py " ++ [34%N] ++ u "Your podcast topic"
             ++ [34%N]);;
      print (u "Example:  python main.py " ++ [34%N]
             ++ u "The future of solid-state batteries" ++ [34%N]);;
      raise (SystemExit 1)
  | _ :: args =>
      let topic := join (u " ") args in
      catch
        (output_path ← run topic;
         print ([10%N] ++ u "✅  Done! Your podcast is at: "
                ++ path_str output_path))
        (λ e, print ([10%N] ++ u "❌  Pipeline failed: " ++ exn_msg e);;
              raise e)
  end.

End Main.

End Main.

(* ===================================================================== *)
(** ** The pipeline with its agents *)
(* ===================================================================== *)

Module Linked.

Import Orchestrator PyMore.

Section Linked.

Variable limits : str → option exn.
Variable py_str : json → str.
Variable float_is_zero : str → bool.
Variable call_flash : str → str → list str * (exn + str).
Variable call_pro : str → str → list str * (exn + str).
Variable _QUERY_SYSTEM_PROMPT : str.
Variable summarizer_prompt : str.
Variable scriptwriter_prompt : str.

(** [_search_google] and [_crawl_urls] as [research] uses them. *)
Variable search : json → M (list str).
Variable client : Type.
Variable _get_apify : exn + client.
Variable actor_call :
  client → str → json → nat → list str * (exn + option json).
Variable dataset_items : client → json → list str * (exn + list json).

Variable audio : Type.
Variable silent : nat → audio.
Variable empty : audio.
Variable audio_add : audio → audio → audio.
Variable audio_len : audio → nat.
Variable _generate_speech : json → str → list str * (exn + audio).
Variable export : audio → str → list str * (exn + ()).
Variable output_file : str → path.
Variable format_secs : nat → str.

(** [run] of [orchestrator.py] with the four agents it imports. *)
Definition run (topic : str) : M path :=
  Orchestrator.run py_str limits json call_flash
    (λ queries,
       stage_of (Researcher.research float_is_zero client _get_apify
                   actor_call dataset_items search queries))
    (λ topic research_data,
       stage_of (Summarizer.summarise py_str call_pro summarizer_prompt
                   topic research_data))
    (λ topic report,
       stage_of (Scriptwriter.write_script py_str Config.MAX_SCRIPT_CHARS
                   Config.MAX_CHARS_PER_LINE limits call_pro
                   scriptwriter_prompt topic report))
    (λ dialogue,
       stage_of (Producer.produce py_str float_is_zero audio silent empty
                   audio_add audio_len _generate_speech export output_file
                   format_secs dialogue (u "podcast.mp3")))
    _QUERY_SYSTEM_PROMPT topic.

End Linked.

End Linked.


(* ===================================================================== *)
(** * Specifications *)
(* ===================================================================== *)

(** ** The budget enforcer, as the specification words it *)

Module Budget.

Import Scriptwriter.

(** A record: a dictionary whose [text] is a string. *)
Definition is_record (r : json) : bool :=
  match r with
  | JObj d =>
      match dict_get (u "text") d with
      | Some (JStr _) => true
      | _ => false
      end
  | _ => false
  end.

Definition text_of (r : json) : str :=
  match r with
  | JObj d =>
      match dict_get (u "text") d with
      | Some (JStr t) => t
      | _ => []
      end
  | _ => []
  end.

Definition text_len (r : json) : nat := length (text_of r).

Definition with_text (t : str) (r : json) : json :=
  match r with
  | JObj d => JObj (dict_set (u "text") (JStr t) d)
  | _ => r
  end.

(** Step 1: a record whose text is longer than the per-record limit gets
    its text cut to exactly that many characters. *)
Definition truncate_record (per_record_limit : nat) (r : json) : json :=
  if per_record_limit <? text_len r
  then with_text (take per_record_limit (text_of r)) r
  else r.

(** Step 2: walk the records in order with a running total; a record is
    included only if it does not push the total over the limit, and the
    first record that would do so ends the walk. *)
Fixpoint walk (total_limit running : nat) (records : list json) : list json :=
  match records with
  | [] => []
  | r :: rest =>
      if running + text_len r <=? total_limit
      then r :: walk total_limit (running + text_len r) rest
      else []
  end.

Definition enforce (records : list json) (per_record_limit total_limit : nat)
  : list json :=
  walk total_limit 0 (truncate_record per_record_limit <$> records).

Definition total_len (records : list json) : nat :=
  sum_list (text_len <$> records).

(** A record with the given text, as in the examples of the
    specification. *)
Definition record (t : str) : json := JObj [(u "text", JStr t)].

(** The example of the specification: texts of 13 and 5 characters, to be
    enforced with the limits 10 and 15. *)
Definition example_records : list json :=
  [record (u "0123456789ABC"); record (u "short")].

End Budget.

(** ** What a pattern matches *)

Module ReSpec.

(** [den p g w grp]: the pattern [p] can match the text [w], capturing
    [grp] in group 1 ([g]: the group is open at the start). *)
Fixpoint den (p : list atom) (g : bool) (w grp : str) : Prop :=
  match p with
  | [] => w = [] ∧ grp = []
  | One k :: p' =>
      ∃ x w' grp', w = x :: w' ∧ in_cls k x = true
                   ∧ grp = (if g then [x] else []) ++ grp' ∧ den p' g w' grp'
  | OptLit l :: p' =>
      (∃ w' grp', w = l ++ w' ∧ grp = (if g then l else []) ++ grp'
                  ∧ den p' g w' grp')
      ∨ den p' g w grp
  | StarG k :: p' | StarL k :: p' =>
      ∃ xs w' grp', w = xs ++ w' ∧ Forall (λ x, in_cls k x = true) xs
                    ∧ grp = (if g then xs else []) ++ grp' ∧ den p' g w' grp'
  | Open :: p' => den p' true w grp
  | Close :: p' => den p' false w grp
  end.

End ReSpec.

(** ** Delimiters *)

Module JsonSpec.

(** The characters that can follow a value inside an array or an object. *)
Definition is_delim (c : N) : bool :=
  is_json_ws c || (c =? ch ",")%N || (c =? ch "]")%N || (c =? ch "}")%N.

(** A number is complete only when a delimiter follows it; every other
    value is closed by its own last character. *)
Definition closed (v : json) (rest : str) : Prop :=
  match v with
  | JInt _ | JFloat _ => ∃ c rest', rest = c :: rest' ∧ is_delim c = true
  | _ => True
  end.

End JsonSpec.

(** ** The strategies of the extractor and embedded arrays *)

Module ExtractSpec.

(** [sub] occurs in [raw] as a contiguous piece. *)
Definition infix (sub raw : str) : Prop := ∃ pre post, raw = pre ++ sub ++ post.

(** The text is (or contains) no valid array: no contiguous piece of it
    parses as a JSON array. *)
Definition no_valid_array (raw : str) : Prop :=
  ∀ sub items, infix sub raw → json_loads sub ≠ Some (JArr items).

Section Attempts.

Variable limits : str → option exn.

(** An attempt fails, and is passed over: [json.loads] raises
    [JSONDecodeError] (for the direct attempt: or returns something that is
    no list), or the pattern is not found. *)
Definition direct_fails (raw : str) : Prop :=
  limits raw = None ∧ ∀ items, json_loads raw ≠ Some (JArr items).

Definition fence_fails (raw : str) : Prop :=
  match search fence_re raw with
  | None => True
  | Some fence_match =>
      limits (group1 fence_match) = None
      ∧ json_loads (group1 fence_match) = None
  end.

Definition bracket_fails (raw : str) : Prop :=
  match search bracket_re raw with
  | None => True
  | Some bracket_match =>
      limits (group0 bracket_match) = None
      ∧ json_loads (group0 bracket_match) = None
  end.

(** An attempt raises [e], an exception of [json.loads] that is no
    [JSONDecodeError], after the attempts before it have failed. *)
Definition escapes (raw : str) (e : exn) : Prop :=
  limits raw = Some e
  ∨ (direct_fails raw
     ∧ ∃ fence_match, search fence_re raw = Some fence_match
                      ∧ limits (group1 fence_match) = Some e)
  ∨ (direct_fails raw ∧ fence_fails raw
     ∧ ∃ bracket_match, search bracket_re raw = Some bracket_match
                        ∧ limits (group0 bracket_match) = Some e).

End Attempts.

(** [json.loads] reaches no limit on any piece of the text. *)
Definition within_limits (limits : str → option exn) (raw : str) : Prop :=
  ∀ sub, infix sub raw → limits sub = None.

(** An interpreter whose limits are out of reach. *)
Definition no_limits : str → option exn := λ _, None.

(** The digit limit of an interpreter at its default, on a text that is
    one integer literal: more than 4300 digits are not converted.  (On every
    other text this example reaches no limit.) *)
Definition digit_limit (raw : str) : option exn :=
  match raw with
  | c :: _ =>
      if forallb is_digit raw && negb (c =? 48)%N && (4300 <? length raw)
      then Some (ValueError
                   (u "Exceeds the limit (4300 digits) for integer string "
                    ++ u "conversion: value has " ++ str_of_nat (length raw)
                    ++ u " digits; use sys.set_int_max_str_digits() "
                    ++ u "to increase the limit"))
      else None
  | [] => None
  end.

(** An integer of 4301 digits. *)
Definition long_number : str := replicate 4301 (ch "1").

(** The number of opening brackets a text begins with. *)
Fixpoint opens (raw : str) : nat :=
  match raw with
  | c :: rest => if (c =? 91)%N then S (opens rest) else 0
  | [] => 0
  end.

(** Another example: an interpreter whose stack has room for fewer than
    100000 nested calls raises [RecursionError] on a text that begins with
    100000 opening brackets. *)
Definition depth_limit (raw : str) : option exn :=
  if 100 * 1000 <=? opens raw
  then Some (Exn (u "RecursionError")
               (u "maximum recursion depth exceeded while decoding a JSON "
                ++ u "array from a unicode string"))
  else None.

(** 100000 opening brackets, and as many arrays nested in each other. *)
Definition deep_open : str := replicate (100 * 1000) (ch "[").
Definition deep_array : str :=
  replicate (100 * 1000) (ch "[") ++ replicate (100 * 1000) (ch "]").

Definition backtick : N := 96%N.

(** The example of the specification: prose, then a fenced block tagged
    json that holds the array of the strings a and b. *)
Definition fenced_example : str :=
  u "here is it: ```json" ++ [10%N]
  ++ u "[" ++ [34; 97; 34; 44; 34; 98; 34]%N ++ u "]" ++ [10%N] ++ u "```".

(** Two arrays in one sentence. *)
Definition two_arrays_example : str := u "see [1] and [2]".

(** An array in a sentence without other brackets. *)
Definition prose_example : str := u "Answer: [1, [2]] done.".

End ExtractSpec.

(** ** The order of the stages *)

Module PipelineSpec.

Definition pipeline_order : list stage :=
  [QueryGeneration; Research; Summarization; Scriptwriting; Production].

(** The stages a computation entered, in order, and how it ended. *)
Definition summary {A} (c : M A) : list stage * (exn + A) :=
  (calls (events c), outcome c).

End PipelineSpec.

(** ** Invariants of the server *)

Module ServerSpec.

Import Orchestrator Server.

(** No identifier has been drawn twice so far: no thread has had its
    identifier taken over by a later one. *)
Definition drawn_once (s : state) : Prop := earlier s = [].

(** What the entry of a job holds while its thread stands at [r], when no
    other thread writes to the entry.  In the [finally] block and after it
    the entry is complete, or still as [generate] made it when the pipeline
    raised an exception that [except Exception] does not catch. *)
Definition job_matches (j : job) (r : runner) : Prop :=
  match r with
  | Running _ _ => j = Job running None None
  | DoneStatusSet _ => j = Job done None None
  | ErrorStatusSet _ => j = Job failed None None
  | InFinally | Exited =>
      (∃ res, j = Job done (Some res) None)
      ∨ (∃ err, j = Job failed None (Some err))
      ∨ j = Job running None None
  end.

(** The three dictionaries have the same keys. *)
Definition same_keys (s : state) : Prop :=
  ∀ job_id,
    (is_Some (_JOBS s !! job_id) ↔ is_Some (runners s !! job_id))
    ∧ (is_Some (_JOBS s !! job_id) ↔ is_Some (_status_queues s !! job_id)).

(** The three dictionaries have the same keys, and every entry of [_JOBS]
    agrees with where its thread stands. *)
Definition consistent_at (s : state) (job_id : str) : Prop :=
  match _JOBS s !! job_id, runners s !! job_id, _status_queues s !! job_id with
  | Some j, Some r, Some _ => job_matches j r
  | None, None, None => True
  | _, _, _ => False
  end.

Definition consistent (s : state) : Prop := ∀ job_id, consistent_at s job_id.

(** A stream that waits in [q.get], and the queue object it waits on. *)
Definition waiting (st : stream) : Prop :=
  gen st = Await ∨ ∃ k, gen st = AwaitReplaced k.

Definition held (st : stream) (s : state) : option (list str) :=
  match gen st with
  | Await => _status_queues s !! stream_job st
  | AwaitReplaced k => replaced s !! k
  | _ => None
  end.

(** The state once the stream has taken the head of that queue. *)
Definition take_head (st : stream) (rest : list str) (s : state) : state :=
  match gen st with
  | Await => set_queues (<[stream_job st := rest]>) s
  | AwaitReplaced k => set_replaced (<[k := rest]>) s
  | _ => s
  end.

(** No stream holds a replaced queue. *)
Definition holds_current (st : stream) : Prop :=
  ∀ k, gen st ≠ AwaitReplaced k.

(** The states of a process in which no identifier was drawn twice: one
    thread for every job, no replaced queue. *)
Definition pristine (s : state) : Prop :=
  consistent s ∧ earlier s = [] ∧ replaced s = []
  ∧ Forall holds_current (streams s).

(** The status only moves from running to done or to error. *)
Definition status_moves (before after : str) : Prop :=
  after = before ∨ (before = running ∧ (after = done ∨ after = failed)).

Definition is_complete (e : sse) : bool :=
  match e with Complete _ _ _ => true | _ => false end.

(** What a stream has sent so far, by the state of its generator: no
    [complete] event before the end; at the end either nothing (no channel)
    or events without [complete] followed by exactly one [complete]. *)
Definition stream_ok (st : stream) : Prop :=
  match gen st with
  | Created => sent st = []
  | Await | AwaitReplaced _ => Forall (λ e, is_complete e = false) (sent st)
  | Ended =>
      sent st = []
      ∨ ∃ before s r e,
          sent st = before ++ [Complete s r e]
          ∧ Forall (λ e, is_complete e = false) before
  end.

(** The number of times, along an execution, the thread of [job_id] puts the
    sentinel on the channel in its [finally] block. *)
Fixpoint sentinel_puts (job_id : str) (tr : list label) (s : state) : nat :=
  match tr with
  | [] => 0
  | l :: tr' =>
      match step l s with
      | None => 0
      | Some s' =>
          (match l with
           | Run j =>
               if decide (j = job_id) then
                 match runners s !! j, _status_queues s !! j with
                 | Some InFinally, Some _ => 1
                 | _, _ => 0
                 end
               else 0
           | _ => 0
           end) + sentinel_puts job_id tr' s'
      end
  end.

(** A text that the log broadcaster does not turn into the sentinel. *)
Definition clean (text : str) : Prop := strip text ≠ DONE.

(** No pipeline of the execution writes a text that strips to the
    sentinel. *)
Definition label_clean (l : label) : Prop :=
  match l with
  | Submit _ _ c => Forall (λ text, strip text ≠ DONE) (writes (events c))
  | _ => True
  end.

Definition writes_no_sentinel (tr : list label) : Prop := Forall label_clean tr.

(** A [complete] event reports the entry of a job whose thread has
    exited. *)
Definition complete_is_final (s : state) (st : stream) : Prop :=
  ∀ a r e, Complete a r e ∈ sent st →
    runners s !! stream_job st = Some Exited
    ∧ _JOBS s !! stream_job st = Some (Job a r e).

(** As long as no pipeline writes the sentinel: a channel holds it only
    after the thread of the job has exited, and so every [complete] event
    is final. *)
Definition clean_state (s : state) : Prop :=
  (∀ j q, _status_queues s !! j = Some q → DONE ∈ q →
          runners s !! j = Some Exited)
  ∧ (∀ j pending out, runners s !! j = Some (Running pending out) →
                      Forall (λ text, strip text ≠ DONE) pending)
  ∧ Forall (complete_is_final s) (streams s).

(** The entry of a job once its thread is through [try] and [except]. *)
Definition final_job (out : exn + path) : job :=
  match out with
  | inl e =>
      if is_exception e then Job failed None (Some (exn_msg e))
      else Job running None None
  | inr output_path => Job done (Some (name output_path)) None
  end.

(** What the thread makes of the entry [j] of its job when the pipeline
    has ended with [out]: it assigns two of the three keys, or none. *)
Definition record (out : exn + path) (j : job) : job :=
  match out with
  | inl e =>
      if is_exception e then Job failed (result j) (Some (exn_msg e)) else j
  | inr output_path => Job done (Some (name output_path)) (error j)
  end.

(** The number of statements from the end of the pipeline to the [finally]
    block. *)
Definition statements_to_finally (out : exn + path) : nat :=
  match out with
  | inl e => if is_exception e then 2 else 1
  | inr _ => 2
  end.

(** 1 once the thread of the job has exited, 0 before. *)
Definition exited_count (s : state) (job_id : str) : nat :=
  match runners s !! job_id with
  | Some Exited => 1
  | _ => 0
  end.

End ServerSpec.

(** ** Example executions *)

Module Examples.

Import Orchestrator Server.

Definition jobA : str := u "0a1b2c3d".
Definition jobB : str := u "4e5f6a7b".
Definition topic : str := u "solid-state batteries".

Definition example_path : path :=
  Path (u "output/podcast.mp3") (u "podcast.mp3").

(** Three pipelines: one that prints nothing, one that prints a line, one
    that prints the sentinel text as a line of its own and goes on. *)
Definition quiet : M path := ([], inr example_path).
Definition chatty : M path :=
  ([Write (u "hello"); Write [10%N]], inr example_path).
Definition in_band : M path :=
  ([Write (u "  __DONE__"); Write [10%N]; Write (u "more"); Write [10%N]],
   inr example_path).

(** A pipeline that fails at once, and one that is interrupted. *)
Definition failing : M path := ([], inl (RuntimeError (u "quota exceeded"))).
Definition interrupted : M path :=
  ([], inl (Exn (u "KeyboardInterrupt") [])).

(** The identifier of job A is drawn a second time while its first thread
    still runs; the two threads then write their outcomes to the one
    entry. *)
Definition drawn_twice : list label :=
  [Submit topic jobA quiet; Submit topic jobA failing;
   RunEarlier 0; Run jobA; RunEarlier 0; Run jobA].

(** Job A is done, then its identifier is drawn again. *)
Definition drawn_again : list label :=
  [Submit topic jobA quiet; Run jobA; Run jobA; Submit topic jobA quiet].

(** Job A prints while job B is open. *)
Definition two_jobs : list label :=
  [Submit topic jobA chatty; Submit topic jobB quiet; Run jobA].

(** The pipeline of job A is interrupted; its thread runs to the end. *)
Definition interrupted_job : list label :=
  [Submit topic jobA interrupted; Run jobA; Run jobA].

(** Job A finishes, then job B prints. *)
Definition finish_then_print : list label :=
  [Submit topic jobA quiet; Submit topic jobB chatty;
   Run jobA; Run jobA; Run jobA; Run jobB].

(** The pipeline of job A prints the sentinel text, a stream relays it as
    the end of the job, and the job goes on and finishes. *)
Definition sentinel_then_done : list label :=
  [Submit topic jobA in_band; Connect jobA; Next 0; Run jobA; Next 0;
   Run jobA; Run jobA; Run jobA; Run jobA; Run jobA].

(** Job A finishes and a stream relays its end. *)
Definition finish_and_stream : list label :=
  [Submit topic jobA quiet; Run jobA; Run jobA; Run jobA;
   Connect jobA; Next 0; Next 0].

(** After that, the identifier of job A is drawn again. *)
Definition drawn_after_complete : list label :=
  finish_and_stream ++ [Submit topic jobA chatty].

(** A stream is open while the pipeline prints the sentinel text. *)
Definition print_sentinel : list label :=
  [Submit topic jobA in_band; Connect jobA; Next 0; Run jobA; Next 0].

(** The state an execution from the initial state ends in. *)
Definition final (tr : list label) : state := default init (exec tr init).

(** Stages for a run of the pipeline in which the third stage fails: the
    model answers with an array of one query, the research finds one
    record, and the summary raises. *)
Definition flash_one (system user : str) : list str * (exn + str) :=
  ([], inr (u "[1]")).
Definition research_one (queries : json) : list str * (exn + list ()) :=
  ([u "researching"], inr [()]).
Definition summarise_fails (topic : str) (data : list ())
  : list str * (exn + str) :=
  ([u "summarising"], inl (RuntimeError (u "quota exceeded"))).
Definition write_script_empty (topic report : str)
  : list str * (exn + json) :=
  ([], inr (JArr [])).
Definition produce_example (dialogue : json) : list str * (exn + path) :=
  ([], inr example_path).

End Examples.

(** ** What is offered to a channel and what is taken from it *)

Module ChannelSpec.

Import Orchestrator Server.

(** The items a statement of a thread offers to the channel of [job_id]:
    the stripped text of a [write], when it is not blank, and the sentinel
    a thread of that job puts in its [finally] block. *)
Definition offered_by_thread (job_id j : str) (r : runner) (s : state)
  : list str :=
  match r with
  | Running (text :: _) _ =>
      match strip text, _status_queues s !! job_id with
      | _ :: _, Some _ => [strip text]
      | _, _ => []
      end
  | InFinally =>
      if decide (j = job_id) then
        match _status_queues s !! job_id with
        | Some _ => [DONE]
        | None => []
        end
      else []
  | _ => []
  end.

(** The items a step offers to the channel of [job_id]. *)
Definition offered_by (job_id : str) (l : label) (s : state) : list str :=
  match l with
  | Run j =>
      match runners s !! j with
      | Some r => offered_by_thread job_id j r s
      | None => []
      end
  | RunEarlier i =>
      match earlier s !! i with
      | Some (j, r) => offered_by_thread job_id j r s
      | None => []
      end
  | _ => []
  end.

(** The item a step takes from the channel of [job_id]: what [q.get]
    returns to a stream of that job that waits on the queue of the channel
    map. *)
Definition taken_by (job_id : str) (l : label) (s : state) : list str :=
  match l with
  | Next i =>
      match streams s !! i with
      | Some st =>
          if decide (stream_job st = job_id) then
            match gen st, _status_queues s !! job_id with
            | Await, Some (line :: _) => [line]
            | _, _ => []
            end
          else []
      | None => []
      end
  | _ => []
  end.

(** The items of every step of an execution, in order. *)
Fixpoint along (f : label → state → list str) (tr : list label) (s : state)
  : list str :=
  match tr with
  | [] => []
  | l :: tr' =>
      match step l s with
      | None => []
      | Some s' => f l s ++ along f tr' s'
      end
  end.

Definition offered (job_id : str) : list label → state → list str :=
  along (offered_by job_id).

(** A submission that is accepted and draws [job_id]. *)
Definition draws (job_id : str) (l : label) : Prop :=
  match l with
  | Submit topic_field j _ => j = job_id ∧ strip topic_field ≠ []
  | _ => False
  end.


(** The messages of the [log] events among the events of a stream. *)
Definition log_messages (es : list sse) : list str :=
  omap (λ e, match e with Log message => Some message | _ => None end) es.

End ChannelSpec.

(** ** Reading a frame back *)

Module FramesSpec.

Import Orchestrator Server Frames.

(** A Unicode scalar value: a code point that is not a surrogate. *)
Definition is_scalar (c : N) : bool :=
  ((c <? 55296) || (57343 <? c) && (c <? 1114112))%N.

Definition scalar_text (s : str) : Prop := Forall (λ c, is_scalar c = true) s.

Definition scalar_member (kv : str * option str) : Prop :=
  scalar_text kv.1 ∧ scalar_text (default [] kv.2).

(** The strings of an event are texts of scalar values. *)
Definition scalar_event (e : sse) : Prop :=
  match e with
  | Keepalive => True
  | Log message => scalar_text message
  | Complete st res err =>
      scalar_text st ∧ scalar_text (default [] res)
      ∧ scalar_text (default [] err)
  end.

(** The value a JSON parser is to get from the frame of an event. *)
Definition payload_json (e : sse) : json :=
  JObj ((λ kv, (kv.1, from_option JStr JNull kv.2)) <$> payload e).

(** A printable ASCII character. *)
Definition printable (c : N) : bool := ((32 <=? c) && (c <=? 126))%N.

End FramesSpec.

(** ** Dialogue lines *)

Module LineSpec.

Import Scriptwriter Budget.

(** The members of a line. *)
Definition fields (r : json) : list (str * json) :=
  match r with
  | JObj d => d
  | _ => []
  end.

(** A dictionary whose [text], when it has one, is a string. *)
Definition is_line (r : json) : bool :=
  match r with
  | JObj d =>
      match dict_get (u "text") d with
      | Some (JStr _) | None => true
      | Some _ => false
      end
  | _ => false
  end.

End LineSpec.

(** ** The agents: what their results look like *)

Module AgentSpec.

Import Scriptwriter PyMore Orchestrator.

(** Each element of a list where it occurs first. *)
Fixpoint first_occurrences (l : list str) : list str :=
  match l with
  | [] => []
  | x :: l' => x :: filter (λ y, y ≠ x) (first_occurrences l')
  end.

(** A record of the research: a dictionary with exactly the keys [url],
    [title] and [text], in that order, whose text, when it is a string, has
    at most 15000 characters and the 17 of the truncation mark. *)
Definition is_research_record (r : json) : Prop :=
  ∃ url title text,
    r = JObj [(u "url", url); (u "title", title); (u "text", text)]
    ∧ ∀ t, text = JStr t → length t ≤ 15017.

(** A dictionary that has the three keys [_format_research] reads. *)
Definition has_source_keys (item : json) : Prop :=
  ∃ d, item = JObj d
       ∧ is_Some (dict_get (u "url") d)
       ∧ is_Some (dict_get (u "title") d)
       ∧ is_Some (dict_get (u "text") d).

(** The first of the three keys that a dictionary lacks. *)
Definition first_missing (d : list (str * json)) : option str :=
  match dict_get (u "url") d, dict_get (u "title") d, dict_get (u "text") d with
  | None, _, _ => Some (u "url")
  | Some _, None, _ => Some (u "title")
  | Some _, Some _, None => Some (u "text")
  | Some _, Some _, Some _ => None
  end.

(** Calls of a getter one after another: what each returns, and the
    variable at the end. *)
Fixpoint gets {client} (get : option client → (exn + client) * option client)
    (n : nat) (cached : option client)
  : list (exn + client) * option client :=
  match n with
  | O => ([], cached)
  | S n' =>
      let '(r, cached') := get cached in
      let '(rs, final) := gets get n' cached' in
      (r :: rs, final)
  end.

(** A request to the model: which of the two functions is called, and with
    what. *)
Inductive request : Type :=
| Flash (system_prompt user_prompt : str)
| Pro (system_prompt user_prompt : str).

(** Requests served one after another, starting with a given state of the
    client variable: what each call returns, and the variable at the end. *)
Section Serve.

Context {client : Type}.
Variable call_flash call_pro :
  str → str → option client → (exn + str) * option client.

Definition serve (rq : request) (cached : option client)
  : (exn + str) * option client :=
  match rq with
  | Flash system_prompt user_prompt => call_flash system_prompt user_prompt cached
  | Pro system_prompt user_prompt => call_pro system_prompt user_prompt cached
  end.

Fixpoint serve_all (rqs : list request) (cached : option client)
  : list (exn + str) * option client :=
  match rqs with
  | [] => ([], cached)
  | rq :: rest =>
      let '(r, cached') := serve rq cached in
      let '(rs, final) := serve_all rest cached' in
      (r :: rs, final)
  end.

End Serve.

(** A line the producer can speak: a dictionary whose [text] is a string
    and whose [speaker], when it has one, is a string. *)
Definition is_spoken_line (line : json) : Prop :=
  ∃ d t, line = JObj d ∧ dict_get (u "text") d = Some (JStr t)
         ∧ match dict_get (u "speaker") d with
           | Some (JStr _) | None => True
           | Some _ => False
           end.

End AgentSpec.

(** ** The server with the pipeline it runs *)

Module ServedSpec.

Import Orchestrator Server.

(** Every submission of the execution starts the given pipeline on the
    stripped topic of the request, as [generate] does. *)
Definition serves (run : str → M path) (l : label) : Prop :=
  match l with
  | Submit topic_field _ c => c = run (strip topic_field)
  | _ => True
  end.

(** A submission and then the thread of the job alone, up to its [finally]
    block. *)
Definition submit_and_run (topic_field job_id : str) (c : M path)
  : list label :=
  Submit topic_field job_id c
  :: replicate (length (writes (events c))
                + ServerSpec.statements_to_finally (outcome c)) (Run job_id).

End ServedSpec.

(** ** Further examples *)

Module MoreExamples.

Import Orchestrator Server Examples.

(** A line with an accent, a quote, an emoji and a line break. *)
Definition odd_line : str :=
  u "café " ++ [34%N] ++ u "ok" ++ [34%N] ++ u " 🎉" ++ [10%N] ++ u "next".

(** Job A prints two lines, a stream takes the first. *)
Definition two_lines : M path :=
  ([Write (u "one"); Write [10%N]; Write (u "  two  "); Write [10%N]],
   inr example_path).

Definition relay_one : list label :=
  [Submit topic jobA two_lines; Connect jobA; Next 0;
   Run jobA; Run jobA; Run jobA; Next 0].

(** A pipeline that prints its topic and fails. *)
Definition failing_run (topic : str) : M path :=
  ([Write topic], inl (RuntimeError (u "quota exceeded"))).

End MoreExamples.

(** A pipeline whose services all answer: the models with an array of one
    line, the search with one address, the crawler with one page. *)
Module Services.

Import Orchestrator Server Examples.

Definition py_str (v : json) : str :=
  match v with JStr s => s | _ => [] end.
Definition float_is_zero (lexeme : str) : bool := false.

Definition script : str :=
  u "[{" ++ [34%N] ++ u "speaker" ++ [34%N] ++ u ": " ++ [34%N] ++ u "Host"
  ++ [34%N] ++ u ", " ++ [34%N] ++ u "text" ++ [34%N] ++ u ": " ++ [34%N]
  ++ u "Welcome." ++ [34%N] ++ u "}]".

Definition call_model (system user : str) : list str * (exn + str) :=
  ([], inr script).
Definition search (query : json) : M (list str) :=
  ([], inr [u "https://example.org/a"]).
Definition actor_call (c : ()) (actor : str) (input : json) (timeout : nat)
  : list str * (exn + option json) :=
  ([], inr (Some (JObj [(u "defaultDatasetId", JStr (u "d1"))]))).
Definition dataset_items (c : ()) (id : json)
  : list str * (exn + list json) :=
  ([], inr [JObj [(u "url", JStr (u "https://example.org/a"));
                  (u "text", JStr (u "Solid-state cells."));
                  (u "organicResults",
                   JArr [JObj [(u "url", JStr (u "https://example.org/a"))];
                         JObj [(u "url", JStr [])]])]]).
Definition _generate_speech (text : json) (voice_id : str)
  : list str * (exn + nat) :=
  ([], inr 1000).
Definition export (combined : nat) (p : str) : list str * (exn + ()) :=
  ([], inr ()).

(** A dialogue over the total limit of 15 whose second line has no text. *)
Definition missing_text : list json :=
  [Budget.record (u "0123456789ABC");
   JObj [(u "speaker", JStr (u "Host"))];
   Budget.record (u "0123456789")].

Definition welcome : json :=
  JObj [(u "speaker", JStr (u "Host")); (u "text", JStr (u "Welcome."))].

Definition page : json :=
  JObj [(u "url", JStr (u "https://example.org/a"));
        (u "title", JStr (u "https://example.org/a"));
        (u "text", JStr (u "Solid-state cells."))].

(** The output directory is [output]; the file names of the examples have
    one component. *)
Definition output_file (filename : str) : path :=
  Path (u "output/" ++ filename) filename.
Definition format_secs (ms : nat) : str := str_of_nat (ms / 1000).

Definition run : str → M path :=
  Linked.run ExtractSpec.no_limits py_str float_is_zero call_model call_model
    [] [] [] search () (inr ()) actor_call dataset_items nat (λ ms, ms) 0
    Nat.add (λ a, a) _generate_speech export output_file format_secs.

(** A job runs the pipeline to its end, then a stream is opened and read
    to its end. *)
Definition served : list label :=
  Submit topic jobA (run (strip topic))
  :: replicate 57 (Run jobA) ++ Connect jobA :: replicate 29 (Next 0).

(** The stream of that execution, as it is at the end. *)
Definition served_stream : stream :=
  default (Stream jobA Created [])
    (streams (default init (exec served init)) !! 0).

End Services.


(* ===================================================================== *)
(** * Properties *)
(* ===================================================================== *)

(** ** Computations *)

Section EffFacts.

Context {A B : Type}.

Lemma outcome_bind (c : M A) (k : A → M B) :
  outcome (c ≫= k) =
  match outcome c with
  | inl e => inl e
  | inr x => outcome (k x)
  end.
Proof.
  destruct c as [es [e|x]]; [reflexivity|].
  unfold mbind, M_bind, bind, outcome. simpl. by destruct (k x).
Qed.

Lemma events_bind (c : M A) (k : A → M B) :
  events (c ≫= k) =
  match outcome c with
  | inl e => events c
  | inr x => events c ++ events (k x)
  end.
Proof.
  destruct c as [es [e|x]]; [reflexivity|].
  unfold mbind, M_bind, bind, events, outcome. simpl. by destruct (k x).
Qed.

Lemma outcome_lift (r : exn + A) : outcome (lift r) = r.
Proof. reflexivity. Qed.

Lemma outcome_ret (x : A) : outcome (mret x : M A) = inr x.
Proof. reflexivity. Qed.

End EffFacts.

Lemma outcome_print (t : str) : outcome (print t) = inr ().
Proof. reflexivity. Qed.

Lemma outcome_write (t : str) : outcome (write t) = inr ().
Proof. reflexivity. Qed.

(** Rewriting the outcome of a sequence of statements down to its last
    one. *)
Ltac mstep :=
  repeat first
    [ rewrite outcome_bind
    | rewrite outcome_lift
    | rewrite outcome_print
    | rewrite outcome_ret ];
  cbv beta iota.

(** ** Dictionaries *)

Lemma dict_get_set {V} (k : str) (v : V) (d : list (str * V)) :
  dict_get k (dict_set k v d) = Some v.
Proof.
  induction d as [|[k' v'] d IH]; simpl.
  - by rewrite decide_True.
  - destruct (decide (k = k')) as [->|Hne]; simpl.
    + by rewrite decide_True.
    + by rewrite decide_False.
Qed.

(** ** The budget *)

Section BudgetFacts.

Import Scriptwriter Budget.

Variable py_str : json → str.
Variables total per : nat.

Local Abbreviation truncate_lines := (truncate_lines py_str per).
Local Abbreviation trim := (trim total).
Local Abbreviation validate := (validate py_str total per).

Lemma is_record_inv r :
  is_record r = true →
  ∃ d t, r = JObj d ∧ dict_get (u "text") d = Some (JStr t).
Proof.
  destruct r as [| | | | |l|d]; try discriminate. simpl.
  destruct (dict_get (u "text") d) as [[]|] eqn:E; try discriminate.
  eauto.
Qed.

Lemma text_of_with_text t r :
  is_record r = true → text_of (with_text t r) = t.
Proof.
  intros Hr. destruct (is_record_inv r Hr) as (d & t0 & -> & _).
  unfold with_text, text_of. by rewrite dict_get_set.
Qed.

Lemma is_record_with_text t r :
  is_record r = true → is_record (with_text t r) = true.
Proof.
  intros Hr. destruct (is_record_inv r Hr) as (d & t0 & -> & _).
  unfold with_text, is_record. by rewrite dict_get_set.
Qed.

Lemma is_record_truncate r :
  is_record r = true → is_record (truncate_record per r) = true.
Proof.
  intros Hr. unfold truncate_record.
  destruct (per <? text_len r); [by apply is_record_with_text | done].
Qed.

Lemma text_len_truncate r :
  is_record r = true →
  text_len (truncate_record per r) = text_len r `min` per.
Proof.
  intros Hr. unfold truncate_record.
  destruct (Nat.ltb_spec per (text_len r)) as [Hlt|Hge].
  - unfold text_len in *. rewrite text_of_with_text by done.
    rewrite length_take. lia.
  - lia.
Qed.

Lemma total_len_cons r rs : total_len (r :: rs) = text_len r + total_len rs.
Proof. reflexivity. Qed.

Lemma total_len_app rs1 rs2 :
  total_len (rs1 ++ rs2) = total_len rs1 + total_len rs2.
Proof.
  induction rs1 as [|r rs1 IH]; [done|].
  simpl. rewrite !total_len_cons, IH. lia.
Qed.

(** The first loop computes step 1 and the total after truncation. *)
Lemma truncate_lines_spec (dialogue : list json) (i total_chars : nat) :
  Forall (λ r, is_record r = true) dialogue →
  outcome (truncate_lines i dialogue total_chars)
  = inr (truncate_record per <$> dialogue,
         total_chars + total_len (truncate_record per <$> dialogue)).
Proof.
  intros Hd. revert i total_chars.
  induction Hd as [|line rest Hr _ IH]; intros i total_chars.
  - simpl. mstep. do 2 f_equal. unfold total_len. simpl. lia.
  - pose proof (text_len_truncate line Hr) as Hlen.
    destruct (is_record_inv line Hr) as (d & t & -> & Ht).
    assert (Hl : text_len (JObj d) = length t)
      by (unfold text_len, text_of; by rewrite Ht).
    assert (Htr : truncate_record per (JObj d)
                  = if per <? length t
                    then JObj (dict_set (u "text") (JStr (take per t)) d)
                    else JObj d).
    { unfold truncate_record. rewrite Hl. unfold text_of. by rewrite Ht. }
    rewrite fmap_cons, total_len_cons, Hlen, Hl, Htr.
    cbn [Scriptwriter.truncate_lines]. mstep.
    unfold get at 1. mstep. unfold get. rewrite Ht. cbn [from_option id].
    mstep. unfold len. mstep.
    destruct (Nat.ltb_spec per (length t)) as [Hlt|Hge].
    + mstep. unfold slice_to, setitem. mstep. rewrite IH. mstep.
      do 2 f_equal. lia.
    + mstep. rewrite IH. mstep. do 2 f_equal. lia.
Qed.

Lemma walk_app_fits (rs : list json) (running : nat) :
  running + total_len rs ≤ total → walk total running rs = rs.
Proof.
  revert running. induction rs as [|r rs IH]; intros running Hfit; [done|].
  rewrite total_len_cons in Hfit. simpl.
  destruct (Nat.leb_spec (running + text_len r) total); [|lia].
  f_equal. apply IH. lia.
Qed.

(** The second loop computes step 2. *)
Lemma trim_spec (dialogue trimmed : list json) (running : nat) :
  Forall (λ r, is_record r = true) dialogue →
  outcome (trim dialogue trimmed running)
  = inr (trimmed ++ walk total running dialogue,
         running + total_len (walk total running dialogue)).
Proof.
  intros Hd. revert trimmed running.
  induction Hd as [|line rest Hr _ IH]; intros trimmed running.
  - simpl. mstep. rewrite app_nil_r. do 2 f_equal. unfold total_len. simpl. lia.
  - destruct (is_record_inv line Hr) as (d & t & -> & Ht).
    assert (Hl : text_len (JObj d) = length t)
      by (unfold text_len, text_of; by rewrite Ht).
    cbn [Scriptwriter.trim walk]. rewrite Hl. mstep.
    unfold getitem. rewrite Ht. mstep. unfold len. mstep.
    destruct (Nat.ltb_spec total (running + length t)) as [Hlt|Hge].
    + destruct (Nat.leb_spec (running + length t) total); [lia|].
      mstep. rewrite app_nil_r. do 2 f_equal. unfold total_len. simpl. lia.
    + destruct (Nat.leb_spec (running + length t) total); [|lia].
      rewrite IH. rewrite <- app_assoc. simpl.
      do 2 f_equal. rewrite total_len_cons, Hl. lia.
Qed.

(** The validation block computes [enforce]. *)
Lemma validate_spec (dialogue : list json) :
  Forall (λ r, is_record r = true) dialogue →
  outcome (validate dialogue) = inr (enforce dialogue per total).
Proof.
  intros Hd. unfold Scriptwriter.validate. mstep.
  rewrite truncate_lines_spec by done. mstep.
  assert (Hd' : Forall (λ r, is_record r = true)
                  (truncate_record per <$> dialogue)).
  { apply Forall_fmap. eapply Forall_impl; [exact Hd|].
    intros r Hr. by apply is_record_truncate. }
  unfold enforce.
  destruct (Nat.ltb_spec total (0 + total_len (truncate_record per <$> dialogue)))
    as [Hlt|Hge].
  - mstep. rewrite trim_spec by done. mstep. reflexivity.
  - mstep. by rewrite walk_app_fits.
Qed.

Lemma walk_prefix (rs : list json) (running : nat) :
  walk total running rs `prefix_of` rs.
Proof.
  revert running. induction rs as [|r rs IH]; intros running; [done|].
  simpl. destruct (running + text_len r <=? total).
  - by apply prefix_cons.
  - apply prefix_nil.
Qed.

Lemma walk_total (rs : list json) (running : nat) :
  running ≤ total → running + total_len (walk total running rs) ≤ total.
Proof.
  revert running. induction rs as [|r rs IH]; intros running Hr.
  - unfold total_len. simpl. lia.
  - simpl. destruct (Nat.leb_spec (running + text_len r) total) as [Hle|Hgt].
    + rewrite total_len_cons. specialize (IH _ Hle). lia.
    + unfold total_len. simpl. lia.
Qed.

(** The walk stops exactly at the first record that does not fit. *)
Lemma walk_stops (rs : list json) (running : nat) :
  walk total running rs = rs
  ∨ ∃ r rest, rs = walk total running rs ++ r :: rest
              ∧ total < running + total_len (walk total running rs) + text_len r.
Proof.
  revert running. induction rs as [|r rs IH]; intros running; [by left|].
  simpl. destruct (Nat.leb_spec (running + text_len r) total) as [Hle|Hgt].
  - destruct (IH (running + text_len r)) as [->|(r' & rest & Heq & Hov)].
    + by left.
    + right. exists r', rest. split.
      * simpl. by rewrite <- Heq.
      * rewrite total_len_cons. lia.
  - right. exists r, rs. split; [done|]. unfold total_len. simpl. lia.
Qed.

Lemma Scriptwriter_validate_example :
  outcome (Scriptwriter.validate py_str 15 10 example_records)
  = inr [record (u "0123456789"); record (u "short")].
Proof. clear. vm_compute. reflexivity. Qed.

(** [write_script] returns what the validation block returns: when the model
    answers with a text from which [_extract_json] gets a list of records,
    the dialogue handed to the producer is the enforced list. *)
Lemma write_script_outcome (limits : str → option exn)
    (call_pro : str → str → list str * (exn + str)) (_SYSTEM_PROMPT : str)
    (topic report raw : str) (items : list json) :
  let user_prompt :=
    u "Topic: " ++ topic ++ [10%N; 10%N]
    ++ u "Research Report:" ++ [10%N] ++ report ++ [10%N; 10%N]
    ++ u "Now write the podcast script as a JSON array." in
  (call_pro _SYSTEM_PROMPT user_prompt).2 = inr raw →
  _extract_json limits raw = inr (JArr items) →
  Forall (λ r, is_record r = true) items →
  outcome (write_script py_str total per limits call_pro _SYSTEM_PROMPT topic
             report)
  = inr (JArr (enforce items per total)).
Proof.
  intros user_prompt Hcall Hex Hrec. unfold write_script. fold user_prompt.
  mstep. destruct (call_pro _SYSTEM_PROMPT user_prompt) as [out r].
  cbn [snd] in Hcall. subst r. cbn [outcome snd]. mstep.
  rewrite Hex. cbn [iter]. mstep.
  rewrite (validate_spec items Hrec). by mstep.
Qed.

(** C2.  Budget enforcement.  On every list of records the validation block
    of [write_script] returns what the two steps of the specification
    compute: each text longer than the per-record limit is cut to exactly
    that many characters and the other records are left alone; the result is
    the prefix of the truncated list that the walk keeps, ending at the first
    record that would push the running total over the total limit.  Hence no
    returned text is longer than the per-record limit and the returned texts
    add up to at most the total limit.  With limits 10 and 15 and texts of
    13 and 5 characters, the first is cut to 10 and both are returned, 15
    characters in all. *)
Theorem budget_enforcement (dialogue : list json) :
  Forall (λ r, is_record r = true) dialogue →
  let truncated := truncate_record per <$> dialogue in
  let out := enforce dialogue per total in
  outcome (validate dialogue) = inr out
  ∧ Forall (λ r,
      (per < text_len r →
         text_of (truncate_record per r) = take per (text_of r)
         ∧ text_len (truncate_record per r) = per)
      ∧ (text_len r ≤ per → truncate_record per r = r)) dialogue
  ∧ out `prefix_of` truncated
  ∧ (out = truncated
     ∨ ∃ r rest, truncated = out ++ r :: rest
                 ∧ total < total_len out + text_len r)
  ∧ Forall (λ r, text_len r ≤ per) out
  ∧ total_len out ≤ total
  ∧ (let kept := [record (u "0123456789"); record (u "short")] in
     text_len <$> example_records = [13; 5]
     ∧ outcome (Scriptwriter.validate py_str 15 10 example_records) = inr kept
     ∧ text_len <$> kept = [10; 5]
     ∧ total_len kept = 15).
Proof.
  intros Hd truncated out.
  assert (Ht : Forall (λ r, text_len r ≤ per) truncated).
  { apply Forall_fmap. eapply Forall_impl; [exact Hd|].
    intros r Hr. simpl. rewrite text_len_truncate by done. lia. }
  split; [by apply validate_spec|].
  split.
  { eapply Forall_impl; [exact Hd|]. intros r Hr. split.
    - intros Hlt. unfold truncate_record.
      destruct (Nat.ltb_spec per (text_len r)); [|lia].
      unfold text_len. rewrite text_of_with_text by done.
      split; [done|]. rewrite length_take. unfold text_len in Hlt. lia.
    - intros Hle. unfold truncate_record.
      by destruct (Nat.ltb_spec per (text_len r)); [lia|]. }
  split; [apply walk_prefix|].
  split.
  { destruct (walk_stops truncated 0) as [Heq|(r & rest & Heq & Hov)].
    - by left.
    - right. by exists r, rest. }
  split.
  { destruct (walk_prefix truncated 0) as [k Hk]. fold out in Hk.
    rewrite Hk in Ht. by apply Forall_app in Ht as [? _]. }
  split.
  { pose proof (walk_total truncated 0). unfold out, enforce.
    fold truncated. lia. }
  split; [reflexivity|]. split; [|split; reflexivity].
  clear. rewrite Scriptwriter_validate_example. reflexivity.
Qed.

End BudgetFacts.

Lemma budget_enforcement_witness :
  outcome (Scriptwriter.validate (λ _, []) 15 10 Budget.example_records)
  = inr (Budget.enforce Budget.example_records 10 15).
Proof.
  apply (budget_enforcement (λ _, []) 15 10 Budget.example_records).
  repeat constructor.
Defined.


(** ** The matcher *)

Section ReFacts.

Import ReSpec.

Lemma strip_prefix_Some (l s s' : str) :
  strip_prefix l s = Some s' → s = l ++ s'.
Proof.
  revert s. induction l as [|a l IH]; intros s H.
  - by injection H as ->.
  - destruct s as [|b s]; [done|]. simpl in H.
    destruct (N.eqb_spec a b) as [->|]; [|done].
    simpl. f_equal. by apply IH.
Qed.

Lemma group0_push_all g l r : group0 (push_all g l r) = l ++ group0 r.
Proof. induction l as [|x l IH]; [done|]. simpl. by rewrite IH. Qed.

Lemma group1_push_all g l r :
  group1 (push_all g l r) = (if g then l else []) ++ group1 r.
Proof.
  induction l as [|x l IH]; [by destruct g|].
  simpl. rewrite IH. by destruct g.
Qed.

(** Whatever [m] returns is a match of the pattern at the head of the
    text. *)
Lemma m_sound (p : list atom) :
  ∀ g s r, m p g s = Some r →
    den p g (group0 r) (group1 r) ∧ ∃ rest, s = group0 r ++ rest.
Proof.
  induction p as [|a p IH]; intros g s r H.
  { injection H as <-. split; [done|]. by exists s. }
  destruct a as [k|l|k|k| |].
  - (* One *)
    simpl in H. destruct s as [|x s']; [done|].
    destruct (in_cls k x) eqn:Ex; [|done].
    destruct (m p g s') as [r'|] eqn:Er; [|done].
    injection H as <-. destruct (IH _ _ _ Er) as [Hd [rest ->]].
    split; [|by exists rest].
    simpl. exists x, (group0 r'), (group1 r'). by destruct g.
  - (* OptLit *)
    simpl in H. destruct (strip_prefix l s) as [s'|] eqn:Es.
    + apply strip_prefix_Some in Es as ->.
      destruct (m p g s') as [r'|] eqn:Er.
      * injection H as <-. destruct (IH _ _ _ Er) as [Hd [rest ->]].
        rewrite group0_push_all, group1_push_all. split.
        -- left. by exists (group0 r'), (group1 r').
        -- exists rest. by rewrite <- app_assoc.
      * destruct (IH _ _ _ H) as [Hd Hrest]. split; [by right|done].
    + destruct (IH _ _ _ H) as [Hd Hrest]. split; [by right|done].
  - (* StarG *)
    simpl in H. revert r H. induction s as [|x s' IHs]; intros r H.
    + destruct (IH _ _ _ H) as [Hd Hrest]. split; [|done].
      exists [], (group0 r), (group1 r). by destruct g.
    + destruct (in_cls k x) eqn:Ex.
      * match type of H with
        | match ?t with _ => _ end = _ => destruct t as [r'|] eqn:Er
        end.
        -- injection H as <-.
           destruct (IHs _ eq_refl) as [(xs & w' & grp' & H0 & Hxs & H1 & Hd)
                                      [rest Hrest]].
           split.
           ++ exists (x :: xs), w', grp'. simpl. rewrite H0, H1.
              split; [done|]. split; [by constructor|]. by destruct g.
           ++ exists rest. simpl. by rewrite Hrest at 1.
        -- destruct (IH _ _ _ H) as [Hd Hrest]. split; [|done].
           exists [], (group0 r), (group1 r). by destruct g.
      * destruct (IH _ _ _ H) as [Hd Hrest]. split; [|done].
        exists [], (group0 r), (group1 r). by destruct g.
  - (* StarL *)
    simpl in H. revert r H. induction s as [|x s' IHs]; intros r H.
    + destruct (m p g []) as [r'|] eqn:Er; [|done]. injection H as <-.
      destruct (IH _ _ _ Er) as [Hd Hrest]. split; [|done].
      exists [], (group0 r'), (group1 r'). by destruct g.
    + destruct (m p g (x :: s')) as [r'|] eqn:Er.
      * injection H as <-. destruct (IH _ _ _ Er) as [Hd Hrest].
        split; [|done]. exists [], (group0 r'), (group1 r'). by destruct g.
      * destruct (in_cls k x) eqn:Ex; [|done].
        match type of H with
        | _ <$> ?t = _ => destruct t as [r'|] eqn:Er'
        end; [|done].
        injection H as <-.
        destruct (IHs _ eq_refl) as [(xs & w' & grp' & H0 & Hxs & H1 & Hd)
                                    [rest Hrest]].
        split.
        -- exists (x :: xs), w', grp'. simpl. rewrite H0, H1.
           split; [done|]. split; [by constructor|]. by destruct g.
        -- exists rest. simpl. by rewrite Hrest at 1.
  - (* Open *) simpl in H. by apply IH in H.
  - (* Close *) simpl in H. by apply IH in H.
Qed.

(** [search] returns a match somewhere in the text. *)
Lemma search_sound (p : list atom) (s : str) (r : match_obj) :
  search p s = Some r →
  den p false (group0 r) (group1 r) ∧ ∃ pre rest, s = pre ++ group0 r ++ rest.
Proof.
  induction s as [|x s IH]; simpl.
  - destruct (m p false []) as [r'|] eqn:E; [|done]. intros [= <-].
    destruct (m_sound _ _ _ _ E) as [Hd [rest Hrest]].
    split; [done|]. by exists [], rest.
  - destruct (m p false (x :: s)) as [r'|] eqn:E.
    + intros [= <-]. destruct (m_sound _ _ _ _ E) as [Hd [rest Hrest]].
      split; [done|]. by exists [], rest.
    + intros H. destruct (IH H) as [Hd (pre & rest & ->)].
      split; [done|]. by exists (x :: pre), rest.
Qed.

End ReFacts.

(** ** The decoder *)

(** Case analysis along a decoder function that returned a value. *)
Ltac bind_inv H :=
  match type of H with
  | (?x ≫= _) = Some _ =>
      let E := fresh "E" in
      destruct x as [[? ?]|] eqn:E; [simpl in H | discriminate H]
  end.

Ltac decode_inv H :=
  repeat first
    [ bind_inv H
    | match type of H with
      | context [match ?t with _ => _ end] =>
          let E := fresh "E" in destruct t eqn:E; simpl in H; try discriminate H
      end ].

Arguments match_constant : simpl never.
Arguments match_number : simpl never.
Arguments scanstring : simpl never.

Section JsonFacts.

Lemma scan_once_S fuel s :
  scan_once (S fuel) s =
  match s with
  | [] => None
  | c :: s' =>
    if (c =? 34)%N then '(v, r) ← scanstring s'; Some (JStr v, r)
    else if (c =? ch "{")%N then
      match skip_ws s' with
      | c1 :: r1 =>
          if (c1 =? ch "}")%N then Some (JObj [], r1)
          else parse_members fuel (c1 :: r1) []
      | [] => None
      end
    else if (c =? ch "[")%N then
      match skip_ws s' with
      | c1 :: r1 =>
          if (c1 =? ch "]")%N then Some (JArr [], r1)
          else parse_items fuel (c1 :: r1) []
      | [] => None
      end
    else
      match match_constant constants s with
      | Some r => Some r
      | None => match_number s
      end
  end.
Proof. reflexivity. Qed.

Lemma parse_members_S fuel s acc :
  parse_members (S fuel) s acc =
  match s with
  | q :: s1 =>
    if (q =? 34)%N then
      '(k, r1) ← scanstring s1;
      match skip_ws r1 with
      | colon :: r2 =>
        if (colon =? ch ":")%N then
          '(v, r3) ← scan_once fuel (skip_ws r2);
          match skip_ws r3 with
          | c :: r4 =>
              if (c =? ch "}")%N then Some (JObj (dict_set k v acc), r4)
              else if (c =? ch ",")%N
              then parse_members fuel (skip_ws r4) (dict_set k v acc)
              else None
          | [] => None
          end
        else None
      | [] => None
      end
    else None
  | [] => None
  end.
Proof. reflexivity. Qed.

Lemma parse_items_S fuel s acc :
  parse_items (S fuel) s acc =
  '(v, r) ← scan_once fuel s;
  match skip_ws r with
  | c :: r' =>
      if (c =? ch "]")%N then Some (JArr (acc ++ [v]), r')
      else if (c =? ch ",")%N then parse_items fuel (skip_ws r') (acc ++ [v])
      else None
  | [] => None
  end.
Proof. reflexivity. Qed.

(** The array loop returns a list, the object loop a dictionary. *)
Lemma parse_items_arr fuel : ∀ s acc v r,
  parse_items fuel s acc = Some (v, r) → ∃ items, v = JArr items.
Proof.
  induction fuel as [|fuel IH]; intros s acc v r H; [done|].
  rewrite parse_items_S in H. decode_inv H; simplify_eq; eauto.
Qed.

Lemma parse_members_obj fuel : ∀ s acc v r,
  parse_members fuel s acc = Some (v, r) → ∃ d, v = JObj d.
Proof.
  induction fuel as [|fuel IH]; intros s acc v r H; [done|].
  rewrite parse_members_S in H. decode_inv H; simplify_eq; eauto.
Qed.

Lemma match_number_not_arr s v r :
  match_number s = Some (v, r) → ∀ items, v ≠ JArr items.
Proof.
  unfold match_number. intros H items ->.
  destruct (lex_sign s) as [neg s1].
  destruct (lex_int s1) as [[int_part s2]|]; [|done]. simpl in H.
  destruct (lex_frac s2) as [[|? ?] s3], (lex_exp s3) as [[|? ?] s4];
    by simplify_eq.
Qed.

Lemma match_constant_not_arr s v r :
  match_constant constants s = Some (v, r) → ∀ items, v ≠ JArr items.
Proof.
  unfold constants, match_constant. intros H items ->.
  repeat match type of H with
  | context [match ?t with _ => _ end] => destruct t; try done
  end.
Qed.

(** A value that is a list starts with an opening bracket, and a value that
    starts with an opening bracket is a list. *)
Lemma scan_once_arr_head fuel s items r :
  scan_once fuel s = Some (JArr items, r) → ∃ s', s = ch "[" :: s'.
Proof.
  destruct fuel as [|fuel]; [done|]. rewrite scan_once_S.
  destruct s as [|c s']; [done|].
  destruct (c =? 34)%N.
  { intros H. decode_inv H; simplify_eq. }
  destruct (c =? ch "{")%N.
  { destruct (skip_ws s') as [|c1 r1]; [done|].
    destruct (c1 =? ch "}")%N; [done|].
    intros H. by apply parse_members_obj in H as [d ?]. }
  destruct (N.eqb_spec c (ch "[")) as [->|]; [eauto|].
  destruct (match_constant constants (c :: s')) as [[v r0]|] eqn:E.
  { intros ?; simplify_eq. by eapply match_constant_not_arr in E. }
  intros H. by eapply match_number_not_arr in H.
Qed.

Lemma scan_once_head_arr fuel s' v r :
  scan_once fuel (ch "[" :: s') = Some (v, r) → ∃ items, v = JArr items.
Proof.
  destruct fuel as [|fuel]; [done|]. rewrite scan_once_S.
  change (ch "[" =? 34)%N with false. change (ch "[" =? ch "{")%N with false.
  change (ch "[" =? ch "[")%N with true. cbv iota.
  destruct (skip_ws s') as [|c1 r1]; [done|].
  destruct (c1 =? ch "]")%N; [intros ?; simplify_eq; eauto|].
  apply parse_items_arr.
Qed.

Lemma skip_ws_head (c : N) (s' : str) :
  is_json_ws c = false → skip_ws (c :: s') = c :: s'.
Proof. intros H. simpl. by rewrite H. Qed.

Lemma json_loads_Some s v :
  json_loads s = Some v →
  ∃ r, scan_once (2 * length s + 2) (skip_ws s) = Some (v, r) ∧ skip_ws r = [].
Proof.
  unfold json_loads. destruct (starts_with_bom s); [done|].
  destruct (scan_once _ _) as [[v1 r1]|] eqn:E; [|done]. simpl.
  destruct (skip_ws r1) eqn:Er; [|done]. intros [= <-]. eauto.
Qed.

Lemma json_loads_head_arr s' v :
  json_loads (ch "[" :: s') = Some v → ∃ items, v = JArr items.
Proof.
  intros (r & H & _)%json_loads_Some.
  rewrite skip_ws_head in H by done. by apply scan_once_head_arr in H.
Qed.

End JsonFacts.

(** ** The extractor: the shape of what the patterns find *)

Section PatternFacts.

Import ReSpec ExtractSpec.

Lemma fence_re_eq :
  fence_re =
  [One (Chr 96); One (Chr 96); One (Chr 96); OptLit (u "json"); StarG Space;
   Open; One (Chr 91); StarL Any; One (Chr 93); Close;
   StarG Space; One (Chr 96); One (Chr 96); One (Chr 96)]%N.
Proof. reflexivity. Qed.

Lemma in_cls_Chr c x : in_cls (Chr c) x = true → x = c.
Proof. simpl. by intros ?%N.eqb_eq. Qed.

(** The pattern after the optional tag. *)
Lemma fence_tail_den (w grp : str) :
  den [StarG Space; Open; One (Chr 91); StarL Any; One (Chr 93); Close;
       StarG Space; One (Chr 96); One (Chr 96); One (Chr 96)]%N false w grp →
  ∃ ws1 body ws2,
    w = ws1 ++ grp ++ ws2 ++ [96; 96; 96]%N
    ∧ Forall (λ x, is_space x = true) ws1
    ∧ grp = 91%N :: body ++ [93%N]
    ∧ Forall (λ x, is_space x = true) ws2.
Proof.
  cbn [den].
  intros (ws1 & w1 & g1 & -> & Hws1 & -> & x & w2 & g2 & -> & ->%in_cls_Chr &
    -> & body & w3 & g3 & -> & _ & -> & x0 & w4 & g4 & -> & ->%in_cls_Chr &
    -> & ws2 & w5 & g5 & -> & Hws2 & -> & y1 & w6 & g6 & -> & ->%in_cls_Chr &
    -> & y2 & w7 & g7 & -> & ->%in_cls_Chr & -> & y3 & w8 & g8 & -> &
    ->%in_cls_Chr & -> & -> & ->).
  exists ws1, body, ws2. simpl. split; [|done].
  f_equal. f_equal. rewrite <- !app_assoc. reflexivity.
Qed.

(** A match of the fence pattern: the fence, the optional tag, white space,
    the group from an opening to a closing bracket, white space, the
    fence. *)
Lemma fence_den (w grp : str) :
  den fence_re false w grp →
  ∃ tag ws1 body ws2,
    w = [96; 96; 96]%N ++ tag ++ ws1 ++ grp ++ ws2 ++ [96; 96; 96]%N
    ∧ (tag = [] ∨ tag = u "json")
    ∧ Forall (λ x, is_space x = true) ws1
    ∧ grp = 91%N :: body ++ [93%N]
    ∧ Forall (λ x, is_space x = true) ws2.
Proof.
  rewrite fence_re_eq. cbn [den].
  intros (x1 & w1 & g1 & -> & ->%in_cls_Chr & -> & x2 & w2 & g2 & -> &
          ->%in_cls_Chr & -> & x3 & w3 & g3 & -> & ->%in_cls_Chr & -> & Hopt).
  destruct Hopt as [(w4 & g4 & -> & -> & H)|H];
    apply fence_tail_den in H as (ws1 & body & ws2 & -> & ? & ? & ?).
  - by exists (u "json"), ws1, body, ws2; auto.
  - by exists [], ws1, body, ws2; auto.
Qed.

Lemma fence_search (raw : str) (fm : match_obj) :
  search fence_re raw = Some fm →
  ∃ pre tag ws1 body ws2 rest,
    raw = pre ++ [96; 96; 96]%N ++ tag ++ ws1 ++ group1 fm
              ++ ws2 ++ [96; 96; 96]%N ++ rest
    ∧ (tag = [] ∨ tag = u "json")
    ∧ Forall (λ x, is_space x = true) ws1
    ∧ group1 fm = 91%N :: body ++ [93%N]
    ∧ Forall (λ x, is_space x = true) ws2.
Proof.
  intros [Hd (pre & rest & ->)]%search_sound.
  apply fence_den in Hd as (tag & ws1 & body & ws2 & -> & ? & ? & ? & ?).
  exists pre, tag, ws1, body, ws2, rest. split; [|done].
  by rewrite <- !app_assoc.
Qed.

Lemma bracket_search (raw : str) (bm : match_obj) :
  search bracket_re raw = Some bm →
  ∃ pre body rest,
    raw = pre ++ group0 bm ++ rest ∧ group0 bm = 91%N :: body ++ [93%N].
Proof.
  intros [Hd (pre & rest & ->)]%search_sound.
  cbn [bracket_re den] in Hd.
  destruct Hd as (x & w1 & g1 & Hw & ->%in_cls_Chr & _ & xs & w2 & g2 & -> &
    _ & _ & x2 & w3 & g3 & -> & ->%in_cls_Chr & _ & -> & _).
  exists pre, xs, rest. by rewrite Hw.
Qed.

Variable limits : str → option exn.

Lemma loads_Value s v : loads limits s = Value v → json_loads s = Some v.
Proof.
  unfold loads. destruct (limits s); [done|].
  destruct (json_loads s); [|done]. by intros [= ->].
Qed.

Lemma loads_within s : limits s = None →
  loads limits s = match json_loads s with
                   | Some v => Value v
                   | None => DecodeError
                   end.
Proof. unfold loads. by intros ->. Qed.

(** What the second and the third strategy parse is a piece of the text
    that starts with a bracket, so their result is a list. *)
Lemma fenced_infix raw v :
  fenced limits raw = Some (inr v) →
  ∃ sub items, infix sub raw ∧ json_loads sub = Some v ∧ v = JArr items.
Proof.
  unfold fenced. destruct (search fence_re raw) as [fm|] eqn:E; [|done].
  destruct (loads limits (group1 fm)) as [v'| |e] eqn:El; [|done|done].
  intros [= ->]. apply loads_Value in El as Hv.
  destruct (fence_search _ _ E)
    as (pre & tag & ws1 & body & ws2 & rest & Hraw & _ & _ & Hg & _).
  pose proof Hv as Hv'. rewrite Hg in Hv'.
  apply json_loads_head_arr in Hv' as [items ->].
  exists (group1 fm), items. split; [|done].
  exists (pre ++ [96; 96; 96]%N ++ tag ++ ws1), (ws2 ++ [96; 96; 96]%N ++ rest).
  rewrite Hraw. by rewrite <- !app_assoc.
Qed.

Lemma bracketed_infix raw v :
  bracketed limits raw = Some (inr v) →
  ∃ sub items, infix sub raw ∧ json_loads sub = Some v ∧ v = JArr items.
Proof.
  unfold bracketed. destruct (search bracket_re raw) as [bm|] eqn:E; [|done].
  destruct (loads limits (group0 bm)) as [v'| |e] eqn:El; [|done|done].
  intros [= ->]. apply loads_Value in El as Hv.
  destruct (bracket_search _ _ E) as (pre & body & rest & Hraw & Hg).
  pose proof Hv as Hv'. rewrite Hg in Hv'.
  apply json_loads_head_arr in Hv' as [items ->].
  exists (group0 bm), items. split; [|done]. by exists pre, rest.
Qed.

Lemma direct_None raw : direct limits raw = None ↔ direct_fails limits raw.
Proof.
  unfold direct, direct_fails, loads. destruct (limits raw) as [e|].
  { split; [done|]. by intros [? _]. }
  destruct (json_loads raw) as [[]|]; split; try done;
    try (intros _; split; [done|]; intros items; done).
  intros [_ H]. by destruct (H items).
Qed.

Lemma fenced_None raw : fenced limits raw = None ↔ fence_fails limits raw.
Proof.
  unfold fenced, fence_fails, loads.
  destruct (search fence_re raw) as [fm|]; [|done].
  destruct (limits (group1 fm)) as [e|].
  { split; [done|]. by intros [? _]. }
  destruct (json_loads (group1 fm)); split; try done. by intros [_ ?].
Qed.

Lemma bracketed_None raw :
  bracketed limits raw = None ↔ bracket_fails limits raw.
Proof.
  unfold bracketed, bracket_fails, loads.
  destruct (search bracket_re raw) as [bm|]; [|done].
  destruct (limits (group0 bm)) as [e|].
  { split; [done|]. by intros [? _]. }
  destruct (json_loads (group0 bm)); split; try done. by intros [_ ?].
Qed.

Lemma _extract_json_list raw v :
  _extract_json limits raw = inr v → ∃ items, v = JArr items.
Proof.
  unfold _extract_json. destruct (direct limits raw) as [[e|data]|];
    [done|intros [= <-]; eauto|].
  destruct (fenced limits raw) as [r|] eqn:E1.
  { intros ->. apply fenced_infix in E1 as (? & ? & ? & ? & ->). eauto. }
  destruct (bracketed limits raw) as [r|] eqn:E2; [|done].
  intros ->. apply bracketed_infix in E2 as (? & ? & ? & ? & ->). eauto.
Qed.

Lemma _extract_queries_list py_str raw v :
  _extract_queries limits py_str raw = inr v → ∃ items, v = JArr items.
Proof.
  unfold _extract_queries. destruct (direct limits raw) as [[e|data]|];
    [done|intros [= <-]; eauto|].
  destruct (fenced limits raw) as [r|] eqn:E1.
  { intros ->. apply fenced_infix in E1 as (? & ? & ? & ? & ->). eauto. }
  destruct (bracketed limits raw) as [r|] eqn:E2; [|done].
  intros ->. apply bracketed_infix in E2 as (? & ? & ? & ? & ->). eauto.
Qed.

End PatternFacts.
(** ** The extractor: failure *)

Section ExtractionFailure.

Import ExtractSpec.

Variable limits : str → option exn.
Variable py_str : json → str.

Lemma extract_all_fail raw :
  direct_fails limits raw → fence_fails limits raw →
  bracket_fails limits raw →
  _extract_json limits raw
  = inl (ValueError
           (u "Could not extract valid JSON dialogue from LLM response."))
  ∧ _extract_queries limits py_str raw
    = inl (ValueError
             (u "Could not extract search queries from LLM response.")).
Proof.
  intros Hd%direct_None Hf%fenced_None Hb%bracketed_None.
  unfold _extract_json, _extract_queries. by rewrite Hd, Hf, Hb.
Qed.

Lemma extract_escapes raw e :
  escapes limits raw e →
  _extract_json limits raw = inl e
  ∧ _extract_queries limits py_str raw = inl e.
Proof.
  unfold _extract_json, _extract_queries.
  intros [H|[(Hd%direct_None & fm & Hs & Hl)
            |(Hd%direct_None & Hf%fenced_None & bm & Hs & Hl)]].
  - unfold direct, loads. by rewrite H.
  - rewrite Hd. unfold fenced, loads. by rewrite Hs, Hl.
  - rewrite Hd, Hf. unfold bracketed, loads. by rewrite Hs, Hl.
Qed.

(** How an attempt ends: it fails, it raises, or it returns. *)
Lemma direct_cases raw :
  direct_fails limits raw
  ∨ (∃ e, limits raw = Some e ∧ direct limits raw = Some (inl e))
  ∨ (∃ data, direct limits raw = Some (inr data)).
Proof.
  destruct (direct limits raw) as [[e|data]|] eqn:E.
  - right. left. exists e. split; [|done].
    unfold direct, loads in E. destruct (limits raw); [by simplify_eq|].
    by destruct (json_loads raw) as [[]|].
  - right. right. by exists data.
  - left. by apply direct_None.
Qed.

Lemma fenced_cases raw :
  fence_fails limits raw
  ∨ (∃ fm e, search fence_re raw = Some fm ∧ limits (group1 fm) = Some e
             ∧ fenced limits raw = Some (inl e))
  ∨ (∃ v, fenced limits raw = Some (inr v)).
Proof.
  destruct (fenced limits raw) as [[e|v]|] eqn:E.
  - right. left. unfold fenced, loads in E.
    destruct (search fence_re raw) as [fm|]; [|done].
    exists fm, e. destruct (limits (group1 fm)); [by simplify_eq|].
    by destruct (json_loads (group1 fm)).
  - right. right. by exists v.
  - left. by apply fenced_None.
Qed.

Lemma bracketed_cases raw :
  bracket_fails limits raw
  ∨ (∃ bm e, search bracket_re raw = Some bm ∧ limits (group0 bm) = Some e
             ∧ bracketed limits raw = Some (inl e))
  ∨ (∃ v, bracketed limits raw = Some (inr v)).
Proof.
  destruct (bracketed limits raw) as [[e|v]|] eqn:E.
  - right. left. unfold bracketed, loads in E.
    destruct (search bracket_re raw) as [bm|]; [|done].
    exists bm, e. destruct (limits (group0 bm)); [by simplify_eq|].
    by destruct (json_loads (group0 bm)).
  - right. right. by exists v.
  - left. by apply bracketed_None.
Qed.

Lemma _extract_json_raises raw e :
  _extract_json limits raw = inl e →
  (direct_fails limits raw ∧ fence_fails limits raw
   ∧ bracket_fails limits raw
   ∧ e = ValueError
           (u "Could not extract valid JSON dialogue from LLM response."))
  ∨ escapes limits raw e.
Proof.
  unfold _extract_json, escapes.
  destruct (direct_cases raw) as [Hd|[(e1 & Hl & ->)|[data ->]]];
    [|intros [= <-]; by right; left|done].
  pose proof Hd as Hd'. apply direct_None in Hd' as ->.
  destruct (fenced_cases raw) as [Hf|[(fm & e1 & Hs & Hl & ->)|[v ->]]];
    [|intros [= <-]; right; right; left; eauto|done].
  pose proof Hf as Hf'. apply fenced_None in Hf' as ->.
  destruct (bracketed_cases raw) as [Hb|[(bm & e1 & Hs & Hl & ->)|[v ->]]];
    [|intros [= <-]; right; right; right; eauto|done].
  pose proof Hb as Hb'. apply bracketed_None in Hb' as ->.
  intros [= <-]. by left.
Qed.

Lemma _extract_queries_raises raw e :
  _extract_queries limits py_str raw = inl e →
  (direct_fails limits raw ∧ fence_fails limits raw
   ∧ bracket_fails limits raw
   ∧ e = ValueError
           (u "Could not extract search queries from LLM response."))
  ∨ escapes limits raw e.
Proof.
  unfold _extract_queries, escapes.
  destruct (direct_cases raw) as [Hd|[(e1 & Hl & ->)|[data ->]]];
    [|intros [= <-]; by right; left|done].
  pose proof Hd as Hd'. apply direct_None in Hd' as ->.
  destruct (fenced_cases raw) as [Hf|[(fm & e1 & Hs & Hl & ->)|[v ->]]];
    [|intros [= <-]; right; right; left; eauto|done].
  pose proof Hf as Hf'. apply fenced_None in Hf' as ->.
  destruct (bracketed_cases raw) as [Hb|[(bm & e1 & Hs & Hl & ->)|[v ->]]];
    [|intros [= <-]; right; right; right; eauto|done].
  pose proof Hb as Hb'. apply bracketed_None in Hb' as ->.
  intros [= <-]. by left.
Qed.

Lemma no_valid_array_fails raw :
  no_valid_array raw → within_limits limits raw →
  direct_fails limits raw ∧ fence_fails limits raw
  ∧ bracket_fails limits raw.
Proof.
  intros Hno Hlim.
  assert (Hraw : limits raw = None).
  { apply Hlim. exists [], []. by rewrite app_nil_r. }
  split_and!.
  - split; [done|]. intros items. apply Hno.
    by exists [], []; rewrite app_nil_r.
  - destruct (fenced_cases raw) as [Hf|[(fm & e & Hs & Hl & _)|[v E]]];
      [done| |].
    + destruct (fence_search _ _ Hs)
        as (pre & tag & ws1 & body & ws2 & rest & Hr & _).
      rewrite Hlim in Hl; [done|].
      exists (pre ++ [96; 96; 96]%N ++ tag ++ ws1),
             (ws2 ++ [96; 96; 96]%N ++ rest).
      rewrite Hr. by rewrite <- !app_assoc.
    + apply fenced_infix in E as (sub & items & Hin & Hv & ->).
      by destruct (Hno sub items).
  - destruct (bracketed_cases raw) as [Hb|[(bm & e & Hs & Hl & _)|[v E]]];
      [done| |].
    + destruct (bracket_search _ _ Hs) as (pre & body & rest & Hr & _).
      rewrite Hlim in Hl; [done|]. by exists pre, rest.
    + apply bracketed_infix in E as (sub & items & Hin & Hv & ->).
      by destruct (Hno sub items).
Qed.

Lemma skip_ws_elem s c r : skip_ws s = c :: r → c ∈ s.
Proof.
  induction s as [|c0 s IH]; simpl; [done|].
  destruct (is_json_ws c0).
  - intros H. right. by apply IH.
  - intros [= -> _]. left.
Qed.

(** A text without an opening bracket holds no array. *)
Lemma no_bracket_no_array raw : ch "[" ∉ raw → no_valid_array raw.
Proof.
  intros Hno sub items (pre & post & ->) Hj.
  apply json_loads_Some in Hj as (r & H & _).
  destruct (scan_once_arr_head _ _ _ _ H) as [s' Hs].
  apply skip_ws_elem in Hs. apply Hno. rewrite !elem_of_app. auto.
Qed.

(** C4 (as amended).  Extraction failure.  An attempt whose parse fails
    with [JSONDecodeError] (or, for the direct one, gives no list) is passed
    over and the next one runs; when all three fail, each extractor raises
    the [ValueError] of its last line (the specification's
    ExtractionError).  An exception of [json.loads] that is no
    [JSONDecodeError], the [RecursionError] of a nesting too deep for the
    interpreter or the [ValueError] of an integer literal beyond its digit
    limit, is not discarded: it leaves the extractor at the attempt that
    raised it, and the later attempts do not run.  These are the only two
    ways an extractor raises.  A text no piece of which is a valid array, on
    the pieces of which [json.loads] reaches no limit, makes both extractors
    raise their own error, and so does the text "no data here" when
    [json.loads] reaches no limit on it. *)
Theorem extraction_failure (raw : str) :
  let json_error :=
    ValueError (u "Could not extract valid JSON dialogue from LLM response.") in
  let queries_error :=
    ValueError (u "Could not extract search queries from LLM response.") in
  (direct_fails limits raw → fence_fails limits raw →
   bracket_fails limits raw →
   _extract_json limits raw = inl json_error
   ∧ _extract_queries limits py_str raw = inl queries_error)
  ∧ (∀ e, escapes limits raw e →
       _extract_json limits raw = inl e
       ∧ _extract_queries limits py_str raw = inl e)
  ∧ (∀ e, _extract_json limits raw = inl e →
       (direct_fails limits raw ∧ fence_fails limits raw
        ∧ bracket_fails limits raw ∧ e = json_error)
       ∨ escapes limits raw e)
  ∧ (∀ e, _extract_queries limits py_str raw = inl e →
       (direct_fails limits raw ∧ fence_fails limits raw
        ∧ bracket_fails limits raw ∧ e = queries_error)
       ∨ escapes limits raw e)
  ∧ (∀ fm v, direct_fails limits raw → search fence_re raw = Some fm →
       loads limits (group1 fm) = Value v →
       _extract_json limits raw = inr v
       ∧ _extract_queries limits py_str raw = inr v)
  ∧ (∀ bm v, direct_fails limits raw → fence_fails limits raw →
       search bracket_re raw = Some bm →
       loads limits (group0 bm) = Value v →
       _extract_json limits raw = inr v
       ∧ _extract_queries limits py_str raw = inr v)
  ∧ (no_valid_array raw → within_limits limits raw →
       _extract_json limits raw = inl json_error
       ∧ _extract_queries limits py_str raw = inl queries_error)
  ∧ (limits (u "no data here") = None →
     _extract_json limits (u "no data here") = inl json_error
     ∧ _extract_queries limits py_str (u "no data here") = inl queries_error).
Proof.
  intros json_error queries_error. split_and!.
  - apply extract_all_fail.
  - apply extract_escapes.
  - apply _extract_json_raises.
  - apply _extract_queries_raises.
  - intros fm v Hd%direct_None Hs Hl.
    unfold _extract_json, _extract_queries, fenced. by rewrite Hd, Hs, Hl.
  - intros bm v Hd%direct_None Hf%fenced_None Hs Hl.
    unfold _extract_json, _extract_queries, bracketed.
    by rewrite Hd, Hf, Hs, Hl.
  - intros Hno Hlim.
    destruct (no_valid_array_fails raw Hno Hlim) as (Hd & Hf & Hb).
    by apply extract_all_fail.
  - intros Hlim. unfold _extract_json, _extract_queries, direct, loads.
    rewrite Hlim. by vm_compute.
Qed.

End ExtractionFailure.

Lemma extraction_failure_witness :
  _extract_json ExtractSpec.no_limits (u "Sorry, I cannot help with that.")
  = inl (ValueError
           (u "Could not extract valid JSON dialogue from LLM response.")).
Proof.
  pose proof (extraction_failure ExtractSpec.no_limits (λ _, [])
                (u "Sorry, I cannot help with that.")) as H.
  cbv zeta in H. destruct H as (_ & _ & _ & _ & _ & _ & H & _).
  refine (proj1 (H _ _)).
  - apply no_bracket_no_array.
    apply (bool_decide_unpack _). vm_compute. exact I.
  - intros sub _. reflexivity.
Defined.

(** C4, as stated, fails.  An integer literal of 4301 digits holds no
    array, and the direct attempt on it raises the [ValueError] of the digit
    limit, which is not discarded: the extractors raise it, not their own
    error, and the two later attempts do not run.  In the same way a text
    of 100000 opening brackets makes the extractors raise the
    [RecursionError] of [json.loads], and so does the well-formed array of
    100000 arrays nested in each other. *)
Lemma uncaught_error_counterexample :
  ExtractSpec.no_valid_array ExtractSpec.long_number
  ∧ (∃ e,
      _extract_json ExtractSpec.digit_limit ExtractSpec.long_number = inl e
      ∧ _extract_queries ExtractSpec.digit_limit (λ _, [])
          ExtractSpec.long_number = inl e
      ∧ exn_msg e
        = u "Exceeds the limit (4300 digits) for integer string "
          ++ u "conversion: value has 4301 digits; use "
          ++ u "sys.set_int_max_str_digits() to increase the limit"
      ∧ e ≠ ValueError
              (u "Could not extract valid JSON dialogue from LLM response.")
      ∧ e ≠ ValueError
              (u "Could not extract search queries from LLM response."))
  ∧ (∃ e,
      _extract_json ExtractSpec.depth_limit ExtractSpec.deep_open = inl e
      ∧ _extract_queries ExtractSpec.depth_limit (λ _, [])
          ExtractSpec.deep_open = inl e
      ∧ _extract_json ExtractSpec.depth_limit ExtractSpec.deep_array = inl e
      ∧ exn_type e = u "RecursionError").
Proof.
  split_and!.
  - apply no_bracket_no_array.
    apply (bool_decide_unpack _). vm_compute. exact I.
  - eexists. split_and!.
    + vm_compute. reflexivity.
    + vm_compute. reflexivity.
    + vm_compute. reflexivity.
    + by vm_compute.
    + by vm_compute.
  - eexists. split_and!.
    + vm_compute. reflexivity.
    + vm_compute. reflexivity.
    + vm_compute. reflexivity.
    + vm_compute. reflexivity.
Qed.

(** ** The pipeline *)

Section PipelineFacts.

Import Orchestrator PipelineSpec.

Variable py_str : json → str.
Variable limits : str → option exn.
Variable research_record : Type.
Variable call_flash : str → str → list str * (exn + str).
Variable research : json → list str * (exn + list research_record).
Variable summarise : str → list research_record → list str * (exn + str).
Variable write_script : str → str → list str * (exn + json).
Variable produce : json → list str * (exn + path).
Variable _QUERY_SYSTEM_PROMPT : str.

Local Abbreviation run :=
  (run py_str limits research_record call_flash research summarise write_script
       produce _QUERY_SYSTEM_PROMPT).
Local Abbreviation print_queries := (print_queries py_str).

Lemma calls_app (es es' : list event) : calls (es ++ es') = calls es ++ calls es'.
Proof. unfold calls. apply omap_app. Qed.

Lemma calls_writes (out : list str) : calls (Write <$> out) = [].
Proof. induction out as [|t out IH]; [done|]. exact IH. Qed.

Lemma calls_invoke {A} st (r : list str * (exn + A)) :
  calls (events (invoke st r)) = [st].
Proof.
  unfold invoke, events, calls. cbn [fst omap list_omap].
  fold (calls (Write <$> r.1)). by rewrite calls_writes.
Qed.

Lemma summary_bind {A B} (c : M A) (k : A → M B) :
  summary (c ≫= k) =
  match outcome c with
  | inl e => (calls (events c), inl e)
  | inr x => (calls (events c) ++ (summary (k x)).1, (summary (k x)).2)
  end.
Proof.
  unfold summary. rewrite events_bind, outcome_bind.
  destruct (outcome c); [done|]. by rewrite calls_app.
Qed.

Lemma summary_print {B} (t : str) (k : () → M B) :
  summary (print t ≫= k) = summary (k ()).
Proof. unfold summary. by rewrite events_bind, outcome_bind. Qed.

Lemma summary_lift_inr {A B} (x : A) (k : A → M B) :
  summary (lift (inr x) ≫= k) = summary (k x).
Proof. unfold summary. by rewrite events_bind, outcome_bind. Qed.

Lemma summary_lift_inl {A B} (e : exn) (k : A → M B) :
  summary (lift (inl e) ≫= k) = ([], inl e).
Proof. unfold summary. by rewrite events_bind, outcome_bind. Qed.

Lemma summary_invoke_inr {A B} st out (x : A) (k : A → M B) :
  summary (invoke st (out, inr x) ≫= k)
  = (st :: (summary (k x)).1, (summary (k x)).2).
Proof.
  unfold summary. rewrite events_bind, outcome_bind.
  change (outcome (invoke st (out, inr x))) with (inr x : exn + A).
  cbv beta iota. by rewrite calls_app, calls_invoke.
Qed.

Lemma summary_invoke_inl {A B} st out (e : exn) (k : A → M B) :
  summary (invoke st (out, inl e) ≫= k) = ([st], inl e).
Proof.
  unfold summary. rewrite events_bind, outcome_bind.
  change (outcome (invoke st (out, inl e))) with (inl e : exn + A).
  cbv beta iota. by rewrite calls_invoke.
Qed.

Lemma summary_print_queries {B} (qs : list json) (i : nat) (k : () → M B) :
  summary (print_queries i qs ≫= k) = summary (k ()).
Proof.
  assert (H : summary (print_queries i qs) = ([], inr ())).
  { revert i. induction qs as [|q qs IH]; intros i; [done|].
    cbn [Orchestrator.print_queries]. rewrite summary_print. apply IH. }
  rewrite summary_bind. unfold summary in H. injection H as -> ->.
  by destruct (summary (k ())).
Qed.

(** C8.  Stage sequencing.  [run] enters the five stages in the order query
    generation, research, summarization, scriptwriting, production, and
    stops at the first one that fails: the stages entered are then exactly
    those up to the failing one and [run] raises its error (so a failure of
    the third stage leaves the fourth and the fifth uncalled).  A research
    stage that returns an empty list ends the run after the second stage
    with the error "Research stage returned no data.".  When every stage
    succeeds all five have been entered and the path of the last one is
    returned. *)
Theorem stage_sequencing (topic : str) :
  let c := run topic in
  let user_prompt :=
    u "Generate search queries for the following podcast topic:"
    ++ [10%N; 10%N] ++ topic in
  calls (events c) `prefix_of` pipeline_order
  ∧ match (call_flash _QUERY_SYSTEM_PROMPT user_prompt).2 with
    | inl e => summary c = ([QueryGeneration], inl e)
    | inr raw_queries =>
      match _extract_queries limits py_str raw_queries with
      | inl e => summary c = ([QueryGeneration], inl e)
      | inr queries =>
        match (research queries).2 with
        | inl e => summary c = ([QueryGeneration; Research], inl e)
        | inr [] =>
            summary c =
            ([QueryGeneration; Research],
             inl (RuntimeError (u "Research stage returned no data.")))
        | inr research_data =>
          match (summarise topic research_data).2 with
          | inl e =>
              summary c = ([QueryGeneration; Research; Summarization], inl e)
          | inr report =>
            match (write_script topic report).2 with
            | inl e =>
                summary c =
                ([QueryGeneration; Research; Summarization; Scriptwriting],
                 inl e)
            | inr dialogue =>
              match (produce dialogue).2 with
              | inl e => summary c = (pipeline_order, inl e)
              | inr output_path => summary c = (pipeline_order, inr output_path)
              end
            end
          end
        end
      end
    end.
Proof.
  intros c user_prompt.
  cut (match (call_flash _QUERY_SYSTEM_PROMPT user_prompt).2 with
    | inl e => summary c = ([QueryGeneration], inl e)
    | inr raw_queries =>
      match _extract_queries limits py_str raw_queries with
      | inl e => summary c = ([QueryGeneration], inl e)
      | inr queries =>
        match (research queries).2 with
        | inl e => summary c = ([QueryGeneration; Research], inl e)
        | inr [] =>
            summary c =
            ([QueryGeneration; Research],
             inl (RuntimeError (u "Research stage returned no data.")))
        | inr research_data =>
          match (summarise topic research_data).2 with
          | inl e =>
              summary c = ([QueryGeneration; Research; Summarization], inl e)
          | inr report =>
            match (write_script topic report).2 with
            | inl e =>
                summary c =
                ([QueryGeneration; Research; Summarization; Scriptwriting],
                 inl e)
            | inr dialogue =>
              match (produce dialogue).2 with
              | inl e => summary c = (pipeline_order, inl e)
              | inr output_path => summary c = (pipeline_order, inr output_path)
              end
            end
          end
        end
      end
    end).
  { intros H. split; [|exact H].
    change (calls (events c)) with (summary c).1.
    repeat case_match; rewrite H; simpl;
      first [ by exists [] | by eexists ]. }
  unfold c, Orchestrator.run. fold user_prompt.
  rewrite !summary_print.
  destruct (call_flash _QUERY_SYSTEM_PROMPT user_prompt) as [out1 [e|raw]];
    [by rewrite summary_invoke_inl|].
  rewrite summary_invoke_inr. cbn [snd].
  destruct (_extract_queries limits py_str raw) as [e|queries] eqn:Eq;
    [by rewrite summary_lift_inl|].
  rewrite summary_lift_inr.
  apply _extract_queries_list in Eq as [items ->].
  unfold Scriptwriter.len, Scriptwriter.iter.
  rewrite summary_lift_inr, summary_print, summary_lift_inr,
    summary_print_queries.
  destruct (research (JArr items)) as [out2 [e|data]];
    [by rewrite summary_invoke_inl|].
  rewrite summary_invoke_inr. cbn [snd].
  destruct data as [|d data].
  { by rewrite summary_print. }
  destruct (summarise topic (d :: data)) as [out3 [e|report]];
    [by rewrite summary_invoke_inl|].
  rewrite summary_invoke_inr. cbn [snd].
  destruct (write_script topic report) as [out4 [e|dialogue]];
    [by rewrite summary_invoke_inl|].
  rewrite summary_invoke_inr. cbn [snd].
  destruct (produce dialogue) as [out5 [e|output_path]];
    [by rewrite summary_invoke_inl|].
  rewrite summary_invoke_inr. cbn [snd].
  by rewrite !summary_print.
Qed.

End PipelineFacts.

Lemma stage_sequencing_witness :
  PipelineSpec.summary
    (Orchestrator.run (λ _, []) ExtractSpec.no_limits () Examples.flash_one
       Examples.research_one
       Examples.summarise_fails Examples.write_script_empty
       Examples.produce_example [] Examples.topic)
  = ([QueryGeneration; Research; Summarization],
     inl (RuntimeError (u "quota exceeded"))).
Proof.
  pose proof (stage_sequencing (λ _, []) ExtractSpec.no_limits ()
                Examples.flash_one
                Examples.research_one Examples.summarise_fails
                Examples.write_script_empty Examples.produce_example []
                Examples.topic) as H.
  cbv zeta in H. destruct H as [_ H]. exact H.
Defined.

(** ** The server: steps and invariants *)

Section ServerFacts.

Import Orchestrator Server ServerSpec.

Implicit Types (s : state) (j : str) (r : runner) (l : label).

Lemma step_Run_inv j s s' :
  step (Run j) s = Some s' →
  ∃ r r' s1, runners s !! j = Some r ∧ _run j r s = Some (r', s1)
             ∧ s' = set_runners (<[j := r']>) s1.
Proof.
  unfold step. destruct (runners s !! j) as [r|]; [|done]. simpl.
  destruct (_run j r s) as [[r' s1]|] eqn:E; [|done]. simpl.
  intros [= <-]. by exists r, r', s1.
Qed.

Lemma step_RunEarlier_inv i s s' :
  step (RunEarlier i) s = Some s' →
  ∃ j r r' s1, earlier s !! i = Some (j, r) ∧ _run j r s = Some (r', s1)
               ∧ s' = set_earlier (<[i := (j, r')]>) s1.
Proof.
  unfold step. destruct (earlier s !! i) as [[j r]|]; [|done]. simpl.
  destruct (_run j r s) as [[r' s1]|] eqn:E; [|done]. simpl.
  intros [= <-]. by exists j, r, r', s1.
Qed.

Lemma step_Next_inv i s s' :
  step (Next i) s = Some s' →
  ∃ st st' s1, streams s !! i = Some st ∧ event_stream st s = Some (st', s1)
               ∧ s' = set_streams (<[i := st']>) s1.
Proof.
  unfold step. destruct (streams s !! i) as [st|]; [|done]. simpl.
  destruct (event_stream st s) as [[st' s1]|] eqn:E; [|done]. simpl.
  intros [= <-]. by exists st, st', s1.
Qed.

(** What [write] does to each channel: the same for every job. *)
Lemma write_queues text s j :
  _status_queues (write text s) !! j
  = (λ q, match strip text with
          | [] => q
          | _ :: _ => put_nowait (strip text) q
          end) <$> _status_queues s !! j.
Proof.
  unfold write. destruct (strip text) as [|c t]; simpl.
  - by destruct (_status_queues s !! j).
  - by rewrite lookup_fmap.
Qed.

Lemma write_jobs text s : _JOBS (write text s) = _JOBS s.
Proof. unfold write. by destruct (strip text). Qed.

Lemma write_runners text s : runners (write text s) = runners s.
Proof. unfold write. by destruct (strip text). Qed.

Lemma write_streams text s : streams (write text s) = streams s.
Proof. unfold write. by destruct (strip text). Qed.

Lemma write_earlier text s : earlier (write text s) = earlier s.
Proof. unfold write. by destruct (strip text). Qed.

Lemma write_replaced text s : replaced (write text s) = replaced s.
Proof. unfold write. by destruct (strip text). Qed.

(** The effect of one statement of [_run] on the three dictionaries. *)
Lemma _run_effect j r s r' s1 :
  _run j r s = Some (r', s1) →
  runners s1 = runners s
  ∧ streams s1 = streams s
  ∧ earlier s1 = earlier s
  ∧ replaced s1 = replaced s
  ∧ (∀ j', j' ≠ j → _JOBS s1 !! j' = _JOBS s !! j')
  ∧ (∀ j', is_Some (_JOBS s1 !! j') ↔ is_Some (_JOBS s !! j'))
  ∧ (∀ j', is_Some (_status_queues s1 !! j') ↔ is_Some (_status_queues s !! j'))
  ∧ (∀ job, _JOBS s !! j = Some job →
       ∃ job', _JOBS s1 !! j = Some job'
         ∧ (job_matches job r →
              job_matches job' r' ∧ status_moves (status job) (status job'))).
Proof.
  intros H.
  assert (Halter : ∀ f : job → job,
    (∀ job, job_matches job r →
            job_matches (f job) r'
            ∧ status_moves (status job) (status (f job))) →
    s1 = set_jobs (alter f j) s →
    runners s1 = runners s
    ∧ streams s1 = streams s
    ∧ earlier s1 = earlier s
    ∧ replaced s1 = replaced s
    ∧ (∀ j', j' ≠ j → _JOBS s1 !! j' = _JOBS s !! j')
    ∧ (∀ j', is_Some (_JOBS s1 !! j') ↔ is_Some (_JOBS s !! j'))
    ∧ (∀ j', is_Some (_status_queues s1 !! j')
             ↔ is_Some (_status_queues s !! j'))
    ∧ (∀ job, _JOBS s !! j = Some job →
         ∃ job', _JOBS s1 !! j = Some job'
           ∧ (job_matches job r →
                job_matches job' r'
                ∧ status_moves (status job) (status job')))).
  { intros f Hf ->. simpl. split_and!; try done.
    - intros j' ?. by rewrite lookup_alter_ne.
    - intros j'. destruct (decide (j' = j)) as [->|].
      + rewrite lookup_alter_eq, fmap_is_Some. done.
      + by rewrite lookup_alter_ne.
    - intros job Hjob. exists (f job). rewrite lookup_alter_eq, Hjob. eauto. }
  assert (Hsame :
    r' = r ∨ (∀ job, job_matches job r → job_matches job r') →
    _JOBS s1 = _JOBS s → runners s1 = runners s → streams s1 = streams s →
    earlier s1 = earlier s → replaced s1 = replaced s →
    (∀ j', is_Some (_status_queues s1 !! j')
           ↔ is_Some (_status_queues s !! j')) →
    runners s1 = runners s
    ∧ streams s1 = streams s
    ∧ earlier s1 = earlier s
    ∧ replaced s1 = replaced s
    ∧ (∀ j', j' ≠ j → _JOBS s1 !! j' = _JOBS s !! j')
    ∧ (∀ j', is_Some (_JOBS s1 !! j') ↔ is_Some (_JOBS s !! j'))
    ∧ (∀ j', is_Some (_status_queues s1 !! j')
             ↔ is_Some (_status_queues s !! j'))
    ∧ (∀ job, _JOBS s !! j = Some job →
         ∃ job', _JOBS s1 !! j = Some job'
           ∧ (job_matches job r →
                job_matches job' r'
                ∧ status_moves (status job) (status job')))).
  { intros Hm Hj ? ? ? ? ?. rewrite Hj. split_and!; try done.
    intros job Hjob. exists job. split; [done|]. intros Hjm.
    split; [|by left]. destruct Hm as [->|Hm]; auto. }
  destruct r as [[|text pending] [e|p]|p|e| |]; simpl in H.
  - destruct (is_exception e).
    + injection H as <- <-. apply (Halter (set_status failed)); [|done].
      intros job ->. split; [done|]. right. by eauto.
    + injection H as <- <-. apply Hsame; auto.
      right. intros job ->. by right; right.
  - injection H as <- <-. apply (Halter (set_status done)); [|done].
    intros job ->. split; [done|]. right. by eauto.
  - injection H as <- <-.
    apply Hsame;
      auto using write_jobs, write_runners, write_streams, write_earlier,
                 write_replaced.
    intros j'. by rewrite write_queues, fmap_is_Some.
  - injection H as <- <-.
    apply Hsame;
      auto using write_jobs, write_runners, write_streams, write_earlier,
                 write_replaced.
    intros j'. by rewrite write_queues, fmap_is_Some.
  - injection H as <- <-. apply (Halter (set_result (name p))); [|done].
    intros job ->. split; [|by left]. left. by eexists.
  - injection H as <- <-. apply (Halter (set_error (exn_msg e))); [|done].
    intros job ->. split; [|by left]. right. left. by eexists.
  - destruct (_status_queues s !! j) as [q|] eqn:Eq.
    + destruct (length q <? maxsize); [|done]. injection H as <- <-.
      apply Hsame; auto. intros j'. simpl.
      destruct (decide (j' = j)) as [->|].
      * rewrite lookup_insert_eq, Eq. split; eauto.
      * by rewrite lookup_insert_ne.
    + injection H as <- <-. apply Hsame; auto.
  - done.
Qed.

Lemma relay_effect st g line s st' s1 :
  relay st g line s = Some (st', s1) →
  s1 = s ∧ stream_job st' = stream_job st
  ∧ (gen st' = g ∨ gen st' = Ended).
Proof.
  unfold relay. destruct (decide (line = DONE)).
  - destruct (_JOBS s !! stream_job st); [|done]. intros [= <- <-]. auto.
  - intros [= <- <-]. auto.
Qed.

Lemma event_stream_effect st s st' s1 :
  event_stream st s = Some (st', s1) →
  _JOBS s1 = _JOBS s ∧ runners s1 = runners s ∧ streams s1 = streams s
  ∧ earlier s1 = earlier s
  ∧ stdout s1 = stdout s
  ∧ stream_job st' = stream_job st
  ∧ (∀ j', j' ≠ stream_job st →
       _status_queues s1 !! j' = _status_queues s !! j')
  ∧ (∀ j', is_Some (_status_queues s1 !! j')
           ↔ is_Some (_status_queues s !! j'))
  ∧ length (replaced s1) = length (replaced s).
Proof.
  unfold event_stream. intros H.
  destruct (gen st) as [| |k|]; [| | |done].
  - destruct (_status_queues s !! stream_job st); by simplify_eq.
  - destruct (_status_queues s !! stream_job st) as [[|line rest]|] eqn:Eq;
      [by simplify_eq| |done].
    assert (Hdom : ∀ j', is_Some (<[stream_job st := rest]> (_status_queues s) !! j')
                         ↔ is_Some (_status_queues s !! j')).
    { intros j'. destruct (decide (j' = stream_job st)) as [->|].
      - rewrite lookup_insert_eq, Eq. split; eauto.
      - by rewrite lookup_insert_ne. }
    apply relay_effect in H as (-> & Hj & _). split_and!; try done.
    intros j' ?. simpl. by rewrite lookup_insert_ne.
  - destruct (replaced s !! k) as [[|line rest]|] eqn:Eq;
      [by simplify_eq| |done].
    apply relay_effect in H as (-> & Hj & _). split_and!; try done.
    simpl. by rewrite length_insert.
Qed.

Lemma consistent_same_keys s : consistent s → same_keys s.
Proof.
  intros H j. specialize (H j). unfold consistent_at in H.
  destruct (_JOBS s !! j), (runners s !! j), (_status_queues s !! j);
    try done; split; split; eauto; by intros [? ?].
Qed.

Lemma consistent_at_alt s j :
  consistent_at s j ↔
  (is_Some (_JOBS s !! j) ↔ is_Some (runners s !! j))
  ∧ (is_Some (_JOBS s !! j) ↔ is_Some (_status_queues s !! j))
  ∧ (∀ job r, _JOBS s !! j = Some job → runners s !! j = Some r →
              job_matches job r).
Proof.
  unfold consistent_at.
  destruct (_JOBS s !! j) as [job|], (runners s !! j) as [r|],
    (_status_queues s !! j) as [q|]; split;
    try done;
    try (intros H; repeat split; intros; simplify_eq; eauto; done);
    try (intros ([H1 H2] & [H3 H4] & H5);
         try (by apply H5);
         try (by destruct H1 as [? ?]; eauto);
         try (by destruct H2 as [? ?]; eauto);
         try (by destruct H3 as [? ?]; eauto);
         try (by destruct H4 as [? ?]; eauto)).
Qed.

Lemma consistent_init : consistent init.
Proof. intros j. unfold consistent_at. simpl. by rewrite !lookup_empty. Qed.

(** The thread list for identifiers drawn again only grows. *)
Lemma step_drawn_once l s s' : step l s = Some s' → drawn_once s' → drawn_once s.
Proof.
  unfold drawn_once. intros Hstep Hs'.
  destruct l as [topic j c|j|i|j|i].
  - simpl in Hstep. injection Hstep as <-. unfold generate in Hs'.
    destruct (strip topic); [done|]. simpl in Hs'.
    by apply app_eq_nil in Hs' as [? _].
  - apply step_Run_inv in Hstep as (r & r' & s1 & _ & Hstep & ->).
    apply _run_effect in Hstep as (_ & _ & He & _). simpl in Hs'. congruence.
  - apply step_RunEarlier_inv in Hstep as (j & r & r' & s1 & Hi & Hstep & ->).
    apply _run_effect in Hstep as (_ & _ & He & _). simpl in Hs'.
    apply (f_equal length) in Hs'. rewrite length_insert, He in Hs'.
    apply lookup_lt_Some in Hi. simpl in Hs'. lia.
  - simpl in Hstep. injection Hstep as <-. unfold status_stream in Hs'.
    by destruct (_JOBS s !! j).
  - apply step_Next_inv in Hstep as (st & st' & s1 & _ & Hstep & ->).
    apply event_stream_effect in Hstep as (_ & _ & _ & He & _).
    simpl in Hs'. congruence.
Qed.

Lemma exec_drawn_once tr s s' : exec tr s = Some s' → drawn_once s' → drawn_once s.
Proof.
  revert s. induction tr as [|l tr IH]; intros s; simpl.
  - by intros [= <-].
  - destruct (step l s) as [s1|] eqn:E; [|done]. simpl.
    intros H Hs'. eapply step_drawn_once; [done|]. by eapply IH.
Qed.

(** A submission whose identifier is new. *)
Lemma drawn_once_generate topic j c s :
  drawn_once (generate topic j c s).2 → strip topic ≠ [] → runners s !! j = None.
Proof.
  unfold drawn_once, generate. destruct (strip topic); [done|]. simpl.
  intros [_ H]%app_eq_nil _. by destruct (runners s !! j).
Qed.

Lemma step_same_keys l s s' : same_keys s → step l s = Some s' → same_keys s'.
Proof.
  intros Hs Hstep j'. destruct (Hs j') as [Hr Hq].
  destruct l as [topic j c|j|i|j|i].
  - simpl in Hstep. injection Hstep as <-. unfold generate.
    destruct (strip topic); [done|]. simpl.
    destruct (decide (j' = j)) as [->|].
    + rewrite !lookup_insert_eq. repeat split; eauto.
    + by rewrite !lookup_insert_ne.
  - apply step_Run_inv in Hstep as (r & r' & s1 & Hrun & Hstep & ->).
    apply _run_effect in Hstep as (Hrs & _ & _ & _ & _ & Hjobs & Hdom & _).
    simpl. rewrite Hrs, Hdom, Hjobs.
    destruct (decide (j' = j)) as [->|].
    + rewrite lookup_insert_eq. split; [|done].
      split; [eauto|]. intros _. apply Hr. eauto.
    + by rewrite lookup_insert_ne.
  - apply step_RunEarlier_inv in Hstep as (j & r & r' & s1 & _ & Hstep & ->).
    apply _run_effect in Hstep as (Hrs & _ & _ & _ & _ & Hjobs & Hdom & _).
    simpl. by rewrite Hrs, Hdom, Hjobs.
  - simpl in Hstep. injection Hstep as <-. unfold status_stream.
    by destruct (_JOBS s !! j).
  - apply step_Next_inv in Hstep as (st & st' & s1 & _ & Hstep & ->).
    apply event_stream_effect in Hstep
      as (Hj & Hrs & _ & _ & _ & _ & _ & Hdom & _).
    simpl. by rewrite Hj, Hrs, Hdom.
Qed.

Lemma step_consistent l s s' :
  consistent s → step l s = Some s' → drawn_once s' → consistent s'.
Proof.
  intros Hs Hstep Hfresh j'. specialize (Hs j').
  rewrite consistent_at_alt in Hs |- *.
  destruct Hs as (Hr & Hq & Hm).
  destruct l as [topic j c|j|i|j|i].
  - (* Submit *)
    simpl in Hstep. injection Hstep as <-.
    destruct (strip topic) as [|c0 t0] eqn:Et.
    { unfold generate. by rewrite Et. }
    pose proof (drawn_once_generate topic j c s Hfresh) as Hnew.
    rewrite Et in Hnew. specialize (Hnew ltac:(done)).
    unfold generate. rewrite Et. simpl.
    destruct (decide (j' = j)) as [->|].
    + rewrite !lookup_insert_eq. repeat split; eauto.
      intros job r [= <-] [= <-]. done.
    + by rewrite !lookup_insert_ne.
  - (* Run *)
    apply step_Run_inv in Hstep as (r & r' & s1 & Hrun & Hstep & ->).
    apply _run_effect in Hstep as (Hrs & _ & _ & _ & Hother & _ & Hdom & Hjob).
    simpl.
    rewrite Hrs, Hdom. destruct (decide (j' = j)) as [->|].
    + rewrite lookup_insert_eq.
      destruct (_JOBS s !! j) as [job|] eqn:Ejob.
      * destruct (Hjob job eq_refl) as (job' & -> & Hmatch).
        split_and!; [split; eauto|split; [intros _; apply Hq; eauto|eauto]|].
        intros ? ? [= <-] [= <-]. apply Hmatch. by apply Hm.
      * destruct Hr as [_ Hr]. by destruct Hr as [? ?]; eauto.
    + rewrite lookup_insert_ne, Hother by done. done.
  - (* RunEarlier: there is no such thread *)
    pose proof (step_drawn_once _ _ _ Hstep Hfresh) as Hf. unfold drawn_once in Hf.
    simpl in Hstep. by rewrite Hf in Hstep.
  - (* Connect *)
    simpl in Hstep. injection Hstep as <-. unfold status_stream.
    by destruct (_JOBS s !! j).
  - (* Next *)
    apply step_Next_inv in Hstep as (st & st' & s1 & _ & Hstep & ->).
    apply event_stream_effect in Hstep
      as (Hj & Hrs & _ & _ & _ & _ & _ & Hdom & _).
    simpl. by rewrite Hj, Hrs, Hdom.
Qed.

Lemma exec_app tr1 tr2 s :
  exec (tr1 ++ tr2) s = exec tr1 s ≫= exec tr2.
Proof.
  revert s. induction tr1 as [|l tr1 IH]; intros s; [done|].
  simpl. destruct (step l s); [apply IH|done].
Qed.

Lemma exec_consistent tr s s' :
  consistent s → exec tr s = Some s' → drawn_once s' → consistent s'.
Proof.
  revert s. induction tr as [|l tr IH]; intros s Hs; simpl.
  - by intros [= <-].
  - destruct (step l s) as [s1|] eqn:E; [|done]. simpl.
    intros Hex Hf. apply (IH s1); [|done|done].
    eapply step_consistent; [done..|]. by eapply exec_drawn_once.
Qed.

Lemma exec_same_keys tr s s' :
  same_keys s → exec tr s = Some s' → same_keys s'.
Proof.
  revert s. induction tr as [|l tr IH]; intros s Hs; simpl.
  - by intros [= <-].
  - destruct (step l s) as [s1|] eqn:E; [|done]. simpl.
    apply IH. by eapply step_same_keys.
Qed.

Lemma reachable_consistent s : reachable s → drawn_once s → consistent s.
Proof.
  intros [tr Htr] Hf. eapply exec_consistent; [apply consistent_init|done..].
Qed.

Lemma reachable_same_keys s : reachable s → same_keys s.
Proof.
  intros [tr Htr]. eapply exec_same_keys; [|done].
  apply consistent_same_keys, consistent_init.
Qed.

Lemma reachable_step l s s' : reachable s → step l s = Some s' → reachable s'.
Proof.
  intros [tr Htr] Hstep. exists (tr ++ [l]).
  rewrite exec_app, Htr. simpl. by rewrite Hstep.
Qed.

(** Every step moves the status of every job along the allowed
    transitions, as long as no identifier is drawn twice. *)
Lemma step_status l s s' j job :
  consistent s → step l s = Some s' → drawn_once s' → _JOBS s !! j = Some job →
  ∃ job', _JOBS s' !! j = Some job' ∧ status_moves (status job) (status job').
Proof.
  intros Hs Hstep Hfresh Hjob.
  destruct l as [topic j0 c|j0|i|j0|i].
  - simpl in Hstep. injection Hstep as <-.
    destruct (strip topic) as [|c0 t0] eqn:Et.
    { unfold generate. rewrite Et. exists job. split; [done|by left]. }
    pose proof (drawn_once_generate topic j0 c s Hfresh) as Hnew.
    rewrite Et in Hnew. specialize (Hnew ltac:(done)).
    assert (j ≠ j0).
    { intros ->. specialize (Hs j0). unfold consistent_at in Hs.
      by rewrite Hjob, Hnew in Hs. }
    unfold generate. rewrite Et. simpl.
    rewrite lookup_insert_ne by congruence.
    exists job. split; [done|by left].
  - apply step_Run_inv in Hstep as (r & r' & s1 & Hrun & Hstep & ->).
    apply _run_effect in Hstep as (_ & _ & _ & _ & Hother & _ & _ & Hj). simpl.
    destruct (decide (j = j0)) as [->|].
    + destruct (Hj job Hjob) as (job' & ? & Hm). exists job'. split; [done|].
      apply Hm. specialize (Hs j0). apply consistent_at_alt in Hs.
      by apply Hs.
    + rewrite Hother by done. exists job. split; [done|by left].
  - pose proof (step_drawn_once _ _ _ Hstep Hfresh) as Hf. unfold drawn_once in Hf.
    simpl in Hstep. by rewrite Hf in Hstep.
  - simpl in Hstep. injection Hstep as <-. unfold status_stream.
    exists job. split; [|by left]. by destruct (_JOBS s !! j0).
  - apply step_Next_inv in Hstep as (st & st' & s1 & _ & Hstep & ->).
    apply event_stream_effect in Hstep as (Hjobs & _). simpl. rewrite Hjobs.
    exists job. split; [done|by left].
Qed.

End ServerFacts.

(** ** The state of a job *)

Section JobState.

Import Orchestrator Server ServerSpec.

Lemma status_distinct : running ≠ done ∧ running ≠ failed ∧ done ≠ failed.
Proof. by vm_compute. Qed.

Lemma status_moves_trans a b c :
  status_moves a b → status_moves b c → status_moves a c.
Proof.
  destruct status_distinct as (H1 & H2 & H3).
  unfold status_moves.
  intros [->|[-> [->| ->]]] [->|[Hb Hc]]; auto; congruence.
Qed.

Lemma exec_status tr s s' j job :
  consistent s → exec tr s = Some s' → drawn_once s' → _JOBS s !! j = Some job →
  ∃ job', _JOBS s' !! j = Some job' ∧ status_moves (status job) (status job').
Proof.
  revert s job. induction tr as [|l tr IH]; intros s job Hs Hex Hf Hjob.
  - injection Hex as <-. exists job. split; [done|by left].
  - simpl in Hex. destruct (step l s) as [s1|] eqn:E; [|done]. simpl in Hex.
    pose proof (exec_drawn_once _ _ _ Hex Hf) as Hf1.
    destruct (step_status _ _ _ _ _ Hs E Hf1 Hjob) as (job1 & Hjob1 & Hmv1).
    destruct (IH s1 job1 (step_consistent _ _ _ Hs E Hf1) Hex Hf Hjob1)
      as (job' & Hjob' & Hmv).
    exists job'. split; [done|]. by eapply status_moves_trans.
Qed.

(** C5, as amended.  Job state invariant, as long as no job identifier has
    been drawn twice.  In every reachable state in which every identifier
    was drawn once, and for every job of the job map: [result] and [error]
    are never both set, [result] is set only when the status is "done" and
    [error] only when it is "error"; and along every further execution in
    which no identifier is drawn twice the status stays what it is or moves
    from "running" to "done" or from "running" to "error", never in any
    other direction. *)
Theorem job_state_invariant (s : state) (job_id : str) (job : job) :
  reachable s → drawn_once s → _JOBS s !! job_id = Some job →
  ¬ (is_Some (result job) ∧ is_Some (error job))
  ∧ (is_Some (result job) → status job = done)
  ∧ (is_Some (error job) → status job = failed)
  ∧ (status job = running ∨ status job = done ∨ status job = failed)
  ∧ (∀ tr s', exec tr s = Some s' → drawn_once s' →
       ∃ job', _JOBS s' !! job_id = Some job'
               ∧ status_moves (status job) (status job')).
Proof.
  intros Hreach Hfresh Hjob.
  pose proof (reachable_consistent _ Hreach Hfresh) as Hs.
  assert (∃ r, job_matches job r) as [r Hm].
  { specialize (Hs job_id). apply consistent_at_alt in Hs as (Hr & _ & Hm).
    destruct Hr as [[r Hr] _]; [by eauto|]. exists r. by apply Hm. }
  split_and!.
  - intros [[res Hres] [err Herr]].
    destruct r; simpl in Hm;
      try (subst job; simpl in *; congruence);
      destruct Hm as [[? ->]|[[? ->]| ->]]; simpl in *; congruence.
  - intros [res Hres].
    destruct r; simpl in Hm;
      try (subst job; simpl in *; congruence);
      destruct Hm as [[? ->]|[[? ->]| ->]]; simpl in *; congruence.
  - intros [err Herr].
    destruct r; simpl in Hm;
      try (subst job; simpl in *; congruence);
      destruct Hm as [[? ->]|[[? ->]| ->]]; simpl in *; congruence.
  - destruct r; simpl in Hm;
      try (subst job; simpl; by auto);
      destruct Hm as [[? ->]|[[? ->]| ->]]; simpl; auto.
  - intros tr s' Hex Hf. by eapply exec_status.
Qed.

End JobState.

Lemma job_state_invariant_witness :
  ¬ (is_Some (Server.result
                (Server.Job Server.done (Some (u "podcast.mp3")) None))
     ∧ is_Some (Server.error
                  (Server.Job Server.done (Some (u "podcast.mp3")) None))).
Proof.
  apply (job_state_invariant
           (Examples.final (take 3 Examples.finish_and_stream))
           Examples.jobA
           (Server.Job Server.done (Some (u "podcast.mp3")) None)).
  - exists (take 3 Examples.finish_and_stream). vm_compute. reflexivity.
  - vm_compute. reflexivity.
  - vm_compute. reflexivity.
Defined.

(** C5 as stated fails: an identifier is the first eight characters of a
    random UUID, and [generate] overwrites the entry of an identifier drawn
    a second time.  When job A's identifier is drawn again while its first
    thread runs, both threads write to the one entry: its status goes from
    "running" to "done" to "error", and in the end both [result] and
    [error] are set.  When the identifier is drawn again after job A is
    done, the status goes from "done" back to "running". *)
Lemma job_state_counterexample :
  Server.reachable (Examples.final Examples.drawn_twice)
  ∧ Server._JOBS (Examples.final (take 3 Examples.drawn_twice))
      !! Examples.jobA
    = Some (Server.Job Server.done None None)
  ∧ Server._JOBS (Examples.final (take 4 Examples.drawn_twice))
      !! Examples.jobA
    = Some (Server.Job Server.failed None None)
  ∧ Server._JOBS (Examples.final Examples.drawn_twice) !! Examples.jobA
    = Some (Server.Job Server.failed (Some (u "podcast.mp3"))
              (Some (u "quota exceeded")))
  ∧ Server.reachable (Examples.final Examples.drawn_again)
  ∧ Server._JOBS (Examples.final (take 3 Examples.drawn_again))
      !! Examples.jobA
    = Some (Server.Job Server.done (Some (u "podcast.mp3")) None)
  ∧ Server._JOBS (Examples.final Examples.drawn_again) !! Examples.jobA
    = Some (Server.Job Server.running None None).
Proof.
  split_and!; try (vm_compute; reflexivity).
  - exists Examples.drawn_twice. vm_compute. reflexivity.
  - exists Examples.drawn_again. vm_compute. reflexivity.
Qed.
(** ** The status stream *)

Section StreamFacts.

Import Orchestrator Server ServerSpec.

Implicit Types (s : state) (j : str) (st : stream) (l : label).

(** The four ways the generator moves when it is resumed. *)
Lemma event_stream_cases st s st' s1 :
  event_stream st s = Some (st', s1) →
  let j := stream_job st in
  (gen st = Created ∧ s1 = s ∧ sent st' = sent st
     ∧ (match _status_queues s !! j with
        | Some _ => gen st' = Await
        | None => gen st' = Ended ∧ sent st = sent st'
        end))
  ∨ (waiting st ∧ held st s = Some [] ∧ s1 = s
     ∧ st' = Stream j (gen st) (sent st ++ [Keepalive]))
  ∨ (∃ line rest, waiting st ∧ line ≠ DONE
       ∧ held st s = Some (line :: rest)
       ∧ s1 = take_head st rest s
       ∧ st' = Stream j (gen st) (sent st ++ [Log line]))
  ∨ (∃ rest job, waiting st
       ∧ held st s = Some (DONE :: rest)
       ∧ _JOBS s !! j = Some job
       ∧ s1 = take_head st rest s
       ∧ st' = Stream j Ended
                 (sent st ++ [Complete (status job) (result job) (error job)])).
Proof.
  unfold event_stream, held, take_head, waiting. cbv zeta.
  set (j := stream_job st). intros H.
  destruct (gen st) as [| |k|] eqn:Eg; [| | |done].
  - left. destruct (_status_queues s !! j); by simplify_eq.
  - destruct (_status_queues s !! j) as [[|line rest]|]; [| |done].
    + right; left. simplify_eq. eauto.
    + unfold relay in H. fold j in H.
      destruct (decide (line = DONE)) as [->|Hne].
      * right; right; right. simpl in H.
        destruct (_JOBS s !! j) as [job|] eqn:Ej; [|done].
        exists rest, job. simplify_eq. eauto 10.
      * right; right; left. exists line, rest. simplify_eq. eauto 10.
  - assert (Hw : AwaitReplaced k = Await ∨ ∃ k0, AwaitReplaced k = AwaitReplaced k0)
      by (right; by eexists).
    destruct (replaced s !! k) as [[|line rest]|]; [| |done].
    + right; left. by simplify_eq.
    + unfold relay in H. fold j in H.
      destruct (decide (line = DONE)) as [->|Hne].
      * right; right; right. simpl in H.
        destruct (_JOBS s !! j) as [job|] eqn:Ej; [|done].
        exists rest, job. by simplify_eq.
      * right; right; left. exists line, rest. by simplify_eq.
Qed.

(** The same for a stream that holds the queue of the dictionary. *)
Lemma event_stream_cases_current st s st' s1 :
  holds_current st →
  event_stream st s = Some (st', s1) →
  let j := stream_job st in
  (gen st = Created ∧ s1 = s ∧ sent st' = sent st
     ∧ (match _status_queues s !! j with
        | Some _ => gen st' = Await
        | None => gen st' = Ended ∧ sent st = sent st'
        end))
  ∨ (gen st = Await ∧ _status_queues s !! j = Some [] ∧ s1 = s
     ∧ st' = Stream j Await (sent st ++ [Keepalive]))
  ∨ (∃ line rest, gen st = Await ∧ line ≠ DONE
       ∧ _status_queues s !! j = Some (line :: rest)
       ∧ s1 = set_queues (<[j := rest]>) s
       ∧ st' = Stream j Await (sent st ++ [Log line]))
  ∨ (∃ rest job, gen st = Await
       ∧ _status_queues s !! j = Some (DONE :: rest)
       ∧ _JOBS s !! j = Some job
       ∧ s1 = set_queues (<[j := rest]>) s
       ∧ st' = Stream j Ended
                 (sent st ++ [Complete (status job) (result job) (error job)])).
Proof.
  intros Hcur Hev. cbv zeta.
  assert (Hw : waiting st → gen st = Await).
  { intros [?|[k Hk]]; [done|]. by destruct (Hcur k). }
  destruct (event_stream_cases _ _ _ _ Hev)
    as [?|[(Hg & Hq & -> & ->)|
        [(line & rest & Hg & Hne & Hq & -> & ->)|
         (rest & job & Hg & Hq & Hjob & -> & ->)]]]; [by left|..];
    apply Hw in Hg; unfold held, take_head in *; rewrite Hg in *.
  - right; left. done.
  - right; right; left. by exists line, rest.
  - right; right; right. by exists rest, job.
Qed.

Lemma event_stream_current st s st' s1 :
  holds_current st → event_stream st s = Some (st', s1) → holds_current st'.
Proof.
  intros Hcur Hev k.
  destruct (event_stream_cases_current _ _ _ _ Hcur Hev)
    as [(_ & _ & _ & Hq)|[(_ & _ & _ & ->)|
        [(line & rest & _ & _ & _ & _ & ->)|
         (rest & job & _ & _ & _ & _ & ->)]]]; try done.
  destruct (_status_queues s !! stream_job st).
  - by rewrite Hq.
  - destruct Hq as [-> _]. done.
Qed.

Lemma keep_queue_job j k st : stream_job (keep_queue j k st) = stream_job st.
Proof.
  unfold keep_queue. destruct (gen st); try done.
  by destruct (decide (stream_job st = j)) as [<-|].
Qed.

Lemma keep_queue_sent j k st : sent (keep_queue j k st) = sent st.
Proof.
  unfold keep_queue. destruct (gen st); try done.
  by destruct (decide (stream_job st = j)).
Qed.

Lemma keep_queue_other j k st : stream_job st ≠ j → keep_queue j k st = st.
Proof.
  intros Hne. unfold keep_queue. destruct (gen st); try done.
  by rewrite decide_False.
Qed.

Lemma keep_queue_gen j k st :
  gen (keep_queue j k st) = gen st
  ∨ (gen st = Await ∧ gen (keep_queue j k st) = AwaitReplaced k).
Proof.
  unfold keep_queue. destruct (gen st) eqn:Eg; auto.
  destruct (decide (stream_job st = j)); auto.
Qed.

(** How a step changes the list of streams. *)
Lemma step_streams l s s' :
  step l s = Some s' →
  streams s' = streams s
  ∨ (∃ topic j c q, l = Submit topic j c ∧ strip topic ≠ []
          ∧ _status_queues s !! j = Some q
          ∧ replaced s' = replaced s ++ [q]
          ∧ streams s' = keep_queue j (length (replaced s)) <$> streams s)
  ∨ (∃ j, l = Connect j ∧ is_Some (_JOBS s !! j)
          ∧ streams s' = streams s ++ [Stream j Created []])
  ∨ (∃ i st st' s1, l = Next i ∧ streams s !! i = Some st
       ∧ event_stream st s = Some (st', s1)
       ∧ streams s' = <[i := st']> (streams s)).
Proof.
  intros Hstep. destruct l as [topic j c|j|i|j|i].
  - simpl in Hstep. injection Hstep as <-. unfold generate.
    destruct (strip topic) eqn:Et; [by left|]. simpl.
    destruct (_status_queues s !! j) as [q|] eqn:Eq; [|by left].
    right; left. exists topic, j, c, q. by rewrite Et.
  - left. apply step_Run_inv in Hstep as (r & r' & s1 & _ & Hrun & ->).
    by apply _run_effect in Hrun as (_ & ? & _).
  - left. apply step_RunEarlier_inv in Hstep
      as (j & r & r' & s1 & _ & Hrun & ->).
    by apply _run_effect in Hrun as (_ & ? & _).
  - simpl in Hstep. injection Hstep as <-. unfold status_stream.
    destruct (_JOBS s !! j) eqn:Ej; [|by left].
    right; right; left. exists j. by rewrite Ej; eauto.
  - right; right; right.
    apply step_Next_inv in Hstep as (st & st' & s1 & Hst & Hev & ->).
    exists i, st, st', s1. split_and!; try done. simpl.
    by apply event_stream_effect in Hev as (_ & _ & -> & _).
Qed.

(** A property of single streams that a new stream has, and that resuming
    the generator and replacing the queue of its job keep, holds of all
    streams of all reachable states. *)
Lemma streams_invariant (P : stream → Prop) :
  (∀ j, P (Stream j Created [])) →
  (∀ st s st' s1, reachable s → st ∈ streams s → P st →
     event_stream st s = Some (st', s1) → P st') →
  (∀ j k st, P st → P (keep_queue j k st)) →
  ∀ s, reachable s → Forall P (streams s).
Proof.
  intros Hnew Hnext Hkeep s [tr Htr].
  cut (∀ s0, reachable s0 → Forall P (streams s0) → exec tr s0 = Some s →
             Forall P (streams s)).
  { intros H. apply (H init); [by exists []|constructor|done]. }
  clear Htr. induction tr as [|l tr IH]; intros s0 Hr0 H0 Hex.
  - by injection Hex as <-.
  - simpl in Hex. destruct (step l s0) as [s1|] eqn:E; [|done]. simpl in Hex.
    apply (IH s1); [by eapply reachable_step| |done].
    destruct (step_streams _ _ _ E)
      as [->|[(topic & j & c & q & _ & _ & _ & _ & ->)|[(j & _ & _ & ->)|
          (i & st & st' & s2 & _ & Hst & Hev & ->)]]].
    + done.
    + apply Forall_fmap. eapply Forall_impl; [exact H0|].
      intros st Hst. by apply Hkeep.
    + apply Forall_app. split; [done|]. by constructor.
    + apply Forall_insert; [done|].
      eapply (Hnext st s0); [done|by eapply list_elem_of_lookup_2| |done].
      by eapply Forall_lookup_1.
Qed.

Lemma stream_ok_reachable s : reachable s → Forall stream_ok (streams s).
Proof.
  apply streams_invariant.
  - done.
  - intros st s0 st' s1 _ _ Hok Hev. unfold stream_ok in *.
    destruct (event_stream_cases _ _ _ _ Hev)
      as [(Hg & _ & Hs & Hq)|[(Hg & _ & _ & ->)|
          [(line & rest & Hg & _ & _ & _ & ->)|
           (rest & job & Hg & _ & _ & _ & ->)]]]; simpl.
    + rewrite Hg in Hok. destruct (_status_queues s0 !! stream_job st).
      * rewrite Hq, Hs, Hok. constructor.
      * destruct Hq as [-> _]. left. by rewrite Hs.
    + assert (Forall (λ e, is_complete e = false) (sent st ++ [Keepalive])).
      { apply Forall_app. split; [|by repeat constructor].
        by destruct Hg as [Hg|[k Hg]]; rewrite Hg in Hok. }
      by destruct Hg as [->|[k ->]].
    + assert (Forall (λ e, is_complete e = false) (sent st ++ [Log line])).
      { apply Forall_app. split; [|by repeat constructor].
        by destruct Hg as [Hg|[k Hg]]; rewrite Hg in Hok. }
      by destruct Hg as [->|[k ->]].
    + right. eexists _, _, _, _. split; [done|].
      by destruct Hg as [Hg|[k Hg]]; rewrite Hg in Hok.
  - intros j k st Hok. unfold stream_ok in *.
    rewrite keep_queue_sent.
    destruct (keep_queue_gen j k st) as [->|[Hg ->]]; [done|].
    by rewrite Hg in Hok.
Qed.

Lemma no_log_of_sentinel s :
  reachable s → Forall (λ st, Log DONE ∉ sent st) (streams s).
Proof.
  apply streams_invariant.
  - intros j. simpl. by apply not_elem_of_nil.
  - intros st s0 st' s1 _ _ Hok Hev.
    destruct (event_stream_cases _ _ _ _ Hev)
      as [(Hg & _ & Hs & Hq)|[(Hg & _ & _ & ->)|
          [(line & rest & Hg & Hne & _ & _ & ->)|
           (rest & job & Hg & _ & _ & _ & ->)]]]; simpl.
    + by rewrite Hs.
    + rewrite elem_of_app, list_elem_of_singleton. by intros [?|?].
    + rewrite elem_of_app, list_elem_of_singleton. intros [?|[= ?]]; done.
    + rewrite elem_of_app, list_elem_of_singleton. by intros [?|?].
  - intros j k st. by rewrite keep_queue_sent.
Qed.

(** The channels and the entries of the jobs: a step never removes one. *)
Lemma step_queue_kept l s s' j :
  step l s = Some s' →
  is_Some (_status_queues s !! j) → is_Some (_status_queues s' !! j).
Proof.
  intros Hstep Hq. destruct l as [topic j0 c|j0|i|j0|i].
  - simpl in Hstep. injection Hstep as <-. unfold generate.
    destruct (strip topic); [done|]. simpl.
    apply lookup_insert_is_Some. destruct (decide (j0 = j)); auto.
  - apply step_Run_inv in Hstep as (r & r' & s1 & _ & Hrun & ->).
    apply _run_effect in Hrun as (_ & _ & _ & _ & _ & _ & Hdom & _).
    simpl. by apply Hdom.
  - apply step_RunEarlier_inv in Hstep as (j0 & r & r' & s1 & _ & Hrun & ->).
    apply _run_effect in Hrun as (_ & _ & _ & _ & _ & _ & Hdom & _).
    simpl. by apply Hdom.
  - simpl in Hstep. injection Hstep as <-. unfold status_stream.
    by destruct (_JOBS s !! j0).
  - apply step_Next_inv in Hstep as (st & st' & s1 & _ & Hev & ->).
    apply event_stream_effect in Hev as (_ & _ & _ & _ & _ & _ & _ & Hdom & _).
    simpl. by apply Hdom.
Qed.

Lemma exec_queue_kept tr s s' j :
  exec tr s = Some s' →
  is_Some (_status_queues s !! j) → is_Some (_status_queues s' !! j).
Proof.
  revert s. induction tr as [|l tr IH]; intros s Hex Hq.
  - by injection Hex as <-.
  - simpl in Hex. destruct (step l s) as [s1|] eqn:E; [|done].
    apply (IH s1); [done|]. by eapply step_queue_kept.
Qed.

Lemma step_job_kept l s s' j :
  step l s = Some s' → is_Some (_JOBS s !! j) → is_Some (_JOBS s' !! j).
Proof.
  intros Hstep Hq. destruct l as [topic j0 c|j0|i|j0|i].
  - simpl in Hstep. injection Hstep as <-. unfold generate.
    destruct (strip topic); [done|]. simpl.
    apply lookup_insert_is_Some. destruct (decide (j0 = j)); auto.
  - apply step_Run_inv in Hstep as (r & r' & s1 & _ & Hrun & ->).
    apply _run_effect in Hrun as (_ & _ & _ & _ & _ & Hdom & _).
    simpl. by apply Hdom.
  - apply step_RunEarlier_inv in Hstep as (j0 & r & r' & s1 & _ & Hrun & ->).
    apply _run_effect in Hrun as (_ & _ & _ & _ & _ & Hdom & _).
    simpl. by apply Hdom.
  - simpl in Hstep. injection Hstep as <-. unfold status_stream.
    by destruct (_JOBS s !! j0).
  - apply step_Next_inv in Hstep as (st & st' & s1 & _ & Hev & ->).
    apply event_stream_effect in Hev as (Hj & _). simpl. by rewrite Hj.
Qed.

Lemma exec_job_kept tr : ∀ s s' j,
  exec tr s = Some s' → is_Some (_JOBS s !! j) → is_Some (_JOBS s' !! j).
Proof.
  induction tr as [|l tr IH]; intros s s' j Hex Hj.
  - by injection Hex as <-.
  - simpl in Hex. destruct (step l s) as [s1|] eqn:E; [|done]. simpl in Hex.
    apply (IH s1); [done|]. by eapply step_job_kept.
Qed.

(** Every stream belongs to a job of the job map. *)
Lemma stream_known s st :
  reachable s → st ∈ streams s → is_Some (_JOBS s !! stream_job st).
Proof.
  intros [tr Htr].
  cut (∀ s0, (∀ st, st ∈ streams s0 → is_Some (_JOBS s0 !! stream_job st)) →
             exec tr s0 = Some s →
             st ∈ streams s → is_Some (_JOBS s !! stream_job st)).
  { intros H. apply (H init); [|done].
    intros st0 Hin. by apply not_elem_of_nil in Hin. }
  clear Htr. induction tr as [|l tr IH]; intros s0 H0 Hex.
  - injection Hex as <-. apply H0.
  - simpl in Hex. destruct (step l s0) as [s1|] eqn:E; [|done]. simpl in Hex.
    apply (IH s1); [|done].
    assert (Hkeep : ∀ j0, is_Some (_JOBS s0 !! j0) → is_Some (_JOBS s1 !! j0)).
    { intros j0. by apply step_job_kept with l. }
    intros st0 Hin.
    destruct (step_streams _ _ _ E)
      as [Heq|[(topic & j0 & c & q & _ & _ & _ & _ & Heq)|[(j0 & _ & Hj0 & Heq)|
          (i & st1 & st' & s2 & _ & Hst & Hev & Heq)]]];
      rewrite Heq in Hin.
    + apply Hkeep. by apply H0.
    + apply list_elem_of_fmap in Hin as (st1 & -> & Hin).
      rewrite keep_queue_job. apply Hkeep. by apply H0.
    + apply elem_of_app in Hin as [Hin|Hin]; [apply Hkeep; by apply H0|].
      apply list_elem_of_singleton in Hin as ->. by apply Hkeep.
    + apply list_elem_of_lookup in Hin as [k Hk].
      destruct (decide (k = i)) as [->|].
      * rewrite list_lookup_insert_eq in Hk by (by eapply lookup_lt_Some).
        injection Hk as <-.
        apply event_stream_effect in Hev as (_ & _ & _ & _ & _ & -> & _).
        apply Hkeep, H0. by eapply list_elem_of_lookup_2.
      * rewrite list_lookup_insert_ne in Hk by done.
        apply Hkeep, H0. by eapply list_elem_of_lookup_2.
Qed.

(** Resuming a stream that waits on a channel headed by the sentinel. *)
Lemma next_on_sentinel s i st rest job :
  streams s !! i = Some st → gen st = Await →
  _status_queues s !! stream_job st = Some (DONE :: rest) →
  _JOBS s !! stream_job st = Some job →
  ∃ s', step (Next i) s = Some s'
    ∧ streams s' !! i
      = Some (Stream (stream_job st) Ended
                (sent st ++ [Complete (status job) (result job) (error job)]))
    ∧ _status_queues s' !! stream_job st = Some rest
    ∧ _JOBS s' = _JOBS s ∧ runners s' = runners s.
Proof.
  intros Hst Hg Hq Hjob. unfold step. rewrite Hst. simpl.
  unfold event_stream. rewrite Hg, Hq. unfold relay.
  rewrite decide_True by done. simpl.
  rewrite Hjob. simpl. eexists. split; [done|]. simpl.
  split_and!; try done.
  - apply list_lookup_insert_eq. by eapply lookup_lt_Some.
  - by rewrite lookup_insert_eq.
Qed.

(** While no identifier is drawn twice the process stays pristine. *)
Lemma pristine_init : pristine init.
Proof.
  split; [apply consistent_init|]. by split_and!.
Qed.

Lemma step_pristine l s s' :
  pristine s → step l s = Some s' → drawn_once s' → pristine s'.
Proof.
  intros (Hc & He & Hr & Hs) Hstep Hf.
  split; [by eapply step_consistent|]. split; [done|].
  destruct l as [topic j c|j|i|j|i].
  - simpl in Hstep. injection Hstep as <-.
    destruct (strip topic) as [|c0 t0] eqn:Et.
    { unfold generate. by rewrite Et. }
    pose proof (drawn_once_generate topic j c s Hf) as Hnew.
    rewrite Et in Hnew. specialize (Hnew ltac:(done)).
    assert (Hq : _status_queues s !! j = None).
    { specialize (Hc j). unfold consistent_at in Hc. rewrite Hnew in Hc.
      by destruct (_JOBS s !! j), (_status_queues s !! j). }
    unfold generate. rewrite Et. simpl. rewrite Hq, Hr. done.
  - apply step_Run_inv in Hstep as (r & r' & s1 & _ & Hrun & ->).
    apply _run_effect in Hrun as (_ & Hss & _ & Hrr & _). simpl.
    by rewrite Hss, Hrr.
  - pose proof (step_drawn_once _ _ _ Hstep Hf) as Hf0. unfold drawn_once in Hf0.
    simpl in Hstep. by rewrite Hf0 in Hstep.
  - simpl in Hstep. injection Hstep as <-. unfold status_stream.
    destruct (_JOBS s !! j); [|done]. simpl. split; [done|].
    apply Forall_app. split; [done|]. by repeat constructor.
  - apply step_Next_inv in Hstep as (st & st' & s1 & Hst & Hev & ->).
    pose proof (event_stream_effect _ _ _ _ Hev)
      as (_ & _ & Hss & _ & _ & _ & _ & _ & Hlen).
    simpl. split.
    + rewrite Hr in Hlen. by apply nil_length_inv.
    + rewrite Hss. apply Forall_insert; [done|].
      eapply event_stream_current; [|done]. by eapply Forall_lookup_1.
Qed.

Lemma exec_pristine tr s s' :
  pristine s → exec tr s = Some s' → drawn_once s' → pristine s'.
Proof.
  revert s. induction tr as [|l tr IH]; intros s Hs; simpl.
  - by intros [= <-].
  - destruct (step l s) as [s1|] eqn:E; [|done]. simpl.
    intros Hex Hf. apply (IH s1); [|done|done].
    eapply step_pristine; [done..|]. by eapply exec_drawn_once.
Qed.

Lemma reachable_pristine s : reachable s → drawn_once s → pristine s.
Proof.
  intros [tr Htr] Hf. eapply exec_pristine; [apply pristine_init|done..].
Qed.

End StreamFacts.

(** ** Streams of jobs whose pipeline never writes the sentinel *)

Section CleanFacts.

Import Orchestrator Server ServerSpec.

Implicit Types (s : state) (j : str) (st : stream) (l : label).

Lemma put_nowait_elem (item x : str) (q : list str) :
  x ∈ put_nowait item q → x ∈ q ∨ x = item.
Proof.
  unfold put_nowait. destruct (length q <? maxsize); [|by left].
  rewrite elem_of_app, list_elem_of_singleton. tauto.
Qed.

(** Where the sentinel on a channel can come from when a thread moves. *)
Lemma _run_sentinel j r s r' s1 j' q' :
  _run j r s = Some (r', s1) →
  (∀ text pending out, r = Running (text :: pending) out → strip text ≠ DONE) →
  _status_queues s1 !! j' = Some q' → DONE ∈ q' →
  (∃ q, _status_queues s !! j' = Some q ∧ DONE ∈ q) ∨ (j' = j ∧ r' = Exited).
Proof.
  intros H Hclean Hq' Hin.
  destruct r as [[|text pending] [e|p]|p|e| |]; simpl in H;
    try (injection H as <- <-; left; by eauto).
  - destruct (is_exception e); injection H as <- <-; left; by eauto.
  - injection H as <- <-. rewrite write_queues in Hq'.
    destruct (_status_queues s !! j') as [q|]; [|done].
    injection Hq' as <-. left. exists q. split; [done|].
    destruct (strip text) eqn:E; [done|]. rewrite <- E in Hin.
    apply put_nowait_elem in Hin as [?|Heq]; [done|].
    destruct (Hclean text pending (inl e) eq_refl). by rewrite Heq.
  - injection H as <- <-. rewrite write_queues in Hq'.
    destruct (_status_queues s !! j') as [q|]; [|done].
    injection Hq' as <-. left. exists q. split; [done|].
    destruct (strip text) eqn:E; [done|]. rewrite <- E in Hin.
    apply put_nowait_elem in Hin as [?|Heq]; [done|].
    destruct (Hclean text pending (inr p) eq_refl). by rewrite Heq.
  - destruct (_status_queues s !! j) as [q|] eqn:Eq.
    + destruct (length q <? maxsize); [|done]. injection H as <- <-.
      simpl in Hq'. destruct (decide (j' = j)) as [->|]; [by right|].
      rewrite lookup_insert_ne in Hq' by done. left. eauto.
    + injection H as <- <-. left. eauto.
  - done.
Qed.

Lemma _run_pending j r s s1 pending out :
  _run j r s = Some (Running pending out, s1) →
  ∃ text, r = Running (text :: pending) out.
Proof.
  destruct r as [[|text p0] [e|p]|p|e| |]; simpl; intros H; simplify_eq;
    try (by eexists).
  - destruct (is_exception e); simplify_eq.
  - destruct (_status_queues s !! j) as [q|];
      try destruct (length q <? maxsize); simplify_eq.
Qed.

Lemma _run_not_exited j s : _run j Exited s = None.
Proof. done. Qed.

Lemma step_clean l s s' :
  pristine s → clean_state s → label_clean l → step l s = Some s' →
  drawn_once s' → clean_state s'.
Proof.
  intros (Hcons & He & Hrp & Hcur) (Ha & Hb & Hc) Hl Hstep Hf.
  destruct l as [topic j c|j|i|j|i].
  - (* Submit *)
    simpl in Hstep. injection Hstep as <-.
    destruct (strip topic) as [|c0 t0] eqn:Et.
    { unfold generate. by rewrite Et. }
    pose proof (drawn_once_generate topic j c s Hf) as Hr.
    rewrite Et in Hr. specialize (Hr ltac:(done)).
    assert (Ej : _JOBS s !! j = None ∧ _status_queues s !! j = None).
    { specialize (Hcons j). unfold consistent_at in Hcons. rewrite Hr in Hcons.
      by destruct (_JOBS s !! j), (_status_queues s !! j). }
    destruct Ej as [Ej Eq].
    unfold generate. rewrite Et, Eq.
    split_and!; simpl.
    + intros j' q Hq Hin. destruct (decide (j' = j)) as [->|].
      * rewrite lookup_insert_eq in Hq. injection Hq as <-.
        by apply not_elem_of_nil in Hin.
      * rewrite lookup_insert_ne in Hq by done.
        rewrite lookup_insert_ne by done. eauto.
    + intros j' pending out. destruct (decide (j' = j)) as [->|].
      * rewrite lookup_insert_eq. by intros [= <- <-].
      * rewrite lookup_insert_ne by done. apply Hb.
    + eapply Forall_impl; [exact Hc|]. intros st Hst a r e Hin.
      destruct (Hst a r e Hin) as [H1 H2]. simpl.
      assert (stream_job st ≠ j) by congruence.
      by rewrite !lookup_insert_ne.
  - (* Run *)
    apply step_Run_inv in Hstep as (r & r' & s1 & Hr & Hrun & ->).
    pose proof (_run_effect _ _ _ _ _ Hrun)
      as (Hrs & Hss & _ & _ & Hother & _ & _).
    assert (Hne : ∀ j', runners s !! j' = Some Exited → j' ≠ j).
    { intros j' H ->. rewrite Hr in H. injection H as ->. done. }
    split_and!; simpl.
    + intros j' q' Hq' Hin.
      assert (Hcl : ∀ text pending out,
                r = Running (text :: pending) out → strip text ≠ DONE).
      { intros text pending out ->.
        specialize (Hb _ _ _ Hr). by inversion Hb. }
      destruct (_run_sentinel _ _ _ _ _ _ _ Hrun Hcl Hq' Hin)
        as [(q & Hq & Hinq)|[-> ->]].
      * pose proof (Ha _ _ Hq Hinq) as Hex.
        rewrite Hrs, lookup_insert_ne; [done|]. intros <-. by apply (Hne j).
      * by rewrite lookup_insert_eq.
    + intros j' pending out. rewrite Hrs.
      destruct (decide (j' = j)) as [->|].
      * rewrite lookup_insert_eq. intros [= ->].
        apply _run_pending in Hrun as [text ->].
        specialize (Hb _ _ _ Hr). by inversion Hb.
      * rewrite lookup_insert_ne by done. apply Hb.
    + rewrite Hss. eapply Forall_impl; [exact Hc|]. intros st Hst a r0 e Hin.
      destruct (Hst a r0 e Hin) as [H1 H2]. simpl.
      pose proof (Hne _ H1).
      rewrite Hrs, lookup_insert_ne, Hother by done. done.
  - (* RunEarlier: there is no such thread *)
    simpl in Hstep. by rewrite He in Hstep.
  - (* Connect *)
    simpl in Hstep. injection Hstep as <-. unfold status_stream.
    destruct (_JOBS s !! j); [|done].
    split_and!; simpl; [done|done|].
    apply Forall_app. split; [done|]. constructor; [|done].
    intros a r e Hin. by apply not_elem_of_nil in Hin.
  - (* Next *)
    apply step_Next_inv in Hstep as (st & st' & s1 & Hst & Hev & ->).
    pose proof (Forall_lookup_1 _ _ _ _ Hcur Hst) as Hcur0.
    pose proof (event_stream_effect _ _ _ _ Hev)
      as (Hj & Hrs & Hss & _ & _ & Hjob & Hqother & _).
    assert (Hqs : ∀ j' q', _status_queues s1 !! j' = Some q' → DONE ∈ q' →
                  ∃ q, _status_queues s !! j' = Some q ∧ DONE ∈ q).
    { intros j' q' Hq' Hin.
      destruct (event_stream_cases_current _ _ _ _ Hcur0 Hev)
        as [(_ & -> & _)|[(_ & _ & -> & _)|
            [(line & rest & _ & _ & Hq & -> & _)|
             (rest & job & _ & Hq & _ & -> & _)]]]; eauto;
        simpl in Hq'; (destruct (decide (j' = stream_job st)) as [->|];
          [rewrite lookup_insert_eq in Hq'; injection Hq' as <-;
           eexists; split; [done|]; by apply elem_of_cons; right
          |rewrite lookup_insert_ne in Hq' by done; eauto]). }
    split_and!; simpl.
    + intros j' q' Hq' Hin. rewrite Hrs.
      destruct (Hqs _ _ Hq' Hin) as (q & Hq & Hinq). eauto.
    + intros j' pending out. rewrite Hrs. apply Hb.
    + rewrite Hss. apply Forall_insert.
      * eapply Forall_impl; [exact Hc|]. intros st0 Hst0 a r e Hin.
        simpl. rewrite Hrs, Hj. by apply Hst0.
      * pose proof (Forall_lookup_1 _ _ _ _ Hc Hst) as Hold.
        intros a r e Hin. simpl. rewrite Hrs, Hj, Hjob.
        destruct (event_stream_cases_current _ _ _ _ Hcur0 Hev)
          as [(_ & _ & Hs & _)|[(_ & _ & _ & ->)|
              [(line & rest & _ & _ & _ & _ & ->)|
               (rest & job & _ & Hq & Hjb & _ & ->)]]]; simpl in Hin.
        -- rewrite Hs in Hin. by apply Hold.
        -- apply elem_of_app in Hin as [?|Hin]; [by apply Hold|].
           by apply list_elem_of_singleton in Hin.
        -- apply elem_of_app in Hin as [?|Hin]; [by apply Hold|].
           by apply list_elem_of_singleton in Hin.
        -- apply elem_of_app in Hin as [?|Hin]; [by apply Hold|].
           apply list_elem_of_singleton in Hin. injection Hin as -> -> ->.
           split; [|by destruct job].
           eapply Ha; [done|]. by apply elem_of_cons; left.
Qed.

Lemma clean_init : clean_state init.
Proof.
  split_and!; simpl.
  - intros j q. by rewrite lookup_empty.
  - intros j p o. by rewrite lookup_empty.
  - constructor.
Qed.

Lemma exec_clean tr s s' :
  pristine s → clean_state s → writes_no_sentinel tr →
  exec tr s = Some s' → drawn_once s' → clean_state s'.
Proof.
  revert s. induction tr as [|l tr IH]; intros s Hcons Hcl Htr Hex Hf.
  - by injection Hex as <-.
  - simpl in Hex. destruct (step l s) as [s1|] eqn:E; [|done].
    inversion Htr; subst. simpl in Hex.
    pose proof (exec_drawn_once _ _ _ Hex Hf) as Hf1.
    apply (IH s1);
      [by eapply step_pristine|by eapply step_clean|done|done|done].
Qed.

(** The entry of a job whose thread has exited never changes again, as
    long as its identifier is not drawn a second time. *)
Lemma step_exited l s s' j :
  pristine s → runners s !! j = Some Exited → step l s = Some s' → drawn_once s' →
  runners s' !! j = Some Exited ∧ _JOBS s' !! j = _JOBS s !! j.
Proof.
  intros (Hcons & He & _) Hex Hstep Hf.
  destruct l as [topic j0 c|j0|i|j0|i].
  - simpl in Hstep. injection Hstep as <-.
    destruct (strip topic) as [|c0 t0] eqn:Et.
    { unfold generate. by rewrite Et. }
    pose proof (drawn_once_generate topic j0 c s Hf) as Hr.
    rewrite Et in Hr. specialize (Hr ltac:(done)).
    unfold generate. rewrite Et. simpl.
    assert (j0 ≠ j) by (intros ->; congruence).
    by rewrite !lookup_insert_ne.
  - apply step_Run_inv in Hstep as (r & r' & s1 & Hr & Hrun & ->).
    assert (j0 ≠ j).
    { intros ->. rewrite Hex in Hr. injection Hr as <-. done. }
    apply _run_effect in Hrun as (Hrs & _ & _ & _ & Hother & _). simpl.
    by rewrite Hrs, lookup_insert_ne, Hother.
  - simpl in Hstep. by rewrite He in Hstep.
  - simpl in Hstep. injection Hstep as <-. unfold status_stream.
    by destruct (_JOBS s !! j0).
  - apply step_Next_inv in Hstep as (st & st' & s1 & _ & Hev & ->).
    apply event_stream_effect in Hev as (Hj & Hrs & _). simpl.
    by rewrite Hj, Hrs.
Qed.

Lemma exec_exited tr s s' j :
  pristine s → runners s !! j = Some Exited → exec tr s = Some s' → drawn_once s' →
  runners s' !! j = Some Exited ∧ _JOBS s' !! j = _JOBS s !! j.
Proof.
  revert s. induction tr as [|l tr IH]; intros s Hcons Hex Htr Hf.
  - by injection Htr as <-.
  - simpl in Htr. destruct (step l s) as [s1|] eqn:E; [|done]. simpl in Htr.
    pose proof (exec_drawn_once _ _ _ Htr Hf) as Hf1.
    destruct (step_exited _ _ _ _ Hcons Hex E Hf1) as [H1 H2].
    destruct (IH s1 (step_pristine _ _ _ Hcons E Hf1) H1 Htr Hf) as [H3 H4].
    split; [done|]. by rewrite H4.
Qed.

End CleanFacts.

(** ** The claims about the server *)

Section ServerClaims.

Import Orchestrator Server ServerSpec.

Implicit Types (s : state) (j : str) (st : stream) (l : label).

(** C1 (as amended).  Log channels are not isolated from each other: a text
    written while the pipeline of any job runs goes to the original standard
    output and, stripped and when it is not blank, onto every channel of the
    channel map that has room, the channel of the writing job and the
    channels of all other jobs alike; a channel that already holds 500 items
    is left as it is. *)
Theorem write_reaches_every_channel s (a : str) (text : str)
    (pending : list str) (out : exn + path) :
  runners s !! a = Some (Running (text :: pending) out) →
  ∃ s', step (Run a) s = Some s'
    ∧ stdout s' = stdout s ++ [text]
    ∧ runners s' !! a = Some (Running pending out)
    ∧ ∀ b q, _status_queues s !! b = Some q →
        _status_queues s' !! b
        = Some (match strip text with
                | [] => q
                | _ :: _ =>
                    if length q <? maxsize then q ++ [strip text] else q
                end).
Proof.
  intros Hr. unfold step. rewrite Hr. simpl. eexists. split; [done|].
  simpl. split_and!.
  - unfold write. by destruct (strip text).
  - by rewrite write_runners, lookup_insert_eq.
  - intros b q Hq. rewrite write_queues, Hq. simpl. done.
Qed.

Lemma step_sentinel_count l s s' j :
  pristine s → step l s = Some s' → drawn_once s' →
  (match l with
   | Run j0 =>
       if decide (j0 = j) then
         match runners s !! j0, _status_queues s !! j0 with
         | Some InFinally, Some _ => 1
         | _, _ => 0
         end
       else 0
   | _ => 0
   end) + exited_count s j = exited_count s' j.
Proof.
  intros (Hcons & He & _) Hstep Hf. unfold exited_count.
  destruct l as [topic j0 c|j0|i|j0|i].
  - simpl in Hstep. injection Hstep as <-.
    destruct (strip topic) as [|c0 t0] eqn:Et.
    { unfold generate. by rewrite Et. }
    pose proof (drawn_once_generate topic j0 c s Hf) as Hr.
    rewrite Et in Hr. specialize (Hr ltac:(done)).
    unfold generate. rewrite Et. simpl.
    destruct (decide (j0 = j)) as [->|]; [|by rewrite lookup_insert_ne].
    by rewrite lookup_insert_eq, Hr.
  - apply step_Run_inv in Hstep as (r & r' & s1 & Hr & Hrun & ->).
    pose proof (_run_effect _ _ _ _ _ Hrun) as (Hrs & _). simpl. rewrite Hrs.
    destruct (decide (j0 = j)) as [->|]; [|by rewrite lookup_insert_ne].
    rewrite lookup_insert_eq, Hr.
    specialize (Hcons j). apply consistent_at_alt in Hcons as (H1 & H2 & _).
    destruct r as [[|text pending] [e|p]|p|e| |]; simpl in Hrun;
      try (by simplify_eq).
    + destruct (is_exception e); by simplify_eq.
    + destruct (_status_queues s !! j) as [q|] eqn:Eq.
      * destruct (length q <? maxsize); by simplify_eq.
      * destruct H2 as [H2 _]. destruct H1 as [_ H1].
        destruct H2 as [? ?]; [apply H1; by eauto|done].
  - simpl in Hstep. by rewrite He in Hstep.
  - simpl in Hstep. injection Hstep as <-. unfold status_stream.
    by destruct (_JOBS s !! j0).
  - apply step_Next_inv in Hstep as (st & st' & s1 & _ & Hev & ->).
    apply event_stream_effect in Hev as (_ & Hrs & _). simpl. by rewrite Hrs.
Qed.

Lemma sentinel_puts_count tr s s' j :
  pristine s → exec tr s = Some s' → drawn_once s' →
  sentinel_puts j tr s + exited_count s j = exited_count s' j.
Proof.
  revert s. induction tr as [|l tr IH]; intros s Hcons Hex Hf.
  - by injection Hex as <-.
  - simpl in Hex |- *. destruct (step l s) as [s1|] eqn:E; [|done].
    simpl in Hex.
    pose proof (exec_drawn_once _ _ _ Hex Hf) as Hf1.
    pose proof (step_sentinel_count _ _ _ j Hcons E Hf1) as H1.
    pose proof (IH s1 (step_pristine _ _ _ Hcons E Hf1) Hex Hf) as H2.
    lia.
Qed.

(** Run alone, the thread of a job writes what its pipeline has left to
    write and then records the outcome. *)
Lemma run_pending j out pending : ∀ s,
  runners s !! j = Some (Running pending out) →
  ∃ s', exec (replicate (length pending) (Run j)) s = Some s'
        ∧ runners s' !! j = Some (Running [] out)
        ∧ _JOBS s' = _JOBS s.
Proof.
  induction pending as [|text pending IH]; intros s Hr.
  - by exists s.
  - assert (Hstep : step (Run j) s
                    = Some (set_runners (<[j := Running pending out]>)
                              (write text s))).
    { unfold step. by rewrite Hr. }
    destruct (IH (set_runners (<[j := Running pending out]>) (write text s)))
      as (s' & Hex & Hr' & Hj).
    { simpl. by rewrite lookup_insert_eq. }
    exists s'. split_and!; try done.
    + cbn [length replicate exec]. by rewrite Hstep.
    + rewrite Hj. simpl. apply write_jobs.
Qed.

Lemma run_finishes s j out job :
  runners s !! j = Some (Running [] out) → _JOBS s !! j = Some job →
  ∃ s', exec (replicate (statements_to_finally out) (Run j)) s = Some s'
        ∧ _JOBS s' !! j = Some (record out job)
        ∧ runners s' !! j = Some InFinally.
Proof.
  intros Hr Hjob. unfold statements_to_finally, record.
  destruct out as [e|p]; [destruct (is_exception e) eqn:Ee|]; simpl;
    rewrite Hr; simpl; rewrite ?Ee; simpl;
    rewrite ?lookup_insert_eq; simpl; eexists; (split; [done|]); simpl;
    by rewrite lookup_insert_eq, ?lookup_alter_eq, Hjob.
Qed.

Lemma runner_reaches_finally s j pending out job :
  runners s !! j = Some (Running pending out) → _JOBS s !! j = Some job →
  ∃ s', exec (replicate (length pending + statements_to_finally out) (Run j)) s
        = Some s'
        ∧ _JOBS s' !! j = Some (record out job)
        ∧ runners s' !! j = Some InFinally.
Proof.
  intros Hr Hjob.
  destruct (run_pending _ _ _ _ Hr) as (s1 & Hex1 & Hr1 & Hj1).
  rewrite <- Hj1 in Hjob.
  destruct (run_finishes _ _ _ _ Hr1 Hjob) as (s2 & Hex2 & Hj2 & Hr2).
  exists s2. split; [|done].
  rewrite replicate_add, exec_app, Hex1. exact Hex2.
Qed.

(** The entry of a job whose thread is still in the pipeline, when no
    identifier was drawn twice. *)
Lemma running_entry s j pending out :
  reachable s → runners s !! j = Some (Running pending out) →
  ∃ job, _JOBS s !! j = Some job ∧ (drawn_once s → job = Job running None None).
Proof.
  intros Hreach Hr.
  destruct (reachable_same_keys _ Hreach j) as [[_ Hj] _].
  destruct Hj as [job Hjob]; [by eauto|]. exists job. split; [done|].
  intros Hf. pose proof (reachable_consistent _ Hreach Hf j) as Hc.
  apply consistent_at_alt in Hc as (_ & _ & Hm). by apply (Hm _ _ Hjob Hr).
Qed.

(** C6 (as amended).  Failure containment and close.  An exception the
    pipeline raises is caught at the runner when it is an instance of
    [Exception]: the next two statements of the thread set the status to
    "error" and the error field to [str(e)], leaving the result field as it
    is, and the thread goes on to its [finally] block like after a success,
    where the result is recorded with the status "done".  An exception that
    is no instance of [Exception] ([SystemExit], [KeyboardInterrupt], ...)
    is not caught: the thread goes to the [finally] block at once and the
    entry of the job stays as it is, with the status "running".  The entry
    the thread finds is the one [generate] made, as long as no identifier
    was drawn twice.  A thread that has not reached [finally] can always
    move, and from wherever it stands inside the pipeline it reaches
    [finally] after as many steps of its own as it has texts left to write,
    and two more (one more for an uncaught exception).  In [finally] the
    thread appends the sentinel to the channel of its own job as soon as
    the channel has room (while the channel holds 500 items the [put]
    waits) and exits; after that it never moves again.  Along every
    execution in which no identifier is drawn twice the thread of a job
    has put the sentinel exactly once when it has exited and not at all
    before.  (Texts written by the pipelines of other jobs may still be
    appended to the channel after the sentinel.) *)
Theorem runner_containment_and_close :
  (∀ s j e, reachable s → runners s !! j = Some (Running [] (inl e)) →
     is_exception e = true →
     ∃ job s1 s2, _JOBS s !! j = Some job
       ∧ (drawn_once s → job = Job running None None)
       ∧ step (Run j) s = Some s1 ∧ step (Run j) s1 = Some s2
       ∧ _JOBS s2 !! j = Some (Job failed (result job) (Some (exn_msg e)))
       ∧ runners s2 !! j = Some InFinally)
  ∧ (∀ s j e, reachable s → runners s !! j = Some (Running [] (inl e)) →
     is_exception e = false →
     ∃ job s1, _JOBS s !! j = Some job
       ∧ (drawn_once s → job = Job running None None)
       ∧ step (Run j) s = Some s1
       ∧ _JOBS s1 = _JOBS s
       ∧ runners s1 !! j = Some InFinally)
  ∧ (∀ s j p, reachable s → runners s !! j = Some (Running [] (inr p)) →
     ∃ job s1 s2, _JOBS s !! j = Some job
       ∧ (drawn_once s → job = Job running None None)
       ∧ step (Run j) s = Some s1 ∧ step (Run j) s1 = Some s2
       ∧ _JOBS s2 !! j = Some (Job done (Some (name p)) (error job))
       ∧ runners s2 !! j = Some InFinally)
  ∧ (∀ s j r, runners s !! j = Some r → r ≠ InFinally → r ≠ Exited →
       is_Some (step (Run j) s))
  ∧ (∀ s j pending out, reachable s →
       runners s !! j = Some (Running pending out) →
       ∃ job s', _JOBS s !! j = Some job
         ∧ (drawn_once s → record out job = final_job out)
         ∧ exec (replicate (length pending + statements_to_finally out)
                   (Run j)) s = Some s'
         ∧ _JOBS s' !! j = Some (record out job)
         ∧ runners s' !! j = Some InFinally)
  ∧ (∀ s j, reachable s → runners s !! j = Some InFinally →
       ∃ q, _status_queues s !! j = Some q
         ∧ (length q < maxsize →
              ∃ s', step (Run j) s = Some s'
                ∧ _status_queues s' !! j = Some (q ++ [DONE])
                ∧ runners s' !! j = Some Exited)
         ∧ (maxsize ≤ length q → step (Run j) s = None))
  ∧ (∀ s j, runners s !! j = Some Exited → step (Run j) s = None)
  ∧ (∀ tr s j, exec tr init = Some s → drawn_once s →
       sentinel_puts j tr init = exited_count s j).
Proof.
  split_and!.
  - intros s j e Hreach Hr He.
    destruct (running_entry _ _ _ _ Hreach Hr) as (job & Hjob & Hf).
    exists job. unfold step. rewrite Hr. simpl. rewrite He. simpl.
    eexists _, _. do 3 (split; [done|]). simpl.
    rewrite lookup_insert_eq. simpl. split; [done|]. simpl.
    by rewrite lookup_insert_eq, !lookup_alter_eq, Hjob.
  - intros s j e Hreach Hr He.
    destruct (running_entry _ _ _ _ Hreach Hr) as (job & Hjob & Hf).
    exists job. unfold step. rewrite Hr. simpl. rewrite He. simpl.
    eexists. split_and!; [done|done|done|done|]; simpl.
    by rewrite lookup_insert_eq.
  - intros s j p Hreach Hr.
    destruct (running_entry _ _ _ _ Hreach Hr) as (job & Hjob & Hf).
    exists job. unfold step. rewrite Hr. simpl.
    eexists _, _. do 3 (split; [done|]). simpl.
    rewrite lookup_insert_eq. simpl. split; [done|]. simpl.
    by rewrite lookup_insert_eq, !lookup_alter_eq, Hjob.
  - intros s j r Hr H1 H2. unfold step. rewrite Hr. simpl.
    destruct r as [[|text pending] [e|p]|p|e| |]; try done; simpl; eauto.
    destruct (is_exception e); simpl; eauto.
  - intros s j pending out Hreach Hr.
    destruct (running_entry _ _ _ _ Hreach Hr) as (job & Hjob & Hf).
    destruct (runner_reaches_finally _ _ _ _ _ Hr Hjob) as (s' & ? & ? & ?).
    exists job, s'. split_and!; try done.
    intros ->%Hf. unfold record, final_job. destruct out as [e|p]; [|done].
    by destruct (is_exception e).
  - intros s j Hreach Hr.
    destruct (reachable_same_keys _ Hreach j) as [[_ Hj] [Hq _]].
    destruct Hq as [q Hq]; [apply Hj; by eauto|].
    exists q. split; [done|]. unfold step. rewrite Hr. simpl. rewrite Hq.
    split.
    + intros Hlt. apply Nat.ltb_lt in Hlt. rewrite Hlt. simpl.
      eexists. split; [done|]. simpl. by rewrite !lookup_insert_eq.
    + intros Hge. apply Nat.ltb_ge in Hge. by rewrite Hge.
  - intros s j Hr. unfold step. by rewrite Hr.
  - intros tr s j Hex Hf.
    pose proof (sentinel_puts_count tr init s j pristine_init Hex Hf) as H.
    unfold exited_count at 1 in H. simpl in H. rewrite lookup_empty in H. lia.
Qed.

(** C7 (as amended).  The status stream.  For an unknown job identifier
    the endpoint answers "not found" and opens no stream.  For a known one
    it opens a stream, whose generator, in a reachable state, finds the
    channel of the job and waits on it: with the channel empty (the wait
    times out) it emits a keepalive event and waits again; with a line
    other than the sentinel at the head it takes the line, emits it as a
    log event and waits again; with the sentinel at the head it takes it,
    emits one complete event with the status, result and error recorded for
    the job at that moment and ends, after which it emits nothing.  The
    generator goes on in the same way on the queue it holds when the
    identifier of its job is drawn again and the channel map gets a new
    queue.  So in every reachable state a stream that has not ended has
    sent no complete event, and one that has ended has sent exactly one, as
    its last event (or nothing at all, which happens for no stream of a
    known job).  The fields of a complete event are the final ones only as
    long as no pipeline prints the sentinel text itself and no identifier
    is drawn twice: then the thread of the job has exited, the entry of the
    job holds the fields, the status is "done" with a result, "error" with
    an error, or still "running" with neither (after an exception that
    [except Exception] does not catch), and the entry stays as it is along
    every further execution in which no identifier is drawn twice. *)
Theorem status_stream_machine :
  (∀ s j, _JOBS s !! j = None → status_stream j s = (NotFound, s))
  ∧ (∀ s j, is_Some (_JOBS s !! j) →
       status_stream j s
       = (EventStream, set_streams (λ ss, ss ++ [Stream j Created []]) s))
  ∧ (∀ s j sent0, reachable s → is_Some (_JOBS s !! j) →
       event_stream (Stream j Created sent0) s
       = Some (Stream j Await sent0, s))
  ∧ (∀ s j sent0, _status_queues s !! j = Some [] →
       event_stream (Stream j Await sent0) s
       = Some (Stream j Await (sent0 ++ [Keepalive]), s))
  ∧ (∀ s j sent0 line rest,
       _status_queues s !! j = Some (line :: rest) → line ≠ DONE →
       event_stream (Stream j Await sent0) s
       = Some (Stream j Await (sent0 ++ [Log line]),
               set_queues (<[j := rest]>) s))
  ∧ (∀ s j sent0 rest job,
       _status_queues s !! j = Some (DONE :: rest) → _JOBS s !! j = Some job →
       event_stream (Stream j Await sent0) s
       = Some (Stream j Ended
                 (sent0 ++ [Complete (status job) (result job) (error job)]),
               set_queues (<[j := rest]>) s))
  ∧ (∀ s j k sent0, replaced s !! k = Some [] →
       event_stream (Stream j (AwaitReplaced k) sent0) s
       = Some (Stream j (AwaitReplaced k) (sent0 ++ [Keepalive]), s))
  ∧ (∀ s j k sent0 line rest,
       replaced s !! k = Some (line :: rest) → line ≠ DONE →
       event_stream (Stream j (AwaitReplaced k) sent0) s
       = Some (Stream j (AwaitReplaced k) (sent0 ++ [Log line]),
               set_replaced (<[k := rest]>) s))
  ∧ (∀ s j k sent0 rest job,
       replaced s !! k = Some (DONE :: rest) → _JOBS s !! j = Some job →
       event_stream (Stream j (AwaitReplaced k) sent0) s
       = Some (Stream j Ended
                 (sent0 ++ [Complete (status job) (result job) (error job)]),
               set_replaced (<[k := rest]>) s))
  ∧ (∀ s j sent0, event_stream (Stream j Ended sent0) s = None)
  ∧ (∀ s, reachable s → Forall stream_ok (streams s))
  ∧ (∀ s st, reachable s → st ∈ streams s → is_Some (_JOBS s !! stream_job st))
  ∧ (∀ tr s st a r e,
       exec tr init = Some s → writes_no_sentinel tr → drawn_once s →
       st ∈ streams s → Complete a r e ∈ sent st →
       runners s !! stream_job st = Some Exited
       ∧ _JOBS s !! stream_job st = Some (Job a r e)
       ∧ ((a = done ∧ is_Some r ∧ e = None)
          ∨ (a = failed ∧ r = None ∧ is_Some e)
          ∨ (a = running ∧ r = None ∧ e = None))
       ∧ ∀ tr' s', exec tr' s = Some s' → drawn_once s' →
           _JOBS s' !! stream_job st = Some (Job a r e)).
Proof.
  split_and!.
  - intros s j Hj. unfold status_stream. by rewrite Hj.
  - intros s j [job Hj]. unfold status_stream. by rewrite Hj.
  - intros s j sent0 Hreach Hj. unfold event_stream. simpl.
    destruct (reachable_same_keys _ Hreach j) as [_ [Hq _]].
    by destruct (Hq Hj) as [q ->].
  - intros s j sent0 Hq. unfold event_stream. simpl. by rewrite Hq.
  - intros s j sent0 line rest Hq Hne. unfold event_stream, relay. simpl.
    rewrite Hq. by rewrite decide_False.
  - intros s j sent0 rest job Hq Hj. unfold event_stream, relay. simpl.
    rewrite Hq. rewrite decide_True by done. simpl. by rewrite Hj.
  - intros s j k sent0 Hq. unfold event_stream. simpl. by rewrite Hq.
  - intros s j k sent0 line rest Hq Hne. unfold event_stream, relay. simpl.
    rewrite Hq. by rewrite decide_False.
  - intros s j k sent0 rest job Hq Hj. unfold event_stream, relay. simpl.
    rewrite Hq. rewrite decide_True by done. simpl. by rewrite Hj.
  - done.
  - apply stream_ok_reachable.
  - apply stream_known.
  - intros tr s st a r e Hex Hclean Hf Hin Hc.
    pose proof (exec_pristine _ _ _ pristine_init Hex Hf) as Hp.
    pose proof (exec_clean _ _ _ pristine_init clean_init Hclean Hex Hf)
      as (_ & _ & Hfin).
    rewrite Forall_forall in Hfin.
    destruct (Hfin st Hin a r e Hc) as [Hr Hj].
    split; [done|]. split; [done|]. split.
    + destruct Hp as (Hcons & _). specialize (Hcons (stream_job st)).
      apply consistent_at_alt in Hcons as (_ & _ & Hm).
      specialize (Hm _ _ Hj Hr). simpl in Hm.
      destruct Hm as [[res [= -> -> ->]]|[[err [= -> -> ->]]|[= -> -> ->]]];
        [left|right; left|right; right]; eauto.
    + intros tr' s' Hex' Hf'.
      destruct (exec_exited _ _ _ _ Hp Hr Hex' Hf') as [_ ->]. done.
Qed.

(** C9 (as amended).  Channel lifecycle.  The channel of a job is created,
    empty, when the job is submitted, and it is never destroyed: no step of
    the server removes an entry from the channel map.  In particular, when a
    stream takes the sentinel from the channel and emits the complete event,
    the channel map still has the entry of that job, holding whatever
    followed the sentinel. *)
Theorem channel_lifecycle :
  (∀ s topic_field j c,
     strip topic_field ≠ [] → _JOBS s !! j = None →
     ∃ s', step (Submit topic_field j c) s = Some s'
           ∧ _status_queues s' !! j = Some [])
  ∧ (∀ tr s s' j, exec tr s = Some s' →
       is_Some (_status_queues s !! j) → is_Some (_status_queues s' !! j))
  ∧ (∀ s i st rest job,
       streams s !! i = Some st → gen st = Await →
       _status_queues s !! stream_job st = Some (DONE :: rest) →
       _JOBS s !! stream_job st = Some job →
       ∃ s', step (Next i) s = Some s'
         ∧ streams s' !! i
           = Some (Stream (stream_job st) Ended
                     (sent st ++ [Complete (status job) (result job)
                                           (error job)]))
         ∧ _status_queues s' !! stream_job st = Some rest
         ∧ ∀ tr s'', exec tr s' = Some s'' →
             is_Some (_status_queues s'' !! stream_job st)).
Proof.
  split_and!.
  - intros s topic_field j c Hne Hj. simpl. eexists. split; [done|].
    unfold generate. destruct (strip topic_field); [done|]. simpl.
    by rewrite lookup_insert_eq.
  - intros tr s s' j. apply exec_queue_kept.
  - intros s i st rest job Hst Hg Hq Hj.
    destruct (next_on_sentinel _ _ _ _ _ Hst Hg Hq Hj)
      as (s' & Hstep & Hs' & Hq' & _).
    exists s'. split_and!; try done.
    intros tr s'' Hex. eapply exec_queue_kept; [done|]. by rewrite Hq'.
Qed.

(** C10.  The sentinel is in band.  A text whose stripped form is
    "__DONE__" is put on every channel like any other line; a stream that
    finds "__DONE__" at the head of its channel takes it for the sentinel,
    whoever put it there and whatever the thread of the job is doing: it
    emits the complete event with the fields the job has at that moment and
    ends.  Hence no stream ever sends a log event with the message
    "__DONE__"; and a pipeline that prints that text closes the stream of
    its job while the job is still running: the complete event then carries
    the status "running". *)
Theorem sentinel_in_band :
  (∀ s text j q,
     strip text = DONE → _status_queues s !! j = Some q →
     _status_queues (write text s) !! j = Some (put_nowait DONE q))
  ∧ (∀ s i st rest job,
       streams s !! i = Some st → gen st = Await →
       _status_queues s !! stream_job st = Some (DONE :: rest) →
       _JOBS s !! stream_job st = Some job →
       ∃ s', step (Next i) s = Some s'
         ∧ streams s' !! i
           = Some (Stream (stream_job st) Ended
                     (sent st ++ [Complete (status job) (result job)
                                           (error job)]))
         ∧ _JOBS s' = _JOBS s ∧ runners s' = runners s)
  ∧ (∀ s st, reachable s → st ∈ streams s → Log DONE ∉ sent st)
  ∧ (let s := Examples.final Examples.print_sentinel in
     reachable s
     ∧ streams s = [Stream Examples.jobA Ended [Complete running None None]]
     ∧ _JOBS s !! Examples.jobA = Some (Job running None None)
     ∧ runners s !! Examples.jobA
       = Some (Running [[10%N]; u "more"; [10%N]] (inr Examples.example_path))).
Proof.
  split_and!.
  - intros s text j q Hs Hq. rewrite write_queues, Hq, Hs. done.
  - intros s i st rest job Hst Hg Hq Hj.
    destruct (next_on_sentinel _ _ _ _ _ Hst Hg Hq Hj)
      as (s' & Hstep & Hs' & _ & ? & ?). by exists s'.
  - intros s st Hreach Hin.
    pose proof (no_log_of_sentinel _ Hreach) as H.
    rewrite Forall_forall in H. by apply H.
  - split; [exists Examples.print_sentinel; by vm_compute|].
    split_and!; by vm_compute.
Qed.

End ServerClaims.

(** ** The claims on the example executions *)

Section ServerExamples.

Import Orchestrator Server ServerSpec Examples.

(** C1, as stated, fails.  Jobs A and B are both open and B has printed
    nothing; the thread of A writes "hello", and the line is on the channel
    of B. *)
Lemma isolation_counterexample :
  runners (final (take 2 two_jobs)) !! jobA
  = Some (Running [u "hello"; [10%N]] (inr example_path))
  ∧ _status_queues (final (take 2 two_jobs)) !! jobB = Some []
  ∧ step (Run jobA) (final (take 2 two_jobs)) = Some (final two_jobs)
  ∧ _status_queues (final two_jobs) !! jobB = Some [u "hello"]
  ∧ jobA ≠ jobB.
Proof. split_and!; by vm_compute. Qed.

Lemma write_reaches_every_channel_witness :
  ∃ s', step (Run jobA) (final (take 2 two_jobs)) = Some s'
    ∧ stdout s' = stdout (final (take 2 two_jobs)) ++ [u "hello"]
    ∧ runners s' !! jobA = Some (Running [[10%N]] (inr example_path))
    ∧ ∀ b q, _status_queues (final (take 2 two_jobs)) !! b = Some q →
        _status_queues s' !! b
        = Some (match strip (u "hello") with
                | [] => q
                | _ :: _ =>
                    if length q <? maxsize then q ++ [strip (u "hello")] else q
                end).
Proof.
  apply (write_reaches_every_channel (final (take 2 two_jobs)) jobA
           (u "hello") [[10%N]] (inr example_path)).
  vm_compute. reflexivity.
Defined.

(** C6, as stated, fails.  The thread of job A has exited and has put the
    sentinel; job B then prints, and the last item on the channel of A is no
    longer the sentinel.  And a pipeline that ends with [KeyboardInterrupt]
    is not caught at the runner: its thread exits with the status of the
    job still "running" and no error stored. *)
Lemma sentinel_not_last_counterexample :
  exec finish_then_print init = Some (final finish_then_print)
  ∧ runners (final finish_then_print) !! jobA = Some Exited
  ∧ _status_queues (final finish_then_print) !! jobA = Some [DONE; u "hello"]
  ∧ last [DONE; u "hello"] ≠ Some DONE
  ∧ exec interrupted_job init = Some (final interrupted_job)
  ∧ runners (final interrupted_job) !! jobA = Some Exited
  ∧ _JOBS (final interrupted_job) !! jobA = Some (Job running None None).
Proof. split_and!; by vm_compute. Qed.

Lemma runner_containment_and_close_witness :
  sentinel_puts jobA finish_then_print init = 1.
Proof.
  destruct runner_containment_and_close as (_ & _ & _ & _ & _ & _ & _ & H).
  rewrite (H finish_then_print (final finish_then_print) jobA).
  - vm_compute. reflexivity.
  - vm_compute. reflexivity.
  - vm_compute. reflexivity.
Defined.

Lemma status_stream_machine_witness :
  _JOBS (final finish_and_stream) !! jobA
  = Some (Job done (Some (u "podcast.mp3")) None).
Proof.
  destruct status_stream_machine
    as (_ & _ & _ & _ & _ & _ & _ & _ & _ & _ & _ & _ & H).
  apply (H finish_and_stream (final finish_and_stream)
           (Stream jobA Ended [Complete done (Some (u "podcast.mp3")) None])
           done (Some (u "podcast.mp3")) None).
  - vm_compute. reflexivity.
  - unfold writes_no_sentinel, finish_and_stream.
    repeat constructor.
  - vm_compute. reflexivity.
  - vm_compute. apply list_elem_of_here.
  - apply list_elem_of_here.
Defined.

(** C7, as stated, fails: the fields of the complete event need not be the
    final ones.  The pipeline of job A prints the sentinel text; the stream
    takes it for the end of the job and sends a complete event with the
    status "running"; the job goes on and ends with the status "done" and a
    result.  And when the identifier of job A is drawn again after job A is
    done and its stream has sent the complete event with the status "done",
    the entry of that identifier goes back to "running". *)
Lemma complete_not_final_counterexample :
  exec sentinel_then_done init = Some (final sentinel_then_done)
  ∧ streams (final sentinel_then_done)
    = [Stream jobA Ended [Complete running None None]]
  ∧ _JOBS (final sentinel_then_done) !! jobA
    = Some (Job done (Some (u "podcast.mp3")) None)
  ∧ exec drawn_after_complete init = Some (final drawn_after_complete)
  ∧ streams (final drawn_after_complete)
    = [Stream jobA Ended [Complete done (Some (u "podcast.mp3")) None]]
  ∧ _JOBS (final drawn_after_complete) !! jobA
    = Some (Job running None None).
Proof. split_and!; by vm_compute. Qed.

(** C9, as stated, fails.  Job A has finished, a stream has taken the
    sentinel and sent the complete event, and the channel map still has the
    (now empty) channel of A. *)
Lemma channel_not_destroyed_counterexample :
  exec finish_and_stream init = Some (final finish_and_stream)
  ∧ streams (final finish_and_stream)
    = [Stream jobA Ended [Complete done (Some (u "podcast.mp3")) None]]
  ∧ _status_queues (final finish_and_stream) !! jobA = Some [].
Proof. split_and!; by vm_compute. Qed.

Lemma channel_lifecycle_witness :
  is_Some (_status_queues (final finish_and_stream) !! jobA).
Proof.
  destruct channel_lifecycle as (_ & H & _).
  apply (H (drop 1 finish_and_stream) (final (take 1 finish_and_stream))).
  - vm_compute. reflexivity.
  - vm_compute. eexists. reflexivity.
Defined.

Lemma sentinel_in_band_witness :
  Log DONE ∉ [Complete running None None].
Proof.
  destruct sentinel_in_band as (_ & _ & H & _).
  apply (H (final print_sentinel)
           (Stream jobA Ended [Complete running None None])).
  - exists print_sentinel. vm_compute. reflexivity.
  - vm_compute. apply list_elem_of_here.
Defined.

End ServerExamples.

(** ** The decoder reads a value and nothing after it *)

Section JsonExtension.

Import JsonSpec.

Lemma is_delim_inv c :
  is_delim c = true → c ∈ [32; 9; 10; 13; 44; 93; 125]%N.
Proof.
  unfold is_delim, is_json_ws. change (ch ",") with 44%N.
  change (ch "]") with 93%N. change (ch "}") with 125%N.
  rewrite !orb_true_iff, !N.eqb_eq, !elem_of_cons. tauto.
Qed.

Ltac delim_cases H :=
  apply is_delim_inv in H;
  rewrite !elem_of_cons, elem_of_nil in H;
  destruct H as [->|[->|[->|[->|[->|[->|[->|[]]]]]]]].

Lemma span_app_stop (p : N → bool) (l : str) (c : N) (x : str) :
  p c = false →
  span p (l ++ c :: x) = (let '(a, b) := span p l in (a, b ++ c :: x)).
Proof.
  intros Hc. induction l as [|c0 l IH]; simpl; [by rewrite Hc|].
  destruct (p c0); [|done]. rewrite IH. by destruct (span p l).
Qed.

Lemma span_eq (p : N → bool) (s a b : str) : span p s = (a, b) → s = a ++ b.
Proof.
  revert a b. induction s as [|c s IH]; simpl; intros a b H; [by simplify_eq|].
  destruct (p c); [|by simplify_eq].
  destruct (span p s) as [a' b']. simplify_eq. simpl. f_equal. by apply IH.
Qed.

Lemma is_delim_not_digit c : is_delim c = true → is_digit c = false.
Proof. intros H. delim_cases H; reflexivity. Qed.

(** For each part of the number lexer a delimiter is as good as the end of
    the text. *)
Lemma lex_sign_delim l c x :
  is_delim c = true →
  lex_sign (l ++ c :: x) = (let '(n, b) := lex_sign l in (n, b ++ c :: x)).
Proof.
  intros H. destruct l as [|c0 l]; simpl.
  - delim_cases H; reflexivity.
  - by destruct (c0 =? ch "-")%N.
Qed.

Lemma lex_int_delim l c x :
  is_delim c = true →
  lex_int (l ++ c :: x) = (λ '(a, b), (a, b ++ c :: x)) <$> lex_int l.
Proof.
  intros H. destruct l as [|c0 l]; simpl.
  - delim_cases H; reflexivity.
  - destruct ((49 <=? c0)%N && (c0 <=? 57)%N).
    + rewrite span_app_stop by by apply is_delim_not_digit.
      by destruct (span is_digit l).
    + by destruct (c0 =? 48)%N.
Qed.

Lemma lex_frac_delim l c x :
  is_delim c = true →
  lex_frac (l ++ c :: x) = (let '(a, b) := lex_frac l in (a, b ++ c :: x)).
Proof.
  intros H. destruct l as [|d [|c1 l]]; simpl.
  - destruct x; delim_cases H; reflexivity.
  - rewrite (is_delim_not_digit _ H). by rewrite andb_false_r.
  - destruct ((d =? ch ".")%N && is_digit c1); [|done].
    rewrite span_app_stop by by apply is_delim_not_digit.
    by destruct (span is_digit l).
Qed.

Lemma lex_exp_delim l c x :
  is_delim c = true →
  lex_exp (l ++ c :: x) = (let '(a, b) := lex_exp l in (a, b ++ c :: x)).
Proof.
  intros H. pose proof (is_delim_not_digit _ H) as Hd.
  assert (Hsg : ((c =? ch "-") || (c =? ch "+"))%N = false)
    by (delim_cases H; reflexivity).
  assert (He : ((c =? ch "e") || (c =? ch "E"))%N = false)
    by (delim_cases H; reflexivity).
  unfold lex_exp. destruct l as [|e l]; cbn [app].
  - by rewrite He.
  - destruct ((e =? ch "e") || (e =? ch "E"))%N; [|done].
    destruct l as [|c1 l]; cbn [app].
    + rewrite Hsg. cbn [span]. by rewrite Hd.
    + destruct ((c1 =? ch "-") || (c1 =? ch "+"))%N.
      * rewrite span_app_stop by done.
        by destruct (span is_digit l) as [[|? ?] ?].
      * change (c1 :: l ++ c :: x) with ((c1 :: l) ++ c :: x).
        rewrite span_app_stop by done.
        by destruct (span is_digit (c1 :: l)) as [[|? ?] ?].
Qed.

Lemma match_number_delim l c x :
  is_delim c = true →
  match_number (l ++ c :: x)
  = (λ '(v, k), (v, k ++ c :: x)) <$> match_number l.
Proof.
  intros H. unfold match_number.
  rewrite lex_sign_delim by done. destruct (lex_sign l) as [neg s1].
  rewrite lex_int_delim by done. destruct (lex_int s1) as [[int_part s2]|];
    [|done]. simpl.
  rewrite lex_frac_delim by done. destruct (lex_frac s2) as [frac s3].
  rewrite lex_exp_delim by done. destruct (lex_exp s3) as [exp s4].
  by destruct frac, exp.
Qed.

(** What the lexer leaves is the end of what it was given. *)
Lemma match_number_suffix s v r :
  match_number s = Some (v, r) → ∃ l, s = l ++ r.
Proof.
  unfold match_number.
  assert (Hsign : ∀ s n b, lex_sign s = (n, b) → ∃ l, s = l ++ b).
  { intros [|c0 s0] n b; simpl; [intros [= <- <-]; by exists []|].
    destruct (c0 =? ch "-")%N; intros [= <- <-];
      [by exists [c0]|by exists []]. }
  assert (Hint : ∀ s a b, lex_int s = Some (a, b) → ∃ l, s = l ++ b).
  { intros [|c0 s0] a b; simpl; [done|].
    destruct ((49 <=? c0)%N && (c0 <=? 57)%N).
    - destruct (span is_digit s0) as [ds r0] eqn:E. intros [= <- <-].
      apply span_eq in E as ->. by exists (c0 :: ds).
    - destruct (c0 =? 48)%N; [|done]. intros [= <- <-]. by exists [c0]. }
  assert (Hfrac : ∀ s a b, lex_frac s = (a, b) → ∃ l, s = l ++ b).
  { intros [|d [|c1 s0]] a b; simpl; try (intros [= <- <-]; by exists []).
    destruct ((d =? ch ".")%N && is_digit c1);
      [|intros [= <- <-]; by exists []].
    destruct (span is_digit s0) as [ds r0] eqn:E. intros [= <- <-].
    apply span_eq in E as ->. by exists (d :: c1 :: ds). }
  assert (Hexp : ∀ s a b, lex_exp s = (a, b) → ∃ l, s = l ++ b).
  { intros [|e s0] a b; simpl; [intros [= <- <-]; by exists []|].
    destruct ((e =? ch "e") || (e =? ch "E"))%N;
      [|intros [= <- <-]; by exists []].
    destruct s0 as [|c1 s0].
    - simpl. intros [= <- <-]. by exists [].
    - destruct ((c1 =? ch "-") || (c1 =? ch "+"))%N.
      + destruct (span is_digit s0) as [[|d ds] r0] eqn:E;
          intros [= <- <-]; [by exists []|].
        apply span_eq in E as ->. by exists (e :: c1 :: d :: ds).
      + destruct (span is_digit (c1 :: s0)) as [[|d ds] r0] eqn:E;
          intros [= <- <-]; [by exists []|].
        apply span_eq in E. rewrite E. by exists (e :: d :: ds). }
  destruct (lex_sign s) as [neg s1] eqn:E1.
  destruct (lex_int s1) as [[int_part s2]|] eqn:E2; [|done]. simpl.
  destruct (lex_frac s2) as [frac s3] eqn:E3.
  destruct (lex_exp s3) as [exp s4] eqn:E4.
  intros Hr.
  assert (r = s4) as -> by (destruct frac, exp; by simplify_eq).
  apply Hsign in E1 as [l1 ->]. apply Hint in E2 as [l2 ->].
  apply Hfrac in E3 as [l3 ->]. apply Hexp in E4 as [l4 ->].
  exists (l1 ++ l2 ++ l3 ++ l4). by rewrite <- !app_assoc.
Qed.

Lemma match_number_ext s v c r t :
  match_number s = Some (v, c :: r) → is_delim c = true →
  match_number (s ++ t) = Some (v, c :: r ++ t).
Proof.
  intros Hs Hc. destruct (match_number_suffix _ _ _ Hs) as [l ->].
  rewrite match_number_delim in Hs by done.
  rewrite <- app_assoc. simpl. rewrite match_number_delim by done.
  destruct (match_number l) as [[v' k]|]; [|done]. simpl in *.
  injection Hs as -> Hk.
  assert (k = []) as ->.
  { apply (f_equal length) in Hk. rewrite length_app in Hk. simpl in Hk.
    destruct k; [done|simpl in Hk; lia]. }
  done.
Qed.

Lemma strip_prefix_app l s r t :
  strip_prefix l s = Some r → strip_prefix l (s ++ t) = Some (r ++ t).
Proof.
  revert s. induction l as [|a l IH]; intros s H.
  - by injection H as ->.
  - destruct s as [|b s]; [done|]. simpl in *.
    destruct (a =? b)%N; [by apply IH|done].
Qed.

Lemma constants_eq :
  constants =
  [ ([110; 117; 108; 108]%N, JNull); ([116; 114; 117; 101]%N, JBool true);
    ([102; 97; 108; 115; 101]%N, JBool false);
    ([78; 97; 78]%N, JFloat (u "NaN"));
    ([73; 110; 102; 105; 110; 105; 116; 121]%N, JFloat (u "Infinity"));
    ([45; 73; 110; 102; 105; 110; 105; 116; 121]%N,
     JFloat (u "-Infinity")) ].
Proof. reflexivity. Qed.

(** The named constants start with different characters, so a text that
    starts with one of them still does when it is extended. *)
Lemma strip_prefix_cons a l c s :
  strip_prefix (a :: l) (c :: s) = if (a =? c)%N then strip_prefix l s else None.
Proof. reflexivity. Qed.

Lemma match_constant_ext s v r t :
  match_constant constants s = Some (v, r) →
  match_constant constants (s ++ t) = Some (v, r ++ t).
Proof.
  rewrite constants_eq. destruct s as [|c s]; [done|].
  unfold match_constant. cbn [app]. rewrite !strip_prefix_cons.
  destruct (N.eqb_spec 110 c), (N.eqb_spec 116 c), (N.eqb_spec 102 c),
    (N.eqb_spec 78 c), (N.eqb_spec 73 c), (N.eqb_spec 45 c);
    try congruence; try done;
    match goal with
    | |- context [strip_prefix ?l s] =>
        let E := fresh "E" in
        destruct (strip_prefix l s) as [r0|] eqn:E; [|done];
        intros [= <- <-]; by rewrite (strip_prefix_app _ _ _ t E)
    end.
Qed.

(** A number starts with a digit, or with a minus sign and a digit. *)
Lemma match_number_head s v r :
  match_number s = Some (v, r) →
  ∃ d s', is_digit d = true ∧ (s = d :: s' ∨ s = ch "-" :: d :: s').
Proof.
  unfold match_number.
  assert (Hint : ∀ s1 a b, lex_int s1 = Some (a, b) →
            ∃ d s', is_digit d = true ∧ s1 = d :: s').
  { intros [|c0 s0] a b; simpl; [done|]. unfold is_digit.
    destruct ((49 <=? c0)%N && (c0 <=? 57)%N) eqn:E.
    - intros _. exists c0, s0. split; [|done].
      apply andb_true_iff in E as [?%N.leb_le ?%N.leb_le].
      apply andb_true_iff. split; apply N.leb_le; lia.
    - destruct (N.eqb_spec c0 48) as [->|]; [|done]. intros _.
      by exists 48%N, s0. }
  destruct s as [|c s']; simpl; [done|].
  destruct (N.eqb_spec c (ch "-")) as [->|].
  - destruct (lex_int s') as [[a b]|] eqn:E; [|done]. intros _.
    destruct (Hint _ _ _ E) as (d & s'' & Hd & ->). exists d, s''. eauto.
  - destruct (lex_int (c :: s')) as [[a b]|] eqn:E; [|done]. intros _.
    destruct (Hint _ _ _ E) as (d & s'' & Hd & Heq). exists d, s''. eauto.
Qed.

Lemma match_constant_digit d x y :
  is_digit d = true →
  match_constant constants (d :: x) = None
  ∧ match_constant constants (ch "-" :: d :: y) = None.
Proof.
  unfold is_digit. intros [?%N.leb_le ?%N.leb_le]%andb_true_iff.
  rewrite constants_eq. unfold match_constant. change (ch "-") with 45%N.
  cbn [strip_prefix].
  repeat match goal with
  | |- context [(?a =? d)%N] =>
      replace (a =? d)%N with false by (symmetry; apply N.eqb_neq; lia)
  end.
  done.
Qed.

Lemma number_not_constant s v r t :
  match_number s = Some (v, r) → match_constant constants (s ++ t) = None.
Proof.
  intros (d & s' & Hd & [->| ->])%match_number_head; simpl.
  - by apply (match_constant_digit d (s' ++ t) []).
  - by apply (match_constant_digit d [] (s' ++ t)).
Qed.

Lemma scan_units_ext : ∀ n s us r t,
  length s ≤ n → scan_units s = Some (us, r) →
  scan_units (s ++ t) = Some (us, r ++ t).
Proof.
  induction n as [|n IH]; intros s us r t Hn H.
  { destruct s; [done|simpl in Hn; lia]. }
  destruct s as [|c s1]; [done|]. simpl in Hn, H |- *.
  destruct (c =? 34)%N; [by simplify_eq|].
  destruct (c =? 92)%N.
  - destruct s1 as [|e s2]; [done|]. simpl in Hn |- *.
    destruct (e =? ch "u")%N.
    + destruct s2 as [|h1 [|h2 [|h3 [|h4 s3]]]]; try done. simpl in Hn |- *.
      destruct (hex4 h1 h2 h3 h4) as [c1|]; [|done]. simpl in H |- *.
      destruct (scan_units s3) as [[v0 r0]|] eqn:E; [|done]. simpl in H.
      rewrite (IH s3 v0 r0 t) by (done || lia). simpl. by simplify_eq.
    + destruct (unescape e) as [x|]; [|done]. simpl in H |- *.
      destruct (scan_units s2) as [[v0 r0]|] eqn:E; [|done]. simpl in H.
      rewrite (IH s2 v0 r0 t) by (done || lia). simpl. by simplify_eq.
  - destruct (c <=? 31)%N; [done|].
    destruct (scan_units s1) as [[v0 r0]|] eqn:E; [|done]. simpl in H.
    rewrite (IH s1 v0 r0 t) by (done || lia). simpl. by simplify_eq.
Qed.

Lemma scanstring_ext s v r t :
  scanstring s = Some (v, r) → scanstring (s ++ t) = Some (v, r ++ t).
Proof.
  unfold scanstring. destruct (scan_units s) as [[us r0]|] eqn:E; [|done].
  simpl. intros [= <- <-]. by rewrite (scan_units_ext _ s us r0 t (le_n _) E).
Qed.

Lemma skip_ws_app s c r t :
  skip_ws s = c :: r → skip_ws (s ++ t) = c :: r ++ t.
Proof.
  induction s as [|c0 s IH]; [done|]. simpl.
  destruct (is_json_ws c0); [done|]. by intros [= -> ->].
Qed.

Lemma skip_ws_delim r c r' :
  skip_ws r = c :: r' → is_delim c = true →
  ∃ x r0, r = x :: r0 ∧ is_delim x = true.
Proof.
  destruct r as [|x r0]; [done|]. simpl.
  destruct (is_json_ws x) eqn:E.
  - intros _ _. exists x, r0. split; [done|]. unfold is_delim. by rewrite E.
  - intros [= -> ->] ?. eauto.
Qed.

Lemma closed_delim v r c r' :
  skip_ws r = c :: r' → is_delim c = true → closed v r.
Proof.
  intros H1 H2. destruct (skip_ws_delim _ _ _ H1 H2) as (x & r0 & -> & ?).
  destruct v; simpl; eauto.
Qed.

Lemma parse_items_nil fuel acc : parse_items fuel [] acc = None.
Proof. destruct fuel as [|[|fuel]]; done. Qed.

Lemma parse_members_nil fuel acc : parse_members fuel [] acc = None.
Proof. by destruct fuel. Qed.

Lemma scan_once_nil fuel : scan_once fuel [] = None.
Proof. by destruct fuel. Qed.

(** More fuel and more text after the value change nothing. *)
Lemma scan_ext fuel :
  (∀ s v r t fuel', fuel ≤ fuel' →
     scan_once fuel s = Some (v, r) → closed v r →
     scan_once fuel' (s ++ t) = Some (v, r ++ t))
  ∧ (∀ s acc v r t fuel', fuel ≤ fuel' →
       parse_items fuel s acc = Some (v, r) →
       parse_items fuel' (s ++ t) acc = Some (v, r ++ t))
  ∧ (∀ s acc v r t fuel', fuel ≤ fuel' →
       parse_members fuel s acc = Some (v, r) →
       parse_members fuel' (s ++ t) acc = Some (v, r ++ t)).
Proof.
  induction fuel as [|fuel (IH1 & IH2 & IH3)]; [by split_and!|].
  split_and!.
  - (* a value *)
    intros s v r t [|fuel'] Hle H Hcl; [lia|]. apply le_S_n in Hle.
    rewrite scan_once_S in H |- *.
    destruct s as [|c s']; [done|]. cbn [app].
    destruct (c =? 34)%N.
    { destruct (scanstring s') as [[v0 r0]|] eqn:E; [|done]. simpl in H.
      rewrite (scanstring_ext _ _ _ t E). simpl. by simplify_eq. }
    destruct (c =? ch "{")%N.
    { destruct (skip_ws s') as [|c1 r1] eqn:E; [done|].
      rewrite (skip_ws_app _ _ _ t E).
      destruct (c1 =? ch "}")%N; [by simplify_eq|].
      by apply (IH3 (c1 :: r1)). }
    destruct (c =? ch "[")%N.
    { destruct (skip_ws s') as [|c1 r1] eqn:E; [done|].
      rewrite (skip_ws_app _ _ _ t E).
      destruct (c1 =? ch "]")%N; [by simplify_eq|].
      by apply (IH2 (c1 :: r1)). }
    destruct (match_constant constants (c :: s')) as [[v0 r0]|] eqn:E.
    { injection H as <- <-.
      change (c :: s' ++ t) with ((c :: s') ++ t).
      by rewrite (match_constant_ext _ _ _ t E). }
    change (c :: s' ++ t) with ((c :: s') ++ t).
    rewrite (number_not_constant _ _ _ t H).
    pose proof (match_number_not_arr _ _ _ H) as Hna.
    assert (∃ c0 r0, r = c0 :: r0 ∧ is_delim c0 = true) as (c0 & r0 & -> & Hd).
    { unfold match_number in H.
      destruct (lex_sign (c :: s')) as [neg s1].
      destruct (lex_int s1) as [[int_part s2]|]; [|done]. simpl in H.
      destruct (lex_frac s2) as [[|? ?] s3], (lex_exp s3) as [[|? ?] s4];
        simplify_eq; exact Hcl. }
    by apply match_number_ext.
  - (* the elements of an array *)
    intros s acc v r t [|fuel'] Hle H; [lia|]. apply le_S_n in Hle.
    rewrite parse_items_S in H |- *.
    destruct (scan_once fuel s) as [[v1 r1]|] eqn:E; [|done]. simpl in H.
    destruct (skip_ws r1) as [|c r'] eqn:Er; [done|].
    assert (Hd : is_delim c = true).
    { destruct (N.eqb_spec c (ch "]")) as [->|]; [done|].
      destruct (N.eqb_spec c (ch ",")) as [->|]; done. }
    rewrite (IH1 s v1 r1 t fuel' Hle E (closed_delim _ _ _ _ Er Hd)). simpl.
    rewrite (skip_ws_app _ _ _ t Er).
    destruct (c =? ch "]")%N; [by simplify_eq|].
    destruct (c =? ch ",")%N; [|done].
    destruct (skip_ws r') as [|c2 r2] eqn:Er'.
    { by rewrite parse_items_nil in H. }
    rewrite (skip_ws_app _ _ _ t Er'). by apply (IH2 (c2 :: r2)).
  - (* the members of an object *)
    intros s acc v r t [|fuel'] Hle H; [lia|]. apply le_S_n in Hle.
    rewrite parse_members_S in H |- *.
    destruct s as [|q s1]; [done|]. cbn [app].
    destruct (q =? 34)%N; [|done].
    destruct (scanstring s1) as [[k r1]|] eqn:Ek; [|done]. simpl in H.
    rewrite (scanstring_ext _ _ _ t Ek). simpl.
    destruct (skip_ws r1) as [|colon r2] eqn:Er1; [done|].
    rewrite (skip_ws_app _ _ _ t Er1).
    destruct (colon =? ch ":")%N; [|done].
    destruct (skip_ws r2) as [|c2 r2'] eqn:Er2.
    { by rewrite scan_once_nil in H. }
    rewrite (skip_ws_app _ _ _ t Er2).
    destruct (scan_once fuel (c2 :: r2')) as [[v3 r3]|] eqn:E; [|done].
    simpl in H.
    destruct (skip_ws r3) as [|c r4] eqn:Er3; [done|].
    assert (Hd : is_delim c = true).
    { destruct (N.eqb_spec c (ch "}")) as [->|]; [done|].
      destruct (N.eqb_spec c (ch ",")) as [->|]; done. }
    change (c2 :: r2' ++ t) with ((c2 :: r2') ++ t).
    rewrite (IH1 (c2 :: r2') v3 r3 t fuel' Hle E
               (closed_delim _ _ _ _ Er3 Hd)). simpl.
    rewrite (skip_ws_app _ _ _ t Er3).
    destruct (c =? ch "}")%N; [by simplify_eq|].
    destruct (c =? ch ",")%N; [|done].
    destruct (skip_ws r4) as [|c4 r4'] eqn:Er4.
    { by rewrite parse_members_nil in H. }
    rewrite (skip_ws_app _ _ _ t Er4). by apply (IH3 (c4 :: r4')).
Qed.

Lemma skip_ws_first_bracket pre y z :
  skip_ws (pre ++ ch "[" :: y) = ch "[" :: z → ch "[" ∉ pre → z = y.
Proof.
  induction pre as [|c pre IH]; simpl.
  - by intros [= ->].
  - intros H Hin. apply not_elem_of_cons in Hin as [Hc Hin].
    destruct (is_json_ws c); [by apply IH|]. by injection H as -> _.
Qed.

(** An array that the decoder accepts on its own is what the decoder finds
    when the array is followed by more text and preceded by text without an
    opening bracket, if it finds an array at all. *)
Lemma json_loads_embedded pre A' post items items' :
  json_loads (ch "[" :: A') = Some (JArr items) →
  ch "[" ∉ pre →
  json_loads (pre ++ (ch "[" :: A') ++ post) = Some (JArr items') →
  items' = items.
Proof.
  intros (r & HA & _)%json_loads_Some Hpre (r' & Hraw & _)%json_loads_Some.
  rewrite skip_ws_head in HA by done. cbn [app] in Hraw.
  pose proof (scan_once_arr_head _ _ _ _ Hraw) as [z Hz].
  pose proof (skip_ws_first_bracket _ _ _ Hz Hpre) as ->.
  rewrite Hz in Hraw.
  destruct (scan_ext (2 * length (ch "[" :: A') + 2)) as (Hext & _ & _).
  specialize (Hext _ _ _ post (2 * length (pre ++ (ch "[" :: A') ++ post) + 2)
                ltac:(rewrite !length_app; lia) HA I).
  cbn [app] in Hext. rewrite Hext in Hraw. by injection Hraw as ->.
Qed.

End JsonExtension.

(** ** The extractor: which span the patterns find *)

Section SpanFacts.

Import ReSpec ExtractSpec.

Lemma m_StarG_cons k p g x s :
  m (StarG k :: p) g (x :: s) =
  if in_cls k x then
    match m (StarG k :: p) g s with
    | Some r => Some (push g x r)
    | None => m p g (x :: s)
    end
  else m p g (x :: s).
Proof. reflexivity. Qed.

Lemma m_StarG_nil k p g : m (StarG k :: p) g [] = m p g [].
Proof. reflexivity. Qed.

(** The greedy repetition stops at the last closing bracket. *)
Lemma greedy_none (post : str) :
  ch "]" ∉ post → m [StarG Any; One (Chr (ch "]"))] false post = None.
Proof.
  induction post as [|c post IH]; intros Hin; [done|].
  apply not_elem_of_cons in Hin as [Hc Hin].
  rewrite m_StarG_cons. cbn [in_cls]. rewrite IH by done.
  simpl. by destruct (N.eqb_spec c (ch "]")).
Qed.

Lemma greedy_last (mid post : str) :
  ch "]" ∉ post →
  m [StarG Any; One (Chr (ch "]"))] false (mid ++ ch "]" :: post)
  = Some (Match (mid ++ [ch "]"]) []).
Proof.
  intros Hin. induction mid as [|c mid IH]; cbn [app].
  - rewrite m_StarG_cons. cbn [in_cls]. by rewrite greedy_none.
  - rewrite m_StarG_cons. cbn [in_cls]. by rewrite IH.
Qed.

Lemma search_cons p x s :
  search p (x :: s) =
  match m p false (x :: s) with
  | Some r => Some r
  | None => search p s
  end.
Proof. reflexivity. Qed.

Lemma bracket_search_span (pre mid post : str) :
  ch "[" ∉ pre → ch "]" ∉ post →
  search bracket_re (pre ++ ch "[" :: mid ++ ch "]" :: post)
  = Some (Match (ch "[" :: mid ++ [ch "]"]) []).
Proof.
  intros Hpre Hpost. induction pre as [|c pre IH]; cbn [app].
  - assert (m bracket_re false (ch "[" :: mid ++ ch "]" :: post)
            = Some (Match (ch "[" :: mid ++ [ch "]"]) [])) as Hm.
    { unfold bracket_re.
      change (m (One (Chr (ch "[")) :: ?p) false (ch "[" :: ?s))
        with (push false (ch "[") <$> m p false s).
      by rewrite greedy_last. }
    by rewrite search_cons, Hm.
  - apply not_elem_of_cons in Hpre as [Hc Hpre].
    assert (m bracket_re false (c :: pre ++ ch "[" :: mid ++ ch "]" :: post)
            = None) as Hm.
    { unfold bracket_re. simpl. by destruct (N.eqb_spec c (ch "[")). }
    rewrite search_cons, Hm. by apply IH.
Qed.

(** Two ways of cutting one text at a character. *)
Lemma app_cons_eq {A} (l1 r1 l2 r2 : list A) (a b : A) :
  l1 ++ a :: r1 = l2 ++ b :: r2 →
  (l1 = l2 ∧ a = b ∧ r1 = r2)
  ∨ (∃ k, l2 = l1 ++ a :: k ∧ r1 = k ++ b :: r2)
  ∨ (∃ k, l1 = l2 ++ b :: k ∧ r2 = k ++ a :: r1).
Proof.
  revert l2. induction l1 as [|x l1 IH]; intros [|y l2] H; simpl in H.
  - injection H as -> ->. by left.
  - injection H as -> ->. right; left. by exists l2.
  - injection H as -> <-. right; right. by exists l1.
  - injection H as -> H.
    destruct (IH _ H) as [(-> & -> & ->)|[(k & -> & ->)|(k & -> & ->)]].
    + by left.
    + right; left. by exists k.
    + right; right. by exists k.
Qed.

Ltac not_in_literal :=
  let H := fresh in
  intros H;
  repeat (apply elem_of_cons in H as [H|H]; [discriminate H|]);
  by apply elem_of_nil in H.

Ltac elem_solver :=
  repeat (rewrite elem_of_app || rewrite elem_of_cons); intuition auto.

(** A fenced block found in a text cut as [pre ++ A ++ post] is [A], when
    [A] goes from a bracket to a bracket and holds no backtick, no opening
    bracket comes before it and no closing bracket after it. *)
Lemma fence_search_span (pre mid post : str) (fm : match_obj) :
  ch "[" ∉ pre → ch "]" ∉ post → backtick ∉ mid →
  search fence_re (pre ++ (ch "[" :: mid ++ [ch "]"]) ++ post) = Some fm →
  group1 fm = ch "[" :: mid ++ [ch "]"].
Proof.
  intros Hpre Hpost Hmid Hs.
  destruct (fence_search _ _ Hs)
    as (P & tag & ws1 & body & ws2 & R & Hraw & Htag & Hws1 & Hg & Hws2).
  rewrite Hg in Hraw |- *. clear Hg.
  change (ch "[") with 91%N in *. change (ch "]") with 93%N in *.
  unfold backtick in *.
  set (X2 := [96; 96]%N ++ tag ++ ws1).
  set (Y' := [96; 96]%N ++ R).
  assert (E1 : pre ++ 91%N :: (mid ++ 93%N :: post)
               = (P ++ 96%N :: X2) ++ 91%N :: (body ++ 93%N :: ws2 ++ 96%N :: Y')).
  { transitivity (pre ++ (91%N :: mid ++ [93%N]) ++ post).
    { simpl. by rewrite <- app_assoc. }
    rewrite Hraw. unfold X2, Y'. simpl. rewrite <- !app_assoc. simpl.
    by rewrite <- !app_assoc. }
  assert (F4 : 91%N ∉ X2).
  { unfold X2. rewrite !not_elem_of_app. split_and!.
    - not_in_literal.
    - destruct Htag as [-> | ->]; [apply not_elem_of_nil|].
      change (u "json") with [106; 115; 111; 110]%N. not_in_literal.
    - intros Hin. rewrite Forall_forall in Hws1. by apply Hws1 in Hin. }
  assert (F6 : 93%N ∉ ws2).
  { intros Hin. rewrite Forall_forall in Hws2. by apply Hws2 in Hin. }
  clear Hraw Hs.
  assert (pre = P ++ 96%N :: X2 ∧
          mid ++ 93%N :: post = body ++ 93%N :: ws2 ++ 96%N :: Y') as [_ E2].
  { apply app_cons_eq in E1 as [(? & _ & ?)|[(k & Hk & E)|(k & -> & _)]].
    - done.
    - exfalso. symmetry in Hk.
      apply app_cons_eq in Hk as [(_ & ? & _)|[(k' & HP & ->)|(k' & _ & Hk')]].
      + done.
      + (* the opening fence would lie inside the array *)
        rewrite <- app_assoc in E. simpl in E.
        apply app_cons_eq in E as [(_ & ? & _)|[(k2 & -> & ->)|(k2 & -> & _)]].
        * done.
        * apply Hpost. elem_solver.
        * apply Hmid. elem_solver.
      + apply F4. rewrite Hk'. elem_solver.
    - exfalso. apply Hpre. elem_solver. }
  f_equal.
  apply app_cons_eq in E2 as [(-> & _)|[(k & -> & ->)|(k & -> & E)]].
  - done.
  - exfalso. apply Hpost. elem_solver.
  - exfalso.
    apply app_cons_eq in E as [(_ & ? & _)|[(k' & -> & _)|(k' & -> & _)]].
    + done.
    + apply Hmid. elem_solver.
    + apply F6. elem_solver.
Qed.

End SpanFacts.

(** ** The extractor: success *)

Section ExtractionSuccess.

Import ExtractSpec.

Variable limits : str → option exn.
Variable py_str : json → str.

Lemma direct_Some raw items :
  direct limits raw = Some (inr items) ↔ loads limits raw = Value (JArr items).
Proof.
  unfold direct. destruct (loads limits raw) as [[]| |]; split; congruence.
Qed.

(** What both extractors return for an array embedded in prose. *)
Lemma embedded_array (pre mid post : str) (items : list json) :
  let A := ch "[" :: mid ++ [ch "]"] in
  json_loads A = Some (JArr items) →
  ch "[" ∉ pre → ch "]" ∉ post → backtick ∉ mid →
  limits (pre ++ A ++ post) = None → limits A = None →
  (direct limits (pre ++ A ++ post) = Some (inr items)
   ∨ direct limits (pre ++ A ++ post) = None
     ∧ (fenced limits (pre ++ A ++ post) = Some (inr (JArr items))
        ∨ fenced limits (pre ++ A ++ post) = None
          ∧ bracketed limits (pre ++ A ++ post)
            = Some (inr (JArr items)))).
Proof.
  intros A HA Hpre Hpost Hmid Hraw HlA.
  assert (HlA' : loads limits A = Value (JArr items)).
  { by rewrite loads_within, HA. }
  destruct (direct limits (pre ++ A ++ post)) as [[e|x]|] eqn:Ed.
  { unfold direct, loads in Ed. rewrite Hraw in Ed.
    by destruct (json_loads (pre ++ A ++ post)) as [[]|]. }
  { left. apply direct_Some, loads_Value in Ed.
    by rewrite (json_loads_embedded pre _ post items x HA Hpre Ed). }
  right. split; [done|].
  unfold fenced, bracketed.
  destruct (search fence_re (pre ++ A ++ post)) as [fm|] eqn:Ef.
  { left.
    rewrite (fence_search_span pre mid post fm Hpre Hpost Hmid Ef).
    fold A. by rewrite HlA'. }
  right. split; [done|].
  assert (pre ++ A ++ post = pre ++ ch "[" :: mid ++ ch "]" :: post) as ->.
  { unfold A. simpl. by rewrite <- app_assoc. }
  rewrite bracket_search_span by done. cbn [group0]. fold A. by rewrite HlA'.
Qed.

(** C3 (as amended).  Extraction success.  Both extractors try three
    strategies in this order and return at the first that succeeds: the
    whole text parsed as a list ([_extract_queries] then converts every
    element with [str]); the group of the first fenced block (three
    backticks, an optional json tag, from an opening bracket to the first
    closing bracket that white space and three backticks follow); the span
    from the first opening bracket to the last closing bracket of the text.
    A well-formed JSON array, from its opening to its closing bracket and
    with no backtick inside, embedded in a text with no opening bracket
    before it and no closing bracket after it, with or without a fence
    around it, is returned exactly by [_extract_json], and by
    [_extract_queries] exactly when [str] leaves its elements as they are
    (an array of strings), provided [json.loads] reaches no limit of the
    interpreter (nesting depth, digits of an integer) on the text and on
    the array.  Under the same proviso the fenced example of the
    specification returns the array of a and b. *)
Theorem extraction_success (raw : str) :
  (∀ items, loads limits raw = Value (JArr items) →
     _extract_json limits raw = inr (JArr items)
     ∧ _extract_queries limits py_str raw
       = inr (JArr ((λ q, JStr (py_str q)) <$> items)))
  ∧ (∀ fm v, direct_fails limits raw → search fence_re raw = Some fm →
       loads limits (group1 fm) = Value v →
       _extract_json limits raw = inr v
       ∧ _extract_queries limits py_str raw = inr v)
  ∧ (∀ bm v, direct_fails limits raw → fence_fails limits raw →
       search bracket_re raw = Some bm →
       loads limits (group0 bm) = Value v →
       _extract_json limits raw = inr v
       ∧ _extract_queries limits py_str raw = inr v)
  ∧ (∀ pre mid post,
       raw = pre ++ ch "[" :: mid ++ ch "]" :: post →
       ch "[" ∉ pre → ch "]" ∉ post →
       search bracket_re raw = Some (Match (ch "[" :: mid ++ [ch "]"]) []))
  ∧ (∀ pre mid post items,
       raw = pre ++ (ch "[" :: mid ++ [ch "]"]) ++ post →
       json_loads (ch "[" :: mid ++ [ch "]"]) = Some (JArr items) →
       ch "[" ∉ pre → ch "]" ∉ post → backtick ∉ mid →
       limits raw = None → limits (ch "[" :: mid ++ [ch "]"]) = None →
       _extract_json limits raw = inr (JArr items)
       ∧ (_extract_queries limits py_str raw = inr (JArr items)
          ∨ _extract_queries limits py_str raw
            = inr (JArr ((λ q, JStr (py_str q)) <$> items)))
       ∧ ((∀ q, q ∈ items → JStr (py_str q) = q) →
          _extract_queries limits py_str raw = inr (JArr items)))
  ∧ (limits fenced_example = None →
     limits (ch "[" :: [34; 97; 34; 44; 34; 98; 34]%N ++ [ch "]"]) = None →
     _extract_json limits fenced_example
     = inr (JArr [JStr (u "a"); JStr (u "b")])
     ∧ ((∀ s, py_str (JStr s) = s) →
        _extract_queries limits py_str fenced_example
        = inr (JArr [JStr (u "a"); JStr (u "b")]))).
Proof.
  assert (Hemb : ∀ pre mid post items,
    raw = pre ++ (ch "[" :: mid ++ [ch "]"]) ++ post →
    json_loads (ch "[" :: mid ++ [ch "]"]) = Some (JArr items) →
    ch "[" ∉ pre → ch "]" ∉ post → backtick ∉ mid →
    limits raw = None → limits (ch "[" :: mid ++ [ch "]"]) = None →
    _extract_json limits raw = inr (JArr items)
    ∧ (_extract_queries limits py_str raw = inr (JArr items)
       ∨ _extract_queries limits py_str raw
         = inr (JArr ((λ q, JStr (py_str q)) <$> items)))
    ∧ ((∀ q, q ∈ items → JStr (py_str q) = q) →
       _extract_queries limits py_str raw = inr (JArr items))).
  { intros pre mid post items -> HA Hpre Hpost Hmid Hraw HlA.
    assert (Hid : (∀ q, q ∈ items → JStr (py_str q) = q) →
                  (λ q, JStr (py_str q)) <$> items = items).
    { intros H. rewrite <- (list_fmap_id items) at 2.
      apply list_fmap_ext. intros i q Hq. apply H.
      by eapply list_elem_of_lookup_2. }
    unfold _extract_json, _extract_queries.
    destruct (embedded_array pre mid post items HA Hpre Hpost Hmid Hraw HlA)
      as [->|[-> [->|[-> ->]]]];
      (split; [done|]); (split; [by auto|]); try done.
    intros H. by rewrite Hid. }
  split_and!.
  - intros items H%direct_Some. unfold _extract_json, _extract_queries.
    by rewrite H.
  - intros fm v Hd%direct_None Hs Hv.
    unfold _extract_json, _extract_queries, fenced. by rewrite Hd, Hs, Hv.
  - intros bm v Hd%direct_None Hf%fenced_None Hs Hv.
    unfold _extract_json, _extract_queries, bracketed.
    by rewrite Hd, Hf, Hs, Hv.
  - intros pre mid post -> Hpre Hpost. by apply bracket_search_span.
  - exact Hemb.
  - intros Hraw HlA.
    assert (Hd : direct limits fenced_example = None).
    { unfold direct, loads. rewrite Hraw. by vm_compute. }
    assert (Hf : fenced limits fenced_example
                 = Some (inr (JArr [JStr (u "a"); JStr (u "b")]))).
    { unfold fenced, loads.
      assert (search fence_re fenced_example
              = Some (Match (u "```json" ++ [10%N]
                             ++ (ch "[" :: [34; 97; 34; 44; 34; 98; 34]%N
                                           ++ [ch "]"])
                             ++ [10%N] ++ u "```")
                        (ch "[" :: [34; 97; 34; 44; 34; 98; 34]%N
                                       ++ [ch "]"]))) as ->
        by (vm_compute; reflexivity).
      cbn [group1]. rewrite HlA. by vm_compute. }
    unfold _extract_json, _extract_queries. rewrite Hd, Hf. done.
Qed.

End ExtractionSuccess.

(** C3, as stated, fails.  The text holds the well-formed arrays [1] and
    [2]; it is not JSON as a whole, it has no fenced block, and the span from
    the first opening to the last closing bracket does not parse: the
    extractor raises, with [json.loads] far from every limit. *)
Lemma embedded_array_counterexample :
  ExtractSpec.two_arrays_example = u "see " ++ u "[1]" ++ u " and [2]"
  ∧ json_loads (u "[1]") = Some (JArr [JInt 1])
  ∧ search bracket_re ExtractSpec.two_arrays_example
    = Some (Match (u "[1] and [2]") [])
  ∧ json_loads (u "[1] and [2]") = None
  ∧ _extract_json ExtractSpec.no_limits ExtractSpec.two_arrays_example
    = inl (ValueError
             (u "Could not extract valid JSON dialogue from LLM response.")).
Proof. split_and!; by vm_compute. Qed.

Lemma extraction_success_witness :
  _extract_json ExtractSpec.no_limits ExtractSpec.prose_example
  = inr (JArr [JInt 1; JArr [JInt 2]]).
Proof.
  destruct (extraction_success ExtractSpec.no_limits (λ _, [])
              ExtractSpec.prose_example)
    as (_ & _ & _ & _ & H & _).
  refine (proj1 (H (u "Answer: ") (u "1, [2]") (u " done.")
                   [JInt 1; JArr [JInt 2]] _ _ _ _ _ _ _)).
  - vm_compute. reflexivity.
  - vm_compute. reflexivity.
  - apply (bool_decide_unpack _). vm_compute. exact I.
  - apply (bool_decide_unpack _). vm_compute. exact I.
  - apply (bool_decide_unpack _). vm_compute. exact I.
  - reflexivity.
  - reflexivity.
Defined.

(** ** What the pipeline prints is never the sentinel

    Every text the orchestrator and the script writer print starts, after
    its leading white space, with a character other than an underscore; so
    as long as the stages and the libraries below them do not write the
    sentinel text, no pipeline does, and the complete event of a status
    stream reports the final fields of its job. *)

Section CleanWrites.

Import Scriptwriter Orchestrator Server ServerSpec.

Lemma lstrip_nonspace s c r : lstrip s = c :: r → is_space c = false.
Proof.
  induction s as [|c0 s IH]; simpl; [done|].
  destruct (is_space c0) eqn:E; [done|]. by intros [= <- _].
Qed.

Lemma lstrip_snoc l c :
  is_space c = false → ∃ l', lstrip (l ++ [c]) = l' ++ [c].
Proof.
  intros Hc. induction l as [|c0 l IH]; simpl.
  - rewrite Hc. by exists [].
  - destruct (is_space c0); [done|]. by exists (c0 :: l).
Qed.

Lemma strip_head s c r : lstrip s = c :: r → ∃ r', strip s = c :: r'.
Proof.
  intros H. unfold strip, rstrip. rewrite H, reverse_cons.
  destruct (lstrip_snoc (reverse r) c (lstrip_nonspace _ _ _ H)) as [l' ->].
  rewrite reverse_app. by eexists.
Qed.

(** A text whose first character after the leading white space is not an
    underscore does not strip to the sentinel. *)
Lemma strip_not_DONE s :
  match head (lstrip s) with Some c => c ≠ ch "_" | None => True end →
  strip s ≠ DONE.
Proof.
  destruct (lstrip s) as [|c r] eqn:E; simpl.
  - intros _. unfold strip. rewrite E. by vm_compute.
  - intros Hc. destruct (strip_head _ _ _ E) as [r' ->].
    intros H. apply Hc. vm_compute in H. by injection H.
Qed.

Lemma writes_app es es' : writes (es ++ es') = writes es ++ writes es'.
Proof. unfold writes. apply omap_app. Qed.

Lemma writes_Write (out : list str) : writes (Write <$> out) = out.
Proof. induction out as [|t out IH]; [done|]. simpl. by f_equal. Qed.

Lemma clean_bind {A B} (c : M A) (k : A → M B) :
  Forall clean (writes (events c)) →
  (∀ x, outcome c = inr x → Forall clean (writes (events (k x)))) →
  Forall clean (writes (events (c ≫= k))).
Proof.
  intros Hc Hk. rewrite events_bind.
  destruct (outcome c) as [e|x]; [done|].
  rewrite writes_app. apply Forall_app. auto.
Qed.

Lemma clean_print text : clean text → Forall clean (writes (events (print text))).
Proof.
  intros H. repeat constructor; [done|]. by vm_compute.
Qed.

Lemma clean_lift {A} (r : exn + A) : Forall clean (writes (events (lift r))).
Proof. constructor. Qed.

Lemma clean_ret {A} (x : A) : Forall clean (writes (events (mret x : M A))).
Proof. constructor. Qed.

Lemma clean_invoke {A} st (r : list str * (exn + A)) :
  Forall clean r.1 → Forall clean (writes (events (invoke st r))).
Proof. intros H. unfold invoke, events. simpl. by rewrite writes_Write. Qed.

Lemma clean_query_line (i : nat) (t : str) :
  clean (u "    " ++ str_of_nat i ++ u ". " ++ t).
Proof.
  apply strip_not_DONE. unfold str_of_nat.
  destruct (Nat.to_uint i); by vm_compute.
Qed.

Ltac clean_step :=
  apply clean_bind;
  [ first [ apply clean_print; apply strip_not_DONE; by vm_compute
          | apply clean_lift
          | apply clean_invoke; by auto ]
  | intros ? _ ].

Section OrchestratorWrites.

Variable py_str : json → str.
Variable limits : str → option exn.
Variable research_record : Type.
Variable call_flash : str → str → list str * (exn + str).
Variable research : json → list str * (exn + list research_record).
Variable summarise : str → list research_record → list str * (exn + str).
Variable write_script : str → str → list str * (exn + json).
Variable produce : json → list str * (exn + path).
Variable _QUERY_SYSTEM_PROMPT : str.

Hypothesis call_flash_clean : ∀ a b, Forall clean (call_flash a b).1.
Hypothesis research_clean : ∀ q, Forall clean (research q).1.
Hypothesis summarise_clean : ∀ t d, Forall clean (summarise t d).1.
Hypothesis write_script_clean : ∀ t r, Forall clean (write_script t r).1.
Hypothesis produce_clean : ∀ d, Forall clean (produce d).1.

Lemma clean_print_queries qs : ∀ i,
  Forall clean (writes (events (print_queries py_str i qs))).
Proof.
  induction qs as [|q qs IH]; intros i; cbn [print_queries]; [constructor|].
  apply clean_bind; [|intros _ _; apply IH].
  apply clean_print, clean_query_line.
Qed.

Lemma run_writes_clean (topic : str) :
  Forall clean
    (writes (events (run py_str limits research_record call_flash research
                         summarise write_script produce
                         _QUERY_SYSTEM_PROMPT topic))).
Proof using All.
  unfold run.
  repeat clean_step.
  apply clean_bind; [apply clean_print_queries|intros _ _].
  clean_step.
  match goal with |- context [match ?d with [] => _ | _ :: _ => _ end] =>
    destruct d as [|record research_data]
  end; repeat clean_step; constructor.
Qed.

Lemma run_label_clean (topic_field job_id topic : str) :
  label_clean
    (Submit topic_field job_id
       (run py_str limits research_record call_flash research summarise
            write_script produce _QUERY_SYSTEM_PROMPT topic)).
Proof using All. apply run_writes_clean. Qed.

End OrchestratorWrites.

Section ScriptwriterWrites.

Variable py_str : json → str.
Variables MAX_SCRIPT_CHARS MAX_CHARS_PER_LINE : nat.
Variable limits : str → option exn.
Variable call_pro : str → str → list str * (exn + str).
Variable _SYSTEM_PROMPT : str.

Hypothesis call_pro_clean : ∀ a b, Forall clean (call_pro a b).1.

Lemma clean_truncate_lines dialogue : ∀ i total_chars,
  Forall clean
    (writes (events (truncate_lines py_str MAX_CHARS_PER_LINE i dialogue
                       total_chars))).
Proof.
  induction dialogue as [|line rest IH]; intros i total_chars;
    cbn [truncate_lines]; [constructor|].
  repeat clean_step.
  match goal with |- context [if ?b then _ else _] => destruct b end.
  - repeat clean_step.
    apply clean_bind; [apply IH|]. intros [? ?] _. constructor.
  - apply clean_bind; [apply IH|]. intros [? ?] _. constructor.
Qed.

Lemma clean_trim dialogue : ∀ trimmed running,
  Forall clean
    (writes (events (trim MAX_SCRIPT_CHARS dialogue trimmed running))).
Proof.
  induction dialogue as [|line rest IH]; intros trimmed running;
    cbn [trim]; [constructor|].
  repeat clean_step.
  match goal with |- context [if ?b then _ else _] => destruct b end;
    [constructor|apply IH].
Qed.

Lemma clean_validate dialogue :
  Forall clean
    (writes (events (validate py_str MAX_SCRIPT_CHARS MAX_CHARS_PER_LINE
                       dialogue))).
Proof.
  unfold validate.
  apply clean_bind; [apply clean_truncate_lines|]. intros [? ?] _.
  clean_step.
  match goal with |- context [if ?b then _ else _] => destruct b end;
    [|constructor].
  clean_step. apply clean_bind; [apply clean_trim|]. intros [? ?] _.
  clean_step. constructor.
Qed.

Lemma write_script_writes_clean (topic report : str) :
  Forall clean
    (writes (events (Scriptwriter.write_script py_str MAX_SCRIPT_CHARS
                       MAX_CHARS_PER_LINE limits call_pro _SYSTEM_PROMPT
                       topic report))).
Proof using All.
  unfold Scriptwriter.write_script.
  clean_step.
  apply clean_bind.
  { specialize (call_pro_clean _SYSTEM_PROMPT
                  (u "Topic: " ++ topic ++ [10%N; 10%N]
                   ++ u "Research Report:" ++ [10%N] ++ report ++ [10%N; 10%N]
                   ++ u "Now write the podcast script as a JSON array.")).
    destruct (call_pro _ _) as [out r]. unfold events. cbn [fst snd] in *.
    by rewrite writes_Write. }
  intros raw_response _.
  repeat clean_step.
  apply clean_bind; [apply clean_validate|]. intros dialogue _.
  clean_step. constructor.
Qed.

End ScriptwriterWrites.

End CleanWrites.
(** ** More on computations *)

Lemma events_lift_inr {A B} (x : A) (k : A → M B) :
  events (lift (inr x) ≫= k) = events (k x).
Proof. unfold lift, mbind, M_bind, bind, events. simpl. by destruct (k x). Qed.

Lemma events_lift_inl {A B} (e : exn) (k : A → M B) :
  events (lift (inl e) ≫= k) = [].
Proof. reflexivity. Qed.

Lemma events_print_bind {B} (t : str) (k : () → M B) :
  events (print t ≫= k) = Write t :: Write [10%N] :: events (k ()).
Proof.
  unfold print, write, mbind, M_bind, bind, events. simpl.
  by destruct (k ()).
Qed.

Lemma events_ret {A} (x : A) : events (mret x : M A) = [].
Proof. reflexivity. Qed.

Ltac estep :=
  repeat first
    [ rewrite events_lift_inr
    | rewrite events_print_bind
    | rewrite events_ret ];
  cbv beta iota.

Lemma outcome_bind_inr {A B} (c : M A) (k : A → M B) (y : B) :
  outcome (c ≫= k) = inr y → ∃ x, outcome c = inr x ∧ outcome (k x) = inr y.
Proof. rewrite outcome_bind. destruct (outcome c); [done|eauto]. Qed.

Lemma outcome_extern {A} (r : list str * (exn + A)) :
  outcome (PyMore.extern r) = r.2.
Proof. reflexivity. Qed.

(** Taking apart a sequence of statements that returned. *)
Ltac bind_inr H :=
  repeat match type of H with
  | outcome (_ ≫= _) = inr _ =>
      let x := fresh "x" in
      let Hx := fresh "Hx" in
      apply outcome_bind_inr in H as (x & Hx & H)
  end.

Lemma events_lift_inr' {A B} (x : A) (k : A → M B) :
  events ((([], inr x) : M A) ≫= k) = events (k x).
Proof. apply (events_lift_inr x k). Qed.

(** ** Channels: capacity and order *)

Section ChannelFacts.

Import Orchestrator Server ServerSpec ChannelSpec.

Implicit Types (s : state) (j : str) (l : label) (q : list str).

(** One statement of a thread, seen from the channel of [j]: what it
    offers arrives at the tail, unless the channel is full. *)
Lemma _run_channel j0 r s r' s1 j q :
  _run j0 r s = Some (r', s1) → _status_queues s !! j = Some q →
  ∃ q', _status_queues s1 !! j = Some q'
    ∧ q' = q ++ (if length q <? maxsize then offered_by_thread j j0 r s
                 else []).
Proof.
  intros Hrun Hq.
  assert (Hsame : ∀ s1, _status_queues s1 !! j = Some q →
            offered_by_thread j j0 r s = [] →
            ∃ q', _status_queues s1 !! j = Some q'
              ∧ q' = q ++ (if length q <? maxsize
                           then offered_by_thread j j0 r s else [])).
  { intros s2 H1 ->. exists q. split; [done|].
    destruct (_ <? _); by rewrite app_nil_r. }
  assert (Hwrite : ∀ text pending out,
    r = Running (text :: pending) out → s1 = write text s →
    ∃ q', _status_queues s1 !! j = Some q'
      ∧ q' = q ++ (if length q <? maxsize then offered_by_thread j j0 r s
                   else [])).
  { intros text pending out -> ->. unfold offered_by_thread. rewrite Hq.
    rewrite write_queues, Hq. simpl.
    destruct (strip text) as [|c t] eqn:Es.
    - exists q. destruct (_ <? _); by rewrite app_nil_r.
    - unfold put_nowait. destruct (length q <? maxsize); eexists; split;
        try done. by rewrite app_nil_r. }
  destruct r as [[|text pending] [e|p]|p|e| |]; simpl in Hrun;
    try (injection Hrun as <- <-).
  - destruct (is_exception e); injection Hrun as <- <-; by apply Hsame.
  - by apply Hsame.
  - by eapply Hwrite.
  - by eapply Hwrite.
  - by apply Hsame.
  - by apply Hsame.
  - destruct (decide (j0 = j)) as [->|Hne].
    + rewrite Hq in Hrun. unfold offered_by_thread. rewrite Hq.
      rewrite decide_True by done.
      destruct (length q <? maxsize); [|done].
      injection Hrun as <- <-. simpl. rewrite lookup_insert_eq. by eexists.
    + apply Hsame.
      * destruct (_status_queues s !! j0) as [q0|].
        -- destruct (length q0 <? maxsize); [|done].
           injection Hrun as <- <-. simpl. by rewrite lookup_insert_ne.
        -- by injection Hrun as <- <-.
      * unfold offered_by_thread. by rewrite decide_False.
  - done.
Qed.

(** One step that does not draw [j], seen from the channel of [j]: what
    the step takes leaves at the head and what it offers arrives at the
    tail, unless the channel is full. *)
Lemma step_channel_kept l s s' j q :
  step l s = Some s' → _status_queues s !! j = Some q → ¬ draws j l →
  ∃ q', _status_queues s' !! j = Some q'
    ∧ taken_by j l s ++ q'
      = q ++ (if length q <? maxsize then offered_by j l s else []).
Proof.
  intros Hstep Hq Hd.
  assert (Hsame : ∀ s1, _status_queues s1 !! j = Some q →
            taken_by j l s = [] → offered_by j l s = [] →
            ∃ q', _status_queues s1 !! j = Some q'
              ∧ taken_by j l s ++ q'
                = q ++ (if length q <? maxsize then offered_by j l s else [])).
  { intros s1 H1 -> ->. exists q. split; [done|].
    destruct (_ <? _); by rewrite app_nil_r. }
  destruct l as [topic j0 c|j0|i|j0|i].
  - simpl in Hstep. injection Hstep as <-. apply Hsame; try done.
    unfold generate. destruct (strip topic) eqn:Et; [done|]. simpl.
    rewrite lookup_insert_ne; [done|]. intros ->. apply Hd. simpl.
    by rewrite Et.
  - apply step_Run_inv in Hstep as (r & r' & s1 & Hr & Hrun & ->).
    destruct (_run_channel _ _ _ _ _ _ _ Hrun Hq) as (q' & Hq' & ->).
    eexists. split; [done|]. unfold offered_by. by rewrite Hr.
  - apply step_RunEarlier_inv in Hstep as (j0 & r & r' & s1 & Hr & Hrun & ->).
    destruct (_run_channel _ _ _ _ _ _ _ Hrun Hq) as (q' & Hq' & ->).
    eexists. split; [done|]. unfold offered_by. by rewrite Hr.
  - simpl in Hstep. injection Hstep as <-. apply Hsame; try done.
    unfold status_stream. by destruct (_JOBS s !! j0).
  - apply step_Next_inv in Hstep as (st & st' & s1 & Hst & Hev & ->).
    assert (Hget : ∀ line rest,
      gen st = Await → _status_queues s !! stream_job st = Some (line :: rest) →
      s1 = set_queues (<[stream_job st := rest]>) s →
      ∃ q', _status_queues s1 !! j = Some q'
        ∧ taken_by j (Next i) s ++ q'
          = q ++ (if length q <? maxsize then offered_by j (Next i) s
                  else [])).
    { intros line rest Hg Hq0 ->. unfold taken_by. rewrite Hst, Hg. simpl.
      destruct (decide (stream_job st = j)) as [<-|Hne].
      - rewrite Hq0 in Hq |- *. injection Hq as <-.
        exists rest. rewrite lookup_insert_eq.
        destruct (_ <? _); by rewrite app_nil_r.
      - exists q. rewrite lookup_insert_ne by done.
        destruct (_ <? _); by rewrite app_nil_r. }
    assert (Hrep : ∀ k rest,
      gen st = AwaitReplaced k → s1 = set_replaced (<[k := rest]>) s →
      ∃ q', _status_queues s1 !! j = Some q'
        ∧ taken_by j (Next i) s ++ q'
          = q ++ (if length q <? maxsize then offered_by j (Next i) s
                  else [])).
    { intros k rest Hg ->. apply Hsame; try done.
      unfold taken_by. rewrite Hst, Hg. by destruct (decide _). }
    destruct (event_stream_cases _ _ _ _ Hev)
      as [(Hg & -> & _)|[(Hg & Hq0 & -> & _)|
          [(line & rest & Hg & _ & Hq0 & -> & _)|
           (rest & job & Hg & Hq0 & _ & -> & _)]]].
    + apply Hsame; try done. unfold taken_by. rewrite Hst, Hg.
      by destruct (decide _).
    + apply Hsame; try done. unfold taken_by. rewrite Hst.
      unfold held in Hq0.
      destruct Hg as [Hg|[k Hg]]; rewrite Hg in Hq0 |- *.
      * destruct (decide (stream_job st = j)) as [<-|]; [|done].
        by rewrite Hq0.
      * by destruct (decide _).
    + unfold held, take_head in *. destruct Hg as [Hg|[k Hg]]; rewrite Hg in *.
      * by eapply Hget.
      * by eapply Hrep.
    + unfold held, take_head in *. destruct Hg as [Hg|[k Hg]]; rewrite Hg in *.
      * by eapply Hget.
      * by eapply Hrep.
Qed.

(** One step, seen from the channel of [j]: the step draws [j] and
    replaces the queue by an empty one, or the lemma before applies. *)
Lemma step_channel l s s' j q :
  step l s = Some s' → _status_queues s !! j = Some q →
  ∃ q', _status_queues s' !! j = Some q'
    ∧ ((draws j l ∧ q' = [] ∧ taken_by j l s = [] ∧ offered_by j l s = []
        ∧ replaced s' = replaced s ++ [q]
        ∧ streams s' = keep_queue j (length (replaced s)) <$> streams s)
       ∨ (¬ draws j l
          ∧ taken_by j l s ++ q'
            = q ++ (if length q <? maxsize then offered_by j l s else []))).
Proof.
  intros Hstep Hq.
  assert (Hkept : ¬ draws j l →
    ∃ q', _status_queues s' !! j = Some q'
      ∧ ((draws j l ∧ q' = [] ∧ taken_by j l s = [] ∧ offered_by j l s = []
          ∧ replaced s' = replaced s ++ [q]
          ∧ streams s' = keep_queue j (length (replaced s)) <$> streams s)
         ∨ (¬ draws j l
            ∧ taken_by j l s ++ q'
              = q ++ (if length q <? maxsize then offered_by j l s
                      else [])))).
  { intros Hd.
    destruct (step_channel_kept _ _ _ _ _ Hstep Hq Hd) as (q' & ? & ?).
    exists q'. auto. }
  destruct l as [topic j0 c|j0|i|j0|i]; try (apply Hkept; by intros []).
  destruct (strip topic) eqn:Et.
  { apply Hkept. simpl. rewrite Et. by intros [_ ?]. }
  destruct (decide (j0 = j)) as [->|Hne].
  - simpl in Hstep. injection Hstep as <-. unfold generate. rewrite Et.
    exists []. simpl. rewrite lookup_insert_eq. split; [done|]. left.
    rewrite Hq, Et. by split_and!.
  - apply Hkept. simpl. by intros [? _].
Qed.

Lemma offered_by_length j l s : length (offered_by j l s) ≤ 1.
Proof.
  unfold offered_by, offered_by_thread. repeat case_match; simpl; lia.
Qed.

Lemma step_bounded l s s' j q' :
  step l s = Some s' →
  (∀ q, _status_queues s !! j = Some q → length q ≤ maxsize) →
  _status_queues s' !! j = Some q' → length q' ≤ maxsize.
Proof.
  intros Hstep Hb Hq'.
  destruct (_status_queues s !! j) as [q|] eqn:Hq.
  - destruct (step_channel _ _ _ _ _ Hstep Hq)
      as (q0 & Hq0 & [(_ & -> & _)|[_ Heq]]);
      rewrite Hq' in Hq0; injection Hq0 as ->.
    { simpl. lia. }
    apply (f_equal length) in Heq. rewrite !length_app in Heq.
    pose proof (offered_by_length j l s). specialize (Hb q eq_refl).
    destruct (Nat.ltb_spec (length q) maxsize); simpl in Heq; lia.
  - (* the channel is new: only a submission creates one, and it is empty *)
    destruct l as [topic j0 c|j0|i|j0|i].
    + simpl in Hstep. injection Hstep as <-. unfold generate in Hq'.
      destruct (strip topic); simpl in Hq'; [congruence|].
      destruct (decide (j0 = j)) as [->|].
      * rewrite lookup_insert_eq in Hq'. injection Hq' as <-. simpl.
        unfold maxsize. lia.
      * rewrite lookup_insert_ne in Hq' by done. congruence.
    + apply step_Run_inv in Hstep as (r & r' & s1 & _ & Hrun & ->).
      apply _run_effect in Hrun as (_ & _ & _ & _ & _ & _ & Hdom & _).
      destruct (proj1 (Hdom j)) as [? ?]; [by eauto|congruence].
    + apply step_RunEarlier_inv in Hstep as (j0 & r & r' & s1 & _ & Hrun & ->).
      apply _run_effect in Hrun as (_ & _ & _ & _ & _ & _ & Hdom & _).
      destruct (proj1 (Hdom j)) as [? ?]; [by eauto|congruence].
    + simpl in Hstep. injection Hstep as <-. unfold status_stream in Hq'.
      destruct (_JOBS s !! j0); simpl in Hq'; congruence.
    + apply step_Next_inv in Hstep as (st & st' & s1 & _ & Hev & ->).
      apply event_stream_effect in Hev
        as (_ & _ & _ & _ & _ & _ & _ & Hdom & _).
      destruct (proj1 (Hdom j)) as [? ?]; [by eauto|congruence].
Qed.

Lemma exec_bounded tr : ∀ s s' j q',
  exec tr s = Some s' →
  (∀ q, _status_queues s !! j = Some q → length q ≤ maxsize) →
  _status_queues s' !! j = Some q' → length q' ≤ maxsize.
Proof.
  induction tr as [|l tr IH]; intros s s' j q' Hex Hb Hq'.
  - injection Hex as <-. by apply Hb.
  - simpl in Hex. destruct (step l s) as [s1|] eqn:E; [|done]. simpl in Hex.
    eapply (IH s1); [done| |done].
    intros q Hq. by eapply step_bounded.
Qed.

(** X1.  Capacity.  In every reachable state each channel holds at most 500
    items. *)
Theorem channel_capacity (s : state) (job_id : str) (q : list str) :
  reachable s → _status_queues s !! job_id = Some q → length q ≤ maxsize.
Proof.
  intros [tr Htr] Hq.
  eapply (exec_bounded tr init); [done| |done].
  intros q0. simpl. by rewrite lookup_empty.
Qed.

Lemma along_app f tr1 tr2 s s1 :
  exec tr1 s = Some s1 → along f (tr1 ++ tr2) s = along f tr1 s ++ along f tr2 s1.
Proof.
  revert s. induction tr1 as [|l tr1 IH]; intros s Hex.
  - by injection Hex as <-.
  - simpl in Hex |- *. destruct (step l s) as [s0|]; [|done]. simpl in Hex.
    by rewrite (IH _ Hex), app_assoc.
Qed.



(** A stream that has ended stays as it is. *)
Lemma step_stream_ended l s s' i st :
  step l s = Some s' → streams s !! i = Some st → gen st = Ended →
  streams s' !! i = Some st.
Proof.
  intros Hstep Hst Hg.
  destruct (step_streams _ _ _ Hstep)
    as [Heq|[(topic & j0 & c & q & _ & _ & _ & _ & Heq)|[(j0 & _ & _ & Heq)|
        (i0 & st0 & st1 & s1 & -> & Hst0 & Hev & Heq)]]]; rewrite Heq.
  - done.
  - rewrite list_lookup_fmap, Hst. simpl. f_equal.
    unfold keep_queue. by rewrite Hg.
  - by apply lookup_app_l_Some.
  - destruct (decide (i0 = i)) as [->|Hne].
    + rewrite Hst in Hst0. injection Hst0 as <-.
      unfold event_stream in Hev. by rewrite Hg in Hev.
    + by rewrite list_lookup_insert_ne.
Qed.

(** What a step does to a replaced queue: nothing, unless a stream that
    holds the queue takes its head. *)
Lemma step_replaced_lookup l s s' k h :
  step l s = Some s' → replaced s !! k = Some h →
  replaced s' !! k = Some h
  ∨ ∃ line, replaced s' !! k = Some (drop 1 h) ∧ h = line :: drop 1 h.
Proof.
  intros Hstep Hk. destruct l as [topic j c|j|i|j|i].
  - left. simpl in Hstep. injection Hstep as <-. unfold generate.
    destruct (strip topic); [done|]. simpl. by apply lookup_app_l_Some.
  - left. apply step_Run_inv in Hstep as (r & r' & s1 & _ & Hrun & ->).
    apply _run_effect in Hrun as (_ & _ & _ & Hrr & _). simpl. by rewrite Hrr.
  - left. apply step_RunEarlier_inv in Hstep
      as (j & r & r' & s1 & _ & Hrun & ->).
    apply _run_effect in Hrun as (_ & _ & _ & Hrr & _). simpl. by rewrite Hrr.
  - left. simpl in Hstep. injection Hstep as <-. unfold status_stream.
    by destruct (_JOBS s !! j).
  - apply step_Next_inv in Hstep as (st & st' & s1 & Hst & Hev & ->). simpl.
    assert (Htake : ∀ line rest, held st s = Some (line :: rest) →
              replaced (take_head st rest s) !! k = Some h
              ∨ ∃ line, replaced (take_head st rest s) !! k = Some (drop 1 h)
                        ∧ h = line :: drop 1 h).
    { intros line rest Hh. unfold held, take_head in *.
      destruct (gen st) as [| |k0|]; try by left.
      simpl. destruct (decide (k0 = k)) as [->|Hne].
      - right. exists line. rewrite Hk in Hh. injection Hh as ->. simpl.
        split; [|done].
        apply list_lookup_insert_eq. by eapply lookup_lt_Some.
      - left. by rewrite list_lookup_insert_ne. }
    destruct (event_stream_cases _ _ _ _ Hev)
      as [(_ & -> & _)|[(_ & _ & -> & _)|
          [(line & rest & _ & _ & Hh & -> & _)|
           (rest & job & _ & Hh & _ & -> & _)]]]; eauto.
Qed.

(** A stream that holds a replaced queue relays lines of that queue. *)
Lemma step_stream_replaced l s s' i st k h :
  step l s = Some s' → streams s !! i = Some st →
  gen st = AwaitReplaced k → replaced s !! k = Some h →
  ∃ st' new h', streams s' !! i = Some st'
    ∧ sent st' = sent st ++ new
    ∧ (gen st' = Ended ∨ gen st' = AwaitReplaced k)
    ∧ replaced s' !! k = Some h'
    ∧ (log_messages new ++ h') `sublist_of` h.
Proof.
  intros Hstep Hst Hg Hk.
  assert (Hsame : streams s' !! i = Some st →
    ∃ st' new h', streams s' !! i = Some st'
      ∧ sent st' = sent st ++ new
      ∧ (gen st' = Ended ∨ gen st' = AwaitReplaced k)
      ∧ replaced s' !! k = Some h'
      ∧ (log_messages new ++ h') `sublist_of` h).
  { intros H.
    destruct (step_replaced_lookup _ _ _ _ _ Hstep Hk)
      as [Hk'|(line & Hk' & Hh)].
    - exists st, [], h. rewrite app_nil_r. split_and!; auto.
    - exists st, [], (drop 1 h). rewrite app_nil_r. split_and!; auto.
      simpl. apply sublist_drop. }
  destruct (step_streams _ _ _ Hstep)
    as [Heq|[(topic & j0 & c & q & _ & _ & _ & _ & Heq)|[(j0 & _ & _ & Heq)|
        (i0 & st0 & st1 & s1 & -> & Hst0 & Hev & Heq)]]].
  - apply Hsame. by rewrite Heq.
  - apply Hsame. rewrite Heq, list_lookup_fmap, Hst. simpl. f_equal.
    unfold keep_queue. by rewrite Hg.
  - apply Hsame. rewrite Heq. by apply lookup_app_l_Some.
  - destruct (decide (i0 = i)) as [->|Hne];
      [|apply Hsame; rewrite Heq; by rewrite list_lookup_insert_ne].
    rewrite Hst in Hst0. injection Hst0 as <-.
    pose proof Hstep as Hstep'.
    apply step_Next_inv in Hstep' as (st2 & st2' & s2 & Hst2 & Hev2 & ->).
    rewrite Hst in Hst2. injection Hst2 as <-.
    rewrite Hev in Hev2. injection Hev2 as <- <-.
    pose proof (event_stream_effect _ _ _ _ Hev) as (_ & _ & Hss & _).
    exists st1. simpl. rewrite Hss.
    rewrite list_lookup_insert_eq by (by eapply lookup_lt_Some).
    destruct (event_stream_cases _ _ _ _ Hev)
      as [(Hg' & _)|[(_ & Hh & -> & ->)|
          [(line & rest & _ & _ & Hh & -> & ->)|
           (rest & job & _ & Hh & _ & -> & ->)]]];
      [congruence|..]; unfold held, take_head in *; rewrite Hg in *;
      rewrite Hk in Hh; injection Hh as ->; simpl.
    + exists [Keepalive], []. by split_and!; auto.
    + exists [Log line], rest. split_and!; auto.
      apply list_lookup_insert_eq. by eapply lookup_lt_Some.
    + eexists [_], rest. split_and!; auto.
      * apply list_lookup_insert_eq. by eapply lookup_lt_Some.
      * simpl. by apply sublist_cons.
Qed.

Lemma exec_stream_replaced tr : ∀ s s' i st k h,
  exec tr s = Some s' → streams s !! i = Some st →
  gen st = Ended ∨ (gen st = AwaitReplaced k ∧ replaced s !! k = Some h) →
  ∃ st' new, streams s' !! i = Some st'
    ∧ sent st' = sent st ++ new
    ∧ log_messages new `sublist_of` h.
Proof.
  induction tr as [|l tr IH]; intros s s' i st k h Hex Hst Hg.
  - injection Hex as <-. exists st, []. rewrite app_nil_r.
    split_and!; try done. apply sublist_nil_l.
  - simpl in Hex. destruct (step l s) as [s1|] eqn:E; [|done]. simpl in Hex.
    destruct Hg as [Hg|[Hg Hk]].
    + pose proof (step_stream_ended _ _ _ _ _ E Hst Hg) as Hst1.
      apply (IH _ _ _ _ k h Hex Hst1). by left.
    + destruct (step_stream_replaced _ _ _ _ _ _ _ E Hst Hg Hk)
        as (st1 & new1 & h1 & Hst1 & Hs1 & Hg1 & Hk1 & Hsub1).
      destruct (IH _ _ _ _ k h1 Hex Hst1) as (st' & new & Hst' & Hs & Hsub).
      { destruct Hg1; auto. }
      exists st', (new1 ++ new). split_and!; try done.
      * by rewrite Hs, Hs1, app_assoc.
      * unfold log_messages. rewrite omap_app. etrans; [|exact Hsub1].
        by apply sublist_app.
Qed.

(** One step, seen from a stream that holds the queue the channel map has
    for its job: it relays a line of that queue, or the queue is replaced
    and the stream holds it on. *)
Lemma step_stream_current l s s' i st q :
  step l s = Some s' → streams s !! i = Some st → holds_current st →
  _status_queues s !! stream_job st = Some q →
  ∃ st' new, streams s' !! i = Some st'
    ∧ stream_job st' = stream_job st
    ∧ sent st' = sent st ++ new
    ∧ ((∃ q', holds_current st'
          ∧ _status_queues s' !! stream_job st = Some q'
          ∧ (log_messages new ++ q')
              `sublist_of` (q ++ offered_by (stream_job st) l s))
       ∨ (new = [] ∧ offered_by (stream_job st) l s = []
          ∧ ∃ k, gen st' = AwaitReplaced k ∧ replaced s' !! k = Some q)).
Proof.
  intros Hstep Hst Hcur Hq.
  destruct (step_channel _ _ _ _ _ Hstep Hq)
    as (q' & Hq' & [(_ & -> & _ & Ho & Hrep & Hss)|[Hd Heq]]).
  - (* the queue is replaced *)
    exists (keep_queue (stream_job st) (length (replaced s)) st), [].
    rewrite Hss, list_lookup_fmap, Hst, keep_queue_job, keep_queue_sent,
      app_nil_r.
    split_and!; try done.
    destruct (keep_queue_gen (stream_job st) (length (replaced s)) st)
      as [Hg|[_ Hg]].
    + left. exists []. split_and!; try done.
      * intros k. rewrite Hg. apply Hcur.
      * simpl. rewrite Ho, app_nil_r. apply sublist_nil_l.
    + right. split_and!; try done. eexists. split; [done|].
      rewrite Hrep. rewrite lookup_app_r by done.
      by rewrite Nat.sub_diag.
  - (* it is not *)
    assert (Hput : ∀ st' new,
      streams s' !! i = Some st' → holds_current st' →
      stream_job st' = stream_job st → sent st' = sent st ++ new →
      log_messages new `sublist_of` taken_by (stream_job st) l s →
      ∃ st' new, streams s' !! i = Some st'
        ∧ stream_job st' = stream_job st
        ∧ sent st' = sent st ++ new
        ∧ ((∃ q', holds_current st'
              ∧ _status_queues s' !! stream_job st = Some q'
              ∧ (log_messages new ++ q')
                  `sublist_of` (q ++ offered_by (stream_job st) l s))
           ∨ (new = [] ∧ offered_by (stream_job st) l s = []
              ∧ ∃ k, gen st' = AwaitReplaced k ∧ replaced s' !! k = Some q))).
    { intros st' new H1 H2 H3 H4 H5. exists st', new. split_and!; try done.
      left. exists q'. split_and!; try done.
      etrans; [apply sublist_app; [exact H5|reflexivity]|].
      rewrite Heq. apply sublist_app; [reflexivity|].
      destruct (_ <? _); [reflexivity|apply sublist_nil_l]. }
    assert (Hsame : streams s' !! i = Some st →
      ∃ st' new, streams s' !! i = Some st'
        ∧ stream_job st' = stream_job st
        ∧ sent st' = sent st ++ new
        ∧ ((∃ q', holds_current st'
              ∧ _status_queues s' !! stream_job st = Some q'
              ∧ (log_messages new ++ q')
                  `sublist_of` (q ++ offered_by (stream_job st) l s))
           ∨ (new = [] ∧ offered_by (stream_job st) l s = []
              ∧ ∃ k, gen st' = AwaitReplaced k ∧ replaced s' !! k = Some q))).
    { intros H. apply (Hput st []); try done.
      - by rewrite app_nil_r.
      - apply sublist_nil_l. }
    destruct (step_streams _ _ _ Hstep)
      as [Heqs|[(topic & j0 & c & q0 & -> & Ht & _ & _ & Heqs)|
          [(j0 & _ & _ & Heqs)|
           (i0 & st0 & st1 & s1 & -> & Hst0 & Hev & Heqs)]]].
    + apply Hsame. by rewrite Heqs.
    + apply Hsame. rewrite Heqs, list_lookup_fmap, Hst. simpl. f_equal.
      apply keep_queue_other. intros Hj. apply Hd. by split.
    + apply Hsame. rewrite Heqs. by apply lookup_app_l_Some.
    + destruct (decide (i0 = i)) as [->|Hne];
        [|apply Hsame; rewrite Heqs; by rewrite list_lookup_insert_ne].
      rewrite Hst in Hst0. injection Hst0 as <-.
      apply (Hput st1 (drop (length (sent st)) (sent st1))).
      * rewrite Heqs. apply list_lookup_insert_eq. by eapply lookup_lt_Some.
      * by eapply event_stream_current.
      * by apply event_stream_effect in Hev as (_ & _ & _ & _ & _ & ? & _).
      * destruct (event_stream_cases_current _ _ _ _ Hcur Hev)
          as [(_ & _ & Hs & _)|[(_ & _ & _ & ->)|
              [(line & rest & _ & _ & _ & _ & ->)|
               (rest & job & _ & _ & _ & _ & ->)]]]; simpl;
          rewrite ?Hs, ?drop_app_length; try done.
        by rewrite drop_all, app_nil_r.
      * unfold taken_by. rewrite Hst. rewrite decide_True by done.
        destruct (event_stream_cases_current _ _ _ _ Hcur Hev)
          as [(_ & _ & Hs & _)|[(_ & _ & _ & ->)|
              [(line & rest & Hg & _ & Hq0 & _ & ->)|
               (rest & job & _ & _ & _ & _ & ->)]]]; simpl;
          rewrite ?Hs, ?drop_app_length, ?drop_all; simpl;
          try apply sublist_nil_l.
        by rewrite Hg, Hq0.
Qed.

Lemma exec_stream_current tr : ∀ s s' i st q,
  exec tr s = Some s' → streams s !! i = Some st → holds_current st →
  _status_queues s !! stream_job st = Some q →
  ∃ st' new, streams s' !! i = Some st'
    ∧ sent st' = sent st ++ new
    ∧ log_messages new `sublist_of` (q ++ offered (stream_job st) tr s).
Proof.
  induction tr as [|l tr IH]; intros s s' i st q Hex Hst Hcur Hq.
  - injection Hex as <-. exists st, []. rewrite app_nil_r.
    split_and!; try done. apply sublist_nil_l.
  - simpl in Hex. unfold offered. simpl.
    destruct (step l s) as [s1|] eqn:E; [|done]. simpl in Hex.
    destruct (step_stream_current _ _ _ _ _ _ E Hst Hcur Hq)
      as (st1 & new1 & Hst1 & Hj1 & Hs1
          & [(q1 & Hcur1 & Hq1 & Hsub1)|(-> & Ho & k & Hg1 & Hk1)]).
    + rewrite <- Hj1 in Hq1.
      destruct (IH _ _ _ _ _ Hex Hst1 Hcur1 Hq1)
        as (st' & new & Hst' & Hs & Hsub).
      exists st', (new1 ++ new). split_and!; try done.
      * by rewrite Hs, Hs1, app_assoc.
      * unfold log_messages. rewrite omap_app.
        etrans; [apply sublist_app; [reflexivity|exact Hsub]|].
        rewrite Hj1. rewrite !app_assoc.
        apply sublist_app; [exact Hsub1|reflexivity].
    + destruct (exec_stream_replaced tr s1 s' i st1 k q Hex Hst1)
        as (st' & new & Hst' & Hs & Hsub); [by right|].
      exists st', new. split_and!; try done.
      * by rewrite Hs, Hs1, app_nil_r.
      * by apply sublist_inserts_r.
Qed.


(** X3.  Relay.  The log events a stream sends carry, in order and each at
    most once, lines that the channel of its job held or that were offered
    to the channel since, when the stream does not wait on a queue that the
    channel map has replaced already. *)
Theorem stream_relays_in_order (s s' : state) (tr : list label) (i : nat)
    (st : stream) (q : list str) :
  reachable s → exec tr s = Some s' → streams s !! i = Some st →
  _status_queues s !! stream_job st = Some q →
  holds_current st →
  ∃ st' new, streams s' !! i = Some st'
    ∧ sent st' = sent st ++ new
    ∧ log_messages new `sublist_of` (q ++ offered (stream_job st) tr s).
Proof.
  intros Hreach Hex Hst Hq Hcur. by eapply exec_stream_current.
Qed.

End ChannelFacts.

(** ** Streams always find their channel *)

Section StreamChannel.

Import Orchestrator Server ServerSpec ChannelSpec.

Implicit Types (s : state) (j : str) (l : label) (st : stream).

(** A stream belongs to a job that has a channel. *)
Lemma stream_channel s st :
  reachable s → st ∈ streams s → is_Some (_status_queues s !! stream_job st).
Proof.
  intros Hreach Hin.
  destruct (reachable_same_keys _ Hreach (stream_job st)) as [_ [Hq _]].
  apply Hq. by apply stream_known.
Qed.

(** A stream that has ended has sent the complete event. *)
Lemma ended_with_complete s :
  reachable s →
  Forall (λ st, gen st = Ended →
                ∃ before a r e, sent st = before ++ [Complete a r e])
         (streams s).
Proof.
  apply streams_invariant.
  - done.
  - intros st s0 st' s1 Hreach Hin He Hev.
    destruct (stream_channel _ _ Hreach Hin) as [q0 Hq0].
    destruct (event_stream_cases _ _ _ _ Hev)
      as [(Hg & _ & Hs & Hcase)|[(Hg & _ & _ & ->)|
          [(line & rest & Hg & _ & _ & _ & ->)|
           (rest & job & Hg & _ & _ & _ & ->)]]]; simpl.
    + rewrite Hq0 in Hcase. by rewrite Hcase.
    + by destruct Hg as [->|[k ->]].
    + by destruct Hg as [->|[k ->]].
    + intros _. by eexists _, _, _, _.
  - intros j k st He. rewrite keep_queue_sent.
    destruct (keep_queue_gen j k st) as [->|[Hg ->]]; [done|done].
Qed.

(** X4.  Every stream ends with the complete event.  In a reachable state a
    stream always finds the channel of its job (the early return of
    [event_stream] is never taken), and it has ended exactly when the last
    event it sent is the complete event. *)
Theorem stream_ends_with_complete (s : state) (st : stream) :
  reachable s → st ∈ streams s →
  is_Some (_status_queues s !! stream_job st)
  ∧ (gen st = Ended ↔ ∃ before a r e, sent st = before ++ [Complete a r e]).
Proof.
  intros Hreach Hin.
  split; [by apply stream_channel|]. split.
  { pose proof (ended_with_complete _ Hreach) as He.
    rewrite Forall_forall in He. by apply He. }
  intros (before & a & r & e & Hs).
  pose proof (stream_ok_reachable _ Hreach) as Hok.
  rewrite Forall_forall in Hok. specialize (Hok st Hin).
  unfold stream_ok in Hok. destruct (gen st); [| | |done].
  - rewrite Hs in Hok. by destruct before.
  - rewrite Hs in Hok. apply Forall_app in Hok as [_ Hok].
    by apply Forall_cons in Hok as [? _].
  - rewrite Hs in Hok. apply Forall_app in Hok as [_ Hok].
    by apply Forall_cons in Hok as [? _].
Qed.

(** X5.  A job stays known.  The two dictionaries of the server have the same
    keys in every reachable state, and no key is ever removed: once a job has
    been accepted, a status request for it is answered with a stream, never
    with "not found", however long the process has run since. *)
Theorem known_job_stays_known (s s' : state) (tr : list label) (job_id : str) :
  reachable s → exec tr s = Some s' → is_Some (_JOBS s !! job_id) →
  is_Some (_status_queues s !! job_id)
  ∧ is_Some (_JOBS s' !! job_id)
  ∧ is_Some (_status_queues s' !! job_id)
  ∧ (status_stream job_id s').1 = EventStream.
Proof.
  intros Hreach Hex Hj.
  assert (Hq : is_Some (_status_queues s !! job_id)).
  { destruct (reachable_same_keys _ Hreach job_id) as [_ [H _]]. auto. }
  pose proof (exec_job_kept tr s s' job_id Hex Hj) as Hj'.
  split_and!; try done.
  - by eapply exec_queue_kept.
  - unfold status_stream. by destruct Hj' as [job ->].
Qed.

End StreamChannel.
(** ** The frames of the status stream *)

Section FrameFacts.

Import Orchestrator Server PyMore Frames FramesSpec.

Lemma digit_cases (d : N) :
  (d < 16)%N →
  d ∈ [0; 1; 2; 3; 4; 5; 6; 7; 8; 9; 10; 11; 12; 13; 14; 15]%N.
Proof.
  intros H. rewrite !elem_of_cons.
  assert (d = 0 ∨ d = 1 ∨ d = 2 ∨ d = 3 ∨ d = 4 ∨ d = 5 ∨ d = 6 ∨ d = 7
          ∨ d = 8 ∨ d = 9 ∨ d = 10 ∨ d = 11 ∨ d = 12 ∨ d = 13 ∨ d = 14
          ∨ d = 15)%N by lia.
  tauto.
Qed.

Lemma hex_val_digit (d : N) : (d < 16)%N → hex_val (hex_digit d) = Some d.
Proof.
  intros H%digit_cases. rewrite !elem_of_cons in H.
  repeat (destruct H as [->|H]; [reflexivity|]).
  by apply not_elem_of_nil in H.
Qed.

Lemma hex_digit_printable (d : N) :
  (d < 16)%N → printable (hex_digit d) = true.
Proof.
  intros H%digit_cases. rewrite !elem_of_cons in H.
  repeat (destruct H as [->|H]; [reflexivity|]).
  by apply not_elem_of_nil in H.
Qed.

Lemma hex4_digits (n : N) :
  (n < 65536)%N →
  hex4 (hex_digit (n / 4096)) (hex_digit ((n / 256) mod 16))
       (hex_digit ((n / 16) mod 16)) (hex_digit (n mod 16)) = Some n.
Proof.
  intros Hn. unfold hex4.
  assert (n / 4096 < 16)%N by (apply N.Div0.div_lt_upper_bound; lia).
  assert ((n / 256) mod 16 < 16)%N by (apply N.mod_lt; lia).
  assert ((n / 16) mod 16 < 16)%N by (apply N.mod_lt; lia).
  assert (n mod 16 < 16)%N by (apply N.mod_lt; lia).
  rewrite !hex_val_digit by done. simpl. f_equal.
  pose proof (N.Div0.div_mod n 16) as H16.
  pose proof (N.Div0.div_mod (n / 16) 16) as H256.
  pose proof (N.Div0.div_mod (n / 256) 16) as H4096.
  rewrite N.Div0.div_div in H256, H4096.
  change (16 * 16)%N with 256%N in H256.
  change (256 * 16)%N with 4096%N in H4096.
  lia.
Qed.

Lemma scan_units_cons c s1 :
  scan_units (c :: s1) =
  if (c =? 34)%N then Some ([], s1)
  else if (c =? 92)%N then
    match s1 with
    | [] => None
    | e :: s2 =>
      if (e =? ch "u")%N then
        match s2 with
        | h1 :: h2 :: h3 :: h4 :: s3 =>
            c1 ← hex4 h1 h2 h3 h4;
            '(v, r) ← scan_units s3;
            Some ((c1, true) :: v, r)
        | _ => None
        end
      else
        x ← unescape e; '(v, r) ← scan_units s2; Some ((x, false) :: v, r)
    end
  else if (c <=? 31)%N then None
  else '(v, r) ← scan_units s1; Some ((c, false) :: v, r).
Proof. reflexivity. Qed.

Lemma scan_units_u_escape n rest :
  (n < 65536)%N →
  scan_units (u_escape n ++ rest)
  = '(v, r) ← scan_units rest; Some ((n, true) :: v, r).
Proof.
  intros Hn. unfold u_escape. cbn [app]. rewrite scan_units_cons.
  change (92 =? 34)%N with false. change (92 =? 92)%N with true.
  cbn beta iota. rewrite N.eqb_refl. by rewrite hex4_digits.
Qed.

Lemma lor_low_bits (base y : N) :
  base ∈ [55296; 56320]%N → (y < 1024)%N → N.lor base y = (base + y)%N.
Proof.
  intros Hb Hy.
  assert (Hall : forallb (λ k, (N.lor 55296 (N.of_nat k) =? 55296 + N.of_nat k)
                               && (N.lor 56320 (N.of_nat k)
                                   =? 56320 + N.of_nat k))%N
                   (seq 0 1024) = true) by (vm_compute; reflexivity).
  rewrite forallb_forall in Hall.
  assert (Hin : In (N.to_nat y) (seq 0 1024)) by (apply in_seq; lia).
  apply Hall in Hin. rewrite N2Nat.id in Hin.
  apply andb_prop in Hin as [H1 H2].
  rewrite !elem_of_cons in Hb.
  destruct Hb as [->|[->|Hb]]; [by apply N.eqb_eq|by apply N.eqb_eq|].
  by apply not_elem_of_nil in Hb.
Qed.

(** The two halves of the pair written for a character above the basic
    plane. *)
Lemma surrogate_halves (c : N) :
  (65536 ≤ c < 1114112)%N →
  let n := (c - 65536)%N in
  N.lor 55296 (N.land (N.shiftr n 10) 1023) = (55296 + n / 1024)%N
  ∧ N.lor 56320 (N.land n 1023) = (56320 + n mod 1024)%N
  ∧ (n / 1024 < 1024)%N ∧ (n mod 1024 < 1024)%N
  ∧ (65536 + (n / 1024) * 1024 + n mod 1024 = c)%N.
Proof.
  intros Hc n.
  assert (Hdiv : (n / 1024 < 1024)%N).
  { apply N.Div0.div_lt_upper_bound. unfold n. lia. }
  assert (Hmod : (n mod 1024 < 1024)%N) by (apply N.mod_lt; lia).
  change 1023%N with (N.ones 10). rewrite !N.land_ones, N.shiftr_div_pow2.
  change (2 ^ 10)%N with 1024%N. rewrite (N.mod_small (n / 1024)) by done.
  rewrite !lor_low_bits; try done; [| |]; rewrite ?elem_of_cons; auto.
  split_and!; try done.
  pose proof (N.Div0.div_mod n 1024). unfold n in *. lia.
Qed.

Lemma is_scalar_spec c :
  is_scalar c = true ↔ (c < 55296 ∨ 57343 < c < 1114112)%N.
Proof.
  unfold is_scalar.
  rewrite orb_true_iff, andb_true_iff, !N.ltb_lt. lia.
Qed.

(** Reading back what [escape_char] wrote for one character. *)
Lemma scan_units_escape_char c rest :
  is_scalar c = true →
  ∃ us,
    scan_units (escape_char c ++ rest)
    = ('(v, r) ← scan_units rest; Some (us ++ v, r))
    ∧ ∀ v, join_pairs (us ++ v) = c :: join_pairs v.
Proof.
  intros Hc%is_scalar_spec. unfold escape_char.
  destruct (N.eqb_spec c 92) as [->|H92].
  { exists [(92%N, false)]. split; [reflexivity|done]. }
  destruct (N.eqb_spec c 34) as [->|H34].
  { exists [(34%N, false)]. split; [reflexivity|done]. }
  destruct (N.eqb_spec c 8) as [->|H8].
  { exists [(8%N, false)]. split; [reflexivity|done]. }
  destruct (N.eqb_spec c 12) as [->|H12].
  { exists [(12%N, false)]. split; [reflexivity|done]. }
  destruct (N.eqb_spec c 10) as [->|H10].
  { exists [(10%N, false)]. split; [reflexivity|done]. }
  destruct (N.eqb_spec c 13) as [->|H13].
  { exists [(13%N, false)]. split; [reflexivity|done]. }
  destruct (N.eqb_spec c 9) as [->|H9].
  { exists [(9%N, false)]. split; [reflexivity|done]. }
  destruct ((32 <=? c) && (c <=? 126))%N eqn:Hp.
  { apply andb_prop in Hp as [H1%N.leb_le H2%N.leb_le].
    exists [(c, false)]. split; [|done]. cbn [app].
    rewrite scan_units_cons.
    destruct (N.eqb_spec c 34); [done|]. destruct (N.eqb_spec c 92); [done|].
    destruct (N.leb_spec c 31); [lia|]. done. }
  destruct (N.ltb_spec c 65536) as [Hlt|Hge].
  { exists [(c, true)]. split; [by apply scan_units_u_escape|].
    intros v. cbn [app join_pairs].
    assert (is_high_surrogate c = false) as Hh.
    { unfold is_high_surrogate. apply andb_false_iff.
      rewrite !N.leb_gt. lia. }
    destruct v as [|[lo [|]] v']; try done. by rewrite Hh. }
  destruct (surrogate_halves c) as (-> & -> & Hd & Hm & Hjoin); [lia|].
  revert Hd Hm Hjoin.
  generalize ((c - 65536) / 1024)%N ((c - 65536) mod 1024)%N.
  intros hi lo Hd Hm Hjoin.
  exists [((55296 + hi)%N, true); ((56320 + lo)%N, true)].
  split.
  - rewrite <- app_assoc, scan_units_u_escape by lia.
    rewrite scan_units_u_escape by lia.
    by destruct (scan_units rest) as [[v r]|].
  - intros v. cbn [app join_pairs].
    assert (is_high_surrogate (55296 + hi) = true) as ->.
    { unfold is_high_surrogate. apply andb_true_iff.
      rewrite !N.leb_le. lia. }
    assert (is_low_surrogate (56320 + lo) = true) as ->.
    { unfold is_low_surrogate. apply andb_true_iff.
      rewrite !N.leb_le. lia. }
    cbn [andb]. f_equal. unfold join_surrogates. lia.
Qed.

(** Reading back an encoded string: the scanner stops at the closing quote
    with the string that was encoded. *)
Lemma scanstring_encode (s rest : str) :
  scalar_text s →
  scanstring (concat (escape_char <$> s) ++ 34%N :: rest) = Some (s, rest).
Proof.
  intros Hs. unfold scanstring.
  cut (∃ us, scan_units (concat (escape_char <$> s) ++ 34%N :: rest)
             = Some (us, rest) ∧ join_pairs us = s).
  { intros (us & -> & <-). done. }
  induction Hs as [|c s Hc Hs (us & IH & Hj)].
  - exists []. split; [reflexivity|done].
  - cbn [fmap list_fmap concat]. rewrite <- app_assoc.
    destruct (scan_units_escape_char c
                (concat (escape_char <$> s) ++ 34%N :: rest) Hc)
      as (us1 & -> & Hj1).
    rewrite IH. exists (us1 ++ us). split; [done|]. by rewrite Hj1, Hj.
Qed.

(** Reading back a value: a string or [null]. *)
Lemma scan_once_dumps_value fuel (v : option str) (tail : str) :
  scalar_text (default [] v) →
  scan_once (S fuel) (dumps_value v ++ tail)
  = Some (from_option JStr JNull v, tail).
Proof.
  intros Hv. rewrite scan_once_S. destruct v as [s|]; simpl in Hv.
  - unfold dumps_value, encode_basestring_ascii. cbn [app].
    rewrite <- app_assoc. cbn [app]. change (34 =? 34)%N with true.
    cbn beta iota. by rewrite scanstring_encode.
  - change (dumps_value None ++ tail) with (110%N :: ([117; 108; 108]%N ++ tail)).
    change (110 =? 34)%N with false. change (110 =? ch "{")%N with false.
    change (110 =? ch "[")%N with false. cbn beta iota.
    change (110%N :: [117; 108; 108]%N ++ tail) with (u "null" ++ tail).
    by rewrite (match_constant_ext (u "null") JNull [] tail).
Qed.

Lemma dumps_member_app k v tail :
  dumps_member (k, v) ++ tail
  = 34%N :: concat (escape_char <$> k)
    ++ 34%N :: ch ":" :: 32%N :: dumps_value v ++ tail.
Proof.
  unfold dumps_member, encode_basestring_ascii. cbn [fst snd app].
  change (u ": ") with [ch ":"; 32%N]. by rewrite <- !app_assoc.
Qed.

(** One member of the dictionary, read by the object loop up to the
    delimiter that follows it. *)
Lemma parse_members_member fuel k v delim tail acc :
  scalar_text k → scalar_text (default [] v) → is_json_ws delim = false →
  parse_members (S (S fuel)) (dumps_member (k, v) ++ delim :: tail) acc
  = if (delim =? ch "}")%N
    then Some (JObj (dict_set k (from_option JStr JNull v) acc), tail)
    else if (delim =? ch ",")%N
    then parse_members (S fuel) (skip_ws tail)
           (dict_set k (from_option JStr JNull v) acc)
    else None.
Proof.
  intros Hk Hv Hd. rewrite parse_members_S, dumps_member_app.
  change (34 =? 34)%N with true. cbn beta iota.
  rewrite scanstring_encode by done. cbn [mbind option_bind].
  change (skip_ws (ch ":" :: 32%N :: dumps_value v ++ delim :: tail))
    with (ch ":" :: 32%N :: dumps_value v ++ delim :: tail).
  cbn beta iota. rewrite N.eqb_refl.
  change (skip_ws (32%N :: dumps_value v ++ delim :: tail))
    with (skip_ws (dumps_value v ++ delim :: tail)).
  assert (skip_ws (dumps_value v ++ delim :: tail)
          = dumps_value v ++ delim :: tail) as ->.
  { destruct v as [t|]; reflexivity. }
  rewrite scan_once_dumps_value by done. cbn [mbind option_bind].
  cbn [skip_ws]. by rewrite Hd.
Qed.

Local Abbreviation members_text d := (join (u ", ") (dumps_member <$> d)).

Lemma parse_members_dumps (d : list (str * option str)) :
  ∀ fuel acc rest,
    d ≠ [] → length d < fuel → Forall scalar_member d →
    parse_members fuel (members_text d ++ ch "}" :: rest) acc
    = Some (JObj (foldl (λ a kv, dict_set kv.1 (from_option JStr JNull kv.2) a)
                    acc d), rest).
Proof.
  induction d as [|[k v] d IH]; intros fuel acc rest Hne Hlen Hd; [done|].
  apply Forall_cons in Hd as [[Hk Hv] Hd]. simpl in Hk, Hv.
  destruct fuel as [|[|fuel]]; [simpl in Hlen; lia..|].
  destruct d as [|kv' d'].
  - cbn [fmap list_fmap join foldl].
    rewrite parse_members_member by done. by rewrite N.eqb_refl.
  - assert (members_text ((k, v) :: kv' :: d')
            = dumps_member (k, v)
              ++ ch "," :: 32%N :: members_text (kv' :: d')) as ->
      by reflexivity.
    rewrite <- app_assoc. cbn [app].
    rewrite parse_members_member by done.
    change (ch "," =? ch "}")%N with false. rewrite N.eqb_refl.
    cbn beta iota.
    assert (skip_ws (32%N :: members_text (kv' :: d') ++ ch "}" :: rest)
            = members_text (kv' :: d') ++ ch "}" :: rest) as ->.
    { destruct kv' as [k' v']. by destruct d'. }
    rewrite IH; [done|done| |done]. simpl in Hlen |- *. lia.
Qed.

Lemma members_text_head (d : list (str * option str)) (tail : str) :
  d ≠ [] → ∃ tl, members_text d ++ tail = 34%N :: tl.
Proof.
  destruct d as [|[k v] [|kv' d']]; [done|..]; intros _; by eexists.
Qed.

(** Reading back a dictionary. *)
Lemma json_loads_dumps_dict (d : list (str * option str)) :
  d ≠ [] → length d ≤ 4 → Forall scalar_member d →
  json_loads (dumps_dict d)
  = Some (JObj (foldl (λ a kv, dict_set kv.1 (from_option JStr JNull kv.2) a)
                  [] d)).
Proof.
  intros Hne Hlen Hd. unfold json_loads, dumps_dict.
  change (u "{" ++ members_text d ++ u "}")
    with (ch "{" :: (members_text d ++ [ch "}"])).
  cbn [starts_with_bom]. change (ch "{" =? 65279)%N with false.
  cbn [skip_ws]. change (is_json_ws (ch "{")) with false. cbn beta iota.
  set (text := members_text d ++ [ch "}"]).
  destruct (members_text_head d [ch "}"] Hne) as [tl Htl]. fold text in Htl.
  assert (2 ≤ length text) as Htext.
  { rewrite Htl. unfold text in Htl. destruct tl; [|simpl; lia].
    apply (f_equal length) in Htl. rewrite length_app in Htl. simpl in Htl.
    destruct (members_text d) eqn:E; [|simpl in Htl; lia].
    destruct (members_text_head d [] Hne) as [tl' Htl'].
    rewrite app_nil_r, E in Htl'. done. }
  cbn [length].
  replace (2 * S (length text) + 2) with (S (S (2 * length text + 2))) by lia.
  rewrite scan_once_S.
  change (ch "{" =? 34)%N with false. rewrite N.eqb_refl. cbn beta iota.
  rewrite Htl. change (skip_ws (34%N :: tl)) with (34%N :: tl).
  cbn beta iota. change (34 =? ch "}")%N with false. cbn beta iota.
  rewrite <- Htl. subst text.
  rewrite parse_members_dumps; [done|done|lia|done].
Qed.

Lemma u_escape_printable n :
  (n < 65536)%N → Forall (λ c, printable c = true) (u_escape n).
Proof.
  intros Hn. unfold u_escape.
  assert (n / 4096 < 16)%N by (apply N.Div0.div_lt_upper_bound; lia).
  assert ((n / 256) mod 16 < 16)%N by (apply N.mod_lt; lia).
  assert ((n / 16) mod 16 < 16)%N by (apply N.mod_lt; lia).
  assert (n mod 16 < 16)%N by (apply N.mod_lt; lia).
  repeat constructor; by apply hex_digit_printable.
Qed.

Lemma escape_char_printable c :
  Forall (λ c, printable c = true) (escape_char c).
Proof.
  unfold escape_char.
  repeat (destruct (_ =? _)%N; [by repeat constructor|]).
  destruct ((32 <=? c) && (c <=? 126))%N eqn:Hp; [by repeat constructor|].
  destruct (N.ltb_spec c 65536); [by apply u_escape_printable|].
  assert (Hlow : ∀ x, (N.land x 1023 < 1024)%N).
  { intros x. change 1023%N with (N.ones 10). rewrite N.land_ones.
    by apply N.mod_lt. }
  apply Forall_app. split; apply u_escape_printable;
    rewrite lor_low_bits; rewrite ?elem_of_cons; auto;
    match goal with |- context [N.land ?x 1023] => specialize (Hlow x) end;
    lia.
Qed.

Lemma encode_printable s :
  Forall (λ c, printable c = true) (encode_basestring_ascii s).
Proof.
  unfold encode_basestring_ascii. apply Forall_app. split; [by repeat constructor|].
  apply Forall_app. split; [|by repeat constructor].
  induction s as [|c s IH]; [constructor|]. cbn [fmap list_fmap concat].
  apply Forall_app. split; [apply escape_char_printable|done].
Qed.

Lemma dumps_dict_printable d :
  Forall (λ c, printable c = true) (dumps_dict d).
Proof.
  unfold dumps_dict. apply Forall_app. split; [by repeat constructor|].
  apply Forall_app. split; [|by repeat constructor].
  induction d as [|[k v] d IH]; [constructor|].
  assert (Hm : Forall (λ c, printable c = true) (dumps_member (k, v))).
  { unfold dumps_member. apply Forall_app. split; [apply encode_printable|].
    apply Forall_app. split; [by repeat constructor|].
    destruct v as [t|]; [apply encode_printable|by repeat constructor]. }
  destruct d as [|kv' d']; [done|].
  change (members_text ((k, v) :: kv' :: d'))
    with (dumps_member (k, v) ++ u ", " ++ members_text (kv' :: d')).
  apply Forall_app. split; [done|].
  apply Forall_app. split; [by repeat constructor|done].
Qed.

End FrameFacts.

Section FrameTheorems.

Import Orchestrator Server PyMore Frames FramesSpec.

(** X6.  Round trip of a frame.  For every event whose strings are texts of
    Unicode scalar values, the frame is "data: ", a JSON text and two line
    feeds, and parsing the JSON text gives back the dictionary of the event:
    its type and, unchanged, the message of a log event or the status,
    result and error of a complete event ([None] as null). *)
Theorem frame_round_trip (e : sse) :
  scalar_event e →
  ∃ body, frame e = u "data: " ++ body ++ [10; 10]%N
          ∧ json_loads body = Some (payload_json e).
Proof.
  intros He. exists (dumps_dict (payload e)). split; [done|].
  rewrite json_loads_dumps_dict.
  - by destruct e as [|message|st res err].
  - by destruct e.
  - destruct e; simpl; lia.
  - destruct e as [|message|st res err]; simpl in He |- *.
    + repeat constructor.
    + repeat constructor; try done; vm_compute; repeat constructor.
    + destruct He as (H1 & H2 & H3).
      repeat constructor; try done; vm_compute; repeat constructor.
Qed.

(** X7.  A frame is one line.  Whatever the strings of an event contain, its
    frame consists of printable ASCII characters followed by exactly two
    line feeds: a line break or a non-ASCII character in a message is
    written as an escape and cannot end the frame early. *)
Theorem frame_is_one_line (e : sse) :
  ∃ line, frame e = line ++ [10; 10]%N
          ∧ Forall (λ c, printable c = true) line.
Proof.
  exists (u "data: " ++ dumps_dict (payload e)). split.
  - unfold frame. by rewrite <- app_assoc.
  - apply Forall_app. split; [by repeat constructor|].
    apply dumps_dict_printable.
Qed.

End FrameTheorems.

Lemma frame_round_trip_witness :
  ∃ body, Frames.frame (Server.Log MoreExamples.odd_line)
          = u "data: " ++ body ++ [10; 10]%N
          ∧ json_loads body
            = Some (FramesSpec.payload_json (Server.Log MoreExamples.odd_line)).
Proof.
  apply (frame_round_trip (Server.Log MoreExamples.odd_line)).
  change (FramesSpec.scalar_text MoreExamples.odd_line).
  unfold FramesSpec.scalar_text.
  let text := eval vm_compute in MoreExamples.odd_line in
  change MoreExamples.odd_line with text.
  repeat (constructor; [reflexivity|]). constructor.
Defined.

(** ** More on the dialogue budget *)

Section BudgetMore.

Import Scriptwriter Budget LineSpec.

Variable py_str : json → str.
Variables total per : nat.

Local Abbreviation validate := (validate py_str total per).

Lemma walk_records rs running :
  Forall (λ r, is_record r = true) rs →
  Forall (λ r, is_record r = true) (walk total running rs).
Proof.
  intros H. destruct (walk_prefix total rs running) as [k Hk].
  rewrite Hk in H. by apply Forall_app in H as [? _].
Qed.

Lemma enforce_records d :
  Forall (λ r, is_record r = true) d →
  Forall (λ r, is_record r = true) (enforce d per total).
Proof.
  intros H. apply walk_records, Forall_fmap.
  eapply Forall_impl; [exact H|]. intros r Hr. by apply is_record_truncate.
Qed.

Lemma truncate_small rs :
  Forall (λ r, text_len r ≤ per) rs → truncate_record per <$> rs = rs.
Proof.
  induction 1 as [|r rs Hr _ IH]; [done|]. rewrite fmap_cons, IH. f_equal.
  unfold truncate_record. by destruct (Nat.ltb_spec per (text_len r)); [lia|].
Qed.

Lemma enforce_within d :
  Forall (λ r, text_len r ≤ per) d → total_len d ≤ total →
  enforce d per total = d.
Proof.
  intros H1 H2. unfold enforce. rewrite truncate_small by done.
  by apply walk_app_fits.
Qed.

Lemma enforce_bounds d :
  Forall (λ r, is_record r = true) d →
  Forall (λ r, text_len r ≤ per) (enforce d per total)
  ∧ total_len (enforce d per total) ≤ total.
Proof.
  intros Hd. split.
  - unfold enforce.
    destruct (walk_prefix total (truncate_record per <$> d) 0) as [k Hk].
    assert (Ht : Forall (λ r, text_len r ≤ per) (truncate_record per <$> d)).
    { apply Forall_fmap. eapply Forall_impl; [exact Hd|].
      intros r Hr. simpl. rewrite text_len_truncate by done. lia. }
    rewrite Hk in Ht. by apply Forall_app in Ht as [? _].
  - pose proof (walk_total total (truncate_record per <$> d) 0).
    unfold enforce. lia.
Qed.

(** X8.  The validation is idempotent.  Validating a dialogue that the
    validation returned changes nothing. *)
Theorem validate_idempotent (dialogue : list json) :
  Forall (λ r, is_record r = true) dialogue →
  ∃ out, outcome (validate dialogue) = inr out
         ∧ outcome (validate out) = inr out.
Proof.
  intros Hd. exists (enforce dialogue per total).
  split; [by apply validate_spec|].
  rewrite validate_spec by by apply enforce_records.
  f_equal. destruct (enforce_bounds dialogue Hd). by apply enforce_within.
Qed.

Lemma events_truncate_lines_small (dialogue : list json) :
  Forall (λ r, is_record r = true) dialogue →
  Forall (λ r, text_len r ≤ per) dialogue →
  ∀ i total_chars,
    events (truncate_lines py_str per i dialogue total_chars) = [].
Proof.
  intros Hd Hs. induction Hd as [|line rest Hr Hrest IH]; intros i total_chars.
  - done.
  - apply Forall_cons in Hs as [Hl Hs].
    destruct (is_record_inv line Hr) as (d & t & -> & Ht).
    assert (Hlen : length t ≤ per).
    { unfold text_len, text_of in Hl. by rewrite Ht in Hl. }
    cbn [truncate_lines]. unfold get. rewrite Ht. cbn [from_option id].
    estep. unfold len. estep.
    destruct (Nat.ltb_spec per (length t)); [lia|].
    rewrite events_bind, (IH Hs).
    rewrite (truncate_lines_spec py_str per rest) by done. done.
Qed.

(** X9.  A dialogue within the budget passes unchanged.  When no text is
    longer than the per-line limit and the texts add up to at most the total
    limit, the validation returns the dialogue as it is and prints one line,
    the statistics, and no warning. *)
Theorem validate_within_budget (dialogue : list json) :
  Forall (λ r, is_record r = true) dialogue →
  Forall (λ r, text_len r ≤ per) dialogue →
  total_len dialogue ≤ total →
  outcome (validate dialogue) = inr dialogue
  ∧ writes (events (validate dialogue))
    = [u "  📊  Script: " ++ str_of_nat (length dialogue) ++ u " lines, "
       ++ str_of_nat_comma (total_len dialogue) ++ u " total characters";
       [10%N]].
Proof.
  intros Hd Hs Ht. split.
  - rewrite validate_spec by done. f_equal. by apply enforce_within.
  - unfold Scriptwriter.validate. rewrite events_bind.
    rewrite truncate_lines_spec by done.
    rewrite events_truncate_lines_small by done.
    rewrite truncate_small by done. cbn [app].
    rewrite events_bind. rewrite outcome_print.
    destruct (Nat.ltb_spec total (0 + total_len dialogue)); [lia|].
    done.
Qed.

Lemma dict_set_keys {V} (k : str) (v : V) (d : list (str * V)) :
  is_Some (dict_get k d) → (dict_set k v d).*1 = d.*1.
Proof.
  induction d as [|[k' v'] d IH]; simpl; [by intros [? ?]|].
  destruct (decide (k = k')) as [->|]; [done|].
  intros H. simpl. f_equal. by apply IH.
Qed.

Lemma dict_get_set_ne {V} (k k' : str) (v : V) (d : list (str * V)) :
  k' ≠ k → dict_get k' (dict_set k v d) = dict_get k' d.
Proof.
  intros Hne. induction d as [|[k0 v0] d IH]; simpl.
  - by rewrite decide_False.
  - destruct (decide (k = k0)) as [->|]; simpl.
    + by rewrite !decide_False.
    + destruct (decide (k' = k0)); [done|apply IH].
Qed.

Lemma truncate_record_fields r :
  is_record r = true →
  text_of (truncate_record per r) = take per (text_of r)
  ∧ (fields (truncate_record per r)).*1 = (fields r).*1
  ∧ ∀ k, k ≠ u "text" →
      dict_get k (fields (truncate_record per r)) = dict_get k (fields r).
Proof.
  intros Hr. unfold truncate_record.
  destruct (Nat.ltb_spec per (text_len r)) as [Hlt|Hge].
  - rewrite text_of_with_text by done.
    destruct (is_record_inv r Hr) as (d & t & -> & Ht). simpl.
    split_and!; [done| |].
    + apply dict_set_keys. by rewrite Ht.
    + intros k Hk. by apply dict_get_set_ne.
  - split_and!; try done. rewrite take_ge; [done|]. by unfold text_len in Hge.
Qed.

(** X10.  The validation only cuts texts.  The line returned at a position is
    the line the model gave at that position with its text cut to the
    per-line limit: the same keys in the same order, and every field other
    than [text] (the speaker among them) untouched. *)
Theorem validate_keeps_fields (dialogue out : list json) (i : nat) (r' : json) :
  Forall (λ r, is_record r = true) dialogue →
  outcome (validate dialogue) = inr out → out !! i = Some r' →
  ∃ r, dialogue !! i = Some r
       ∧ text_of r' = take per (text_of r)
       ∧ (fields r').*1 = (fields r).*1
       ∧ ∀ k, k ≠ u "text" → dict_get k (fields r') = dict_get k (fields r).
Proof.
  intros Hd Hv Hi. rewrite validate_spec in Hv by done. injection Hv as <-.
  unfold enforce in Hi.
  pose proof (walk_prefix total (truncate_record per <$> dialogue) 0) as Hp.
  pose proof (prefix_lookup_Some _ _ _ _ Hi Hp) as Hi'.
  rewrite list_lookup_fmap in Hi'.
  destruct (dialogue !! i) as [r|] eqn:Er; [|done]. injection Hi' as <-.
  exists r. split; [done|]. apply truncate_record_fields.
  rewrite Forall_forall in Hd. apply Hd. by eapply list_elem_of_lookup_2.
Qed.

(** X11.  The first line is always kept.  When the per-line limit is not
    above the total limit, as with the constants of [config.py], a dialogue
    that is not empty is not trimmed to nothing: its first line, cut to the
    per-line limit, is returned. *)
Theorem validate_keeps_first (r : json) (rest : list json) :
  Forall (λ r, is_record r = true) (r :: rest) → per ≤ total →
  ∃ out, outcome (validate (r :: rest)) = inr (truncate_record per r :: out).
Proof.
  intros Hd Hle. rewrite validate_spec by done.
  apply Forall_cons in Hd as [Hr _].
  unfold enforce. rewrite fmap_cons. cbn [walk].
  pose proof (text_len_truncate per r Hr) as Hlen.
  destruct (Nat.leb_spec (0 + text_len (truncate_record per r)) total);
    [by eexists|lia].
Qed.

Lemma truncate_lines_app_inl (good suffix : list json) (e : exn) :
  Forall (λ r, is_record r = true) good →
  (∀ i total_chars,
     outcome (truncate_lines py_str per i suffix total_chars) = inl e) →
  ∀ i total_chars,
    outcome (truncate_lines py_str per i (good ++ suffix) total_chars) = inl e.
Proof.
  intros Hg Hs. induction Hg as [|line rest Hr _ IH]; intros i total_chars.
  - apply Hs.
  - destruct (is_record_inv line Hr) as (d & t & -> & Ht).
    cbn [app truncate_lines]. mstep.
    unfold get at 1. mstep. unfold get. rewrite Ht. cbn [from_option id].
    mstep. unfold len. mstep.
    destruct (per <? length t).
    + mstep. unfold slice_to, setitem. mstep. by rewrite IH.
    + mstep. by rewrite IH.
Qed.

(** X12.  A line that is no dictionary.  When the array the model returned
    holds something other than a dictionary (a string, a number, a list,
    null) after lines that are in order, the validation raises the
    [AttributeError] of the call [line.get], whatever follows that line. *)
Theorem validate_rejects_non_dict (good rest : list json) (bad : json) :
  Forall (λ r, is_record r = true) good →
  (∀ d, bad ≠ JObj d) →
  outcome (validate (good ++ bad :: rest))
  = inl (AttributeError
           (u "'" ++ type_name bad ++ u "' object has no attribute 'get'")).
Proof.
  intros Hg Hbad. unfold Scriptwriter.validate. mstep.
  rewrite (truncate_lines_app_inl good (bad :: rest)
             (AttributeError (u "'" ++ type_name bad
                              ++ u "' object has no attribute 'get'")));
    [done|done|].
  intros i total_chars. cbn [truncate_lines]. mstep.
  destruct bad; try done. by destruct (Hbad members).
Qed.

Lemma is_record_is_line r : is_record r = true → is_line r = true.
Proof.
  intros (d & t & -> & Ht)%is_record_inv. unfold is_line. by rewrite Ht.
Qed.

Lemma is_line_inv r :
  is_line r = true →
  is_record r = true ∨ ∃ d, r = JObj d ∧ dict_get (u "text") d = None.
Proof.
  destruct r as [| | | | | |d]; try done. unfold is_line, is_record.
  destruct (dict_get (u "text") d) as [[]|] eqn:E; try done; eauto.
Qed.

Lemma truncate_record_no_text d :
  dict_get (u "text") d = None →
  truncate_record per (JObj d) = JObj d ∧ text_len (JObj d) = 0.
Proof.
  intros Hd. unfold truncate_record, text_len, text_of. rewrite Hd. simpl.
  by destruct per.
Qed.

(** The first loop on lines some of which have no text. *)
Lemma truncate_lines_lines (dialogue : list json) :
  Forall (λ r, is_line r = true) dialogue →
  ∀ i total_chars,
    outcome (truncate_lines py_str per i dialogue total_chars)
    = inr (truncate_record per <$> dialogue,
           total_chars + total_len (truncate_record per <$> dialogue)).
Proof.
  induction 1 as [|line rest Hl _ IH]; intros i total_chars.
  - simpl. mstep. do 2 f_equal. unfold total_len. simpl. lia.
  - destruct (is_line_inv line Hl) as [Hr|(d & -> & Hd)].
    + pose proof (text_len_truncate per line Hr) as Hlen.
      destruct (is_record_inv line Hr) as (d & t & -> & Ht).
      assert (Hlt : text_len (JObj d) = length t)
        by (unfold text_len, text_of; by rewrite Ht).
      assert (Htr : truncate_record per (JObj d)
                    = if per <? length t
                      then JObj (dict_set (u "text") (JStr (take per t)) d)
                      else JObj d).
      { unfold truncate_record. rewrite Hlt. unfold text_of. by rewrite Ht. }
      rewrite fmap_cons, total_len_cons, Hlen, Hlt, Htr.
      cbn [truncate_lines]. mstep.
      unfold get at 1. mstep. unfold get. rewrite Ht. cbn [from_option id].
      mstep. unfold len. mstep.
      destruct (Nat.ltb_spec per (length t)) as [Hlt'|Hge].
      * mstep. unfold slice_to, setitem. mstep. rewrite IH. mstep.
        do 2 f_equal. lia.
      * mstep. rewrite IH. mstep. do 2 f_equal. lia.
    + destruct (truncate_record_no_text d Hd) as [Htr Hlen].
      rewrite fmap_cons, total_len_cons, Htr, Hlen.
      cbn [truncate_lines]. mstep.
      unfold get at 1. mstep. unfold get. rewrite Hd. cbn [from_option id].
      mstep. unfold len. mstep. cbn [length].
      destruct (Nat.ltb_spec per 0); [lia|].
      mstep. rewrite IH. mstep. do 2 f_equal. lia.
Qed.

Lemma trim_app (fits suffix trimmed : list json) (running : nat) :
  Forall (λ r, is_record r = true) fits →
  running + total_len fits ≤ total →
  outcome (trim total (fits ++ suffix) trimmed running)
  = outcome (trim total suffix (trimmed ++ fits) (running + total_len fits)).
Proof.
  intros Hf. revert trimmed running.
  induction Hf as [|line rest Hr _ IH]; intros trimmed running Hfit.
  - rewrite app_nil_r. unfold total_len. simpl. by rewrite Nat.add_0_r.
  - rewrite total_len_cons in Hfit.
    destruct (is_record_inv line Hr) as (d & t & -> & Ht).
    assert (Hl : text_len (JObj d) = length t)
      by (unfold text_len, text_of; by rewrite Ht).
    cbn [app trim]. mstep. unfold getitem. rewrite Ht. mstep.
    unfold len. mstep.
    destruct (Nat.ltb_spec total (running + length t)); [lia|].
    rewrite IH by lia. rewrite <- app_assoc, total_len_cons, Hl.
    by rewrite Nat.add_assoc.
Qed.

(** X13.  A line without text.  A line that has no [text] key counts as empty
    in the first loop, so a dialogue that fits the total limit is returned
    with such lines in it; but when the dialogue is over the limit and the
    trimming reaches such a line, the lookup [line["text"]] raises
    [KeyError]. *)
Theorem validate_missing_text (dialogue : list json) :
  Forall (λ r, is_line r = true) dialogue →
  (total_len (truncate_record per <$> dialogue) ≤ total →
   outcome (validate dialogue) = inr (truncate_record per <$> dialogue))
  ∧ (∀ fits d rest,
       dialogue = fits ++ JObj d :: rest →
       Forall (λ r, is_record r = true) fits →
       dict_get (u "text") d = None →
       total_len (truncate_record per <$> fits) ≤ total →
       total < total_len (truncate_record per <$> dialogue) →
       outcome (validate dialogue) = inl (KeyError (u "text"))).
Proof.
  intros Hd. split.
  - intros Hfit. unfold Scriptwriter.validate. mstep.
    rewrite truncate_lines_lines by done. mstep.
    destruct (Nat.ltb_spec total
                (0 + total_len (truncate_record per <$> dialogue)));
      [lia|]. by mstep.
  - intros fits d rest -> Hf Hno Hfit Hover.
    unfold Scriptwriter.validate. mstep.
    rewrite truncate_lines_lines by done. mstep.
    destruct (Nat.ltb_spec total
                (0 + total_len (truncate_record per
                                  <$> fits ++ JObj d :: rest)));
      [|lia].
    mstep. rewrite fmap_app, fmap_cons.
    rewrite trim_app; [|apply Forall_fmap; eapply Forall_impl; [exact Hf|];
                        intros r Hr; by apply is_record_truncate|lia].
    destruct (truncate_record_no_text d Hno) as [-> _].
    cbn [trim]. mstep. unfold getitem. rewrite Hno. by mstep.
Qed.

End BudgetMore.

Section WriteScriptBudget.

Import Scriptwriter Budget LineSpec Config.

Variable py_str : json → str.
Variable limits : str → option exn.
Variable call_pro : str → str → list str * (exn + str).
Variable _SYSTEM_PROMPT : str.

Local Abbreviation write_script :=
  (write_script py_str MAX_SCRIPT_CHARS MAX_CHARS_PER_LINE limits call_pro
     _SYSTEM_PROMPT).

(** X14.  The script fits the budget of [config.py].  With the limits of the
    configuration, 2400 characters a line and 8000 in all: when the model
    answers with a text from which an array of records is extracted,
    [write_script] returns a list of lines none longer than 2400 characters,
    together at most 8000 characters long, and not empty unless the array
    was; when the call of the model raises, [write_script] raises the
    same; and when the extractor raises, [write_script] raises the same,
    which is the [ValueError] of the extractor when its three attempts
    failed, and otherwise the exception of [json.loads] (a nesting too deep,
    an integer too long) that one of its attempts did not catch. *)
Theorem write_script_within_budget (topic report : str) :
  let user_prompt :=
    u "Topic: " ++ topic ++ [10%N; 10%N]
    ++ u "Research Report:" ++ [10%N] ++ report ++ [10%N; 10%N]
    ++ u "Now write the podcast script as a JSON array." in
  match (call_pro _SYSTEM_PROMPT user_prompt).2 with
  | inl e => outcome (write_script topic report) = inl e
  | inr raw =>
      match _extract_json limits raw with
      | inl e =>
          outcome (write_script topic report) = inl e
          ∧ ((ExtractSpec.direct_fails limits raw
              ∧ ExtractSpec.fence_fails limits raw
              ∧ ExtractSpec.bracket_fails limits raw
              ∧ e = ValueError
                      (u "Could not extract valid JSON dialogue from LLM response."))
             ∨ ExtractSpec.escapes limits raw e)
      | inr v =>
          ∃ items, v = JArr items
            ∧ (Forall (λ r, is_record r = true) items →
               ∃ dialogue,
                 outcome (write_script topic report) = inr (JArr dialogue)
                 ∧ Forall (λ r, text_len r ≤ MAX_CHARS_PER_LINE) dialogue
                 ∧ total_len dialogue ≤ MAX_SCRIPT_CHARS
                 ∧ (items ≠ [] → dialogue ≠ []))
      end
  end.
Proof.
  intros user_prompt.
  destruct (call_pro _SYSTEM_PROMPT user_prompt) as [out [e|raw]] eqn:Ec;
    cbn [snd].
  { unfold Scriptwriter.write_script. fold user_prompt. mstep.
    rewrite Ec. done. }
  destruct (_extract_json limits raw) as [e|v] eqn:Ex.
  { split.
    - unfold Scriptwriter.write_script. fold user_prompt. mstep.
      rewrite Ec. cbn [outcome snd]. mstep. by rewrite Ex.
    - by apply _extract_json_raises. }
  destruct (_extract_json_list limits raw v Ex) as [items ->].
  exists items. split; [done|]. intros Hrec.
  exists (enforce items MAX_CHARS_PER_LINE MAX_SCRIPT_CHARS).
  split.
  { apply (write_script_outcome py_str MAX_SCRIPT_CHARS MAX_CHARS_PER_LINE
             limits call_pro _SYSTEM_PROMPT topic report raw items);
      [|done|done].
    fold user_prompt. by rewrite Ec. }
  destruct (enforce_bounds MAX_SCRIPT_CHARS MAX_CHARS_PER_LINE items Hrec)
    as [Hb Ht].
  split_and!; try done.
  intros Hne. destruct items as [|r rest]; [done|].
  apply Forall_cons in Hrec as [Hr _].
  unfold enforce. rewrite fmap_cons. cbn [walk].
  pose proof (text_len_truncate MAX_CHARS_PER_LINE r Hr) as Hlen.
  destruct (Nat.leb_spec (0 + text_len (truncate_record MAX_CHARS_PER_LINE r))
              MAX_SCRIPT_CHARS) as [|Hgt]; [done|].
  assert (MAX_CHARS_PER_LINE ≤ MAX_SCRIPT_CHARS)
    by (apply Nat.leb_le; vm_compute; reflexivity).
  lia.
Qed.

End WriteScriptBudget.

(** ** What the extractors return *)

Section ExtractorResults.

Import Scriptwriter.

Variable limits : str → option exn.
Variable py_str : json → str.

(** X15.  The extractors return lists.  Whatever text the model answered
    with, a value that [_extract_json] or [_extract_queries] returns is a
    list: a JSON object, string or number in the answer, bare or fenced, is
    never handed on. *)
Theorem extractors_return_lists (raw : str) (v : json) :
  _extract_json limits raw = inr v
  ∨ _extract_queries limits py_str raw = inr v →
  ∃ items, v = JArr items.
Proof.
  intros [H|H].
  - by apply _extract_json_list in H.
  - by apply _extract_queries_list in H.
Qed.

End ExtractorResults.

(** ** The research agent *)

Section ResearchFacts.

Import Scriptwriter PyMore Researcher AgentSpec.

Lemma first_occurrences_elem (l : list str) (x : str) :
  x ∈ first_occurrences l ↔ x ∈ l.
Proof.
  induction l as [|y l IH]; simpl; [done|].
  rewrite !elem_of_cons, list_elem_of_filter, IH.
  destruct (decide (x = y)); tauto.
Qed.

Lemma first_occurrences_NoDup (l : list str) : NoDup (first_occurrences l).
Proof.
  induction l as [|y l IH]; simpl; [constructor|].
  constructor; [|by apply NoDup_filter].
  rewrite list_elem_of_filter. by intros [? _].
Qed.

(** The inner loop appends, in order, the URLs that are new. *)
Lemma add_urls_spec (urls : list str) : ∀ (seen : gset str) (all_urls : list str),
  (∀ x, x ∈ seen ↔ x ∈ all_urls) →
  let '(seen', all_urls') := add_urls urls seen all_urls in
  (∀ x, x ∈ seen' ↔ x ∈ all_urls')
  ∧ all_urls'
    = all_urls ++ filter (λ y, y ∉ all_urls) (first_occurrences urls).
Proof.
  induction urls as [|url rest IH]; intros seen all_urls Hseen.
  - simpl. by rewrite app_nil_r.
  - simpl. destruct (decide (url ∈ seen)) as [Hin|Hnin].
    + specialize (IH seen all_urls Hseen).
      destruct (add_urls rest seen all_urls) as [seen' all_urls'].
      destruct IH as [IH1 IH2]. split; [done|]. rewrite IH2. f_equal.
      rewrite filter_cons, decide_False by (rewrite <- Hseen; auto).
      rewrite list_filter_filter. apply list_filter_iff.
      intros y. split; [|by intros [? _]]. intros Hy. split; [done|].
      intros ->. apply Hy. by apply Hseen.
    + assert (Hseen' : ∀ x, x ∈ {[url]} ∪ seen ↔ x ∈ all_urls ++ [url]).
      { intros x. rewrite elem_of_union, elem_of_singleton, elem_of_app,
          list_elem_of_singleton, Hseen. tauto. }
      specialize (IH _ _ Hseen').
      destruct (add_urls rest ({[url]} ∪ seen) (all_urls ++ [url]))
        as [seen' all_urls'].
      destruct IH as [IH1 IH2]. split; [done|]. rewrite IH2.
      rewrite <- app_assoc. f_equal.
      rewrite filter_cons, decide_True by (rewrite <- Hseen; auto).
      cbn [app]. f_equal. rewrite list_filter_filter.
      apply list_filter_iff. intros y.
      rewrite elem_of_app, list_elem_of_singleton. tauto.
Qed.

Lemma filter_all {A} (P : A → Prop) `{∀ x, Decision (P x)} (l : list A) :
  (∀ x, P x) → filter P l = l.
Proof.
  intros HP. induction l as [|x l IH]; [done|].
  by rewrite filter_cons_True, IH.
Qed.

Lemma first_occurrences_app (a b : list str) :
  first_occurrences (a ++ b)
  = first_occurrences a ++ filter (λ y, y ∉ a) (first_occurrences b).
Proof.
  induction a as [|x a IH]; simpl.
  - symmetry. apply filter_all. intros y. apply not_elem_of_nil.
  - f_equal. rewrite IH, filter_app. f_equal.
    rewrite list_filter_filter. apply list_filter_iff. intros y.
    rewrite not_elem_of_cons. tauto.
Qed.

Section Gather.

Variable search : json → M (list str).

Lemma gather_spec (queries : list json) (found : list (list str)) :
  Forall2 (λ q urls, outcome (search q) = inr urls) queries found →
  ∀ (seen : gset str) (all_urls : list str),
    (∀ x, x ∈ seen ↔ x ∈ all_urls) →
    outcome (gather search queries seen all_urls)
    = inr (all_urls
           ++ filter (λ y, y ∉ all_urls) (first_occurrences (concat found))).
Proof.
  induction 1 as [|q urls queries found Hq _ IH]; intros seen all_urls Hseen.
  - simpl. by rewrite app_nil_r.
  - cbn [gather concat]. rewrite outcome_bind, Hq.
    pose proof (add_urls_spec urls seen all_urls Hseen) as Hadd.
    destruct (add_urls urls seen all_urls) as [seen' all_urls'].
    destruct Hadd as [Hseen' ->]. rewrite (IH _ _ Hseen').
    f_equal. rewrite <- app_assoc. f_equal.
    rewrite first_occurrences_app, filter_app. f_equal.
    rewrite list_filter_filter. apply list_filter_iff. intros y.
    rewrite elem_of_app, list_elem_of_filter, first_occurrences_elem. tauto.
Qed.

Lemma gather_raises (ok : list json) (q : json) (rest : list json)
    (found : list (list str)) (e : exn) :
  Forall2 (λ q urls, outcome (search q) = inr urls) ok found →
  outcome (search q) = inl e →
  ∀ seen all_urls,
    outcome (gather search (ok ++ q :: rest) seen all_urls) = inl e.
Proof.
  induction 1 as [|q0 urls ok found Hq _ IH]; intros He seen all_urls.
  - cbn [app gather]. by rewrite outcome_bind, He.
  - cbn [app gather]. rewrite outcome_bind, Hq.
    destruct (add_urls urls seen all_urls) as [seen' all_urls'].
    by apply IH.
Qed.

End Gather.

Section ResearchTheorem.

Variable float_is_zero : str → bool.
Variable client : Type.
Variable _get_apify : exn + client.
Variable actor_call :
  client → str → json → nat → list str * (exn + option json).
Variable dataset_items : client → json → list str * (exn + list json).
Variable search : json → M (list str).

Local Abbreviation _crawl_urls :=
  (_crawl_urls float_is_zero client _get_apify actor_call dataset_items).
Local Abbreviation research :=
  (research float_is_zero client _get_apify actor_call dataset_items search).

(** X16.  The URLs to crawl.  When every search succeeds, [research] hands
    to the crawler each URL found, once, where it was found first: the list
    has no URL twice, holds exactly the URLs some search returned, and
    keeps the order of their first occurrences; [research] then returns or
    raises what the crawler and the count of the characters do.  When a
    search raises, [research] raises the same and nothing is crawled. *)
Theorem research_crawls_first_occurrences (queries : list json)
    (found : list (list str)) :
  Forall2 (λ q urls, outcome (search q) = inr urls) queries found →
  let all_urls := first_occurrences (concat found) in
  outcome (gather search queries ∅ []) = inr all_urls
  ∧ NoDup all_urls
  ∧ (∀ url, url ∈ all_urls ↔ url ∈ concat found)
  ∧ outcome (research (JArr queries))
    = outcome (results ← _crawl_urls all_urls;
               sum_text_len results;;
               mret results)
  ∧ ∀ q rest e, outcome (search q) = inl e →
      outcome (research (JArr (queries ++ q :: rest))) = inl e.
Proof.
  intros Hf all_urls.
  assert (Hg : outcome (gather search queries ∅ []) = inr all_urls).
  { rewrite (gather_spec search queries found Hf ∅ []).
    - cbn [app]. f_equal. apply filter_all.
      intros y. apply not_elem_of_nil.
    - intros x. rewrite elem_of_empty. split; [done|].
      intros H. by apply not_elem_of_nil in H. }
  split_and!; try done.
  - apply first_occurrences_NoDup.
  - intros url. apply first_occurrences_elem.
  - unfold Researcher.research. mstep. cbn [iter]. mstep.
    rewrite Hg. mstep.
    destruct (outcome (_crawl_urls all_urls)) as [e|results]; [done|].
    mstep. destruct (outcome (sum_text_len results)); [done|]. by mstep.
  - intros q rest e He. unfold Researcher.research. mstep. cbn [iter]. mstep.
    by rewrite (gather_raises search queries q rest found e Hf He).
Qed.

End ResearchTheorem.

End ResearchFacts.

(** ** The crawler and the summarizer *)

Section CrawlFacts.

Import Scriptwriter PyMore Researcher Summarizer AgentSpec.

Variable py_str : json → str.
Variable float_is_zero : str → bool.
Variable client : Type.
Variable _get_apify : exn + client.
Variable actor_call :
  client → str → json → nat → list str * (exn + option json).
Variable dataset_items : client → json → list str * (exn + list json).

Local Abbreviation crawl_record := (crawl_record float_is_zero).
Local Abbreviation crawl_records := (crawl_records float_is_zero).
Local Abbreviation _crawl_urls :=
  (_crawl_urls float_is_zero client _get_apify actor_call dataset_items).

Lemma truncated_mark_length : length truncated_mark = 17.
Proof. reflexivity. Qed.

Lemma cut_length (k : nat) (s : str) :
  length (take k s ++ truncated_mark) ≤ k + 17.
Proof. rewrite length_app, length_take, truncated_mark_length. lia. Qed.

Lemma crawl_record_shape (item r : json) :
  outcome (crawl_record item) = inr r → is_research_record r.
Proof.
  intros H. unfold Researcher.crawl_record in H.
  apply outcome_bind_inr in H as (text0 & _ & H).
  apply outcome_bind_inr in H as (text1 & _ & H).
  apply outcome_bind_inr in H as (n & Hn & H).
  apply outcome_bind_inr in H as (text2 & H2 & H).
  apply outcome_bind_inr in H as (url & _ & H).
  apply outcome_bind_inr in H as (metadata & _ & H).
  apply outcome_bind_inr in H as (default & _ & H).
  apply outcome_bind_inr in H as (title & _ & H).
  injection H as <-. exists url, title, text2. split; [done|].
  intros t ->. rewrite outcome_lift in Hn.
  change 15017 with (15000 + 17).
  destruct (Nat.ltb_spec 15000 n) as [Hlt|Hge].
  - apply outcome_bind_inr in H2 as (cut & Hcut & H2).
    rewrite outcome_lift in Hcut. rewrite outcome_lift in H2.
    destruct text1; try done; simpl in Hcut; injection Hcut as <-;
      simpl in H2; [|done].
    injection H2 as <-. apply (cut_length 15000 s).
  - injection H2 as ->. simpl in Hn. injection Hn as <-. lia.
Qed.

Lemma crawl_records_shape (dataset : list json) :
  ∀ results out,
    Forall is_research_record results →
    outcome (crawl_records dataset results) = inr out →
    Forall is_research_record out
    ∧ length out = length results + length dataset.
Proof.
  induction dataset as [|item rest IH]; intros results out Hr H.
  - injection H as <-. split; [done|]. simpl. lia.
  - cbn [Researcher.crawl_records] in H.
    apply outcome_bind_inr in H as (r & Hrec & H).
    apply IH in H as [H1 H2].
    + split; [done|]. rewrite H2, length_app. simpl. lia.
    + apply Forall_app. split; [done|]. constructor; [|done].
      by eapply crawl_record_shape.
Qed.

Lemma _crawl_urls_shape (urls : list str) (results : list json) :
  outcome (_crawl_urls urls) = inr results →
  Forall is_research_record results.
Proof.
  intros H. destruct urls as [|url urls]; [by injection H as <-|].
  unfold Researcher._crawl_urls in H.
  apply outcome_bind_inr in H as (? & _ & H).
  apply outcome_bind_inr in H as (c & _ & H).
  apply outcome_bind_inr in H as (run & _ & H).
  destruct run as [run|].
  - apply outcome_bind_inr in H as (id & _ & H).
    apply outcome_bind_inr in H as (dataset & _ & H).
    apply outcome_bind_inr in H as (out & Hout & H).
    apply outcome_bind_inr in H as (? & _ & H).
    injection H as <-.
    by apply crawl_records_shape in Hout as [? _].
  - apply outcome_bind_inr in H as (? & _ & H). by injection H as <-.
Qed.

Lemma research_record_keys r : is_research_record r → has_source_keys r.
Proof.
  intros (url & title & text & -> & _). eexists. split; [done|].
  split_and!; vm_compute; eauto.
Qed.

Lemma format_parts_ok (items : list json) :
  Forall has_source_keys items →
  ∀ i parts, ∃ out,
    format_parts py_str i items parts = ([], inr out)
    ∧ length out = length parts + length items.
Proof.
  induction 1 as [|item rest (d & -> & [url Hu] & [title Ht] & [text Hx]) _ IH];
    intros i parts.
  - exists parts. split; [done|]. simpl. lia.
  - cbn [format_parts]. unfold getitem. rewrite Hu, Ht, Hx.
    destruct (IH (S i)
                (parts ++ [u "--- Source " ++ str_of_nat i ++ u " ---"
                           ++ [10%N] ++ u "URL: " ++ py_str url ++ [10%N]
                           ++ u "Title: " ++ py_str title ++ [10%N; 10%N]
                           ++ py_str text ++ [10%N]]))
      as (out & Hout & Hlen).
    exists out. split.
    + unfold lift, mbind, M_bind, bind. cbn beta iota. by rewrite Hout.
    + rewrite Hlen, length_app. simpl. lia.
Qed.

Lemma format_parts_missing (good : list json) (d : list (str * json))
    (rest : list json) (k : str) :
  Forall has_source_keys good → first_missing d = Some k →
  ∀ i parts,
    format_parts py_str i (good ++ JObj d :: rest) parts
    = ([], inl (KeyError k)).
Proof.
  intros Hg Hk.
  induction Hg as [|item good (d0 & -> & [url Hu] & [title Ht] & [text Hx]) _ IH];
    intros i parts.
  - cbn [app format_parts]. unfold getitem, first_missing in *.
    destruct (dict_get (u "url") d); [|by injection Hk as <-].
    destruct (dict_get (u "title") d); [|by injection Hk as <-].
    destruct (dict_get (u "text") d); [done|by injection Hk as <-].
  - cbn [app format_parts]. unfold getitem. rewrite Hu, Ht, Hx.
    unfold lift, mbind, M_bind, bind. cbn beta iota. by rewrite IH.
Qed.

(** X17.  The records of the crawler.  The crawler returns nothing, prints
    nothing and does not ask for the client when it is given no URL.
    Whatever it returns is a list of dictionaries with exactly the keys
    [url], [title] and [text], a text that is a string having at most
    15000 characters and the 17 of the truncation mark; so the summarizer
    finds the three keys it reads in every record, and its
    [_format_research] does not raise on them. *)
Theorem crawl_results (urls : list str) (results : list json) :
  outcome (_crawl_urls urls) = inr results →
  _crawl_urls [] = ([], inr [])
  ∧ Forall is_research_record results
  ∧ ∃ formatted, _format_research py_str results = ([], inr formatted).
Proof.
  intros H. split; [done|].
  pose proof (_crawl_urls_shape urls results H) as Hshape.
  split; [done|].
  destruct (format_parts_ok results) with (i := 1) (parts := @nil str)
    as (out & Hout & _).
  { eapply Forall_impl; [exact Hshape|]. apply research_record_keys. }
  unfold _format_research. rewrite Hout. by eexists.
Qed.

(** X18.  The sources of the prompt.  [_format_research] prints nothing.  It
    returns a text when every item has the keys [url], [title] and [text],
    and at the first item that lacks one of them it raises [KeyError] for
    the first of the three, in this order, that is missing. *)
Theorem format_research_keys (research_data : list json) :
  (Forall has_source_keys research_data →
   ∃ formatted, _format_research py_str research_data = ([], inr formatted))
  ∧ (∀ good d rest k,
       research_data = good ++ JObj d :: rest →
       Forall has_source_keys good → first_missing d = Some k →
       _format_research py_str research_data = ([], inl (KeyError k))).
Proof.
  split.
  - intros H.
    destruct (format_parts_ok research_data H 1 []) as (out & Hout & _).
    unfold _format_research. rewrite Hout. by eexists.
  - intros good d rest k -> Hg Hk. unfold _format_research.
    by rewrite (format_parts_missing good d rest k Hg Hk).
Qed.

End CrawlFacts.

Section SummariseFacts.

Import Scriptwriter PyMore Summarizer AgentSpec.

Variable py_str : json → str.
Variable call_pro : str → str → list str * (exn + str).
Variable _SYSTEM_PROMPT : str.

Local Abbreviation summarise := (summarise py_str call_pro _SYSTEM_PROMPT).

(** X19.  When the summarizer calls the model.  With no research data it
    prints its banner and a warning and returns the empty string.  With
    data that cannot be formatted it raises what the formatting raised,
    having printed only its banner.  In both cases the model is not called.
    Otherwise it calls the model once, with a prompt that names the topic
    and the number of articles and ends with the formatted data; it returns
    or raises what the call returned or raised, and prints the two closing
    lines only when the call returned. *)
Theorem summarise_calls_model (topic : str) (research_data : list json) :
  let banner := [10%N] ++ u "📝  SUMMARIZER AGENT — Synthesising research …" in
  (research_data = [] →
   outcome (summarise topic research_data) = inr []
   ∧ writes (events (summarise topic research_data))
     = [banner; [10%N];
        u "  ⚠️  No research data provided. Returning empty summary.";
        [10%N]])
  ∧ (∀ e, research_data ≠ [] →
       _format_research py_str research_data = ([], inl e) →
       outcome (summarise topic research_data) = inl e
       ∧ writes (events (summarise topic research_data)) = [banner; [10%N]])
  ∧ (∀ formatted, research_data ≠ [] →
       _format_research py_str research_data = ([], inr formatted) →
       let user_prompt :=
         u "Topic: " ++ topic ++ [10%N; 10%N]
         ++ u "Below are " ++ str_of_nat (length research_data)
         ++ u " scraped web articles. "
         ++ u "Synthesise them into a comprehensive research report."
         ++ [10%N; 10%N] ++ formatted in
       outcome (summarise topic research_data)
       = (call_pro _SYSTEM_PROMPT user_prompt).2
       ∧ writes (events (summarise topic research_data))
         = [banner; [10%N]] ++ (call_pro _SYSTEM_PROMPT user_prompt).1
           ++ match (call_pro _SYSTEM_PROMPT user_prompt).2 with
              | inl _ => []
              | inr report =>
                  [u "  ✅  Report generated — "
                   ++ str_of_nat_comma (length report) ++ u " characters";
                   [10%N];
                   u "📝  SUMMARIZER AGENT — Complete." ++ [10%N]; [10%N]]
              end).
Proof.
  intros banner. split_and!.
  - by intros ->.
  - intros e Hne He. destruct research_data as [|item rest]; [done|].
    unfold Summarizer.summarise. fold banner. rewrite He.
    split; reflexivity.
  - intros formatted Hne Hf user_prompt.
    destruct research_data as [|item rest]; [done|].
    unfold Summarizer.summarise. fold banner. rewrite Hf.
    rewrite outcome_bind, outcome_print, events_print_bind.
    rewrite outcome_bind, events_lift_inr'.
    change (outcome (@pair (list event) (exn + str) [] (inr formatted)))
      with (@inr exn str formatted).
    cbv beta iota. fold user_prompt.
    rewrite outcome_bind, events_bind, outcome_extern.
    destruct (call_pro _SYSTEM_PROMPT user_prompt) as [out [e|report]];
      cbn [fst snd].
    + split; [done|].
      change (events (extern (out, inl e))) with (Write <$> out).
      change (writes (Write banner :: Write [10%N] :: (Write <$> out)))
        with (banner :: [10%N] :: writes (Write <$> out)).
      by rewrite writes_Write, app_nil_r.
    + split; [done|].
      change (events (extern (out, inr report))) with (Write <$> out).
      rewrite !events_print_bind, events_ret.
      change (writes (Write banner :: Write [10%N] :: ?l))
        with (banner :: [10%N] :: writes l).
      by rewrite writes_app, writes_Write.
Qed.

End SummariseFacts.

(** ** The search *)

Section SearchFacts.

Import Scriptwriter PyMore Researcher AgentSpec.

Variable py_repr : json → str.
Variable float_is_zero : str → bool.
Variable client : Type.
Variable _get_apify : exn + client.
Variable actor_call :
  client → str → json → nat → list str * (exn + option json).
Variable dataset_items : client → json → list str * (exn + list json).

Local Abbreviation result_urls := (result_urls float_is_zero).
Local Abbreviation item_urls := (item_urls float_is_zero).
Local Abbreviation _search_google :=
  (_search_google py_repr float_is_zero client _get_apify actor_call
     dataset_items).

Lemma result_urls_spec (results : list json) : ∀ urls out,
  outcome (result_urls results urls) = inr out →
  ∃ new, out = urls ++ new ∧ length new ≤ length results
         ∧ Forall (λ url, truthy float_is_zero url = true) new.
Proof.
  induction results as [|result rest IH]; intros urls out H.
  - injection H as <-. exists []. by rewrite app_nil_r.
  - cbn [Researcher.result_urls] in H.
    apply outcome_bind_inr in H as (url & _ & H).
    apply IH in H as (new & -> & Hlen & Ht).
    destruct (truthy float_is_zero url) eqn:E.
    + exists (url :: new). rewrite <- app_assoc. split; [done|].
      split; [simpl; lia|by constructor].
    + exists new. split; [done|]. split; [simpl; lia|done].
Qed.

Lemma iter_slice_length (organic first : json) (results : list json) :
  slice_to _TOP_RESULTS_PER_QUERY organic = inr first →
  iter first = inr results → length results ≤ 3.
Proof.
  intros Hs Hi. destruct organic; try done; simpl in Hs; injection Hs as <-;
    simpl in Hi; injection Hi as <-.
  - rewrite length_fmap, length_take. unfold _TOP_RESULTS_PER_QUERY. lia.
  - rewrite length_take. unfold _TOP_RESULTS_PER_QUERY. lia.
Qed.

Lemma item_urls_spec (dataset : list json) : ∀ urls out,
  outcome (item_urls dataset urls) = inr out →
  ∃ new, out = urls ++ new ∧ length new ≤ 3 * length dataset
         ∧ Forall (λ url, truthy float_is_zero url = true) new.
Proof.
  induction dataset as [|item rest IH]; intros urls out H.
  - injection H as <-. exists []. by rewrite app_nil_r.
  - cbn [Researcher.item_urls] in H.
    apply outcome_bind_inr in H as (organic & _ & H).
    apply outcome_bind_inr in H as (first & Hs & H).
    apply outcome_bind_inr in H as (results & Hi & H).
    apply outcome_bind_inr in H as (urls1 & Hr & H).
    rewrite outcome_lift in Hs. rewrite outcome_lift in Hi.
    pose proof (iter_slice_length _ _ _ Hs Hi) as Hlen.
    apply result_urls_spec in Hr as (new1 & -> & Hlen1 & Ht1).
    apply IH in H as (new & -> & Hlen2 & Ht).
    exists (new1 ++ new). rewrite app_assoc. split; [done|].
    split; [|by apply Forall_app].
    rewrite length_app. simpl. lia.
Qed.

(** X20.  The URLs of a search.  What [_search_google] returns holds only
    values that are true (no empty string, no [None]), at most three for
    each item of the dataset the search produced; and when the actor gives
    no run it returns the empty list. *)
Theorem search_results (query : json) (urls : list json) :
  outcome (_search_google query) = inr urls →
  Forall (λ url, truthy float_is_zero url = true) urls
  ∧ ∃ c run,
      _get_apify = inr c
      ∧ (actor_call c APIFY_GOOGLE_SEARCH
           (JObj [(u "queries", query);
                  (u "maxPagesPerQuery", JInt 1);
                  (u "resultsPerPage", JInt 3);
                  (u "languageCode", JStr (u "en"));
                  (u "countryCode", JStr (u "us"))]) 120).2 = inr run
      ∧ match run with
        | None => urls = []
        | Some run =>
            ∃ id dataset,
              getitem run (u "defaultDatasetId") = inr id
              ∧ (dataset_items c id).2 = inr dataset
              ∧ length urls ≤ 3 * length dataset
        end.
Proof.
  intros H. unfold Researcher._search_google in H.
  apply outcome_bind_inr in H as (? & _ & H).
  apply outcome_bind_inr in H as (c & Hc & H).
  apply outcome_bind_inr in H as (run & Hrun & H).
  rewrite outcome_lift in Hc. rewrite outcome_extern in Hrun.
  destruct run as [run|].
  - apply outcome_bind_inr in H as (id & Hid & H).
    apply outcome_bind_inr in H as (dataset & Hd & H).
    apply outcome_bind_inr in H as (out & Hout & H).
    apply outcome_bind_inr in H as (? & _ & H).
    injection H as <-. rewrite outcome_lift in Hid.
    rewrite outcome_extern in Hd.
    apply item_urls_spec in Hout as (new & -> & Hlen & Ht).
    split; [done|]. exists c, (Some run). split_and!; try done.
    by exists id, dataset.
  - apply outcome_bind_inr in H as (? & _ & H). injection H as <-.
    split; [done|]. by exists c, None.
Qed.

End SearchFacts.

(** ** The producer *)

Section ProducerFacts.

Import Scriptwriter Orchestrator PyMore Producer Budget AgentSpec.

Variable py_str : json → str.
Variable float_is_zero : str → bool.
Variable audio : Type.
Variable silent : nat → audio.
Variable empty : audio.
Variable audio_add : audio → audio → audio.
Variable audio_len : audio → nat.
Variable _generate_speech : json → str → list str * (exn + audio).
Variable export : audio → str → list str * (exn + ()).
Variable output_file : str → path.
Variable format_secs : nat → str.

Local Abbreviation speak :=
  (speak py_str audio silent audio_add _generate_speech).
Local Abbreviation produce :=
  (produce py_str float_is_zero audio silent empty audio_add audio_len
     _generate_speech export output_file format_secs).

Lemma voice_of_str (s : str) : ∃ voice_id, voice_of (JStr s) = inr voice_id.
Proof. unfold voice_of. repeat case_decide; eauto. Qed.

(** The loop on lines the speech service accepts. *)
Lemma speak_ok (limit : nat) (lines : list json) :
  Forall is_spoken_line lines →
  Forall (λ r, text_len r ≤ limit) lines →
  (∀ text voice_id, length text ≤ limit →
     ∃ segment, (_generate_speech (JStr text) voice_id).2 = inr segment) →
  ∀ i n combined total_chars_used, ∃ combined',
    outcome (speak i n lines combined total_chars_used)
    = inr (combined', total_chars_used + total_len lines).
Proof.
  intros Hl Hlen Htts.
  induction Hl as [|line rest (d & t & -> & Ht & Hs) _ IH];
    intros i n combined total_chars_used.
  - exists combined. simpl. unfold total_len. simpl. by rewrite Nat.add_0_r.
  - apply Forall_cons in Hlen as [Hlen1 Hlen].
    assert (Hlt : text_len (JObj d) = length t)
      by (unfold text_len, text_of; by rewrite Ht).
    rewrite Hlt in Hlen1.
    cbn [Producer.speak]. unfold get. rewrite Ht. cbn [from_option id].
    mstep.
    assert (∃ voice_id,
              voice_of (default (JStr (u "Host")) (dict_get (u "speaker") d))
              = inr voice_id) as [voice_id ->].
    { destruct (dict_get (u "speaker") d) as [[]|]; try done;
        apply voice_of_str. }
    mstep. unfold len, slice_to. mstep.
    rewrite outcome_extern.
    destruct (Htts t voice_id Hlen1) as [segment ->].
    destruct (IH Hlen (S i) n
                (audio_add combined (audio_add segment (silent _PAUSE_MS)))
                (total_chars_used + length t)) as [combined' ->].
    exists combined'. do 2 f_equal. rewrite total_len_cons, Hlt. lia.
Qed.

Lemma produce_returns (dialogue : json) (filename : str) (p : path) :
  outcome (produce dialogue filename) = inr p →
  p = output_file filename.
Proof.
  intros H. unfold Producer.produce in H.
  apply outcome_bind_inr in H as (? & _ & H).
  destruct (truthy float_is_zero dialogue); [|done].
  apply outcome_bind_inr in H as (lines & _ & H).
  apply outcome_bind_inr in H as (n & _ & H).
  apply outcome_bind_inr in H as ([combined total] & _ & H).
  apply outcome_bind_inr in H as (? & _ & H).
  apply outcome_bind_inr in H as (? & _ & H).
  apply outcome_bind_inr in H as (? & _ & H).
  apply outcome_bind_inr in H as (? & _ & H).
  by injection H as <-.
Qed.

(** X21.  The producer on a validated script.  Given no line the producer
    raises [ValueError] right after its banner.  Given lines whose texts
    are strings within a limit and whose speakers, if any, are strings, and
    a speech service that accepts every text within that limit, the
    producer speaks all of them and, the export succeeding, returns the
    path [OUTPUT_DIR / filename]. *)
Theorem produce_speaks_validated (limit : nat) (lines : list json)
    (filename : str) :
  Forall is_spoken_line lines →
  Forall (λ r, text_len r ≤ limit) lines →
  (∀ text voice_id, length text ≤ limit →
     ∃ segment, (_generate_speech (JStr text) voice_id).2 = inr segment) →
  (∀ combined p, (export combined p).2 = inr ()) →
  match lines with
  | [] =>
      produce (JArr []) filename
      = ([Write ([10%N] ++ u "🎧  PRODUCER AGENT — Generating audio …");
          Write [10%N]],
         inl (ValueError (u "No dialogue lines to produce.")))
  | _ :: _ =>
      outcome (produce (JArr lines) filename) = inr (output_file filename)
  end.
Proof.
  intros Hl Hlen Htts Hexport. destruct lines as [|line rest]; [done|].
  unfold Producer.produce. mstep.
  destruct (speak_ok limit (line :: rest) Hl Hlen Htts 0
              (length (line :: rest)) empty 0) as [combined Hc].
  assert (truthy float_is_zero (JArr (line :: rest)) = true) as -> by done.
  cbn [iter len]. mstep. rewrite Hc. mstep.
  rewrite outcome_extern, Hexport. by mstep.
Qed.

End ProducerFacts.

(** ** The clients and the command line *)

Section LazyFacts.

Import Clients AgentSpec.

Variable client : Type.
Variable key message : str.
Variable make : str → exn + client.

Local Abbreviation get := (get client key message make).

Lemma get_again (cached : option client) :
  get (get cached).2 = get cached.
Proof.
  unfold Clients.get. destruct cached as [c|]; [done|].
  destruct key; [done|]. by destruct (make _).
Qed.

(** X22.  The lazily created clients.  Each of the three getters returns the
    same on every call: with the key unset it raises its [RuntimeError]
    each time and creates nothing; otherwise the first call creates the
    client and every later call returns that client; a constructor that
    raised is tried again by the next call. *)
Theorem lazy_client_is_stable (n : nat) (cached : option client) :
  (gets get n cached).1 = replicate n (get cached).1
  ∧ (0 < n → (gets get n cached).2 = (get cached).2)
  ∧ (key = [] → get None = (inl (RuntimeError message), None))
  ∧ (∀ c, key ≠ [] → make key = inr c → get None = (inr c, Some c))
  ∧ (∀ c, get (Some c) = (inr c, Some c)).
Proof.
  split_and!.
  - revert cached. induction n as [|n IH]; intros cached; [done|].
    cbn [gets]. pose proof (get_again cached) as Hagain.
    destruct (get cached) as [r cached'] eqn:E. cbn [snd] in Hagain.
    specialize (IH cached'). destruct (gets get n cached') as [rs final].
    cbn [fst] in *. rewrite IH, Hagain. done.
  - revert cached. induction n as [|n IH]; intros cached Hn; [lia|].
    cbn [gets]. pose proof (get_again cached) as Hagain.
    destruct (get cached) as [r cached'] eqn:E. cbn [snd] in Hagain.
    destruct n as [|n]; [done|].
    specialize (IH cached' ltac:(lia)).
    destruct (gets get (S n) cached') as [rs final].
    cbn [snd] in *. by rewrite IH, Hagain.
  - intros ->. done.
  - intros c Hk Hm. unfold Clients.get. destruct key; [done|]. by rewrite Hm.
  - done.
Qed.

End LazyFacts.

Section GeminiFacts.

Import Clients AgentSpec.

Variable client : Type.
Variable GEMINI_API_KEY : str.
Variable Client : str → exn + client.
Variable generate_content : client → str → str → str → exn + option str.

Local Abbreviation _get_client := (_get_client client GEMINI_API_KEY Client).
Local Abbreviation call_flash :=
  (call_flash client GEMINI_API_KEY Client generate_content).
Local Abbreviation call_pro :=
  (call_pro client GEMINI_API_KEY Client generate_content).

Lemma call_state model system_prompt user_prompt cached :
  (call client GEMINI_API_KEY Client generate_content model system_prompt
     user_prompt cached).2 = (_get_client cached).2.
Proof.
  unfold call. destruct (_get_client cached) as [[e|c] cached']; [done|].
  by destruct (generate_content _ _ _ _).
Qed.

(** X23.  The calls of the model.  However many requests are served, each is
    answered as the first would be: with the key unset, or a constructor
    that raises, every [call_flash] and [call_pro] raises that error and no
    request is sent; otherwise every request goes to the one client, to the
    flash model for [call_flash] and to the pro model for [call_pro], and
    what is returned is the text of the response, or the empty string when
    the response has no text. *)
Theorem gemini_requests (rqs : list request) :
  (serve_all call_flash call_pro rqs None).1
  = (λ rq,
       match (_get_client None).1 with
       | inl e => inl e
       | inr c =>
           match rq with
           | Flash system_prompt user_prompt =>
               match generate_content c (u "gemini-3-flash-preview")
                       system_prompt user_prompt with
               | inl e => inl e
               | inr text => inr (text_or_empty text)
               end
           | Pro system_prompt user_prompt =>
               match generate_content c (u "gemini-3-pro-preview")
                       system_prompt user_prompt with
               | inl e => inl e
               | inr text => inr (text_or_empty text)
               end
           end
       end) <$> rqs
  ∧ (GEMINI_API_KEY = [] →
     (_get_client None).1 = inl (RuntimeError gemini_message)).
Proof.
  split; [|by intros ->].
  assert (Hgen : ∀ cached,
    _get_client cached = _get_client None ∨
    (∃ c, cached = Some c ∧ _get_client None = (inr c, Some c)) →
    (serve_all call_flash call_pro rqs cached).1
    = (λ rq,
       match (_get_client None).1 with
       | inl e => inl e
       | inr c =>
           match rq with
           | Flash system_prompt user_prompt =>
               match generate_content c (u "gemini-3-flash-preview")
                       system_prompt user_prompt with
               | inl e => inl e
               | inr text => inr (text_or_empty text)
               end
           | Pro system_prompt user_prompt =>
               match generate_content c (u "gemini-3-pro-preview")
                       system_prompt user_prompt with
               | inl e => inl e
               | inr text => inr (text_or_empty text)
               end
           end
       end) <$> rqs).
  { induction rqs as [|rq rest IH]; intros cached Hc; [done|].
    cbn [serve_all fmap list_fmap].
    assert (Hget : (_get_client cached).1 = (_get_client None).1
                   ∧ ((_get_client cached).2 = None
                        ∧ _get_client None = _get_client (_get_client cached).2
                      ∨ ∃ c, (_get_client cached).2 = Some c
                             ∧ _get_client None = (inr c, Some c))).
    { destruct Hc as [Hc|(c & -> & Hc)].
      - rewrite Hc. split; [done|].
        pose proof (get_again client GEMINI_API_KEY gemini_message Client None)
          as Hagain. fold _get_client in Hagain.
        destruct (_get_client None) as [r [c|]] eqn:E; cbn [snd] in *.
        + right. exists c. split; [done|].
          unfold Clients._get_client, get in E.
          destruct GEMINI_API_KEY; [done|]. destruct (Client _); by simplify_eq.
        + left. by rewrite E.
      - rewrite Hc. split; [done|]. right. by exists c. }
    destruct Hget as [Hr Hs].
    assert (Hserve : serve call_flash call_pro rq cached
                     = (match (_get_client None).1 with
                        | inl e => inl e
                        | inr c =>
                            match rq with
                            | Flash system_prompt user_prompt =>
                                match generate_content c
                                        (u "gemini-3-flash-preview")
                                        system_prompt user_prompt with
                                | inl e => inl e
                                | inr text => inr (text_or_empty text)
                                end
                            | Pro system_prompt user_prompt =>
                                match generate_content c
                                        (u "gemini-3-pro-preview")
                                        system_prompt user_prompt with
                                | inl e => inl e
                                | inr text => inr (text_or_empty text)
                                end
                            end
                        end, (_get_client cached).2)).
    { rewrite <- Hr. destruct rq as [sp up|sp up]; unfold serve;
        unfold Clients.call_flash, Clients.call_pro, call;
        fold _get_client;
        destruct (_get_client cached) as [[e|c] cached']; cbn [fst snd];
        try done; by destruct (generate_content _ _ _ _). }
    rewrite Hserve.
    specialize (IH (_get_client cached).2).
    destruct (serve_all call_flash call_pro rest (_get_client cached).2)
      as [rs final].
    cbn [fst] in *. f_equal. apply IH.
    destruct Hs as [[Hn Hg]|(c & Hsome & Hg)].
    - left. by rewrite Hn in Hg |- *.
    - right. by exists c. }
  apply Hgen. by left.
Qed.

End GeminiFacts.

Section MainFacts.

Import Orchestrator PyMore Main.

Variable run : str → M path.

(** X24.  The command line.  Without a topic [main] prints the two usage
    lines and exits with status 1, and the pipeline is not run.  With
    arguments, the topic is the arguments joined by single spaces; [main]
    prints what the pipeline prints, then the path of the podcast when the
    pipeline returned, or the message of the failure when it raised an
    instance of [Exception]; an exception of another class ([SystemExit],
    [KeyboardInterrupt]) passes without a message.  Whatever the pipeline
    raises, [main] raises the same. *)
Theorem main_runs_the_pipeline (argv : list str) :
  (length argv < 2 →
   main run argv
   = ([Write (u "Usage:  python main.py " ++ [34%N] ++ u "Your podcast topic"
              ++ [34%N]);
       Write [10%N];
       Write (u "Example:  python main.py " ++ [34%N]
              ++ u "The future of solid-state batteries" ++ [34%N]);
       Write [10%N]],
      inl (SystemExit 1)))
  ∧ (∀ prog arg args, argv = prog :: arg :: args →
       let topic := join (u " ") (arg :: args) in
       outcome (main run argv)
       = match outcome (run topic) with
         | inl e => inl e
         | inr _ => inr ()
         end
       ∧ events (main run argv)
         = events (run topic)
           ++ match outcome (run topic) with
              | inl e =>
                  if is_exception e then
                    [Write ([10%N] ++ u "❌  Pipeline failed: " ++ exn_msg e);
                     Write [10%N]]
                  else []
              | inr output_path =>
                  [Write ([10%N] ++ u "✅  Done! Your podcast is at: "
                          ++ path_str output_path);
                   Write [10%N]]
              end).
Proof.
  split.
  - intros H. destruct argv as [|prog [|arg args]]; [done|done|].
    simpl in H. lia.
  - intros prog arg args -> topic. unfold main. fold topic.
    destruct (run topic) as [es [e|p]]; [|by split].
    unfold catch, mbind, M_bind, bind, outcome, events. cbn [fst snd].
    cbv beta iota. destruct (is_exception e).
    + split; reflexivity.
    + split; [reflexivity|]. cbn [fst]. by rewrite app_nil_r.
Qed.

End MainFacts.

(** ** The pipeline with its agents *)

Section AgentWrites.

Import Scriptwriter Orchestrator Server ServerSpec PyMore.

Lemma clean_extern {A} (r : list str * (exn + A)) :
  Forall clean r.1 → Forall clean (writes (events (extern r))).
Proof. intros H. unfold extern, events. simpl. by rewrite writes_Write. Qed.

Lemma clean_raise {A} (e : exn) : Forall clean (writes (events (raise e : M A))).
Proof. constructor. Qed.

Ltac clean_next :=
  first
    [ apply clean_ret
    | apply clean_raise
    | apply clean_bind;
      [ first [ apply clean_print; apply strip_not_DONE; by vm_compute
              | apply clean_lift
              | apply clean_extern; by auto ]
      | intros ? _ ] ].

Section ResearcherWrites.

Import Researcher.

Variable py_repr : json → str.
Variable float_is_zero : str → bool.
Variable client : Type.
Variable _get_apify : exn + client.
Variable actor_call :
  client → str → json → nat → list str * (exn + option json).
Variable dataset_items : client → json → list str * (exn + list json).
Variable search : json → M (list str).

Hypothesis actor_call_clean : ∀ c a i t, Forall clean (actor_call c a i t).1.
Hypothesis dataset_items_clean : ∀ c d, Forall clean (dataset_items c d).1.
Hypothesis search_clean : ∀ q, Forall clean (writes (events (search q))).

Lemma clean_result_urls results : ∀ urls,
  Forall clean (writes (events (result_urls float_is_zero results urls))).
Proof.
  induction results as [|r results IH]; intros urls; cbn [result_urls].
  - apply clean_ret.
  - clean_next. apply IH.
Qed.

Lemma clean_item_urls dataset : ∀ urls,
  Forall clean (writes (events (item_urls float_is_zero dataset urls))).
Proof.
  induction dataset as [|item dataset IH]; intros urls; cbn [item_urls].
  - apply clean_ret.
  - do 3 clean_next.
    apply clean_bind; [apply clean_result_urls|intros ? _]. apply IH.
Qed.

Lemma clean_search_google query :
  Forall clean
    (writes (events (_search_google py_repr float_is_zero client _get_apify
                       actor_call dataset_items query))).
Proof using actor_call_clean dataset_items_clean.
  unfold _search_google. do 3 clean_next.
  match goal with |- context [match ?r with Some _ => _ | None => _ end] =>
    destruct r
  end; repeat clean_next.
  apply clean_bind; [apply clean_item_urls|intros ? _].
  repeat clean_next.
Qed.

Lemma clean_crawl_record item :
  Forall clean (writes (events (crawl_record float_is_zero item))).
Proof.
  unfold crawl_record. clean_next.
  apply clean_bind.
  { destruct (truthy _ _); [apply clean_ret|]. clean_next.
    destruct (truthy _ _); apply clean_ret. }
  intros ? _. clean_next.
  apply clean_bind.
  { destruct (_ <? _); repeat clean_next. apply clean_lift. }
  intros ? _. repeat clean_next.
Qed.

Lemma clean_crawl_records dataset : ∀ results,
  Forall clean (writes (events (crawl_records float_is_zero dataset results))).
Proof.
  induction dataset as [|item dataset IH]; intros results; cbn [crawl_records].
  - apply clean_ret.
  - apply clean_bind; [apply clean_crawl_record|intros ? _]. apply IH.
Qed.

Lemma clean_crawl_urls urls :
  Forall clean
    (writes (events (_crawl_urls float_is_zero client _get_apify actor_call
                       dataset_items urls))).
Proof using actor_call_clean dataset_items_clean.
  unfold _crawl_urls. destruct urls as [|url urls]; [apply clean_ret|].
  apply clean_bind.
  { apply clean_print, strip_not_DONE. by vm_compute. }
  intros ? _. do 2 clean_next.
  match goal with |- context [match ?r with Some _ => _ | None => _ end] =>
    destruct r
  end; repeat clean_next.
  apply clean_bind; [apply clean_crawl_records|intros ? _].
  repeat clean_next.
Qed.

Lemma clean_gather queries : ∀ seen all_urls,
  Forall clean (writes (events (gather search queries seen all_urls))).
Proof using search_clean.
  induction queries as [|q queries IH]; intros seen all_urls; cbn [gather].
  - apply clean_ret.
  - apply clean_bind; [apply search_clean|intros urls _].
    destruct (add_urls urls seen all_urls). apply IH.
Qed.

Lemma clean_sum_text_len results :
  Forall clean (writes (events (sum_text_len results))).
Proof.
  induction results as [|r results IH]; cbn [sum_text_len].
  - apply clean_ret.
  - do 2 clean_next. apply clean_bind; [apply IH|intros ? _]. apply clean_ret.
Qed.

Lemma clean_research queries :
  Forall clean
    (writes (events (research float_is_zero client _get_apify actor_call
                       dataset_items search queries))).
Proof using All.
  unfold research. do 2 clean_next.
  apply clean_bind; [apply clean_gather|intros ? _].
  clean_next.
  apply clean_bind; [apply clean_crawl_urls|intros ? _].
  apply clean_bind; [apply clean_sum_text_len|intros ? _].
  repeat clean_next.
Qed.

End ResearcherWrites.

Section SummarizerWrites.

Import Summarizer.

Variable py_str : json → str.
Variable call_pro : str → str → list str * (exn + str).
Variable _SYSTEM_PROMPT : str.

Hypothesis call_pro_clean : ∀ a b, Forall clean (call_pro a b).1.

Lemma clean_format_parts research_data : ∀ i parts,
  Forall clean (writes (events (format_parts py_str i research_data parts))).
Proof.
  induction research_data as [|item rest IH]; intros i parts;
    cbn [format_parts].
  - apply clean_ret.
  - do 3 clean_next. apply IH.
Qed.

Lemma clean_summarise topic research_data :
  Forall clean
    (writes (events (summarise py_str call_pro _SYSTEM_PROMPT topic
                       research_data))).
Proof using All.
  unfold summarise. clean_next.
  destruct research_data as [|item rest]; [by repeat clean_next|].
  apply clean_bind.
  { unfold _format_research.
    apply clean_bind; [apply clean_format_parts|intros ? _]. apply clean_ret. }
  intros ? _. repeat clean_next.
Qed.

End SummarizerWrites.

Section ProducerWrites.

Import Producer.

Variable py_str : json → str.
Variable float_is_zero : str → bool.
Variable audio : Type.
Variable silent : nat → audio.
Variable empty : audio.
Variable audio_add : audio → audio → audio.
Variable audio_len : audio → nat.
Variable _generate_speech : json → str → list str * (exn + audio).
Variable export : audio → str → list str * (exn + ()).
Variable output_file : str → path.
Variable format_secs : nat → str.

Hypothesis speech_clean : ∀ t v, Forall clean (_generate_speech t v).1.
Hypothesis export_clean : ∀ a p, Forall clean (export a p).1.

Lemma clean_speak n lines : ∀ i combined total,
  Forall clean
    (writes (events (speak py_str audio silent audio_add _generate_speech
                       i n lines combined total))).
Proof using speech_clean.
  induction lines as [|line lines IH]; intros i combined total; cbn [speak].
  - apply clean_ret.
  - do 5 clean_next.
    apply clean_bind.
    { apply clean_print, strip_not_DONE. by vm_compute. }
    intros ? _. clean_next. apply IH.
Qed.

Lemma clean_produce dialogue filename :
  Forall clean
    (writes (events (produce py_str float_is_zero audio silent empty audio_add
                       audio_len _generate_speech export output_file
                       format_secs dialogue filename))).
Proof using All.
  unfold produce. clean_next.
  destruct (truthy _ _); [|apply clean_raise].
  do 2 clean_next.
  apply clean_bind; [apply clean_speak|intros [combined total] _].
  repeat clean_next.
Qed.

End ProducerWrites.

End AgentWrites.

Section LinkedFacts.

Import Scriptwriter Orchestrator Server ServerSpec PyMore ServedSpec.

Variable limits : str → option exn.
Variable py_str : json → str.
Variable float_is_zero : str → bool.
Variable call_flash : str → str → list str * (exn + str).
Variable call_pro : str → str → list str * (exn + str).
Variable _QUERY_SYSTEM_PROMPT : str.
Variable summarizer_prompt : str.
Variable scriptwriter_prompt : str.
Variable search : json → M (list str).
Variable client : Type.
Variable _get_apify : exn + client.
Variable actor_call :
  client → str → json → nat → list str * (exn + option json).
Variable dataset_items : client → json → list str * (exn + list json).
Variable audio : Type.
Variable silent : nat → audio.
Variable empty : audio.
Variable audio_add : audio → audio → audio.
Variable audio_len : audio → nat.
Variable _generate_speech : json → str → list str * (exn + audio).
Variable export : audio → str → list str * (exn + ()).
Variable output_file : str → path.
Variable format_secs : nat → str.

Local Abbreviation run :=
  (Linked.run limits py_str float_is_zero call_flash call_pro
     _QUERY_SYSTEM_PROMPT summarizer_prompt scriptwriter_prompt search client
     _get_apify actor_call dataset_items audio silent empty audio_add
     audio_len _generate_speech export output_file format_secs).

Lemma linked_run_returns (topic : str) (p : path) :
  outcome (run topic) = inr p → p = output_file (u "podcast.mp3").
Proof.
  intros H. unfold Linked.run, Orchestrator.run in H.
  do 11 (apply outcome_bind_inr in H as (? & _ & H)).
  apply outcome_bind_inr in H as (research_data & _ & H).
  destruct research_data as [|record research_data].
  { apply outcome_bind_inr in H as (? & _ & H). done. }
  do 2 (apply outcome_bind_inr in H as (? & _ & H)).
  apply outcome_bind_inr in H as (output_path & Hp & H).
  do 3 (apply outcome_bind_inr in H as (? & _ & H)).
  injection H as <-.
  unfold invoke, stage_of, outcome in Hp. cbn [snd] in Hp.
  by apply produce_returns in Hp.
Qed.

Lemma submit_and_run_ends s topic_field j (c : M path) :
  strip topic_field ≠ [] →
  ∃ s', exec (submit_and_run topic_field j c) s = Some s'
        ∧ _JOBS s' !! j = Some (final_job (outcome c))
        ∧ runners s' !! j = Some InFinally.
Proof.
  intros Ht.
  assert (Hstep : step (Submit topic_field j c) s
                  = Some (generate topic_field j c s).2) by done.
  assert (Hr : runners (generate topic_field j c s).2 !! j
               = Some (Running (writes (events c)) (outcome c))
             ∧ _JOBS (generate topic_field j c s).2 !! j
               = Some (Job running None None)).
  { unfold generate. destruct (strip topic_field); [done|].
    simpl. by rewrite !lookup_insert_eq. }
  destruct Hr as [Hr Hj].
  destruct (runner_reaches_finally _ _ _ _ _ Hr Hj) as (s' & Hex & H1 & H2).
  exists s'. split; [|split; [|done]].
  - unfold submit_and_run. cbn [exec]. rewrite Hstep. exact Hex.
  - by rewrite H1.
Qed.

(** X25.  The result of a served job.  A request with a topic that is not
    blank, followed by the thread of its job running the pipeline of the
    repository to the end, leaves the job with the status "done", as result
    the name of the path the producer made of "podcast.mp3", and no error
    when the pipeline returned, whatever the topic and the job; with the
    status "error", no result and the message of the exception when it
    raised an instance of [Exception]; and with the status "running", no
    result and no error when it raised another exception. *)
Theorem served_job_result (s : state) (topic_field job_id : str) :
  strip topic_field ≠ [] →
  ∃ s',
    exec (submit_and_run topic_field job_id (run (strip topic_field))) s
    = Some s'
    ∧ runners s' !! job_id = Some InFinally
    ∧ _JOBS s' !! job_id
      = Some (match outcome (run (strip topic_field)) with
              | inr _ =>
                  Job done (Some (name (output_file (u "podcast.mp3")))) None
              | inl e =>
                  if is_exception e
                  then Job failed None (Some (exn_msg e))
                  else Job running None None
              end).
Proof.
  intros Ht.
  destruct (submit_and_run_ends s topic_field job_id
              (run (strip topic_field)) Ht) as (s' & Hex & H1 & H2).
  exists s'. split_and!; try done.
  rewrite H1. unfold final_job.
  destruct (outcome (run (strip topic_field))) as [e|p] eqn:E; [done|].
  by rewrite (linked_run_returns _ _ E).
Qed.

Section Clean.

Hypothesis call_flash_clean : ∀ a b, Forall clean (call_flash a b).1.
Hypothesis call_pro_clean : ∀ a b, Forall clean (call_pro a b).1.
Hypothesis search_clean : ∀ q, Forall clean (writes (events (search q))).
Hypothesis actor_call_clean : ∀ c a i t, Forall clean (actor_call c a i t).1.
Hypothesis dataset_items_clean : ∀ c d, Forall clean (dataset_items c d).1.
Hypothesis speech_clean : ∀ t v, Forall clean (_generate_speech t v).1.
Hypothesis export_clean : ∀ a p, Forall clean (export a p).1.

Lemma linked_run_clean (topic : str) :
  Forall clean (writes (events (run topic))).
Proof using All.
  apply run_writes_clean; [done|..]; intros; unfold stage_of; cbn [fst].
  - by apply clean_research.
  - by apply clean_summarise.
  - by apply write_script_writes_clean.
  - by apply clean_produce.
Qed.

End Clean.

(** X26.  The pipeline never prints the sentinel.  As long as the services it
    calls (the models, the search, the crawler, the speech synthesis and
    the export) print no text that strips to [__DONE__], nothing that a run
    of the pipeline writes does: every line of the four agents and of the
    orchestrator begins, after its white space, with another character.
    The same holds of [_search_google], whose lines are the ones the search
    adds to those of the actor and of the dataset. *)
Theorem pipeline_never_prints_sentinel (topic text : str) :
  (∀ a b, Forall clean (call_flash a b).1) →
  (∀ a b, Forall clean (call_pro a b).1) →
  (∀ q, Forall clean (writes (events (search q)))) →
  (∀ c a i t, Forall clean (actor_call c a i t).1) →
  (∀ c d, Forall clean (dataset_items c d).1) →
  (∀ t v, Forall clean (_generate_speech t v).1) →
  (∀ a p, Forall clean (export a p).1) →
  (text ∈ writes (events (run topic)) → strip text ≠ DONE)
  ∧ (∀ py_repr query,
       text ∈ writes (events (Researcher._search_google py_repr float_is_zero
                                client _get_apify actor_call dataset_items
                                query)) →
       strip text ≠ DONE).
Proof using Type.
  intros H1 H2 H3 H4 H5 H6 H7. split.
  - intros Hin.
    pose proof (linked_run_clean H1 H2 H3 H4 H5 H6 H7 topic) as Hc.
    rewrite Forall_forall in Hc. by apply Hc.
  - intros py_repr query Hin.
    pose proof (clean_search_google py_repr float_is_zero client _get_apify
                  actor_call dataset_items H4 H5 query) as Hc.
    rewrite Forall_forall in Hc. by apply Hc.
Qed.

(** X27.  The end of a stream of the server.  When every submission runs the
    pipeline of the repository, its services print no sentinel and no
    identifier is drawn twice, a [complete] event is only ever sent after
    the thread of the job has exited, it reports the entry of the job as it
    is, and the entry does not change along any further execution in which
    no identifier is drawn twice. *)
Theorem served_complete_is_final (tr : list label) (s : state) (st : stream)
    (a : str) (r e : option str) :
  (∀ a b, Forall clean (call_flash a b).1) →
  (∀ a b, Forall clean (call_pro a b).1) →
  (∀ q, Forall clean (writes (events (search q)))) →
  (∀ c a i t, Forall clean (actor_call c a i t).1) →
  (∀ c d, Forall clean (dataset_items c d).1) →
  (∀ t v, Forall clean (_generate_speech t v).1) →
  (∀ a p, Forall clean (export a p).1) →
  Forall (serves run) tr →
  exec tr init = Some s → drawn_once s →
  st ∈ streams s → Complete a r e ∈ sent st →
  runners s !! stream_job st = Some Exited
  ∧ _JOBS s !! stream_job st = Some (Job a r e)
  ∧ ∀ tr' s', exec tr' s = Some s' → drawn_once s' →
      _JOBS s' !! stream_job st = Some (Job a r e).
Proof using Type.
  intros H1 H2 H3 H4 H5 H6 H7 Htr Hex Hf Hst Hsent.
  assert (Hclean : writes_no_sentinel tr).
  { eapply Forall_impl; [exact Htr|]. intros [tf j c| | | |]; simpl; try done.
    intros ->. by apply linked_run_clean. }
  pose proof (exec_clean _ _ _ pristine_init clean_init Hclean Hex Hf)
    as (_ & _ & Hfinal).
  rewrite Forall_forall in Hfinal.
  destruct (Hfinal st Hst a r e Hsent) as [Hexit Hjob].
  split_and!; try done.
  intros tr' s' Hex' Hf'.
  pose proof (exec_pristine _ _ _ pristine_init Hex Hf) as Hp.
  destruct (exec_exited _ _ _ _ Hp Hexit Hex' Hf') as [_ Hsame].
  by rewrite Hsame.
Qed.

End LinkedFacts.
(** ** The properties at examples *)

Section ServerExamples.

Import Orchestrator Server ServerSpec ChannelSpec Examples MoreExamples.

Lemma channel_capacity_witness : length [u "hello"] ≤ maxsize.
Proof.
  apply (channel_capacity (final two_jobs) jobB [u "hello"]).
  - exists two_jobs. vm_compute. reflexivity.
  - vm_compute. reflexivity.
Defined.


Lemma stream_relays_in_order_witness :
  ∃ st' new, streams (final relay_one) !! 0 = Some st'
    ∧ sent st' = sent (Stream jobA Created []) ++ new
    ∧ log_messages new
        `sublist_of`
        ([] ++ offered (stream_job (Stream jobA Created []))
                 (drop 2 relay_one) (final (take 2 relay_one))).
Proof.
  apply (stream_relays_in_order (final (take 2 relay_one)) (final relay_one)
           (drop 2 relay_one) 0 (Stream jobA Created []) []).
  - exists (take 2 relay_one). vm_compute. reflexivity.
  - vm_compute. reflexivity.
  - vm_compute. reflexivity.
  - vm_compute. reflexivity.
  - intros k. discriminate.
Defined.

Lemma stream_ends_with_complete_witness :
  is_Some (_status_queues (final finish_and_stream) !! jobA)
  ∧ (Ended = Ended
     ↔ ∃ before a r e,
         [Complete done (Some (u "podcast.mp3")) None]
         = before ++ [Complete a r e]).
Proof.
  apply (stream_ends_with_complete (final finish_and_stream)
           (Stream jobA Ended [Complete done (Some (u "podcast.mp3")) None])).
  - exists finish_and_stream. vm_compute. reflexivity.
  - vm_compute. apply list_elem_of_here.
Defined.

Lemma known_job_stays_known_witness :
  is_Some (_status_queues (final (take 1 relay_one)) !! jobA)
  ∧ is_Some (_JOBS (final relay_one) !! jobA)
  ∧ is_Some (_status_queues (final relay_one) !! jobA)
  ∧ (status_stream jobA (final relay_one)).1 = EventStream.
Proof.
  apply (known_job_stays_known (final (take 1 relay_one)) (final relay_one)
           (drop 1 relay_one) jobA).
  - exists (take 1 relay_one). vm_compute. reflexivity.
  - vm_compute. reflexivity.
  - vm_compute. eauto.
Defined.

End ServerExamples.

Section ScriptExamples.

Import Scriptwriter Budget LineSpec.

Lemma validate_idempotent_witness :
  ∃ out, outcome (validate (λ _, []) 15 10 example_records) = inr out
         ∧ outcome (validate (λ _, []) 15 10 out) = inr out.
Proof.
  apply (validate_idempotent (λ _, []) 15 10 example_records).
  repeat constructor.
Defined.

Lemma validate_within_budget_witness :
  outcome (validate (λ _, []) 15 10 [record (u "short")])
  = inr [record (u "short")]
  ∧ writes (events (validate (λ _, []) 15 10 [record (u "short")]))
    = [u "  📊  Script: " ++ str_of_nat (length [record (u "short")])
       ++ u " lines, "
       ++ str_of_nat_comma (total_len [record (u "short")])
       ++ u " total characters";
       [10%N]].
Proof.
  apply (validate_within_budget (λ _, []) 15 10 [record (u "short")]).
  - repeat constructor.
  - constructor; [vm_compute; lia|constructor].
  - vm_compute. lia.
Defined.

Lemma validate_keeps_fields_witness :
  ∃ r, example_records !! 0 = Some r
       ∧ text_of (record (u "0123456789")) = take 10 (text_of r)
       ∧ (fields (record (u "0123456789"))).*1 = (fields r).*1
       ∧ ∀ k, k ≠ u "text" →
           dict_get k (fields (record (u "0123456789")))
           = dict_get k (fields r).
Proof.
  apply (validate_keeps_fields (λ _, []) 15 10 example_records
           [record (u "0123456789"); record (u "short")] 0
           (record (u "0123456789"))).
  - repeat constructor.
  - vm_compute. reflexivity.
  - reflexivity.
Defined.

Lemma validate_keeps_first_witness :
  ∃ out, outcome (validate (λ _, []) 15 10 example_records)
         = inr (truncate_record 10 (record (u "0123456789ABC")) :: out).
Proof.
  apply (validate_keeps_first (λ _, []) 15 10 (record (u "0123456789ABC"))
           [record (u "short")]).
  - repeat constructor.
  - lia.
Defined.

Lemma validate_rejects_non_dict_witness :
  outcome (validate (λ _, []) 15 10
             ([record (u "short")] ++ JStr (u "oops") :: []))
  = inl (AttributeError
           (u "'" ++ type_name (JStr (u "oops"))
            ++ u "' object has no attribute 'get'")).
Proof.
  apply (validate_rejects_non_dict (λ _, []) 15 10 [record (u "short")] []
           (JStr (u "oops"))).
  - repeat constructor.
  - intros d. discriminate.
Defined.

Lemma validate_missing_text_witness :
  outcome (validate (λ _, []) 15 10 Services.missing_text)
  = inl (KeyError (u "text")).
Proof.
  refine (proj2 (validate_missing_text (λ _, []) 15 10 Services.missing_text _)
            [record (u "0123456789ABC")] [(u "speaker", JStr (u "Host"))]
            [record (u "0123456789")] _ _ _ _ _).
  - repeat constructor.
  - reflexivity.
  - repeat constructor.
  - reflexivity.
  - vm_compute. lia.
  - vm_compute. lia.
Defined.

Lemma write_script_within_budget_witness :
  ∃ dialogue,
    outcome (write_script Services.py_str Config.MAX_SCRIPT_CHARS
               Config.MAX_CHARS_PER_LINE ExtractSpec.no_limits
               Services.call_model [] [] [])
    = inr (JArr dialogue)
    ∧ Forall (λ r, text_len r ≤ Config.MAX_CHARS_PER_LINE) dialogue
    ∧ total_len dialogue ≤ Config.MAX_SCRIPT_CHARS
    ∧ ([Services.welcome] ≠ [] → dialogue ≠ []).
Proof.
  pose proof (write_script_within_budget Services.py_str
                ExtractSpec.no_limits Services.call_model [] [] []) as H.
  cbv zeta in H. unfold Services.call_model in H. cbn [snd] in H.
  assert (E : _extract_json ExtractSpec.no_limits Services.script
              = inr (JArr [Services.welcome]))
    by (vm_compute; reflexivity).
  rewrite E in H. destruct H as (items & [= <-] & H).
  apply H. repeat constructor.
Defined.

Lemma extractors_return_lists_witness :
  ∃ items, JArr [Services.welcome] = JArr items.
Proof.
  apply (extractors_return_lists ExtractSpec.no_limits Services.py_str
           Services.script (JArr [Services.welcome])).
  left. vm_compute. reflexivity.
Defined.

End ScriptExamples.

Section AgentExamples.

Import Scriptwriter Orchestrator PyMore AgentSpec Services.

Lemma research_crawls_first_occurrences_witness :
  outcome (Researcher.gather search [JStr (u "q1"); JStr (u "q2")] ∅ [])
  = inr (first_occurrences
           (concat [[u "https://example.org/a"]; [u "https://example.org/a"]])).
Proof.
  refine (proj1 (research_crawls_first_occurrences float_is_zero () (inr ())
                   actor_call dataset_items search
                   [JStr (u "q1"); JStr (u "q2")]
                   [[u "https://example.org/a"]; [u "https://example.org/a"]]
                   _)).
  repeat constructor.
Defined.

Lemma crawl_results_witness :
  Researcher._crawl_urls float_is_zero () (inr ()) actor_call dataset_items []
  = ([], inr [])
  ∧ Forall is_research_record [page]
  ∧ ∃ formatted,
      Summarizer._format_research py_str [page] = ([], inr formatted).
Proof.
  apply (crawl_results py_str float_is_zero () (inr ()) actor_call
           dataset_items [u "https://example.org/a"] [page]).
  vm_compute. reflexivity.
Defined.

Lemma format_research_keys_witness :
  Summarizer._format_research py_str
    [page; JObj [(u "url", JStr (u "https://example.org/b"))]]
  = ([], inl (KeyError (u "title"))).
Proof.
  refine (proj2 (format_research_keys py_str _) [page]
            [(u "url", JStr (u "https://example.org/b"))] [] (u "title")
            _ _ _).
  - reflexivity.
  - constructor; [|constructor]. eexists. split; [reflexivity|].
    vm_compute. repeat split; eexists; reflexivity.
  - reflexivity.
Defined.

Lemma summarise_calls_model_witness :
  outcome (Summarizer.summarise py_str call_model [] Examples.topic [])
  = inr [].
Proof.
  pose proof (summarise_calls_model py_str call_model [] Examples.topic [])
    as H.
  cbv zeta in H. destruct H as (H & _ & _). by apply H.
Defined.

Lemma search_results_witness :
  Forall (λ url, truthy float_is_zero url = true)
    [JStr (u "https://example.org/a")].
Proof.
  refine (proj1 (search_results py_str float_is_zero () (inr ()) actor_call
                   dataset_items (JStr (u "q"))
                   [JStr (u "https://example.org/a")] _)).
  vm_compute. reflexivity.
Defined.

Lemma produce_speaks_validated_witness :
  outcome (Producer.produce py_str float_is_zero nat (λ ms, ms) 0 Nat.add
             (λ a, a) _generate_speech export output_file format_secs
             (JArr [welcome]) (u "podcast.mp3"))
  = inr (output_file (u "podcast.mp3")).
Proof.
  apply (produce_speaks_validated py_str float_is_zero nat (λ ms, ms) 0
           Nat.add (λ a, a) _generate_speech export output_file format_secs
           10 [welcome] (u "podcast.mp3")).
  - repeat constructor. eexists _, _. split; [reflexivity|]. by vm_compute.
  - constructor; [vm_compute; lia|constructor].
  - intros text voice_id _. by exists 1000.
  - reflexivity.
Defined.

Lemma lazy_client_is_stable_witness :
  Clients.get () [] Clients.apify_message (λ _, inr ()) None
  = (inl (RuntimeError Clients.apify_message), None).
Proof.
  destruct (lazy_client_is_stable () [] Clients.apify_message (λ _, inr ())
              0 None) as (_ & _ & H & _).
  by apply H.
Defined.

Lemma gemini_requests_witness :
  (Clients._get_client () [] (λ _, inr ()) None).1
  = inl (RuntimeError Clients.gemini_message).
Proof.
  refine (proj2 (gemini_requests () [] (λ _, inr ())
                   (λ _ _ _ _, inr None) []) _).
  reflexivity.
Defined.

Lemma main_runs_the_pipeline_witness :
  outcome (Main.main run [u "main.py"]) = inl (Main.SystemExit 1)
  ∧ outcome (Main.main MoreExamples.failing_run
               [u "main.py"; u "solid-state"; u "batteries"])
    = inl (RuntimeError (u "quota exceeded"))
  ∧ events (Main.main MoreExamples.failing_run
              [u "main.py"; u "solid-state"; u "batteries"])
    = [Write (join (u " ") [u "solid-state"; u "batteries"])]
      ++ [Write ([10%N] ++ u "❌  Pipeline failed: " ++ u "quota exceeded");
          Write [10%N]].
Proof.
  split.
  - destruct (main_runs_the_pipeline run [u "main.py"]) as [H _].
    rewrite H; [reflexivity|]. simpl. lia.
  - destruct (main_runs_the_pipeline MoreExamples.failing_run
                [u "main.py"; u "solid-state"; u "batteries"]) as [_ H].
    exact (H (u "main.py") (u "solid-state") [u "batteries"] eq_refl).
Defined.

End AgentExamples.

Section ServedExamples.

Import Scriptwriter Orchestrator Server ServerSpec ServedSpec Examples.
Import Services.

Lemma served_job_result_witness :
  ∃ s',
    exec (submit_and_run topic jobA (run (strip topic))) init = Some s'
    ∧ runners s' !! jobA = Some InFinally
    ∧ _JOBS s' !! jobA
      = Some (match outcome (run (strip topic)) with
              | inr _ =>
                  Job done (Some (name (output_file (u "podcast.mp3")))) None
              | inl e =>
                  if is_exception e
                  then Job failed None (Some (exn_msg e))
                  else Job running None None
              end).
Proof.
  apply (served_job_result ExtractSpec.no_limits py_str float_is_zero
           call_model call_model [] [] [] search () (inr ()) actor_call
           dataset_items nat (λ ms, ms) 0 Nat.add (λ a, a) _generate_speech
           export output_file format_secs init topic jobA).
  by vm_compute.
Defined.

Lemma pipeline_never_prints_sentinel_witness :
  strip (times (u "=") 60) ≠ DONE.
Proof.
  refine (proj1 (pipeline_never_prints_sentinel ExtractSpec.no_limits py_str
                   float_is_zero call_model call_model [] [] [] search ()
                   (inr ()) actor_call dataset_items nat (λ ms, ms) 0 Nat.add
                   (λ a, a) _generate_speech export output_file format_secs
                   topic (times (u "=") 60)
                   _ _ _ _ _ _ _) _); intros; by constructor.
Defined.

Lemma served_complete_is_final_witness :
  runners (final served) !! stream_job served_stream = Some Exited
  ∧ _JOBS (final served) !! stream_job served_stream
    = Some (Job done (Some (u "podcast.mp3")) None)
  ∧ ∀ tr' s', exec tr' (final served) = Some s' → drawn_once s' →
      _JOBS s' !! stream_job served_stream
      = Some (Job done (Some (u "podcast.mp3")) None).
Proof.
  apply (served_complete_is_final ExtractSpec.no_limits py_str float_is_zero
           call_model call_model [] [] [] search () (inr ()) actor_call
           dataset_items nat (λ ms, ms) 0 Nat.add (λ a, a) _generate_speech
           export output_file format_secs served (final served)
           served_stream done (Some (u "podcast.mp3")) None).
  - intros. constructor.
  - intros. constructor.
  - intros. constructor.
  - intros. constructor.
  - intros. constructor.
  - intros. constructor.
  - intros. constructor.
  - unfold served. constructor; [reflexivity|].
    apply Forall_app. split; [apply Forall_replicate; exact I|].
    constructor; [exact I|]. apply Forall_replicate. exact I.
  - vm_compute. reflexivity.
  - vm_compute. reflexivity.
  - apply (list_elem_of_lookup_2 _ 0). vm_compute. reflexivity.
  - apply (list_elem_of_lookup_2 _ 27). vm_compute. reflexivity.
Defined.

End ServedExamples.

